(** * AsmJSModule: linker, symbol index and cache codec of a compiled asm.js module

    A shallow embedding of [js/src/jit/AsmJSModule.cpp].  Machine integers are
    [Z] with their wrap-around written out, the address space is a flat map
    from addresses to bytes, vectors are lists, nullable pointers are [0] or
    [option].  Each definition names the source function it embeds. *)

From Stdlib Require Import ZArith List Lia Bool Arith Relations.
Import ListNotations.

Local Open Scope Z_scope.

(** ** Machine integers and the address space *)

Definition byte := Z.

(** Conversion to [uint32_t]. *)
Definition uint32 (z : Z) : Z := z mod 2 ^ 32.

(** Conversion to [uint8_t]. *)
Definition uint8 (z : Z) : Z := z mod 2 ^ 8.

(** The process address space: the byte stored at each address. *)
Definition Memory := Z -> byte.

(** ** Code ranges and call sites (AsmJSModule::CodeRange, jit::CallSite) *)

Module CodeRange.

(** [AsmJSModule::CodeRange::Kind], the kinds the source names. *)
Inductive Kind := Function | Entry | Inline | Thunk.

Definition Kind_eqb (a b : Kind) : bool :=
  match a, b with
  | Function, Function | Entry, Entry | Inline, Inline | Thunk, Thunk => true
  | _, _ => false
  end.

(** The members of [AsmJSModule::CodeRange]; the union [u] is flattened. *)
Record t := mk {
  nameIndex_ : Z;
  lineNumber_ : Z;
  begin_ : Z;
  profilingReturn_ : Z;
  end_ : Z;
  kind_ : Kind;
  beginToEntry_ : Z;
  profilingJumpToProfilingReturn_ : Z;
  profilingEpilogueToProfilingReturn_ : Z;
  target_ : Z
}.

Definition isFunction (r : t) : bool := Kind_eqb (kind_ r) Function.
Definition isThunk (r : t) : bool := Kind_eqb (kind_ r) Thunk.

(** The accessors undo [setDeltas]: [beginToEntry_ = entry - begin_],
    [profilingJumpToProfilingReturn_ = profilingReturn_ - profilingJump],
    [profilingEpilogueToProfilingReturn_ = profilingReturn_ - profilingEpilogue]. *)
Definition entry (r : t) : Z := begin_ r + beginToEntry_ r.
Definition profilingJump (r : t) : Z :=
  profilingReturn_ r - profilingJumpToProfilingReturn_ r.
Definition profilingEpilogue (r : t) : Z :=
  profilingReturn_ r - profilingEpilogueToProfilingReturn_ r.

(** [AsmJSModule::CodeRange::setDeltas]; the three deltas are [uint8_t]. *)
Definition setDeltas (r : t) (entry profilingJump profilingEpilogue : Z) : t :=
  mk (nameIndex_ r) (lineNumber_ r) (begin_ r) (profilingReturn_ r) (end_ r)
     (kind_ r)
     (uint8 (entry - begin_ r))
     (uint8 (profilingReturn_ r - profilingJump))
     (uint8 (profilingReturn_ r - profilingEpilogue))
     (target_ r).

(** [AsmJSModule::CodeRange::updateOffsets], with [masm.actualOffset]. *)
Definition updateOffsets (actualOffset : Z -> Z) (r : t) : t :=
  let entryBefore := entry r in
  let profilingJumpBefore := profilingJump r in
  let profilingEpilogueBefore := profilingEpilogue r in
  let r' := mk (nameIndex_ r) (lineNumber_ r) (actualOffset (begin_ r))
               (actualOffset (profilingReturn_ r)) (actualOffset (end_ r))
               (kind_ r) (beginToEntry_ r)
               (profilingJumpToProfilingReturn_ r)
               (profilingEpilogueToProfilingReturn_ r) (target_ r) in
  if isFunction r
  then setDeltas r' (actualOffset entryBefore)
                    (actualOffset profilingJumpBefore)
                    (actualOffset profilingEpilogueBefore)
  else r'.

(** [operator==(size_t pcOffset, const CodeRange &rhs)] *)
Definition pc_eq (pcOffset : Z) (rhs : t) : bool :=
  (begin_ rhs <=? pcOffset) && (pcOffset <? end_ rhs).

(** [operator<(size_t pcOffset, const CodeRange &rhs)] *)
Definition pc_lt (pcOffset : Z) (rhs : t) : bool :=
  pcOffset <? begin_ rhs.

(** [operator<=(const CodeRange &lhs, const CodeRange &rhs)] *)
Definition le (lhs rhs : t) : bool := begin_ lhs <=? begin_ rhs.

End CodeRange.

Module CallSite.

(** [CallSiteDesc::Kind]: [Relative] is the one the source tests for. *)
Inductive Kind := Relative | External.

Definition Kind_eqb (a b : Kind) : bool :=
  match a, b with
  | Relative, Relative | External, External => true
  | _, _ => false
  end.

Record t := mk {
  returnAddressOffset_ : Z;
  kind_ : Kind
}.

End CallSite.

(** ** mozilla::BinarySearch *)

Section BinarySearch.

Context {C T : Type}.
(** [target == c[middle]] and [target < c[middle]], found by overloading. *)
Variable target_eq : T -> C -> bool.
Variable target_lt : T -> C -> bool.

(** The loop [while (low != high)].  Each round strictly decreases
    [high - low], which is the first argument. *)
Fixpoint BinarySearch_loop (n : nat) (c : list C) (low high : nat) (target : T)
  : bool * nat :=
  match n with
  | O => (false, low)
  | S n' =>
      if Nat.eqb low high then (false, low)
      else
        let middle := (low + (high - low) / 2)%nat in
        match nth_error c middle with
        | None => (false, low)
        | Some middleValue =>
            if target_eq target middleValue then (true, middle)
            else if target_lt target middleValue
                 then BinarySearch_loop n' c low middle target
                 else BinarySearch_loop n' c (middle + 1)%nat high target
        end
  end.

(** Modelled from the spec: [mozilla::BinarySearch] (mfbt/BinarySearch.h) is
    not among the sources; this is the binary search over
    [c[begin..end)] that the lookups "binary-search the respective sorted
    table" with, halving at [low + (high - low) / 2] and comparing with the
    [==] and [<] the caller's element type provides.  The pair is the
    boolean result and [*matchOrInsertionPoint]. *)
Definition BinarySearch (c : list C) (begin_ end_ : nat) (target : T)
  : bool * nat :=
  BinarySearch_loop (end_ - begin_) c begin_ end_ target.

End BinarySearch.


(** ** Raw memory (memcpy) *)

Definition store_byte (m : Memory) (a : Z) (v : byte) : Memory :=
  fun x => if x =? a then v else m x.

Fixpoint store_bytes (m : Memory) (a : Z) (bs : list byte) : Memory :=
  match bs with
  | [] => m
  | b :: bs' => store_bytes (store_byte m a b) (a + 1) bs'
  end.

Definition load_bytes (m : Memory) (a : Z) (n : nat) : list byte :=
  map (fun i => m (a + Z.of_nat i)) (seq 0 n).

(** [memcpy(dst, src, n)] inside the address space. *)
Definition memcpy (m : Memory) (dst src : Z) (n : nat) : Memory :=
  store_bytes m dst (load_bytes m src n).

(** A fresh anonymous mapping reads as zero. *)
Definition zero_fill (m : Memory) (a : Z) (n : Z) : Memory :=
  fun x => if (a <=? x) && (x <? a + n) then 0 else m x.

(** ** Object representations

    [sizeof(T)] and the bytes [memcpy] reads from or writes to an object of
    a trivially copyable type [T] are the compiler's; the model takes them as
    a layout per type.  [fits] says that each field of the value is within
    the range of its declared type. *)

Record Layout (T : Type) := mkLayout {
  sizeof : nat;
  to_bytes : T -> list byte;
  of_bytes : list byte -> T;
  fits : T -> Prop
}.
Arguments sizeof {T} _.
Arguments to_bytes {T} _ _.
Arguments of_bytes {T} _ _.
Arguments fits {T} _ _.

(** What [memcpy] guarantees of a layout: the representation has [sizeof]
    bytes, and copying it back gives the same value. *)
Definition lawful {T} (L : Layout T) : Prop :=
  (forall x, length (to_bytes L x) = sizeof L) /\
  (forall x, fits L x -> of_bytes L (to_bytes L x) = x).

(** An array of [T]: the representations one after the other. *)
Definition array_to_bytes {T} (L : Layout T) (xs : list T) : list byte :=
  flat_map (to_bytes L) xs.

Fixpoint array_of_bytes {T} (L : Layout T) (n : nat) (bs : list byte) : list T :=
  match n with
  | O => []
  | S n' => of_bytes L (firstn (sizeof L) bs)
            :: array_of_bytes L n' (skipn (sizeof L) bs)
  end.

(** ** Strings, names and the records of the tables *)

(** A [PropertyName]: an atom, with the character width it is stored in. *)
Record PropertyName := mkPropertyName {
  hasLatin1Chars : bool;
  name_chars : list Z
}.

(** [PropertyName *]: [None] is [nullptr]. *)
Definition NamePtr := option PropertyName.

(** [AsmJSModule::Global::pod].  Its members are declared in AsmJSModule.h;
    no function of this file reads them, so the value is kept as the object
    it is. *)
Record GlobalPod := mkGlobalPod { global_pod_rep : list byte }.

(** [AsmJSModule::Global] *)
Record Global := mkGlobal {
  global_pod : GlobalPod;
  global_name_ : NamePtr
}.

(** [AsmJSModule::Exit]: where the exit's datum sits in the global data and
    the code offsets of its two trampolines. *)
Record Exit := mkExit {
  exit_globalDataOffset_ : Z;
  interpCodeOffset_ : Z;
  ionCodeOffset_ : Z
}.

(** [AsmJSModule::ExportedFunction::pod] *)
Record ExportPod := mkExportPod {
  export_pod_rep : list byte
}.

(** [AsmJSModule::ExportedFunction]; [argCoercions_] holds [AsmJSCoercion]s. *)
Record ExportedFunction := mkExportedFunction {
  export_name_ : NamePtr;
  maybeFieldName_ : NamePtr;
  argCoercions_ : list Z;
  export_pod : ExportPod
}.

(** [AsmJSModule::FuncPtrTable] *)
Record FuncPtrTable := mkFuncPtrTable {
  fpt_globalDataOffset_ : Z;
  numElems_ : nat
}.

(** [jit::AsmJSHeapAccess]: the offset of the instruction, the distance back
    to the immediate of its length check ([0]: none), the length of the
    instruction up to its displacement. *)
Record AsmJSHeapAccess := mkHeapAccess {
  ha_offset_ : Z;
  cmpDelta_ : Z;
  opLength_ : Z
}.

Definition hasLengthCheck (a : AsmJSHeapAccess) : bool := 0 <? cmpDelta_ a.
Definition patchLengthAt (a : AsmJSHeapAccess) (code : Z) : Z :=
  code + (ha_offset_ a - cmpDelta_ a).
Definition patchOffsetAt (a : AsmJSHeapAccess) (code : Z) : Z :=
  code + (ha_offset_ a + opLength_ a).

Module RelativeLink.

Inductive Kind := CodeLabel | InstructionImmediate | RawPointer.

Record t := mk {
  kind_ : Kind;
  patchAtOffset : Z;
  targetOffset : Z
}.

End RelativeLink.

(** [AsmJSModule::StaticLinkData]; [absoluteLinks] has one offset vector per
    [AsmJSImmKind], in the order of the enumeration. *)
Record StaticLinkData := mkStaticLinkData {
  interruptExitOffset : Z;
  relativeLinks : list RelativeLink.t;
  absoluteLinks : list (list Z)
}.

(** [AsmJSModule::pod], the members this file names. *)
Record Pod := mkPod {
  funcPtrTableAndExitBytes_ : Z;
  functionBytes_ : Z;
  codeBytes_ : Z;
  totalBytes_ : Z;
  minHeapLength_ : Z;
  strict_ : bool;
  usesSignalHandlers_ : bool;
  srcLength_ : Z;
  srcLengthWithRightBrace_ : Z
}.

(** [ScriptSource]: the file name is all that is read of it. *)
Record ScriptSource := mkScriptSource { filename : list Z }.

(** [ArrayBufferObject]: the heap a module is linked to. *)
Record ArrayBufferObject := mkArrayBuffer {
  byteLength : Z;
  dataPointer : Z
}.

(** A profiling label, [JS_smprintf("%s (%s:%u)", name, filename, lineno)],
    kept as its three arguments. *)
Record ProfilingLabel := mkLabel {
  label_name : NamePtr;
  label_filename : list Z;
  label_lineno : Z
}.

(** [AsmJSModule].  [code_] and [interruptExit_] are addresses, [0] for
    [nullptr]. *)
Record AsmJSModule := mkModule {
  srcStart_ : Z;
  srcBodyStart_ : Z;
  scriptSource_ : ScriptSource;
  globalArgumentName_ : NamePtr;
  importArgumentName_ : NamePtr;
  bufferArgumentName_ : NamePtr;
  code_ : Z;
  interruptExit_ : Z;
  dynamicallyLinked_ : bool;
  loadedFromCache_ : bool;
  profilingEnabled_ : bool;
  codeIsProtected_ : bool;
  pod : Pod;
  globals_ : list Global;
  exits_ : list Exit;
  exports_ : list ExportedFunction;
  callSites_ : list CallSite.t;
  codeRanges_ : list CodeRange.t;
  funcPtrTables_ : list FuncPtrTable;
  builtinThunkOffsets_ : list Z;
  names_ : list NamePtr;
  heapAccesses_ : list AsmJSHeapAccess;
  numFunctionCounts : nat;
  staticLinkData_ : StaticLinkData;
  maybeHeap_ : option ArrayBufferObject;
  profilingLabels_ : list (option ProfilingLabel)
}.

Definition isFinished (m : AsmJSModule) : bool := negb (code_ m =? 0).
Definition isStaticallyLinked (m : AsmJSModule) : bool :=
  negb (interruptExit_ m =? 0).
Definition isDynamicallyLinked (m : AsmJSModule) : bool := dynamicallyLinked_ m.
(** [functionBytes_] is [UINT32_MAX] until the function bodies are done. *)
Definition isFinishedWithFunctionBodies (m : AsmJSModule) : bool :=
  negb (functionBytes_ (pod m) =? 2 ^ 32 - 1).


(** Assignment to one member of a module. *)
Definition set_globalArgumentName_ (m : AsmJSModule) v : AsmJSModule :=
  mkModule (srcStart_ m) (srcBodyStart_ m) (scriptSource_ m) v
    (importArgumentName_ m) (bufferArgumentName_ m) (code_ m)
    (interruptExit_ m) (dynamicallyLinked_ m) (loadedFromCache_ m)
    (profilingEnabled_ m) (codeIsProtected_ m) (pod m) (globals_ m) (exits_ m)
    (exports_ m) (callSites_ m) (codeRanges_ m) (funcPtrTables_ m)
    (builtinThunkOffsets_ m) (names_ m) (heapAccesses_ m)
    (numFunctionCounts m) (staticLinkData_ m) (maybeHeap_ m)
    (profilingLabels_ m).
Definition set_importArgumentName_ (m : AsmJSModule) v : AsmJSModule :=
  mkModule (srcStart_ m) (srcBodyStart_ m) (scriptSource_ m)
    (globalArgumentName_ m) v (bufferArgumentName_ m) (code_ m)
    (interruptExit_ m) (dynamicallyLinked_ m) (loadedFromCache_ m)
    (profilingEnabled_ m) (codeIsProtected_ m) (pod m) (globals_ m) (exits_ m)
    (exports_ m) (callSites_ m) (codeRanges_ m) (funcPtrTables_ m)
    (builtinThunkOffsets_ m) (names_ m) (heapAccesses_ m)
    (numFunctionCounts m) (staticLinkData_ m) (maybeHeap_ m)
    (profilingLabels_ m).
Definition set_bufferArgumentName_ (m : AsmJSModule) v : AsmJSModule :=
  mkModule (srcStart_ m) (srcBodyStart_ m) (scriptSource_ m)
    (globalArgumentName_ m) (importArgumentName_ m) v (code_ m)
    (interruptExit_ m) (dynamicallyLinked_ m) (loadedFromCache_ m)
    (profilingEnabled_ m) (codeIsProtected_ m) (pod m) (globals_ m) (exits_ m)
    (exports_ m) (callSites_ m) (codeRanges_ m) (funcPtrTables_ m)
    (builtinThunkOffsets_ m) (names_ m) (heapAccesses_ m)
    (numFunctionCounts m) (staticLinkData_ m) (maybeHeap_ m)
    (profilingLabels_ m).
Definition set_code_ (m : AsmJSModule) v : AsmJSModule :=
  mkModule (srcStart_ m) (srcBodyStart_ m) (scriptSource_ m)
    (globalArgumentName_ m) (importArgumentName_ m) (bufferArgumentName_ m) v
    (interruptExit_ m) (dynamicallyLinked_ m) (loadedFromCache_ m)
    (profilingEnabled_ m) (codeIsProtected_ m) (pod m) (globals_ m) (exits_ m)
    (exports_ m) (callSites_ m) (codeRanges_ m) (funcPtrTables_ m)
    (builtinThunkOffsets_ m) (names_ m) (heapAccesses_ m)
    (numFunctionCounts m) (staticLinkData_ m) (maybeHeap_ m)
    (profilingLabels_ m).
Definition set_interruptExit_ (m : AsmJSModule) v : AsmJSModule :=
  mkModule (srcStart_ m) (srcBodyStart_ m) (scriptSource_ m)
    (globalArgumentName_ m) (importArgumentName_ m) (bufferArgumentName_ m)
    (code_ m) v (dynamicallyLinked_ m) (loadedFromCache_ m)
    (profilingEnabled_ m) (codeIsProtected_ m) (pod m) (globals_ m) (exits_ m)
    (exports_ m) (callSites_ m) (codeRanges_ m) (funcPtrTables_ m)
    (builtinThunkOffsets_ m) (names_ m) (heapAccesses_ m)
    (numFunctionCounts m) (staticLinkData_ m) (maybeHeap_ m)
    (profilingLabels_ m).
Definition set_dynamicallyLinked_ (m : AsmJSModule) v : AsmJSModule :=
  mkModule (srcStart_ m) (srcBodyStart_ m) (scriptSource_ m)
    (globalArgumentName_ m) (importArgumentName_ m) (bufferArgumentName_ m)
    (code_ m) (interruptExit_ m) v (loadedFromCache_ m) (profilingEnabled_ m)
    (codeIsProtected_ m) (pod m) (globals_ m) (exits_ m) (exports_ m)
    (callSites_ m) (codeRanges_ m) (funcPtrTables_ m) (builtinThunkOffsets_ m)
    (names_ m) (heapAccesses_ m) (numFunctionCounts m) (staticLinkData_ m)
    (maybeHeap_ m) (profilingLabels_ m).
Definition set_loadedFromCache_ (m : AsmJSModule) v : AsmJSModule :=
  mkModule (srcStart_ m) (srcBodyStart_ m) (scriptSource_ m)
    (globalArgumentName_ m) (importArgumentName_ m) (bufferArgumentName_ m)
    (code_ m) (interruptExit_ m) (dynamicallyLinked_ m) v
    (profilingEnabled_ m) (codeIsProtected_ m) (pod m) (globals_ m) (exits_ m)
    (exports_ m) (callSites_ m) (codeRanges_ m) (funcPtrTables_ m)
    (builtinThunkOffsets_ m) (names_ m) (heapAccesses_ m)
    (numFunctionCounts m) (staticLinkData_ m) (maybeHeap_ m)
    (profilingLabels_ m).
Definition set_profilingEnabled_ (m : AsmJSModule) v : AsmJSModule :=
  mkModule (srcStart_ m) (srcBodyStart_ m) (scriptSource_ m)
    (globalArgumentName_ m) (importArgumentName_ m) (bufferArgumentName_ m)
    (code_ m) (interruptExit_ m) (dynamicallyLinked_ m) (loadedFromCache_ m) v
    (codeIsProtected_ m) (pod m) (globals_ m) (exits_ m) (exports_ m)
    (callSites_ m) (codeRanges_ m) (funcPtrTables_ m) (builtinThunkOffsets_ m)
    (names_ m) (heapAccesses_ m) (numFunctionCounts m) (staticLinkData_ m)
    (maybeHeap_ m) (profilingLabels_ m).
Definition set_codeIsProtected_ (m : AsmJSModule) v : AsmJSModule :=
  mkModule (srcStart_ m) (srcBodyStart_ m) (scriptSource_ m)
    (globalArgumentName_ m) (importArgumentName_ m) (bufferArgumentName_ m)
    (code_ m) (interruptExit_ m) (dynamicallyLinked_ m) (loadedFromCache_ m)
    (profilingEnabled_ m) v (pod m) (globals_ m) (exits_ m) (exports_ m)
    (callSites_ m) (codeRanges_ m) (funcPtrTables_ m) (builtinThunkOffsets_ m)
    (names_ m) (heapAccesses_ m) (numFunctionCounts m) (staticLinkData_ m)
    (maybeHeap_ m) (profilingLabels_ m).
Definition set_pod (m : AsmJSModule) v : AsmJSModule :=
  mkModule (srcStart_ m) (srcBodyStart_ m) (scriptSource_ m)
    (globalArgumentName_ m) (importArgumentName_ m) (bufferArgumentName_ m)
    (code_ m) (interruptExit_ m) (dynamicallyLinked_ m) (loadedFromCache_ m)
    (profilingEnabled_ m) (codeIsProtected_ m) v (globals_ m) (exits_ m)
    (exports_ m) (callSites_ m) (codeRanges_ m) (funcPtrTables_ m)
    (builtinThunkOffsets_ m) (names_ m) (heapAccesses_ m)
    (numFunctionCounts m) (staticLinkData_ m) (maybeHeap_ m)
    (profilingLabels_ m).
Definition set_globals_ (m : AsmJSModule) v : AsmJSModule :=
  mkModule (srcStart_ m) (srcBodyStart_ m) (scriptSource_ m)
    (globalArgumentName_ m) (importArgumentName_ m) (bufferArgumentName_ m)
    (code_ m) (interruptExit_ m) (dynamicallyLinked_ m) (loadedFromCache_ m)
    (profilingEnabled_ m) (codeIsProtected_ m) (pod m) v (exits_ m)
    (exports_ m) (callSites_ m) (codeRanges_ m) (funcPtrTables_ m)
    (builtinThunkOffsets_ m) (names_ m) (heapAccesses_ m)
    (numFunctionCounts m) (staticLinkData_ m) (maybeHeap_ m)
    (profilingLabels_ m).
Definition set_exits_ (m : AsmJSModule) v : AsmJSModule :=
  mkModule (srcStart_ m) (srcBodyStart_ m) (scriptSource_ m)
    (globalArgumentName_ m) (importArgumentName_ m) (bufferArgumentName_ m)
    (code_ m) (interruptExit_ m) (dynamicallyLinked_ m) (loadedFromCache_ m)
    (profilingEnabled_ m) (codeIsProtected_ m) (pod m) (globals_ m) v
    (exports_ m) (callSites_ m) (codeRanges_ m) (funcPtrTables_ m)
    (builtinThunkOffsets_ m) (names_ m) (heapAccesses_ m)
    (numFunctionCounts m) (staticLinkData_ m) (maybeHeap_ m)
    (profilingLabels_ m).
Definition set_exports_ (m : AsmJSModule) v : AsmJSModule :=
  mkModule (srcStart_ m) (srcBodyStart_ m) (scriptSource_ m)
    (globalArgumentName_ m) (importArgumentName_ m) (bufferArgumentName_ m)
    (code_ m) (interruptExit_ m) (dynamicallyLinked_ m) (loadedFromCache_ m)
    (profilingEnabled_ m) (codeIsProtected_ m) (pod m) (globals_ m)
    (exits_ m) v (callSites_ m) (codeRanges_ m) (funcPtrTables_ m)
    (builtinThunkOffsets_ m) (names_ m) (heapAccesses_ m)
    (numFunctionCounts m) (staticLinkData_ m) (maybeHeap_ m)
    (profilingLabels_ m).
Definition set_callSites_ (m : AsmJSModule) v : AsmJSModule :=
  mkModule (srcStart_ m) (srcBodyStart_ m) (scriptSource_ m)
    (globalArgumentName_ m) (importArgumentName_ m) (bufferArgumentName_ m)
    (code_ m) (interruptExit_ m) (dynamicallyLinked_ m) (loadedFromCache_ m)
    (profilingEnabled_ m) (codeIsProtected_ m) (pod m) (globals_ m) (exits_ m)
    (exports_ m) v (codeRanges_ m) (funcPtrTables_ m) (builtinThunkOffsets_ m)
    (names_ m) (heapAccesses_ m) (numFunctionCounts m) (staticLinkData_ m)
    (maybeHeap_ m) (profilingLabels_ m).
Definition set_codeRanges_ (m : AsmJSModule) v : AsmJSModule :=
  mkModule (srcStart_ m) (srcBodyStart_ m) (scriptSource_ m)
    (globalArgumentName_ m) (importArgumentName_ m) (bufferArgumentName_ m)
    (code_ m) (interruptExit_ m) (dynamicallyLinked_ m) (loadedFromCache_ m)
    (profilingEnabled_ m) (codeIsProtected_ m) (pod m) (globals_ m) (exits_ m)
    (exports_ m) (callSites_ m) v (funcPtrTables_ m) (builtinThunkOffsets_ m)
    (names_ m) (heapAccesses_ m) (numFunctionCounts m) (staticLinkData_ m)
    (maybeHeap_ m) (profilingLabels_ m).
Definition set_funcPtrTables_ (m : AsmJSModule) v : AsmJSModule :=
  mkModule (srcStart_ m) (srcBodyStart_ m) (scriptSource_ m)
    (globalArgumentName_ m) (importArgumentName_ m) (bufferArgumentName_ m)
    (code_ m) (interruptExit_ m) (dynamicallyLinked_ m) (loadedFromCache_ m)
    (profilingEnabled_ m) (codeIsProtected_ m) (pod m) (globals_ m) (exits_ m)
    (exports_ m) (callSites_ m) (codeRanges_ m) v (builtinThunkOffsets_ m)
    (names_ m) (heapAccesses_ m) (numFunctionCounts m) (staticLinkData_ m)
    (maybeHeap_ m) (profilingLabels_ m).
Definition set_builtinThunkOffsets_ (m : AsmJSModule) v : AsmJSModule :=
  mkModule (srcStart_ m) (srcBodyStart_ m) (scriptSource_ m)
    (globalArgumentName_ m) (importArgumentName_ m) (bufferArgumentName_ m)
    (code_ m) (interruptExit_ m) (dynamicallyLinked_ m) (loadedFromCache_ m)
    (profilingEnabled_ m) (codeIsProtected_ m) (pod m) (globals_ m) (exits_ m)
    (exports_ m) (callSites_ m) (codeRanges_ m) (funcPtrTables_ m) v
    (names_ m) (heapAccesses_ m) (numFunctionCounts m) (staticLinkData_ m)
    (maybeHeap_ m) (profilingLabels_ m).
Definition set_names_ (m : AsmJSModule) v : AsmJSModule :=
  mkModule (srcStart_ m) (srcBodyStart_ m) (scriptSource_ m)
    (globalArgumentName_ m) (importArgumentName_ m) (bufferArgumentName_ m)
    (code_ m) (interruptExit_ m) (dynamicallyLinked_ m) (loadedFromCache_ m)
    (profilingEnabled_ m) (codeIsProtected_ m) (pod m) (globals_ m) (exits_ m)
    (exports_ m) (callSites_ m) (codeRanges_ m) (funcPtrTables_ m)
    (builtinThunkOffsets_ m) v (heapAccesses_ m) (numFunctionCounts m)
    (staticLinkData_ m) (maybeHeap_ m) (profilingLabels_ m).
Definition set_heapAccesses_ (m : AsmJSModule) v : AsmJSModule :=
  mkModule (srcStart_ m) (srcBodyStart_ m) (scriptSource_ m)
    (globalArgumentName_ m) (importArgumentName_ m) (bufferArgumentName_ m)
    (code_ m) (interruptExit_ m) (dynamicallyLinked_ m) (loadedFromCache_ m)
    (profilingEnabled_ m) (codeIsProtected_ m) (pod m) (globals_ m) (exits_ m)
    (exports_ m) (callSites_ m) (codeRanges_ m) (funcPtrTables_ m)
    (builtinThunkOffsets_ m) (names_ m) v (numFunctionCounts m)
    (staticLinkData_ m) (maybeHeap_ m) (profilingLabels_ m).
Definition set_staticLinkData_ (m : AsmJSModule) v : AsmJSModule :=
  mkModule (srcStart_ m) (srcBodyStart_ m) (scriptSource_ m)
    (globalArgumentName_ m) (importArgumentName_ m) (bufferArgumentName_ m)
    (code_ m) (interruptExit_ m) (dynamicallyLinked_ m) (loadedFromCache_ m)
    (profilingEnabled_ m) (codeIsProtected_ m) (pod m) (globals_ m) (exits_ m)
    (exports_ m) (callSites_ m) (codeRanges_ m) (funcPtrTables_ m)
    (builtinThunkOffsets_ m) (names_ m) (heapAccesses_ m)
    (numFunctionCounts m) v (maybeHeap_ m) (profilingLabels_ m).
Definition set_maybeHeap_ (m : AsmJSModule) v : AsmJSModule :=
  mkModule (srcStart_ m) (srcBodyStart_ m) (scriptSource_ m)
    (globalArgumentName_ m) (importArgumentName_ m) (bufferArgumentName_ m)
    (code_ m) (interruptExit_ m) (dynamicallyLinked_ m) (loadedFromCache_ m)
    (profilingEnabled_ m) (codeIsProtected_ m) (pod m) (globals_ m) (exits_ m)
    (exports_ m) (callSites_ m) (codeRanges_ m) (funcPtrTables_ m)
    (builtinThunkOffsets_ m) (names_ m) (heapAccesses_ m)
    (numFunctionCounts m) (staticLinkData_ m) v (profilingLabels_ m).
Definition set_profilingLabels_ (m : AsmJSModule) v : AsmJSModule :=
  mkModule (srcStart_ m) (srcBodyStart_ m) (scriptSource_ m)
    (globalArgumentName_ m) (importArgumentName_ m) (bufferArgumentName_ m)
    (code_ m) (interruptExit_ m) (dynamicallyLinked_ m) (loadedFromCache_ m)
    (profilingEnabled_ m) (codeIsProtected_ m) (pod m) (globals_ m) (exits_ m)
    (exports_ m) (callSites_ m) (codeRanges_ m) (funcPtrTables_ m)
    (builtinThunkOffsets_ m) (names_ m) (heapAccesses_ m)
    (numFunctionCounts m) (staticLinkData_ m) (maybeHeap_ m) v.

(** Assignment to one member of [pod]. *)
Definition pod_set_funcPtrTableAndExitBytes_ (p : Pod) v : Pod :=
  mkPod v (functionBytes_ p) (codeBytes_ p) (totalBytes_ p) (minHeapLength_ p) (strict_ p) (usesSignalHandlers_ p) (srcLength_ p) (srcLengthWithRightBrace_ p).
Definition pod_set_functionBytes_ (p : Pod) v : Pod :=
  mkPod (funcPtrTableAndExitBytes_ p) v (codeBytes_ p) (totalBytes_ p) (minHeapLength_ p) (strict_ p) (usesSignalHandlers_ p) (srcLength_ p) (srcLengthWithRightBrace_ p).
Definition pod_set_codeBytes_ (p : Pod) v : Pod :=
  mkPod (funcPtrTableAndExitBytes_ p) (functionBytes_ p) v (totalBytes_ p) (minHeapLength_ p) (strict_ p) (usesSignalHandlers_ p) (srcLength_ p) (srcLengthWithRightBrace_ p).
Definition pod_set_totalBytes_ (p : Pod) v : Pod :=
  mkPod (funcPtrTableAndExitBytes_ p) (functionBytes_ p) (codeBytes_ p) v (minHeapLength_ p) (strict_ p) (usesSignalHandlers_ p) (srcLength_ p) (srcLengthWithRightBrace_ p).
Definition pod_set_minHeapLength_ (p : Pod) v : Pod :=
  mkPod (funcPtrTableAndExitBytes_ p) (functionBytes_ p) (codeBytes_ p) (totalBytes_ p) v (strict_ p) (usesSignalHandlers_ p) (srcLength_ p) (srcLengthWithRightBrace_ p).
Definition pod_set_strict_ (p : Pod) v : Pod :=
  mkPod (funcPtrTableAndExitBytes_ p) (functionBytes_ p) (codeBytes_ p) (totalBytes_ p) (minHeapLength_ p) v (usesSignalHandlers_ p) (srcLength_ p) (srcLengthWithRightBrace_ p).
Definition pod_set_usesSignalHandlers_ (p : Pod) v : Pod :=
  mkPod (funcPtrTableAndExitBytes_ p) (functionBytes_ p) (codeBytes_ p) (totalBytes_ p) (minHeapLength_ p) (strict_ p) v (srcLength_ p) (srcLengthWithRightBrace_ p).
Definition pod_set_srcLength_ (p : Pod) v : Pod :=
  mkPod (funcPtrTableAndExitBytes_ p) (functionBytes_ p) (codeBytes_ p) (totalBytes_ p) (minHeapLength_ p) (strict_ p) (usesSignalHandlers_ p) v (srcLengthWithRightBrace_ p).
Definition pod_set_srcLengthWithRightBrace_ (p : Pod) v : Pod :=
  mkPod (funcPtrTableAndExitBytes_ p) (functionBytes_ p) (codeBytes_ p) (totalBytes_ p) (minHeapLength_ p) (strict_ p) (usesSignalHandlers_ p) (srcLength_ p) v.

(** The layouts of the types this file copies with [memcpy]. *)
Record ABI := mkABI {
  L_uint32 : Layout Z;
  L_Latin1Char : Layout Z;
  L_jschar : Layout Z;
  L_char : Layout Z;
  L_Pod : Layout Pod;
  L_GlobalPod : Layout GlobalPod;
  L_Exit : Layout Exit;
  L_ExportPod : Layout ExportPod;
  L_AsmJSCoercion : Layout Z;
  L_CallSite : Layout CallSite.t;
  L_CodeRange : Layout CodeRange.t;
  L_FuncPtrTable : Layout FuncPtrTable;
  L_HeapAccess : Layout AsmJSHeapAccess;
  L_RelativeLink : Layout RelativeLink.t
}.

(** ** The platform: what the build and the assembler fix *)

(** [JS_CODEGEN_*] *)
Inductive Arch := X86 | X64 | ARM | MIPS | NONE.

(** [AsmJSImmKind], the enumerators [AddressOf] switches over; the two
    [aeabi] ones exist on ARM only. *)
Inductive AsmJSImmKind :=
| AsmJSImm_Runtime | AsmJSImm_RuntimeInterrupt | AsmJSImm_StackLimit
| AsmJSImm_ReportOverRecursed | AsmJSImm_HandleExecutionInterrupt
| AsmJSImm_InvokeFromAsmJS_Ignore | AsmJSImm_InvokeFromAsmJS_ToInt32
| AsmJSImm_InvokeFromAsmJS_ToNumber | AsmJSImm_CoerceInPlace_ToInt32
| AsmJSImm_CoerceInPlace_ToNumber | AsmJSImm_ToInt32
| AsmJSImm_aeabi_idivmod | AsmJSImm_aeabi_uidivmod
| AsmJSImm_ModD | AsmJSImm_SinD | AsmJSImm_CosD | AsmJSImm_TanD
| AsmJSImm_ASinD | AsmJSImm_ACosD | AsmJSImm_ATanD | AsmJSImm_CeilD
| AsmJSImm_CeilF | AsmJSImm_FloorD | AsmJSImm_FloorF | AsmJSImm_ExpD
| AsmJSImm_LogD | AsmJSImm_PowD | AsmJSImm_ATan2D.

(** A field of an instruction or of data that the assembler reads and
    rewrites in place.  Given the address [p] the assembler is called with,
    the field is the [f_len] bytes from [p + f_lo]; [f_get] decodes the value
    it holds, [f_set] encodes a value into it, and [f_valid p v] says that
    the field at [p] can hold [v]. *)
Record Field := mkField {
  f_lo : Z;
  f_len : Z;
  f_get : Memory -> Z -> Z;
  f_set : Memory -> Z -> Z -> Memory;
  f_valid : Z -> Z -> bool
}.

(** The operations of [jit::Assembler], [JSC::X86Assembler] and the ARM
    instruction classes that this file calls.  None is among the sources. *)
Record Assembler := mkAssembler {
  (** [*(uint8_t ** )p] *)
  rawPointer : Field;
  (** [Assembler::PatchInstructionImmediate(p, PatchedImmPtr(v))] *)
  instructionImmediate : Field;
  (** the datum of [Assembler::PatchDataWithValueCheck(CodeLocationLabel(p), ..)] *)
  patchedData : Field;
  (** [X86Assembler::getRel32Target(p)], [X86Assembler::setRel32(p, v)] *)
  rel32 : Field;
  (** [X86Assembler::getPointer(p)], [X86Assembler::setPointer(p, v)] *)
  x86Pointer : Field;
  (** [X86Assembler::setInt32(p, v)] *)
  x86Int32 : Field;
  (** the [InstBLImm] at [p]: [extractImm] and [getDest], placement [new] *)
  armBL : Field;
  (** [new (p) InstBImm(BOffImm(v - p), Assembler::Always)] *)
  armB : Field;
  (** [new (p) InstNOP()], [is<InstNOP>()], [is<InstBImm>()] *)
  armWriteNOP : Memory -> Z -> Memory;
  armIsNOP : Memory -> Z -> bool;
  armIsBImm : Memory -> Z -> bool;
  (** [Assembler::UpdateBoundsCheck(heapLength, (Instruction* )p)] *)
  boundsCheck : Field;
  (** [Assembler::ExtractCodeLabelOffset(p)] *)
  ExtractCodeLabelOffset : Memory -> Z -> Z;
  (** [Assembler::ExtractLuiOriValue(inst, inst->next())] *)
  ExtractLuiOriValue : Memory -> Z -> Z
}.

Record Platform := mkPlatform {
  arch : Arch;
  (** whether [JS_ASSERT] is compiled in *)
  DEBUG : bool;
  (** [sizeof(void* )] *)
  sizeof_ptr : Z;
  AsmJSPageSize : Z;
  (** [AsmJSModule::globalDataBytes()] *)
  globalDataBytes : Pod -> Z;
  (** [AsmJSModule::heapGlobalDataOffset()] *)
  heapGlobalDataOffset : Z;
  (** [js::IsValidAsmJSHeapLength] *)
  IsValidAsmJSHeapLength : Z -> bool;
  (** [RelativeLink::isRawPointerPatch()] *)
  isRawPointerPatch : RelativeLink.t -> bool;
  (** [AsmJSExit::Builtin_Limit] and [BuiltinToImmKind] *)
  Builtin_Limit : nat;
  BuiltinToImmKind : nat -> AsmJSImmKind;
  (** [FuncCast(f)]: the address of the native function behind a kind *)
  FuncCast : AsmJSImmKind -> Z;
  (** [RedirectCall], the identity outside the simulators *)
  RedirectCall : Z -> Z;
  (** [LabelBase::INVALID_OFFSET] *)
  INVALID_OFFSET : Z;
  AsmJSAllocationGranularity : Z;
  (** [getSSEState()], [GetARMFlags()] or [GetMIPSFlags()] of the machine *)
  cpuFlags : Z;
  (** [mozilla::Compression::LZ4]: [compress], [maxCompressedSize], and
      [decompress] of the bytes at the cursor into the given number of
      bytes; [LZ4_decompress_failed] is what a [decompress] that returns
      false has left in these bytes *)
  LZ4_compress : list byte -> list byte;
  LZ4_maxCompressedSize : Z -> Z;
  LZ4_decompress : list byte -> nat -> option (list byte);
  LZ4_decompress_failed : list byte -> nat -> list byte;
  (** what is read from a [uint32_t] member that has no initializer and has
      not been written: an indeterminate value *)
  indeterminate_uint32 : Z;
  asm : Assembler;
  abi : ABI
}.

(** [SIZE_MAX] and [UINT32_MAX] *)
Definition SIZE_MAX (P : Platform) : Z := 2 ^ (8 * sizeof_ptr P) - 1.
Definition UINT32_MAX : Z := 2 ^ 32 - 1.

(** Conversion to [size_t] and to [uintptr_t]. *)
Definition size_t (P : Platform) (z : Z) : Z := z mod 2 ^ (8 * sizeof_ptr P).


(** The enumerators of [AsmJSImmKind] below [AsmJSImm_Limit], in order. *)
Definition AsmJSImmKinds (a : Arch) : list AsmJSImmKind :=
  [AsmJSImm_Runtime; AsmJSImm_RuntimeInterrupt; AsmJSImm_StackLimit;
   AsmJSImm_ReportOverRecursed; AsmJSImm_HandleExecutionInterrupt;
   AsmJSImm_InvokeFromAsmJS_Ignore; AsmJSImm_InvokeFromAsmJS_ToInt32;
   AsmJSImm_InvokeFromAsmJS_ToNumber; AsmJSImm_CoerceInPlace_ToInt32;
   AsmJSImm_CoerceInPlace_ToNumber; AsmJSImm_ToInt32]
  ++ match a with
     | ARM => [AsmJSImm_aeabi_idivmod; AsmJSImm_aeabi_uidivmod]
     | _ => []
     end
  ++ [AsmJSImm_ModD; AsmJSImm_SinD; AsmJSImm_CosD; AsmJSImm_TanD;
      AsmJSImm_ASinD; AsmJSImm_ACosD; AsmJSImm_ATanD; AsmJSImm_CeilD;
      AsmJSImm_CeilF; AsmJSImm_FloorD; AsmJSImm_FloorF; AsmJSImm_ExpD;
      AsmJSImm_LogD; AsmJSImm_PowD; AsmJSImm_ATan2D].

Definition AsmJSImm_Limit (a : Arch) : nat := length (AsmJSImmKinds a).

Definition AsmJSImmKind_eqb (a b : AsmJSImmKind) : bool :=
  match a, b with
  | AsmJSImm_Runtime, AsmJSImm_Runtime
  | AsmJSImm_RuntimeInterrupt, AsmJSImm_RuntimeInterrupt
  | AsmJSImm_StackLimit, AsmJSImm_StackLimit
  | AsmJSImm_ReportOverRecursed, AsmJSImm_ReportOverRecursed
  | AsmJSImm_HandleExecutionInterrupt, AsmJSImm_HandleExecutionInterrupt
  | AsmJSImm_InvokeFromAsmJS_Ignore, AsmJSImm_InvokeFromAsmJS_Ignore
  | AsmJSImm_InvokeFromAsmJS_ToInt32, AsmJSImm_InvokeFromAsmJS_ToInt32
  | AsmJSImm_InvokeFromAsmJS_ToNumber, AsmJSImm_InvokeFromAsmJS_ToNumber
  | AsmJSImm_CoerceInPlace_ToInt32, AsmJSImm_CoerceInPlace_ToInt32
  | AsmJSImm_CoerceInPlace_ToNumber, AsmJSImm_CoerceInPlace_ToNumber
  | AsmJSImm_ToInt32, AsmJSImm_ToInt32
  | AsmJSImm_aeabi_idivmod, AsmJSImm_aeabi_idivmod
  | AsmJSImm_aeabi_uidivmod, AsmJSImm_aeabi_uidivmod
  | AsmJSImm_ModD, AsmJSImm_ModD | AsmJSImm_SinD, AsmJSImm_SinD
  | AsmJSImm_CosD, AsmJSImm_CosD | AsmJSImm_TanD, AsmJSImm_TanD
  | AsmJSImm_ASinD, AsmJSImm_ASinD | AsmJSImm_ACosD, AsmJSImm_ACosD
  | AsmJSImm_ATanD, AsmJSImm_ATanD | AsmJSImm_CeilD, AsmJSImm_CeilD
  | AsmJSImm_CeilF, AsmJSImm_CeilF | AsmJSImm_FloorD, AsmJSImm_FloorD
  | AsmJSImm_FloorF, AsmJSImm_FloorF | AsmJSImm_ExpD, AsmJSImm_ExpD
  | AsmJSImm_LogD, AsmJSImm_LogD | AsmJSImm_PowD, AsmJSImm_PowD
  | AsmJSImm_ATan2D, AsmJSImm_ATan2D => true
  | _, _ => false
  end.

(** The index of a kind in the enumeration ([AsmJSImm_Limit] if absent). *)
Fixpoint imm_index_in (k : AsmJSImmKind) (l : list AsmJSImmKind) : nat :=
  match l with
  | [] => O
  | k' :: l' => if AsmJSImmKind_eqb k k' then O else S (imm_index_in k l')
  end.

Definition imm_index (a : Arch) (k : AsmJSImmKind) : nat :=
  imm_index_in k (AsmJSImmKinds a).

(** ** The context: the runtime's addresses and the allocators *)

(** [ExclusiveContext].  [cx_oom] says that the system allocator is
    exhausted, so that every [Vector::resize], [append] and atomization
    fails; [cx_mmap] is what the next anonymous executable mapping returns
    ([None]: the mapping fails). *)
Record ExclusiveContext := mkContext {
  cx_oom : bool;
  cx_mmap : option Z;
  runtimeAddressForJit : Z;
  runtimeAddressOfInterrupt : Z;
  stackLimitAddressForJitCode : Z;
  (** [asmJSCacheOps().buildId]: [None] when the embedding gives no such
      operation, [Some None] when the operation fails *)
  cacheOps_buildId : option (option (list Z));
  (** [asmJSCacheOps().openEntryForRead]: the bytes of the entry it opens *)
  cacheOps_openEntryForRead : option (option (list byte));
  (** [asmJSCacheOps().openEntryForWrite]: whether an entry of the given
      size opens *)
  cacheOps_openEntryForWrite : option (nat -> bool)
}.

(** [AsmJSModule::AsmJSModule]: [pod] is zeroed, then five members are set. *)
Definition AsmJSModule_new (P : Platform) (scriptSource : ScriptSource)
  (srcStart srcBodyStart : Z) (strict canUseSignalHandlers : bool)
  : AsmJSModule :=
  mkModule srcStart srcBodyStart scriptSource None None None
    0 0 false false false false
    (mkPod (SIZE_MAX P) UINT32_MAX 0 0 (AsmJSAllocationGranularity P)
           strict canUseSignalHandlers 0 0)
    [] [] [] [] [] [] [] [] [] O
    (mkStaticLinkData 0 [] (repeat [] (AsmJSImm_Limit (arch P))))
    None [].

(** ** Symbol index *)

(** [AsmJSModule::lookupCallSite] *)
Definition lookupCallSite (m : AsmJSModule) (returnAddress : Z)
  : option CallSite.t :=
  let target := uint32 (returnAddress - code_ m) in
  let lowerBound := O in
  let upperBound := length (callSites_ m) in
  match BinarySearch Z.eqb Z.ltb
          (map CallSite.returnAddressOffset_ (callSites_ m))
          lowerBound upperBound target with
  | (false, _) => None
  | (true, match_) => nth_error (callSites_ m) match_
  end.

(** [AsmJSModule::lookupCodeRange] *)
Definition lookupCodeRange (m : AsmJSModule) (pc : Z) : option CodeRange.t :=
  let target := uint32 (pc - code_ m) in
  let lowerBound := O in
  let upperBound := length (codeRanges_ m) in
  match BinarySearch CodeRange.pc_eq CodeRange.pc_lt
          (codeRanges_ m) lowerBound upperBound target with
  | (false, _) => None
  | (true, match_) => nth_error (codeRanges_ m) match_
  end.

(** ** Serialization

    A write cursor is the bytes written so far into the cache entry; a read
    cursor is the bytes of the entry that are still to be read.  The readers
    of the source do not check the end of the entry: a read past it is
    undefined there, and [None] here, as is a [nullptr] cursor. *)

Section Codec.

Variable P : Platform.
Variable cx : ExclusiveContext.

(** [WriteBytes] *)
Definition WriteBytes (dst : list byte) (src : list byte) : list byte :=
  dst ++ src.

(** [ReadBytes] *)
Definition ReadBytes (src : list byte) (nbytes : nat)
  : option (list byte * list byte) :=
  if (length src <? nbytes)%nat then None
  else Some (firstn nbytes src, skipn nbytes src).

(** [WriteScalar<uint32_t>] *)
Definition WriteScalar_uint32 (dst : list byte) (t : Z) : list byte :=
  WriteBytes dst (to_bytes (L_uint32 (abi P)) (uint32 t)).

(** [ReadScalar<uint32_t>] *)
Definition ReadScalar_uint32 (src : list byte) : option (Z * list byte) :=
  match ReadBytes src (sizeof (L_uint32 (abi P))) with
  | None => None
  | Some (bs, src') => Some (of_bytes (L_uint32 (abi P)) bs, src')
  end.

(** The layout of the characters of a name: [Latin1Char] or [jschar]. *)
Definition L_CharT (latin1 : bool) : Layout Z :=
  if latin1 then L_Latin1Char (abi P) else L_jschar (abi P).

(** [SerializedNameSize] *)
Definition SerializedNameSize (name : NamePtr) : nat :=
  let s := sizeof (L_uint32 (abi P)) in
  match name with
  | Some n => (s + length (name_chars n) * sizeof (L_CharT (hasLatin1Chars n)))%nat
  | None => s
  end.

(** [SerializeName] *)
Definition SerializeName (cursor : list byte) (name : NamePtr) : list byte :=
  match name with
  | Some n =>
      let length_ := uint32 (Z.of_nat (length (name_chars n))) in
      let lengthAndEncoding :=
        uint32 (Z.lor (Z.shiftl length_ 1) (Z.b2z (hasLatin1Chars n))) in
      let cursor := WriteScalar_uint32 cursor lengthAndEncoding in
      WriteBytes cursor
        (array_to_bytes (L_CharT (hasLatin1Chars n)) (name_chars n))
  | None => WriteScalar_uint32 cursor 0
  end.

(** Modelled from the spec: [AtomizeChars] is not among the sources; a name
    record is "length-prefixed with an encoding tag (one-byte vs two-byte
    characters) for [its] text", and the atom for a text read with a tag is
    the name with that text and that width.  It fails when the allocator
    does. *)
Definition AtomizeChars (latin1 : bool) (src : list Z) : option PropertyName :=
  if cx_oom cx then None else Some (mkPropertyName latin1 src).

(** [DeserializeChars<CharT>].  The copy into [tmp] for a misaligned cursor
    changes the characters in no way, and fails exactly when the allocator
    does, as the atomization after it. *)
Definition DeserializeChars (latin1 : bool) (cursor : list byte) (length_ : nat)
  : option (NamePtr * list byte) :=
  let L := L_CharT latin1 in
  match ReadBytes cursor (length_ * sizeof L) with
  | None => None
  | Some (bs, cursor') =>
      match AtomizeChars latin1 (array_of_bytes L length_ bs) with
      | None => None
      | Some atom => Some (Some atom, cursor')
      end
  end.

(** [DeserializeName] *)
Definition DeserializeName (cursor : list byte) : option (NamePtr * list byte) :=
  match ReadScalar_uint32 cursor with
  | None => None
  | Some (lengthAndEncoding, cursor) =>
      let length_ := Z.shiftr lengthAndEncoding 1 in
      if length_ =? 0 then Some (None, cursor)
      else
        let latin1 := negb (Z.land lengthAndEncoding 1 =? 0) in
        DeserializeChars latin1 cursor (Z.to_nat length_)
  end.

(** [Vector::resize]: fails when the allocator does and storage is needed. *)
Definition resize_ok (length_ : nat) : bool :=
  negb (cx_oom cx) || Nat.eqb length_ 0.

Section Vectors.

Context {T : Type}.

(** [SerializedVectorSize], given [T::serializedSize] *)
Definition SerializedVectorSize (serializedSize : T -> nat) (vec : list T)
  : nat :=
  fold_left (fun size x => (size + serializedSize x)%nat) vec
            (sizeof (L_uint32 (abi P))).

(** [SerializeVector], given [T::serialize] *)
Definition SerializeVector (serialize : list byte -> T -> list byte)
  (cursor : list byte) (vec : list T) : list byte :=
  fold_left serialize vec
            (WriteScalar_uint32 cursor (Z.of_nat (length vec))).

(** The loop of [DeserializeVector] over the [n] elements after [resize]. *)
Fixpoint DeserializeVector_loop
  (deserialize : list byte -> option (T * list byte))
  (n : nat) (cursor : list byte) : option (list T * list byte) :=
  match n with
  | O => Some ([], cursor)
  | S n' =>
      match deserialize cursor with
      | None => None
      | Some (x, cursor) =>
          match DeserializeVector_loop deserialize n' cursor with
          | None => None
          | Some (xs, cursor) => Some (x :: xs, cursor)
          end
      end
  end.

(** [DeserializeVector], given [T::deserialize] *)
Definition DeserializeVector
  (deserialize : list byte -> option (T * list byte))
  (cursor : list byte) : option (list T * list byte) :=
  match ReadScalar_uint32 cursor with
  | None => None
  | Some (length_, cursor) =>
      if resize_ok (Z.to_nat length_)
      then DeserializeVector_loop deserialize (Z.to_nat length_) cursor
      else None
  end.

(** [CloneVector], given [T::clone] *)
Definition CloneVector (clone : T -> option T) (in_ : list T)
  : option (list T) :=
  if resize_ok (length in_)
  then fold_right (fun x acc =>
                     match clone x, acc with
                     | Some y, Some ys => Some (y :: ys)
                     | _, _ => None
                     end) (Some []) in_
  else None.

(** [SerializedPodVectorSize] *)
Definition SerializedPodVectorSize (L : Layout T) (vec : list T) : nat :=
  (sizeof (L_uint32 (abi P)) + length vec * sizeof L)%nat.

(** [SerializePodVector] *)
Definition SerializePodVector (L : Layout T) (cursor : list byte)
  (vec : list T) : list byte :=
  let cursor := WriteScalar_uint32 cursor (Z.of_nat (length vec)) in
  WriteBytes cursor (array_to_bytes L vec).

(** [DeserializePodVector] *)
Definition DeserializePodVector (L : Layout T) (cursor : list byte)
  : option (list T * list byte) :=
  match ReadScalar_uint32 cursor with
  | None => None
  | Some (length_, cursor) =>
      if resize_ok (Z.to_nat length_)
      then match ReadBytes cursor (Z.to_nat length_ * sizeof L) with
           | None => None
           | Some (bs, cursor) =>
               Some (array_of_bytes L (Z.to_nat length_) bs, cursor)
           end
      else None
  end.

(** [ClonePodVector] *)
Definition ClonePodVector (in_ : list T) : option (list T) :=
  if resize_ok (length in_) then Some in_ else None.

End Vectors.

(** [AsmJSModule::Global::serializedSize], [serialize], [deserialize], [clone] *)
Definition Global_serializedSize (g : Global) : nat :=
  (sizeof (L_GlobalPod (abi P)) + SerializedNameSize (global_name_ g))%nat.

Definition Global_serialize (cursor : list byte) (g : Global) : list byte :=
  let cursor := WriteBytes cursor (to_bytes (L_GlobalPod (abi P)) (global_pod g)) in
  SerializeName cursor (global_name_ g).

Definition Global_deserialize (cursor : list byte)
  : option (Global * list byte) :=
  match ReadBytes cursor (sizeof (L_GlobalPod (abi P))) with
  | None => None
  | Some (bs, cursor) =>
      match DeserializeName cursor with
      | None => None
      | Some (name, cursor) =>
          Some (mkGlobal (of_bytes (L_GlobalPod (abi P)) bs) name, cursor)
      end
  end.

Definition Global_clone (g : Global) : option Global := Some g.

(** [AsmJSModule::Exit::serializedSize], [serialize], [deserialize], [clone] *)
Definition Exit_serializedSize (e : Exit) : nat := sizeof (L_Exit (abi P)).

Definition Exit_serialize (cursor : list byte) (e : Exit) : list byte :=
  WriteBytes cursor (to_bytes (L_Exit (abi P)) e).

Definition Exit_deserialize (cursor : list byte) : option (Exit * list byte) :=
  match ReadBytes cursor (sizeof (L_Exit (abi P))) with
  | None => None
  | Some (bs, cursor) => Some (of_bytes (L_Exit (abi P)) bs, cursor)
  end.

Definition Exit_clone (e : Exit) : option Exit := Some e.

(** [AsmJSModule::ExportedFunction::serializedSize], [serialize],
    [deserialize], [clone] *)
Definition ExportedFunction_serializedSize (f : ExportedFunction) : nat :=
  (SerializedNameSize (export_name_ f) +
   SerializedNameSize (maybeFieldName_ f) +
   sizeof (L_uint32 (abi P)) +
   length (argCoercions_ f) * sizeof (L_AsmJSCoercion (abi P)) +
   sizeof (L_ExportPod (abi P)))%nat.

Definition ExportedFunction_serialize (cursor : list byte)
  (f : ExportedFunction) : list byte :=
  let cursor := SerializeName cursor (export_name_ f) in
  let cursor := SerializeName cursor (maybeFieldName_ f) in
  let cursor := SerializePodVector (L_AsmJSCoercion (abi P)) cursor
                  (argCoercions_ f) in
  WriteBytes cursor (to_bytes (L_ExportPod (abi P)) (export_pod f)).

Definition ExportedFunction_deserialize (cursor : list byte)
  : option (ExportedFunction * list byte) :=
  match DeserializeName cursor with
  | None => None
  | Some (name, cursor) =>
  match DeserializeName cursor with
  | None => None
  | Some (maybeFieldName, cursor) =>
  match DeserializePodVector (L_AsmJSCoercion (abi P)) cursor with
  | None => None
  | Some (argCoercions, cursor) =>
  match ReadBytes cursor (sizeof (L_ExportPod (abi P))) with
  | None => None
  | Some (bs, cursor) =>
      Some (mkExportedFunction name maybeFieldName argCoercions
              (of_bytes (L_ExportPod (abi P)) bs), cursor)
  end end end end.

Definition ExportedFunction_clone (f : ExportedFunction)
  : option ExportedFunction :=
  match ClonePodVector (argCoercions_ f) with
  | None => None
  | Some argCoercions =>
      Some (mkExportedFunction (export_name_ f) (maybeFieldName_ f)
              argCoercions (export_pod f))
  end.

(** [AsmJSModule::AbsoluteLinkArray::serializedSize], [serialize],
    [deserialize], [clone]: one vector per kind below [AsmJSImm_Limit]. *)
Definition AbsoluteLinkArray_serializedSize (array_ : list (list Z)) : nat :=
  fold_left (fun size v =>
               (size + SerializedPodVectorSize (L_uint32 (abi P)) v)%nat)
            array_ O.

Definition AbsoluteLinkArray_serialize (cursor : list byte)
  (array_ : list (list Z)) : list byte :=
  fold_left (SerializePodVector (L_uint32 (abi P))) array_ cursor.

(** The loop of [AbsoluteLinkArray::deserialize].  The source passes the
    cursor of one round to the next without a test; after a [nullptr] the
    next read is undefined, [None] here. *)
Fixpoint AbsoluteLinkArray_deserialize_loop (n : nat) (cursor : list byte)
  : option (list (list Z) * list byte) :=
  match n with
  | O => Some ([], cursor)
  | S n' =>
      match DeserializePodVector (L_uint32 (abi P)) cursor with
      | None => None
      | Some (v, cursor) =>
          match AbsoluteLinkArray_deserialize_loop n' cursor with
          | None => None
          | Some (vs, cursor) => Some (v :: vs, cursor)
          end
      end
  end.

Definition AbsoluteLinkArray_deserialize (cursor : list byte)
  : option (list (list Z) * list byte) :=
  AbsoluteLinkArray_deserialize_loop (AsmJSImm_Limit (arch P)) cursor.

Definition AbsoluteLinkArray_clone (array_ : list (list Z))
  : option (list (list Z)) :=
  fold_right (fun v acc =>
                match ClonePodVector v, acc with
                | Some v', Some vs => Some (v' :: vs)
                | _, _ => None
                end) (Some []) array_.

(** [AsmJSModule::StaticLinkData::serializedSize], [serialize],
    [deserialize], [clone] *)
Definition StaticLinkData_serializedSize (d : StaticLinkData) : nat :=
  (sizeof (L_uint32 (abi P)) +
   SerializedPodVectorSize (L_RelativeLink (abi P)) (relativeLinks d) +
   AbsoluteLinkArray_serializedSize (absoluteLinks d))%nat.

Definition StaticLinkData_serialize (cursor : list byte) (d : StaticLinkData)
  : list byte :=
  let cursor := WriteScalar_uint32 cursor (interruptExitOffset d) in
  let cursor := SerializePodVector (L_RelativeLink (abi P)) cursor
                  (relativeLinks d) in
  AbsoluteLinkArray_serialize cursor (absoluteLinks d).

Definition StaticLinkData_deserialize (cursor : list byte)
  : option (StaticLinkData * list byte) :=
  match ReadScalar_uint32 cursor with
  | None => None
  | Some (interruptExitOffset, cursor) =>
  match DeserializePodVector (L_RelativeLink (abi P)) cursor with
  | None => None
  | Some (relativeLinks, cursor) =>
  match AbsoluteLinkArray_deserialize cursor with
  | None => None
  | Some (absoluteLinks, cursor) =>
      Some (mkStaticLinkData interruptExitOffset relativeLinks absoluteLinks,
            cursor)
  end end end.

Definition StaticLinkData_clone (d : StaticLinkData) : option StaticLinkData :=
  match ClonePodVector (relativeLinks d) with
  | None => None
  | Some relativeLinks =>
      match AbsoluteLinkArray_clone (absoluteLinks d) with
      | None => None
      | Some absoluteLinks =>
          Some (mkStaticLinkData (interruptExitOffset d) relativeLinks
                  absoluteLinks)
      end
  end.

(** [AsmJSModule::Name::serializedSize], [serialize], [deserialize], [clone] *)
Definition Name_serializedSize (n : NamePtr) : nat := SerializedNameSize n.
Definition Name_serialize (cursor : list byte) (n : NamePtr) : list byte :=
  SerializeName cursor n.
Definition Name_deserialize (cursor : list byte)
  : option (NamePtr * list byte) := DeserializeName cursor.
Definition Name_clone (n : NamePtr) : option NamePtr := Some n.

(** [AsmJSModule::serializedSize], in a build without [MOZ_VTUNE] and
    [JS_ION_PERF] *)
Definition serializedSize (m : AsmJSModule) : nat :=
  (sizeof (L_Pod (abi P)) +
   Z.to_nat (codeBytes_ (pod m)) +
   SerializedNameSize (globalArgumentName_ m) +
   SerializedNameSize (importArgumentName_ m) +
   SerializedNameSize (bufferArgumentName_ m) +
   SerializedVectorSize Global_serializedSize (globals_ m) +
   SerializedVectorSize Exit_serializedSize (exits_ m) +
   SerializedVectorSize ExportedFunction_serializedSize (exports_ m) +
   SerializedPodVectorSize (L_CallSite (abi P)) (callSites_ m) +
   SerializedPodVectorSize (L_CodeRange (abi P)) (codeRanges_ m) +
   SerializedPodVectorSize (L_FuncPtrTable (abi P)) (funcPtrTables_ m) +
   SerializedPodVectorSize (L_uint32 (abi P)) (builtinThunkOffsets_ m) +
   SerializedVectorSize Name_serializedSize (names_ m) +
   SerializedPodVectorSize (L_HeapAccess (abi P)) (heapAccesses_ m) +
   StaticLinkData_serializedSize (staticLinkData_ m))%nat.

(** [AsmJSModule::serialize]; the code is read from the address space. *)
Definition serialize (mem : Memory) (m : AsmJSModule) (cursor : list byte)
  : list byte :=
  let cursor := WriteBytes cursor (to_bytes (L_Pod (abi P)) (pod m)) in
  let cursor := WriteBytes cursor
                  (load_bytes mem (code_ m) (Z.to_nat (codeBytes_ (pod m)))) in
  let cursor := SerializeName cursor (globalArgumentName_ m) in
  let cursor := SerializeName cursor (importArgumentName_ m) in
  let cursor := SerializeName cursor (bufferArgumentName_ m) in
  let cursor := SerializeVector Global_serialize cursor (globals_ m) in
  let cursor := SerializeVector Exit_serialize cursor (exits_ m) in
  let cursor := SerializeVector ExportedFunction_serialize cursor (exports_ m) in
  let cursor := SerializePodVector (L_CallSite (abi P)) cursor (callSites_ m) in
  let cursor := SerializePodVector (L_CodeRange (abi P)) cursor (codeRanges_ m) in
  let cursor := SerializePodVector (L_FuncPtrTable (abi P)) cursor
                  (funcPtrTables_ m) in
  let cursor := SerializePodVector (L_uint32 (abi P)) cursor
                  (builtinThunkOffsets_ m) in
  let cursor := SerializeVector Name_serialize cursor (names_ m) in
  let cursor := SerializePodVector (L_HeapAccess (abi P)) cursor
                  (heapAccesses_ m) in
  StaticLinkData_serialize cursor (staticLinkData_ m).

(** [AllocateExecutableMemory]: the address of a fresh zeroed mapping, or
    [nullptr] when the mapping fails. *)
Definition AllocateExecutableMemory (mem : Memory) (totalBytes : Z)
  : Z * Memory :=
  match cx_mmap cx with
  | None => (0, mem)
  | Some p => (p, zero_fill mem p totalBytes)
  end.

(** One link of a chain [(cursor = read(cursor, &member)) && ...]: nothing
    is read once the cursor is [nullptr]. *)
Definition and_then {A} (st : option (list byte) * AsmJSModule)
  (read : list byte -> option (A * list byte))
  (assign : AsmJSModule -> A -> AsmJSModule)
  : option (list byte) * AsmJSModule :=
  match st with
  | (Some cursor, m) =>
      match read cursor with
      | Some (a, cursor') => (Some cursor', assign m a)
      | None => (None, m)
      end
  | (None, m) => (None, m)
  end.

(** [AsmJSModule::deserialize].  When the mapping fails the chain stops with
    the cursor it has, just after [pod]. *)
Definition deserialize (m : AsmJSModule) (mem : Memory) (cursor : list byte)
  : option (list byte) * AsmJSModule * Memory :=
  match ReadBytes cursor (sizeof (L_Pod (abi P))) with
  | None => (None, set_loadedFromCache_ m true, mem)
  | Some (bs, cursor) =>
      let m := set_pod m (of_bytes (L_Pod (abi P)) bs) in
      let '(code, mem) := AllocateExecutableMemory mem (totalBytes_ (pod m)) in
      let m := set_code_ m code in
      if code =? 0 then (Some cursor, set_loadedFromCache_ m true, mem)
      else
        match ReadBytes cursor (Z.to_nat (codeBytes_ (pod m))) with
        | None => (None, set_loadedFromCache_ m true, mem)
        | Some (codeBytes, cursor) =>
            let mem := store_bytes mem code codeBytes in
            let st := (Some cursor, m) in
            let st := and_then st DeserializeName set_globalArgumentName_ in
            let st := and_then st DeserializeName set_importArgumentName_ in
            let st := and_then st DeserializeName set_bufferArgumentName_ in
            let st := and_then st (DeserializeVector Global_deserialize)
                        set_globals_ in
            let st := and_then st (DeserializeVector Exit_deserialize)
                        set_exits_ in
            let st := and_then st (DeserializeVector ExportedFunction_deserialize)
                        set_exports_ in
            let st := and_then st (DeserializePodVector (L_CallSite (abi P)))
                        set_callSites_ in
            let st := and_then st (DeserializePodVector (L_CodeRange (abi P)))
                        set_codeRanges_ in
            let st := and_then st (DeserializePodVector (L_FuncPtrTable (abi P)))
                        set_funcPtrTables_ in
            let st := and_then st (DeserializePodVector (L_uint32 (abi P)))
                        set_builtinThunkOffsets_ in
            let st := and_then st (DeserializeVector Name_deserialize)
                        set_names_ in
            let st := and_then st (DeserializePodVector (L_HeapAccess (abi P)))
                        set_heapAccesses_ in
            let st := and_then st StaticLinkData_deserialize
                        set_staticLinkData_ in
            (fst st, set_loadedFromCache_ (snd st) true, mem)
        end
  end.

End Codec.

(** ** Linking

    A function that returns nothing gives [None] when a [JS_ASSERT] of a
    debug build fails or when it dereferences [nullptr], and the new state
    otherwise. *)

Section Linking.

Variable P : Platform.

(** [JS_ASSERT(c)]: checked when [DEBUG] is defined. *)
Definition JS_ASSERT (c : bool) : bool := negb (DEBUG P) || c.

(** [AddressOf].  The three addresses of the runtime are read through [cx];
    the others are native functions.  [None]: [cx] is [nullptr] where it is
    read, or the kind is none of the enumerators of the build. *)
Definition AddressOf (kind : AsmJSImmKind) (cx : option ExclusiveContext)
  : option Z :=
  match kind with
  | AsmJSImm_Runtime => option_map runtimeAddressForJit cx
  | AsmJSImm_RuntimeInterrupt => option_map runtimeAddressOfInterrupt cx
  | AsmJSImm_StackLimit => option_map stackLimitAddressForJitCode cx
  | AsmJSImm_aeabi_idivmod | AsmJSImm_aeabi_uidivmod =>
      match arch P with
      | ARM => Some (RedirectCall P (FuncCast P kind))
      | _ => None
      end
  | _ => Some (RedirectCall P (FuncCast P kind))
  end.

(** Modelled from the spec: [Assembler::PatchDataWithValueCheck] is not
    among the sources; it "asserts (debug-only) that each target slot
    currently holds a known sentinel before patching". *)
Definition PatchDataWithValueCheck (mem : Memory) (label newValue expected : Z)
  : option Memory :=
  if JS_ASSERT (f_get (patchedData (asm P)) mem label =? expected)
  then Some (f_set (patchedData (asm P)) mem label newValue)
  else None.

(** [(void* )-1] *)
Definition minus_one : Z := SIZE_MAX P.

(** [globalData()]: the global data follows the code. *)
Definition globalData (m : AsmJSModule) : Z := code_ m + codeBytes_ (pod m).

(** The two members of [exitIndexToGlobalDatum(i)], an [ExitDatum]. *)
Definition exitDatum_exit (m : AsmJSModule) (e : Exit) : Z :=
  globalData m + exit_globalDataOffset_ e.
Definition exitDatum_fun (m : AsmJSModule) (e : Exit) : Z :=
  globalData m + exit_globalDataOffset_ e + sizeof_ptr P.

(** [interpExitTrampoline] and [ionExitTrampoline] *)
Definition interpExitTrampoline (m : AsmJSModule) (e : Exit) : Z :=
  code_ m + interpCodeOffset_ e.
Definition ionExitTrampoline (m : AsmJSModule) (e : Exit) : Z :=
  code_ m + ionCodeOffset_ e.

(** [heapDatum()] *)
Definition heapDatum (m : AsmJSModule) : Z :=
  globalData m + heapGlobalDataOffset P.

(** One pass over the offsets of one kind, patching [from] into [to]. *)
Fixpoint patch_offsets (code : Z) (offsets : list Z) (to from : Z)
  (mem : Memory) : option Memory :=
  match offsets with
  | [] => Some mem
  | off :: offsets' =>
      match PatchDataWithValueCheck mem (code + off) to from with
      | None => None
      | Some mem => patch_offsets code offsets' to from mem
      end
  end.

(** The loop [for (imm = 0; imm < AsmJSImm_Limit; imm++)] of
    [staticallyLink] and [restoreToInitialState], over the kinds with their
    offset vectors; [forward] patches the target over [-1], otherwise [-1]
    over the target. *)
Fixpoint patch_absoluteLinks (forward : bool) (cx : ExclusiveContext)
  (code : Z) (links : list (AsmJSImmKind * list Z)) (mem : Memory)
  : option Memory :=
  match links with
  | [] => Some mem
  | (imm, offsets) :: links' =>
      match AddressOf imm (Some cx) with
      | None => None
      | Some target =>
          match (if forward
                 then patch_offsets code offsets target minus_one mem
                 else patch_offsets code offsets minus_one target mem) with
          | None => None
          | Some mem => patch_absoluteLinks forward cx code links' mem
          end
      end
  end.

(** The kinds of the build with [staticLinkData_.absoluteLinks[imm]]. *)
Definition absoluteLinks_by_kind (m : AsmJSModule)
  : list (AsmJSImmKind * list Z) :=
  combine (AsmJSImmKinds (arch P)) (absoluteLinks (staticLinkData_ m)).

(** The body of the loop over [relativeLinks]. *)
Definition apply_relativeLink (code : Z) (mem : Memory) (link : RelativeLink.t)
  : Memory :=
  let patchAt := code + RelativeLink.patchAtOffset link in
  let target := code + RelativeLink.targetOffset link in
  if isRawPointerPatch P link
  then f_set (rawPointer (asm P)) mem patchAt target
  else f_set (instructionImmediate (asm P)) mem patchAt target.

(** The body of the loop over [exits_]. *)
Definition init_exitDatum (m : AsmJSModule) (mem : Memory) (e : Exit)
  : Memory :=
  let mem := f_set (rawPointer (asm P)) mem (exitDatum_exit m e)
               (interpExitTrampoline m e) in
  f_set (rawPointer (asm P)) mem (exitDatum_fun m e) 0.

(** [AsmJSModule::staticallyLink] *)
Definition staticallyLink (cx : ExclusiveContext) (m : AsmJSModule)
  (mem : Memory) : option (AsmJSModule * Memory) :=
  if negb (JS_ASSERT (isFinished m) && JS_ASSERT (negb (isStaticallyLinked m)))
  then None
  else
    let m := set_interruptExit_ m
               (code_ m + interruptExitOffset (staticLinkData_ m)) in
    let mem := fold_left (apply_relativeLink (code_ m))
                 (relativeLinks (staticLinkData_ m)) mem in
    match patch_absoluteLinks true cx (code_ m) (absoluteLinks_by_kind m) mem with
    | None => None
    | Some mem =>
        let mem := fold_left (init_exitDatum m) (exits_ m) mem in
        if JS_ASSERT (isStaticallyLinked m) then Some (m, mem) else None
    end.

(** Conversion to [int32_t]. *)
Definition int32 (z : Z) : Z :=
  let u := uint32 z in if u <? 2 ^ 31 then u else u - 2 ^ 32.

Definition INT32_MAX : Z := 2 ^ 31 - 1.

(** [usesSignalHandlersForOOB()], as the x64 build reads it. *)
Definition usesSignalHandlersForOOB (m : AsmJSModule) : bool :=
  usesSignalHandlers_ (pod m).

(** The body of the x86 loop of [initHeap]. *)
Definition initHeap_x86_access (code heapOffset heapLength : Z)
  (acc : option Memory) (access : AsmJSHeapAccess) : option Memory :=
  match acc with
  | None => None
  | Some mem =>
      let mem := if hasLengthCheck access
                 then f_set (x86Pointer (asm P)) mem (patchLengthAt access code)
                        heapLength
                 else mem in
      let addr := patchOffsetAt access code in
      let disp := uint32 (f_get (x86Pointer (asm P)) mem addr) in
      if JS_ASSERT (disp <=? INT32_MAX)
      then Some (f_set (x86Pointer (asm P)) mem addr (heapOffset + disp))
      else None
  end.

(** [AsmJSModule::initHeap] *)
Definition initHeap (heap : ArrayBufferObject) (m : AsmJSModule) (mem : Memory)
  : option (AsmJSModule * Memory) :=
  if negb (JS_ASSERT (IsValidAsmJSHeapLength P (byteLength heap)) &&
           JS_ASSERT (dynamicallyLinked_ m) &&
           JS_ASSERT (match maybeHeap_ m with None => true | Some _ => false end))
  then None
  else
    let m := set_maybeHeap_ m (Some heap) in
    let mem := f_set (rawPointer (asm P)) mem (heapDatum m) (dataPointer heap) in
    match arch P with
    | X86 =>
        let heapOffset := dataPointer heap in
        let heapLength := byteLength heap in
        match fold_left (initHeap_x86_access (code_ m) heapOffset heapLength)
                (heapAccesses_ m) (Some mem) with
        | None => None
        | Some mem => Some (m, mem)
        end
    | X64 =>
        let heapLength := int32 (byteLength heap) in
        if usesSignalHandlersForOOB m then Some (m, mem)
        else
          Some (m, fold_left
                     (fun mem access =>
                        if hasLengthCheck access
                        then f_set (x86Int32 (asm P)) mem
                               (patchLengthAt access (code_ m)) heapLength
                        else mem)
                     (heapAccesses_ m) mem)
    | ARM | MIPS =>
        let heapLength := uint32 (byteLength heap) in
        Some (m, fold_left
                   (fun mem access =>
                      f_set (boundsCheck (asm P)) mem
                        (ha_offset_ access + code_ m) heapLength)
                   (heapAccesses_ m) mem)
    | NONE => Some (m, mem)
    end.

(** The body of the x86 loop of [restoreToInitialState]. *)
Definition restore_x86_access (code ptrBase : Z) (acc : option Memory)
  (access : AsmJSHeapAccess) : option Memory :=
  match acc with
  | None => None
  | Some mem =>
      let addr := patchOffsetAt access code in
      let ptr := f_get (x86Pointer (asm P)) mem addr in
      if JS_ASSERT (ptrBase <=? ptr)
      then Some (f_set (x86Pointer (asm P)) mem addr (ptr - ptrBase))
      else None
  end.

(** [AsmJSModule::restoreToInitialState] *)
Definition restoreToInitialState (maybePrevBuffer : option ArrayBufferObject)
  (cx : ExclusiveContext) (m : AsmJSModule) (mem : Memory) : option Memory :=
  match (if DEBUG P
         then patch_absoluteLinks false cx (code_ m) (absoluteLinks_by_kind m) mem
         else Some mem) with
  | None => None
  | Some mem =>
      match maybePrevBuffer, arch P with
      | Some prev, X86 =>
          fold_left (restore_x86_access (code_ m) (dataPointer prev))
            (heapAccesses_ m) (Some mem)
      | _, _ => Some mem
      end
  end.

End Linking.

(** ** Protection and profiling *)

Section Profiling.

Variable P : Platform.

(** [AsmJSModule::protectCode], [unprotectCode]: the flag; the permissions
    of the pages are no part of the contents of memory. *)
Definition protectCode (m : AsmJSModule) : option AsmJSModule :=
  if JS_ASSERT P (isDynamicallyLinked m)
  then Some (set_codeIsProtected_ m true) else None.

Definition unprotectCode (m : AsmJSModule) : option AsmJSModule :=
  if JS_ASSERT P (isDynamicallyLinked m)
  then Some (set_codeIsProtected_ m false) else None.

(** [AsmJSModule::codeIsProtected] *)
Definition codeIsProtected (m : AsmJSModule) : option bool :=
  if JS_ASSERT P (isDynamicallyLinked m)
  then Some (codeIsProtected_ m) else None.

(** [AutoUnprotectCode::AutoUnprotectCode]: [protectedBefore_] and the
    module while the guard lives. *)
Definition AutoUnprotectCode_enter (m : AsmJSModule)
  : option (bool * AsmJSModule) :=
  match codeIsProtected m with
  | None => None
  | Some protectedBefore =>
      if protectedBefore
      then option_map (fun m' => (true, m')) (unprotectCode m)
      else Some (false, m)
  end.

(** [AutoUnprotectCode::~AutoUnprotectCode] *)
Definition AutoUnprotectCode_leave (protectedBefore : bool) (m : AsmJSModule)
  : option AsmJSModule :=
  if protectedBefore then protectCode m else Some m.

(** [v[i] = x] on a vector: [None] past its length. *)
Fixpoint vector_set {A} (v : list A) (i : nat) (x : A) : option (list A) :=
  match v, i with
  | [], _ => None
  | _ :: v', O => Some (x :: v')
  | y :: v', S i' => option_map (cons y) (vector_set v' i' x)
  end.

(** The body of the loop that makes the profiling labels. *)
Definition make_label (cx : ExclusiveContext) (m : AsmJSModule)
  (acc : option (list (option ProfilingLabel))) (cr : CodeRange.t)
  : option (list (option ProfilingLabel)) :=
  match acc with
  | None => None
  | Some labels =>
      if negb (CodeRange.isFunction cr) then Some labels
      else
        let lineno := CodeRange.lineNumber_ cr in
        let index := Z.to_nat (CodeRange.nameIndex_ cr) in
        match nth_error (names_ m) index with
        | Some (Some name) =>
            vector_set labels index
              (if cx_oom cx then None
               else Some (mkLabel (Some name) (filename (scriptSource_ m))
                            lineno))
        | _ => None
        end
  end.

(** [profilingLabels_.resize(names_.length())]; the result is not read. *)
Definition resize_labels (cx : ExclusiveContext) (m : AsmJSModule)
  : list (option ProfilingLabel) :=
  if resize_ok cx (length (names_ m))
  then firstn (length (names_ m)) (profilingLabels_ m)
       ++ repeat None (length (names_ m) - length (profilingLabels_ m))
  else profilingLabels_ m.

(** The call instruction that returns to [callerRetAddr]: how the build
    reads and rewrites its target, and the address it does so at. *)
Definition call_field (callerRetAddr : Z) : option (Field * Z) :=
  match arch P with
  | X86 | X64 => Some (rel32 (asm P), callerRetAddr)
  | ARM => Some (armBL (asm P), callerRetAddr - 4)
  | MIPS | NONE => None
  end.

(** The two assertions on a callee before it is replaced. *)
Definition callee_asserts (m : AsmJSModule) (callee profilingEntry entry : Z)
  : bool :=
  JS_ASSERT P (implb (profilingEnabled_ m) (callee =? profilingEntry)) &&
  JS_ASSERT P (implb (negb (profilingEnabled_ m)) (callee =? entry)).

(** The body of the loop over [callSites_]. *)
Definition patch_callSite (enabled : bool) (m : AsmJSModule)
  (acc : option Memory) (cs : CallSite.t) : option Memory :=
  match acc with
  | None => None
  | Some mem =>
      if negb (CallSite.Kind_eqb (CallSite.kind_ cs) CallSite.Relative)
      then Some mem
      else
        let callerRetAddr := code_ m + CallSite.returnAddressOffset_ cs in
        match call_field callerRetAddr with
        | None => None
        | Some (F, at_) =>
            let callee := f_get F mem at_ in
            match lookupCodeRange m callee with
            | None => None
            | Some codeRange =>
                if negb (CodeRange.Kind_eqb (CodeRange.kind_ codeRange)
                           CodeRange.Function)
                then Some mem
                else
                  let profilingEntry := code_ m + CodeRange.begin_ codeRange in
                  let entry := code_ m + CodeRange.entry codeRange in
                  if callee_asserts m callee profilingEntry entry
                  then
                    let newCallee := if enabled then profilingEntry else entry in
                    Some (f_set F mem at_ newCallee)
                  else None
            end
        end
  end.

(** The body of the loop over the elements of one function-pointer table;
    [slot] is the address of [array[j]]. *)
Definition patch_funcPtr (enabled : bool) (m : AsmJSModule)
  (acc : option Memory) (slot : Z) : option Memory :=
  match acc with
  | None => None
  | Some mem =>
      let callee := f_get (rawPointer (asm P)) mem slot in
      match lookupCodeRange m callee with
      | None => None
      | Some codeRange =>
          let profilingEntry := code_ m + CodeRange.begin_ codeRange in
          let entry := code_ m + CodeRange.entry codeRange in
          if callee_asserts m callee profilingEntry entry
          then Some (f_set (rawPointer (asm P)) mem slot
                       (if enabled then profilingEntry else entry))
          else None
      end
  end.

(** The addresses of [array[0 .. numElems)] of a function-pointer table. *)
Definition funcPtrTable_slots (m : AsmJSModule) (t : FuncPtrTable) : list Z :=
  map (fun j => globalData m + fpt_globalDataOffset_ t
                + Z.of_nat j * sizeof_ptr P)
      (seq 0 (numElems_ t)).

(** The body of the loop over [codeRanges_] that rewrites the epilogues. *)
Definition patch_jump (enabled : bool) (m : AsmJSModule)
  (acc : option Memory) (cr : CodeRange.t) : option Memory :=
  match acc with
  | None => None
  | Some mem =>
      if negb (CodeRange.isFunction cr) then Some mem
      else
        let jump := code_ m + CodeRange.profilingJump cr in
        let profilingEpilogue := code_ m + CodeRange.profilingEpilogue cr in
        match arch P with
        | X86 | X64 =>
            let jumpImmediate := profilingEpilogue - jump - 2 in
            if negb (JS_ASSERT P ((0 <? jumpImmediate) && (jumpImmediate <=? 127)))
            then None
            else if enabled
            then
              if JS_ASSERT P (mem jump =? 102) &&
                 JS_ASSERT P (mem (jump + 1) =? 144)
              then Some (store_byte (store_byte mem jump 235) (jump + 1)
                           (uint8 jumpImmediate))
              else None
            else
              if JS_ASSERT P (mem jump =? 235) &&
                 JS_ASSERT P (mem (jump + 1) =? jumpImmediate)
              then Some (store_byte (store_byte mem jump 102) (jump + 1) 144)
              else None
        | ARM =>
            if enabled
            then
              if JS_ASSERT P (armIsNOP (asm P) mem jump)
              then Some (f_set (armB (asm P)) mem jump profilingEpilogue)
              else None
            else
              if JS_ASSERT P (armIsBImm (asm P) mem jump)
              then Some (armWriteNOP (asm P) mem jump)
              else None
        | MIPS | NONE => None
        end
  end.

(** The body of the inner loop over the callers of one builtin. *)
Definition patch_builtin_caller (m : AsmJSModule) (to from : Z)
  (acc : option Memory) (offset : Z) : option Memory :=
  match acc with
  | None => None
  | Some mem =>
      let caller := code_ m + offset in
      match lookupCodeRange m caller with
      | None => None
      | Some codeRange =>
          if CodeRange.isThunk codeRange then Some mem
          else if JS_ASSERT P (CodeRange.isFunction codeRange)
          then PatchDataWithValueCheck P mem caller to from
          else None
      end
  end.

(** The body of the loop over the builtins. *)
Definition patch_builtin (enabled : bool) (m : AsmJSModule)
  (acc : option Memory) (builtin : nat) : option Memory :=
  match acc with
  | None => None
  | Some mem =>
      let imm := BuiltinToImmKind P builtin in
      let offsets := nth (imm_index (arch P) imm)
                         (absoluteLinks (staticLinkData_ m)) [] in
      match AddressOf P imm None, nth_error (builtinThunkOffsets_ m) builtin with
      | Some from, Some thunkOffset =>
          let to := code_ m + thunkOffset in
          let '(from, to) := if enabled then (from, to) else (to, from) in
          fold_left (patch_builtin_caller m to from) offsets (Some mem)
      | _, _ => None
      end
  end.

(** [AsmJSModule::setProfilingEnabled] *)
Definition setProfilingEnabled (enabled : bool) (cx : ExclusiveContext)
  (m : AsmJSModule) (mem : Memory) : option (AsmJSModule * Memory) :=
  if negb (JS_ASSERT P (isDynamicallyLinked m)) then None
  else if Bool.eqb (profilingEnabled_ m) enabled then Some (m, mem)
  else
    match (if enabled
           then fold_left (make_label cx m) (codeRanges_ m)
                  (Some (resize_labels cx m))
           else Some []) with
    | None => None
    | Some labels =>
        let m := set_profilingLabels_ m labels in
        match AutoUnprotectCode_enter m with
        | None => None
        | Some (protectedBefore, m) =>
            let acc := fold_left (patch_callSite enabled m) (callSites_ m)
                         (Some mem) in
            let acc := fold_left (patch_funcPtr enabled m)
                         (flat_map (funcPtrTable_slots m) (funcPtrTables_ m))
                         acc in
            let acc := fold_left (patch_jump enabled m) (codeRanges_ m) acc in
            let acc := fold_left (patch_builtin enabled m)
                         (seq 0 (Builtin_Limit P)) acc in
            match acc with
            | None => None
            | Some mem =>
                let m := set_profilingEnabled_ m enabled in
                match AutoUnprotectCode_leave protectedBefore m with
                | None => None
                | Some m => Some (m, mem)
                end
            end
        end
    end.

End Profiling.

(** ** Finishing: from the assembler's buffer to the module *)

(** What [finish] reads of the [MacroAssembler] and of the token stream. *)
Record MacroAssembler := mkMasm {
  bytesNeeded : Z;
  (** the bytes [executableCopy] writes *)
  masm_code : list byte;
  actualOffset : Z -> Z;
  labelOffsetToPatchOffset : Z -> Z;
  extractAsmJSHeapAccesses : list AsmJSHeapAccess;
  extractCallSites : list CallSite.t;
  (** [asmJSAbsoluteLink(i)]: the target and [patchAt.offset()] *)
  asmJSAbsoluteLinks : list (AsmJSImmKind * Z);
  (** [codeLabel(i)]: [dest()->offset()] and [src()->offset()] *)
  codeLabels : list (Z * Z);
  (** [asmJSGlobalAccess(i)]: [patchAt.offset()] and [globalDataOffset] *)
  asmJSGlobalAccesses : list (Z * Z);
  longJumps : list Z;
  (** [patchAsmJSGlobalAccess(patchAt, code, globalData, globalDataOffset)] *)
  patchAsmJSGlobalAccess : Memory -> Z -> Z -> Z -> Z -> Memory;
  (** [ExportedFunction::updateCodeOffset] and [Exit::updateOffsets] *)
  updateCodeOffset : ExportedFunction -> ExportedFunction;
  updateOffsets : Exit -> Exit
}.

Record TokenStream := mkTokenStream {
  (** [currentToken().pos.end] and [peekTokenPos().end] *)
  endBeforeCurly : Z;
  endAfterCurly : Z
}.

(** What a function that returns [bool] or a pointer did: it stopped on a
    failed assertion or on undefined behaviour, it returned [false] or
    [nullptr], or it returned [true] with a new state. *)
Inductive Result (A : Type) :=
| Crashed
| Failed
| Done (a : A).
Arguments Crashed {A}.
Arguments Failed {A}.
Arguments Done {A} _.

Definition is_Done {A} (r : Result A) : bool :=
  match r with
  | Done _ => true
  | _ => false
  end.

Section Finish.

Variable P : Platform.

(** Modelled from the spec: [AlignBytes] is not among the sources; [finish]
    "computes [codeBytes] (aligned ...) and [totalBytes] (aligned to page
    size)", that is, rounds up to the next multiple of the alignment. *)
Definition AlignBytes (bytes alignment : Z) : Z :=
  bytes + (alignment - bytes mod alignment) mod alignment.

(** [sizeof(double)] *)
Definition sizeof_double : Z := 8.

(** [Vector::append]: fails when the allocator does. *)
Definition append {A} (cx : ExclusiveContext) (v : list A) (x : A)
  : option (list A) :=
  if cx_oom cx then None else Some (v ++ [x]).

(** [absoluteLinks[src.target].append(..)] *)
Fixpoint append_absoluteLink (links : list (list Z)) (index : nat) (off : Z)
  : list (list Z) :=
  match links, index with
  | [], _ => []
  | v :: links', O => (v ++ [off]) :: links'
  | v :: links', S i => v :: append_absoluteLink links' i off
  end.

(** The uses of one code label: a list threaded through the immediates to
    be patched, followed while the offset is valid.  [fuel] bounds the walk
    by the number of bytes of code; a longer chain has a cycle, on which the
    source does not return. *)
Fixpoint codeLabel_links (fuel : nat) (masm : MacroAssembler) (mem : Memory)
  (code : Z) (labelOffset targetOffset : Z) : option (list RelativeLink.t) :=
  if labelOffset =? INVALID_OFFSET P then Some []
  else
    match fuel with
    | O => None
    | S fuel' =>
        let patchAtOffset := labelOffsetToPatchOffset masm labelOffset in
        let link := RelativeLink.mk RelativeLink.CodeLabel patchAtOffset
                      targetOffset in
        match codeLabel_links fuel' masm mem code
                (ExtractCodeLabelOffset (asm P) mem (code + patchAtOffset))
                targetOffset with
        | None => None
        | Some links => Some (link :: links)
        end
    end.

(** The relative links of all code labels. *)
Fixpoint codeLabels_links (masm : MacroAssembler) (mem : Memory) (code : Z)
  (fuel : nat) (labels : list (Z * Z)) : option (list RelativeLink.t) :=
  match labels with
  | [] => Some []
  | (dest, src) :: labels' =>
      match codeLabel_links fuel masm mem code dest (actualOffset masm src),
            codeLabels_links masm mem code fuel labels' with
      | Some l, Some ls => Some (l ++ ls)
      | _, _ => None
      end
  end.

(** The offsets [finish] corrects on ARM. *)
Definition finish_ARM_offsets (masm : MacroAssembler) (m : AsmJSModule)
  : AsmJSModule :=
  let m := set_pod m (pod_set_functionBytes_ (pod m)
                        (actualOffset masm (functionBytes_ (pod m)))) in
  let m := set_heapAccesses_ m
             (map (fun a => mkHeapAccess (actualOffset masm (ha_offset_ a))
                              (cmpDelta_ a) (opLength_ a))
                  (heapAccesses_ m)) in
  let m := set_exports_ m (map (updateCodeOffset masm) (exports_ m)) in
  let m := set_exits_ m (map (updateOffsets masm) (exits_ m)) in
  let m := set_callSites_ m
             (map (fun c => CallSite.mk
                              (actualOffset masm (CallSite.returnAddressOffset_ c))
                              (CallSite.kind_ c))
                  (callSites_ m)) in
  let m := set_codeRanges_ m
             (map (CodeRange.updateOffsets (actualOffset masm)) (codeRanges_ m)) in
  set_builtinThunkOffsets_ m (map (actualOffset masm) (builtinThunkOffsets_ m)).

(** [codeRanges_[i - 1].end() <= codeRanges_[i].begin()] for every [i > 0],
    asserted in the ARM loop. *)
Fixpoint neighbours_ordered (rs : list CodeRange.t) : bool :=
  match rs with
  | r1 :: ((r2 :: _) as rs') =>
      (CodeRange.end_ r1 <=? CodeRange.begin_ r2) && neighbours_ordered rs'
  | _ => true
  end.

(** [AsmJSModule::finish] in a build without [MOZ_VTUNE] and [JS_ION_PERF].
    The result is the module and the memory; after [Failed] the module is
    destroyed by the caller.  When the allocator is exhausted the first
    [append] fails, so only whether there is a link to append is computed. *)
Definition finish (cx : ExclusiveContext) (tokenStream : TokenStream)
  (masm : MacroAssembler) (interruptLabel : Z) (m : AsmJSModule)
  (mem : Memory) : Result (AsmJSModule * Memory) :=
  if negb (JS_ASSERT P (isFinishedWithFunctionBodies m && negb (isFinished m)) &&
           JS_ASSERT P (srcBodyStart_ m <=? endBeforeCurly tokenStream) &&
           JS_ASSERT P (srcBodyStart_ m <=? endAfterCurly tokenStream))
  then Crashed
  else
    let p := pod m in
    let p := pod_set_srcLength_ p
               (uint32 (endBeforeCurly tokenStream - srcStart_ m)) in
    let p := pod_set_srcLengthWithRightBrace_ p
               (uint32 (endAfterCurly tokenStream - srcStart_ m)) in
    let p := pod_set_codeBytes_ p
               (uint32 (AlignBytes (bytesNeeded masm) sizeof_double)) in
    let p := pod_set_totalBytes_ p
               (uint32 (AlignBytes (codeBytes_ p + globalDataBytes P p)
                                   (AsmJSPageSize P))) in
    let m := set_pod m p in
    if negb (JS_ASSERT P (totalBytes_ p mod AsmJSPageSize P =? 0)) then Crashed
    else
    let '(code, mem) := AllocateExecutableMemory cx mem (totalBytes_ p) in
    let m := set_code_ m code in
    if code =? 0 then Failed
    else if negb (JS_ASSERT P (code mod AsmJSPageSize P =? 0)) then Crashed
    else
      let mem := store_bytes mem code (masm_code masm) in
      let m := set_staticLinkData_ m
                 (mkStaticLinkData (actualOffset masm interruptLabel)
                    (relativeLinks (staticLinkData_ m))
                    (absoluteLinks (staticLinkData_ m))) in
      let m := set_heapAccesses_ m (extractAsmJSHeapAccesses masm) in
      let m := set_callSites_ m (extractCallSites masm) in
      let m := match arch P with ARM => finish_ARM_offsets masm m | _ => m end in
      if negb (JS_ASSERT P (match arch P with
                            | ARM => neighbours_ordered (codeRanges_ m)
                            | _ => true
                            end) &&
               JS_ASSERT P (functionBytes_ (pod m) mod AsmJSPageSize P =? 0))
      then Crashed
      else if cx_oom cx && negb (Nat.eqb (length (asmJSAbsoluteLinks masm)) 0)
      then Failed
      else
        let absolute :=
          fold_left (fun links src =>
                       append_absoluteLink links (imm_index (arch P) (fst src))
                         (actualOffset masm (snd src)))
                    (asmJSAbsoluteLinks masm)
                    (absoluteLinks (staticLinkData_ m)) in
        match (if cx_oom cx
               then Some (if existsb (fun l => negb (fst l =? INVALID_OFFSET P))
                               (codeLabels masm)
                          then [RelativeLink.mk RelativeLink.CodeLabel 0 0]
                          else [])
               else codeLabels_links masm mem code (length (masm_code masm))
                      (codeLabels masm)) with
        | None => Crashed
        | Some labelLinks =>
            let x86Links :=
              match arch P with
              | X86 =>
                  map (fun a => RelativeLink.mk RelativeLink.InstructionImmediate
                                  (labelOffsetToPatchOffset masm (fst a))
                                  (codeBytes_ (pod m) + snd a))
                      (asmJSGlobalAccesses masm)
              | _ => []
              end in
            let mipsLinks :=
              match arch P with
              | MIPS =>
                  map (fun j => RelativeLink.mk RelativeLink.InstructionImmediate j
                                  (ExtractLuiOriValue (asm P) mem (code + j)
                                   - uint32 code))
                      (longJumps masm)
              | _ => []
              end in
            let newLinks := labelLinks ++ x86Links ++ mipsLinks in
            if cx_oom cx && negb (Nat.eqb (length newLinks) 0) then Failed
            else
              let m := set_staticLinkData_ m
                         (mkStaticLinkData
                            (interruptExitOffset (staticLinkData_ m))
                            (relativeLinks (staticLinkData_ m) ++ newLinks)
                            absolute) in
              let mem :=
                match arch P with
                | X64 =>
                    fold_left (fun mem a =>
                                 patchAsmJSGlobalAccess masm mem (fst a) code
                                   (globalData m) (snd a))
                              (asmJSGlobalAccesses masm) mem
                | _ => mem
                end in
              Done (m, mem)
        end.

End Finish.

(** ** Cloning *)

Section Clone.

Variable P : Platform.

(** [AsmJSModule::clone].  [moduleOut] is the second component; the first
    is the module cloned, whose protection flag the guard has toggled and
    restored. *)
Definition clone (cx : ExclusiveContext) (m : AsmJSModule) (mem : Memory)
  : Result (AsmJSModule * AsmJSModule * Memory) :=
  match AutoUnprotectCode_enter P m with
  | None => Crashed
  | Some (protectedBefore, m) =>
      if cx_oom cx then Failed
      else
        let out := AsmJSModule_new P (scriptSource_ m) (srcStart_ m)
                     (srcBodyStart_ m) (strict_ (pod m))
                     (usesSignalHandlers_ (pod m)) in
        let out := set_pod out (pod m) in
        let '(code, mem) :=
          AllocateExecutableMemory cx mem (totalBytes_ (pod m)) in
        let out := set_code_ out code in
        if code =? 0 then Failed
        else
          let mem := memcpy mem (code_ out) (code_ m)
                       (Z.to_nat (codeBytes_ (pod m))) in
          let out := set_globalArgumentName_ out (globalArgumentName_ m) in
          let out := set_importArgumentName_ out (importArgumentName_ m) in
          let out := set_bufferArgumentName_ out (bufferArgumentName_ m) in
          match CloneVector cx Global_clone (globals_ m),
                CloneVector cx Exit_clone (exits_ m),
                CloneVector cx (ExportedFunction_clone cx) (exports_ m),
                ClonePodVector cx (callSites_ m),
                ClonePodVector cx (codeRanges_ m),
                ClonePodVector cx (funcPtrTables_ m),
                ClonePodVector cx (builtinThunkOffsets_ m),
                CloneVector cx Name_clone (names_ m),
                ClonePodVector cx (heapAccesses_ m),
                StaticLinkData_clone cx (staticLinkData_ m) with
          | Some globals, Some exits, Some exports, Some callSites,
            Some codeRanges, Some funcPtrTables, Some builtinThunkOffsets,
            Some names, Some heapAccesses, Some staticLinkData =>
              let out := set_globals_ out globals in
              let out := set_exits_ out exits in
              let out := set_exports_ out exports in
              let out := set_callSites_ out callSites in
              let out := set_codeRanges_ out codeRanges in
              let out := set_funcPtrTables_ out funcPtrTables in
              let out := set_builtinThunkOffsets_ out builtinThunkOffsets in
              let out := set_names_ out names in
              let out := set_heapAccesses_ out heapAccesses in
              let out := set_staticLinkData_ out staticLinkData in
              let out := set_loadedFromCache_ out (loadedFromCache_ m) in
              let out := set_profilingEnabled_ out (profilingEnabled_ m) in
              match restoreToInitialState P (maybeHeap_ m) cx out mem with
              | None => Crashed
              | Some mem =>
                  match AutoUnprotectCode_leave P protectedBefore m with
                  | None => Crashed
                  | Some m => Done (m, out, mem)
                  end
              end
          | _, _, _, _, _, _, _, _, _, _ => Failed
          end
  end.

End Clone.

(** ** The persistent cache *)

(** [MachineId] *)
Record MachineId := mkMachineId {
  cpuId_ : Z;
  buildId_ : list Z
}.

(** What the cache reads of the parser: the characters of the source from
    [rawBase()] to [rawLimit()], the function being parsed and the token
    stream's positions. *)
Record AsmJSParser := mkParser {
  rawChars : list Z;
  (** [pc->maybeFunction->pn_pos.begin] and [tokenStream.peekTokenPos().end] *)
  pn_pos_begin : Z;
  peekTokenPos_end : Z;
  isFunctionConstructorBody : bool;
  (** the names of [FunctionArgsList(pc->maybeFunction, &numArgs)] *)
  FunctionArgsList : list PropertyName;
  parser_ss : ScriptSource;
  (** [pc->maybeFunction->pn_body->pn_pos.begin], [currentToken().pos.end] *)
  pn_body_begin : Z;
  currentToken_end : Z;
  sc_strict : bool;
  hasExplicitUseStrict : bool;
  installedFile : bool
}.

(** [ModuleCharsForStore] *)
Record ModuleCharsForStore := mkCharsForStore {
  store_isFunCtor_ : Z;
  store_funCtorArgs_ : list NamePtr;
  uncompressedSize_ : Z;
  compressedSize_ : Z;
  compressedBuffer_ : list byte
}.

(** [ModuleCharsForLookup] *)
Record ModuleCharsForLookup := mkCharsForLookup {
  lookup_isFunCtor_ : Z;
  lookup_funCtorArgs_ : list NamePtr;
  chars_ : list Z
}.

(** What [LookupAsmJSModuleInCache] found: nothing usable, or a module,
    with the memory it lives in and the position the token stream is
    advanced to. *)
Inductive LookupOutcome :=
| Miss
| Hit (module : AsmJSModule) (mem : Memory) (advanceTo : Z).

Definition is_Hit (r : Result LookupOutcome) : bool :=
  match r with
  | Done (Hit _ _ _) => true
  | _ => false
  end.

Section Cache.

Variable P : Platform.

Definition ARCH_BITS : Z := 3.

(** [GetCPUID] *)
Definition GetCPUID : option Z :=
  match arch P with
  | X86 => Some (uint32 (Z.lor 1 (Z.shiftl (cpuFlags P) ARCH_BITS)))
  | X64 => Some (uint32 (Z.lor 2 (Z.shiftl (cpuFlags P) ARCH_BITS)))
  | ARM => Some (uint32 (Z.lor 3 (Z.shiftl (cpuFlags P) ARCH_BITS)))
  | MIPS => Some (uint32 (Z.lor 4 (Z.shiftl (cpuFlags P) ARCH_BITS)))
  | NONE => None
  end.

(** [MachineId::extractCurrentState] *)
Definition extractCurrentState (cx : ExclusiveContext) : option MachineId :=
  match cacheOps_buildId cx with
  | None => None
  | Some None => None
  | Some (Some buildId) =>
      match GetCPUID with
      | None => None
      | Some cpuId => Some (mkMachineId cpuId buildId)
      end
  end.

(** [MachineId::serializedSize], [serialize], [deserialize] *)
Definition MachineId_serializedSize (id : MachineId) : nat :=
  (sizeof (L_uint32 (abi P)) +
   SerializedPodVectorSize P (L_char (abi P)) (buildId_ id))%nat.

Definition MachineId_serialize (cursor : list byte) (id : MachineId)
  : list byte :=
  let cursor := WriteScalar_uint32 P cursor (cpuId_ id) in
  SerializePodVector P (L_char (abi P)) cursor (buildId_ id).

Definition MachineId_deserialize (cx : ExclusiveContext) (cursor : list byte)
  : option (MachineId * list byte) :=
  match ReadScalar_uint32 P cursor with
  | None => None
  | Some (cpuId, cursor) =>
      match DeserializePodVector P cx (L_char (abi P)) cursor with
      | None => None
      | Some (buildId, cursor) => Some (mkMachineId cpuId buildId, cursor)
      end
  end.

(** [PodEqual] on two arrays of characters or bytes *)
Fixpoint PodEqual (a b : list Z) : bool :=
  match a, b with
  | [], [] => true
  | x :: a', y :: b' => (x =? y) && PodEqual a' b'
  | _, _ => false
  end.

(** [MachineId::operator==] *)
Definition MachineId_eq (lhs rhs : MachineId) : bool :=
  (cpuId_ lhs =? cpuId_ rhs) &&
  Nat.eqb (length (buildId_ lhs)) (length (buildId_ rhs)) &&
  PodEqual (buildId_ lhs) (firstn (length (buildId_ lhs)) (buildId_ rhs)).

(** [PropertyNameWrapper::serializedSize], [serialize], [deserialize] are
    those of the name. *)

(** [ModuleChars::beginOffset], [endOffset] *)
Definition beginOffset (parser : AsmJSParser) : Z := pn_pos_begin parser.
Definition endOffset (parser : AsmJSParser) : Z := peekTokenPos_end parser.

(** The characters of the source in [[from, to)]. *)
Definition source_chars (parser : AsmJSParser) (from to : Z) : list Z :=
  firstn (Z.to_nat (to - from)) (skipn (Z.to_nat from) (rawChars parser)).

(** [ModuleCharsForStore::init] *)
Definition ModuleCharsForStore_init (cx : ExclusiveContext)
  (parser : AsmJSParser) : Result ModuleCharsForStore :=
  if negb (JS_ASSERT P (beginOffset parser <? endOffset parser)) then Crashed
  else
    let uncompressedSize :=
      uint32 ((endOffset parser - beginOffset parser)
              * Z.of_nat (sizeof (L_jschar (abi P)))) in
    let maxCompressedSize := LZ4_maxCompressedSize P uncompressedSize in
    if maxCompressedSize <? uncompressedSize then Failed
    else if negb (resize_ok cx (Z.to_nat maxCompressedSize)) then Failed
    else
      let source :=
        firstn (Z.to_nat uncompressedSize)
          (array_to_bytes (L_jschar (abi P))
             (skipn (Z.to_nat (beginOffset parser)) (rawChars parser))) in
      let compressed := LZ4_compress P source in
      let compressedSize := Z.of_nat (length compressed) in
      if (compressedSize =? 0) || (UINT32_MAX <? compressedSize) then Failed
      else
        let isFunCtor := isFunctionConstructorBody parser in
        if isFunCtor && cx_oom cx &&
           negb (Nat.eqb (length (FunctionArgsList parser)) 0)
        then Failed
        else
          Done (mkCharsForStore (Z.b2z isFunCtor)
                  (if isFunCtor then map Some (FunctionArgsList parser) else [])
                  uncompressedSize compressedSize compressed).

(** [ModuleCharsForStore::serializedSize], [serialize] *)
Definition ModuleCharsForStore_serializedSize (c : ModuleCharsForStore) : nat :=
  (sizeof (L_uint32 (abi P)) +
   sizeof (L_uint32 (abi P)) +
   Z.to_nat (compressedSize_ c) +
   sizeof (L_uint32 (abi P)) +
   (if Z.eqb (store_isFunCtor_ c) 0 then 0
    else SerializedVectorSize P (SerializedNameSize P) (store_funCtorArgs_ c)))%nat.

Definition ModuleCharsForStore_serialize (cursor : list byte)
  (c : ModuleCharsForStore) : list byte :=
  let cursor := WriteScalar_uint32 P cursor (uncompressedSize_ c) in
  let cursor := WriteScalar_uint32 P cursor (compressedSize_ c) in
  let cursor := WriteBytes cursor
                  (firstn (Z.to_nat (compressedSize_ c)) (compressedBuffer_ c)) in
  let cursor := WriteScalar_uint32 P cursor (store_isFunCtor_ c) in
  if store_isFunCtor_ c =? 0 then cursor
  else SerializeVector P (SerializeName P) cursor (store_funCtorArgs_ c).

(** [ModuleCharsForLookup::deserialize]: the object read and the cursor
    returned.  [None] is a [nullptr], after which the object is what
    [ModuleCharsForLookup_deserialize_nullptr] below gives, or a read past
    the end of the entry. *)
Definition ModuleCharsForLookup_deserialize (cx : ExclusiveContext)
  (cursor : list byte) : option (ModuleCharsForLookup * list byte) :=
  match ReadScalar_uint32 P cursor with
  | None => None
  | Some (uncompressedSize, cursor) =>
  match ReadScalar_uint32 P cursor with
  | None => None
  | Some (compressedSize, cursor) =>
      let nchars := Z.to_nat (uncompressedSize
                              / Z.of_nat (sizeof (L_jschar (abi P)))) in
      if negb (resize_ok cx nchars) then None
      else
        match LZ4_decompress P cursor (Z.to_nat uncompressedSize) with
        | None => None
        | Some dest =>
            let chars := array_of_bytes (L_jschar (abi P)) nchars dest in
            match ReadBytes cursor (Z.to_nat compressedSize) with
            | None => None
            | Some (_, cursor) =>
                match ReadScalar_uint32 P cursor with
                | None => None
                | Some (isFunCtor, cursor) =>
                    if isFunCtor =? 0
                    then Some (mkCharsForLookup isFunCtor [] chars, cursor)
                    else
                      match DeserializeVector P cx (DeserializeName P cx)
                              cursor with
                      | None => None
                      | Some (args, cursor) =>
                          Some (mkCharsForLookup isFunCtor args chars, cursor)
                      end
                end
            end
        end
  end end.

(** The loop of [match] over the formals. *)
Fixpoint args_match (funCtorArgs : list NamePtr) (args : list PropertyName)
  : bool :=
  match funCtorArgs, args with
  | [], _ => true
  | Some n :: funCtorArgs', a :: args' =>
      PodEqual (name_chars n) (name_chars a) &&
      Bool.eqb (hasLatin1Chars n) (hasLatin1Chars a) &&
      args_match funCtorArgs' args'
  | _, _ => false
  end.

(** [ModuleCharsForLookup::match]; [None] when the assertion fails. *)
Definition ModuleCharsForLookup_match (c : ModuleCharsForLookup)
  (parser : AsmJSParser) : option bool :=
  let parseBegin := beginOffset parser in
  let parseLimit := Z.of_nat (length (rawChars parser)) in
  if negb (JS_ASSERT P (parseBegin <=? parseLimit)) then None
  else if uint32 (parseLimit - parseBegin) <? Z.of_nat (length (chars_ c))
  then Some false
  else if negb (PodEqual (chars_ c)
                  (firstn (length (chars_ c))
                     (skipn (Z.to_nat parseBegin) (rawChars parser))))
  then Some false
  else if negb (lookup_isFunCtor_ c =? Z.b2z (isFunctionConstructorBody parser))
  then Some false
  else if negb (lookup_isFunCtor_ c =? 0)
  then
    if negb (parseBegin + Z.of_nat (length (chars_ c)) =? parseLimit)
    then Some false
    else if negb (Nat.eqb (length (lookup_funCtorArgs_ c))
                    (length (FunctionArgsList parser)))
    then Some false
    else Some (args_match (lookup_funCtorArgs_ c) (FunctionArgsList parser))
  else Some true.

(** [ModuleCharsForLookup::deserialize] when it returns [nullptr]: the
    object it leaves.  [isFunCtor_] has no initializer and is indeterminate
    until it is read from the entry; the characters are none when [resize]
    failed, and what the failed [decompress] left; the formals are none
    when their [resize] failed, which is the one way [DeserializeVector]
    returns [nullptr] here.  [None] when [deserialize] does not return
    [nullptr]: it returns a cursor, or reads past the end of the entry. *)
Definition ModuleCharsForLookup_deserialize_nullptr (cx : ExclusiveContext)
  (cursor : list byte) : option ModuleCharsForLookup :=
  match ReadScalar_uint32 P cursor with
  | None => None
  | Some (uncompressedSize, cursor) =>
  match ReadScalar_uint32 P cursor with
  | None => None
  | Some (compressedSize, cursor) =>
      let nchars := Z.to_nat (uncompressedSize
                              / Z.of_nat (sizeof (L_jschar (abi P)))) in
      if negb (resize_ok cx nchars)
      then Some (mkCharsForLookup (indeterminate_uint32 P) [] [])
      else
        match LZ4_decompress P cursor (Z.to_nat uncompressedSize) with
        | None =>
            let dest := LZ4_decompress_failed P cursor
                          (Z.to_nat uncompressedSize) in
            Some (mkCharsForLookup (indeterminate_uint32 P) []
                    (array_of_bytes (L_jschar (abi P)) nchars dest))
        | Some dest =>
            let chars := array_of_bytes (L_jschar (abi P)) nchars dest in
            match ReadBytes cursor (Z.to_nat compressedSize) with
            | None => None
            | Some (_, cursor) =>
                match ReadScalar_uint32 P cursor with
                | None => None
                | Some (isFunCtor, cursor) =>
                    if isFunCtor =? 0 then None
                    else
                      match ReadScalar_uint32 P cursor with
                      | None => None
                      | Some (length_, _) =>
                          if resize_ok cx (Z.to_nat length_) then None
                          else Some (mkCharsForLookup isFunCtor [] chars)
                      end
                end
            end
        end
  end end.

(** [js::StoreAsmJSModuleInCache]: the bytes written to the entry. *)
Definition StoreAsmJSModuleInCache (parser : AsmJSParser) (module : AsmJSModule)
  (mem : Memory) (cx : ExclusiveContext) : Result (list byte) :=
  if negb (Nat.eqb (numFunctionCounts module) 0) then Failed
  else
    match extractCurrentState cx with
    | None => Failed
    | Some machineId =>
        match ModuleCharsForStore_init cx parser with
        | Crashed => Crashed
        | Failed => Failed
        | Done moduleChars =>
            let serializedSize_ :=
              (MachineId_serializedSize machineId +
               ModuleCharsForStore_serializedSize moduleChars +
               serializedSize P module)%nat in
            match cacheOps_openEntryForWrite cx with
            | None => Failed
            | Some open =>
                if negb (open serializedSize_) then Failed
                else
                  let cursor := [] in
                  let cursor := MachineId_serialize cursor machineId in
                  let cursor := ModuleCharsForStore_serialize cursor moduleChars in
                  let cursor := serialize P mem module cursor in
                  if JS_ASSERT P (Nat.eqb (length cursor) serializedSize_)
                  then Done cursor else Crashed
            end
        end
    end.

(** [srcEndBeforeCurly()] *)
Definition srcEndBeforeCurly (m : AsmJSModule) : Z :=
  srcStart_ m + srcLength_ (pod m).

(** [js::LookupAsmJSModuleInCache]: [Failed] is [return false], [Done Miss]
    is [return true] with [moduleOut] left empty.  The cursor that
    [moduleChars.deserialize] returns is not tested: after a [nullptr],
    [match] is called on what [deserialize] left, and when it matches, the
    module is allocated and [module->deserialize] reads from [nullptr]. *)
Definition LookupAsmJSModuleInCache (cx : ExclusiveContext)
  (parser : AsmJSParser) (mem : Memory) : Result LookupOutcome :=
  match extractCurrentState cx with
  | None => Done Miss
  | Some machineId =>
  match cacheOps_openEntryForRead cx with
  | None => Done Miss
  | Some None => Done Miss
  | Some (Some entry) =>
  match MachineId_deserialize cx entry with
  | None => Failed
  | Some (cachedMachineId, cursor) =>
      if negb (MachineId_eq machineId cachedMachineId) then Done Miss
      else
        match ModuleCharsForLookup_deserialize cx cursor with
        | None =>
            match ModuleCharsForLookup_deserialize_nullptr cx cursor with
            | None => Crashed
            | Some moduleChars =>
                match ModuleCharsForLookup_match moduleChars parser with
                | None => Crashed
                | Some false => Done Miss
                | Some true => if cx_oom cx then Failed else Crashed
                end
            end
        | Some (moduleChars, cursor) =>
            match ModuleCharsForLookup_match moduleChars parser with
            | None => Crashed
            | Some false => Done Miss
            | Some true =>
              let srcStart := pn_body_begin parser in
              let srcBodyStart := currentToken_end parser in
              let strict := sc_strict parser
                            && negb (hasExplicitUseStrict parser) in
              if cx_oom cx then Failed
              else
                let module := AsmJSModule_new P (parser_ss parser) srcStart
                                srcBodyStart strict false in
                let '(cursor, module, mem) :=
                  deserialize P cx module mem cursor in
                if negb (JS_ASSERT P (isFinished module)) then Crashed
                else
                  match cursor with
                  | None => Failed
                  | Some cursor =>
                      let atEnd := Nat.eqb (length cursor) 0 in
                      if negb (JS_ASSERT P atEnd) then Crashed
                      else if negb atEnd then Done Miss
                      else
                        match staticallyLink P cx module mem with
                        | None => Crashed
                        | Some (module, mem) =>
                            Done (Hit module mem (srcEndBeforeCurly module))
                        end
                  end
            end
        end
  end end end.

End Cache.

(** ** An instance of the platform: a little-endian x86 build

    The layouts and the fields of instructions below are those of a
    little-endian machine with 32-bit pointers; the examples and the
    instances of the theorems are computed on it. *)

Module LittleEndian.

(** The [n] bytes of a value, least significant first. *)
Fixpoint le_bytes (n : nat) (v : Z) : list byte :=
  match n with
  | O => []
  | S n' => v mod 256 :: le_bytes n' (v / 256)
  end.

(** The value of bytes, least significant first. *)
Fixpoint le_value (bs : list byte) : Z :=
  match bs with
  | [] => 0
  | b :: bs' => b + 256 * le_value bs'
  end.

(** An unsigned integer of [n] bytes. *)
Definition le_layout (n : nat) : Layout Z :=
  mkLayout Z n (le_bytes n) le_value
    (fun v => 0 <= v < 2 ^ (8 * Z.of_nat n)).

(** A record of [n] 32-bit words. *)
Definition words_layout {T} (n : nat) (proj : T -> list Z)
  (build : list Z -> T) : Layout T :=
  mkLayout T (n * 4)
    (fun x => array_to_bytes (le_layout 4) (firstn n (proj x ++ repeat 0 n)))
    (fun bs => build (array_of_bytes (le_layout 4) n bs))
    (fun x => Forall (fun v => 0 <= v < 2 ^ 32) (proj x)).

(** An object kept as its [n] bytes. *)
Definition rep_layout {T} (n : nat) (rep : T -> list byte)
  (mk : list byte -> T) : Layout T :=
  mkLayout T n (fun x => firstn n (rep x ++ repeat 0 n)) mk
    (fun x => length (rep x) = n).

Definition w (l : list Z) (i : nat) : Z := nth i l 0.

Definition Pod_layout : Layout Pod :=
  words_layout 9
    (fun p => [funcPtrTableAndExitBytes_ p; functionBytes_ p; codeBytes_ p;
               totalBytes_ p; minHeapLength_ p; Z.b2z (strict_ p);
               Z.b2z (usesSignalHandlers_ p); srcLength_ p;
               srcLengthWithRightBrace_ p])
    (fun l => mkPod (w l 0) (w l 1) (w l 2) (w l 3) (w l 4)
                (negb (w l 5 =? 0)) (negb (w l 6 =? 0)) (w l 7) (w l 8)).

Definition Exit_layout : Layout Exit :=
  words_layout 3
    (fun e => [exit_globalDataOffset_ e; interpCodeOffset_ e; ionCodeOffset_ e])
    (fun l => mkExit (w l 0) (w l 1) (w l 2)).

Definition CallSite_layout : Layout CallSite.t :=
  words_layout 2
    (fun c => [CallSite.returnAddressOffset_ c;
               match CallSite.kind_ c with
               | CallSite.Relative => 0
               | CallSite.External => 1
               end])
    (fun l => CallSite.mk (w l 0)
                (if w l 1 =? 0 then CallSite.Relative else CallSite.External)).

Definition CodeRange_layout : Layout CodeRange.t :=
  words_layout 10
    (fun r => [CodeRange.nameIndex_ r; CodeRange.lineNumber_ r;
               CodeRange.begin_ r; CodeRange.profilingReturn_ r;
               CodeRange.end_ r;
               match CodeRange.kind_ r with
               | CodeRange.Function => 0
               | CodeRange.Entry => 1
               | CodeRange.Inline => 2
               | CodeRange.Thunk => 3
               end;
               CodeRange.beginToEntry_ r;
               CodeRange.profilingJumpToProfilingReturn_ r;
               CodeRange.profilingEpilogueToProfilingReturn_ r;
               CodeRange.target_ r])
    (fun l => CodeRange.mk (w l 0) (w l 1) (w l 2) (w l 3) (w l 4)
                (if w l 5 =? 0 then CodeRange.Function
                 else if w l 5 =? 1 then CodeRange.Entry
                 else if w l 5 =? 2 then CodeRange.Inline
                 else CodeRange.Thunk)
                (w l 6) (w l 7) (w l 8) (w l 9)).

Definition FuncPtrTable_layout : Layout FuncPtrTable :=
  words_layout 2
    (fun t => [fpt_globalDataOffset_ t; Z.of_nat (numElems_ t)])
    (fun l => mkFuncPtrTable (w l 0) (Z.to_nat (w l 1))).

Definition HeapAccess_layout : Layout AsmJSHeapAccess :=
  words_layout 3
    (fun a => [ha_offset_ a; cmpDelta_ a; opLength_ a])
    (fun l => mkHeapAccess (w l 0) (w l 1) (w l 2)).

Definition RelativeLink_layout : Layout RelativeLink.t :=
  words_layout 3
    (fun k => [match RelativeLink.kind_ k with
               | RelativeLink.CodeLabel => 0
               | RelativeLink.InstructionImmediate => 1
               | RelativeLink.RawPointer => 2
               end;
               RelativeLink.patchAtOffset k; RelativeLink.targetOffset k])
    (fun l => RelativeLink.mk
                (if w l 0 =? 0 then RelativeLink.CodeLabel
                 else if w l 0 =? 1 then RelativeLink.InstructionImmediate
                 else RelativeLink.RawPointer)
                (w l 1) (w l 2)).

Definition le_abi : ABI :=
  mkABI (le_layout 4) (le_layout 1) (le_layout 2) (le_layout 1)
    Pod_layout
    (rep_layout 8 global_pod_rep mkGlobalPod)
    Exit_layout
    (rep_layout 8 export_pod_rep mkExportPod)
    (le_layout 4)
    CallSite_layout CodeRange_layout FuncPtrTable_layout HeapAccess_layout
    RelativeLink_layout.

(** An unsigned little-endian field of [n] bytes that starts [lo] bytes
    from the address given. *)
Definition le_field (lo : Z) (n : nat) : Field :=
  mkField lo (Z.of_nat n)
    (fun m p => le_value (load_bytes m (p + lo) n))
    (fun m p v => store_bytes m (p + lo) (le_bytes n v))
    (fun p v => (0 <=? v) && (v <? 2 ^ (8 * Z.of_nat n))).

(** The signed value of an unsigned 32-bit word. *)
Definition signed32 (u : Z) : Z := if u <? 2 ^ 31 then u else u - 2 ^ 32.

(** The 32-bit displacement that ends at the return address of a call:
    the target is the return address plus the displacement. *)
Definition rel32_field : Field :=
  mkField (-4) 4
    (fun m p => p + signed32 (le_value (load_bytes m (p - 4) 4)))
    (fun m p v => store_bytes m (p - 4) (le_bytes 4 (v - p)))
    (fun p v => (- 2 ^ 31 <=? v - p) && (v - p <? 2 ^ 31)).

(** The x86 assembler: pointers and immediates end at the address given;
    the ARM operations are not those of this build and stand as words. *)
Definition x86_asm : Assembler :=
  mkAssembler
    (le_field 0 4) (le_field (-4) 4) (le_field (-4) 4)
    rel32_field (le_field (-4) 4) (le_field (-4) 4)
    (le_field 0 4) (le_field 0 4)
    (fun m p => store_bytes m p (le_bytes 4 3810586624))
    (fun m p => le_value (load_bytes m p 4) =? 3810586624)
    (fun m p => le_value (load_bytes m p 4) / 2 ^ 24 =? 234)
    (le_field 0 4)
    (fun m p => le_value (load_bytes m (p - 4) 4))
    (fun m p => le_value (load_bytes m p 4)).

(** The builtins of the example build and their kinds. *)
Definition example_builtins : list AsmJSImmKind :=
  [AsmJSImm_ToInt32; AsmJSImm_ModD; AsmJSImm_SinD].

(** Heap lengths of the example build: a power of two from 4096 bytes up
    to 16 MiB, or a multiple of 16 MiB. *)
Definition example_IsValidAsmJSHeapLength (length_ : Z) : bool :=
  (4096 <=? length_) &&
  ((length_ mod 16777216 =? 0) ||
   ((length_ <=? 16777216) && (2 ^ Z.log2 length_ =? length_))).

(** A 32-bit x86 build, with or without assertions.  Compression stores the
    bytes as they are; decompression fails when the bytes stored are too
    few, and has then copied them over the zeroed characters. *)
Definition x86 (debug : bool) : Platform :=
  mkPlatform X86 debug 4 4096
    (fun p => 8 + funcPtrTableAndExitBytes_ p)
    4
    example_IsValidAsmJSHeapLength
    (fun _ => true)
    (length example_builtins)
    (fun b => nth b example_builtins AsmJSImm_ToInt32)
    (fun k => 3221225472 + 16 * Z.of_nat (imm_index ARM k))
    (fun a => a)
    (-1)
    4096
    7
    (fun bs => bs)
    (fun n => n + 16)
    (fun src n => if (length src <? n)%nat then None else Some (firstn n src))
    (fun src n => src ++ repeat 0 (n - length src))
    3435973836
    x86_asm le_abi.

(** A context in which allocation succeeds and the next mapping is at
    [base]; the cache has the build identifier [id] and the entry [entry]. *)
Definition example_cx (base : Z) (id : list Z) (entry : option (list byte))
  : ExclusiveContext :=
  mkContext false (Some base) 3221221376 3221221380 3221221384
    (Some (Some id)) (Some entry) (Some (fun _ => true)).

End LittleEndian.

(** ** Example modules *)

Module Examples.

Import LittleEndian.

(** An entry stub in [[0, 16)], a function in [[16, 64)] with its entry at
    24, its profiling jump at 40, its profiling epilogue at 48 and its
    profiling return at 56, and a thunk in [[64, 96)]. *)
Definition range_entry : CodeRange.t :=
  CodeRange.mk 0 0 0 0 16 CodeRange.Entry 0 0 0 0.
Definition range_f : CodeRange.t :=
  CodeRange.mk 0 1 16 56 64 CodeRange.Function 8 16 8 0.
Definition range_thunk : CodeRange.t :=
  CodeRange.mk 0 0 64 80 96 CodeRange.Thunk 0 0 0 0.

Definition name_f : PropertyName := mkPropertyName true [102].

(** An internal call in [f] to [f] that returns to 32, and an external call
    that returns to 36. *)
Definition call_f : CallSite.t := CallSite.mk 32 CallSite.Relative.
Definition call_ext : CallSite.t := CallSite.mk 36 CallSite.External.

Definition example_pod : Pod :=
  mkPod 16 0 128 4096 4096 false false 40 41.

(** A call of the builtin [ToInt32] whose immediate ends at 56, and no
    other absolute link. *)
Definition example_absoluteLinks : list (list Z) :=
  repeat [] 10 ++ [[56]] ++ repeat [] 15.

(** A finished module of the x86 build at address [code]: one exit whose
    datum is 8 bytes into the global data, one function-pointer table with
    one element 16 bytes into it, linked by a raw pointer to the entry of
    [f], and one heap access at 44. *)
Definition example_module (code : Z) : AsmJSModule :=
  mkModule 0 8 (mkScriptSource [97]) (Some name_f) None None
    code 0 false false false false
    example_pod
    [mkGlobal (mkGlobalPod [1; 0; 0; 0; 0; 0; 0; 0]) (Some name_f)]
    [mkExit 8 100 110]
    [mkExportedFunction (Some name_f) None [0]
       (mkExportPod [24; 0; 0; 0; 0; 0; 0; 0])]
    [call_f; call_ext]
    [range_entry; range_f; range_thunk]
    [mkFuncPtrTable 16 1]
    [64; 64; 64]
    [Some name_f]
    [mkHeapAccess 44 0 6]
    O
    (mkStaticLinkData 100
       [RelativeLink.mk RelativeLink.RawPointer 144 24]
       example_absoluteLinks)
    None [].

(** The code of the example before it is linked: the call at 32 goes to the
    entry of [f], the two-byte nop is at 40, every absolute link holds
    [-1]. *)
Definition example_code : list byte :=
  repeat 0 27 ++ [232] ++ le_bytes 4 (24 - 32) ++ repeat 0 8
  ++ [102; 144] ++ repeat 0 4 ++ le_bytes 4 0 ++ repeat 0 2
  ++ le_bytes 4 (2 ^ 32 - 1) ++ repeat 0 72.

Definition zero_memory : Memory := fun _ => 0.

Definition example_memory (code : Z) : Memory :=
  store_bytes zero_memory code example_code.

(** The assembler that holds the 124 bytes of the example, with no offset
    to correct and no code label. *)
Definition example_masm : MacroAssembler :=
  mkMasm 124 (firstn 124 example_code) (fun o => o) (fun o => o)
    [mkHeapAccess 44 0 6] [call_f; call_ext]
    [(AsmJSImm_ToInt32, 56)] [] [] []
    (fun mem _ _ _ _ => mem) (fun f => f) (fun e => e).

(** The example module before [finish]: no code, no size, no tables from
    the assembler, no absolute link. *)
Definition example_unfinished : AsmJSModule :=
  let m := example_module 0 in
  let m := set_pod m (mkPod 16 0 0 0 4096 false false 0 0) in
  let m := set_heapAccesses_ m [] in
  let m := set_callSites_ m [] in
  set_staticLinkData_ m
    (mkStaticLinkData 0 [RelativeLink.mk RelativeLink.RawPointer 144 24]
       (repeat [] 26)).

Definition example_tokenStream : TokenStream := mkTokenStream 40 41.

(** The characters of [function f(){}], and a parser that is at the
    function with these characters, or more, ahead of it. *)
Definition example_source : list Z :=
  [102; 117; 110; 99; 116; 105; 111; 110; 32; 102; 40; 41; 123; 125].

Definition example_parser (chars : list Z) (funCtor : bool) : AsmJSParser :=
  mkParser chars 0 14 funCtor [] (mkScriptSource [97]) 0 14
    false false false.

(** The cache entry that [StoreAsmJSModuleInCache] writes for the example
    at the function statement with these characters. *)
Definition example_entry : list byte :=
  Eval vm_compute in
    match StoreAsmJSModuleInCache (x86 true)
            (example_parser example_source false)
            (example_module 65536) (example_memory 65536)
            (example_cx 131072 [1] None) with
    | Done entry => entry
    | _ => []
    end.

(** The example once it is linked, statically and dynamically, and its
    memory: the call of [ToInt32] holds the address of the builtin, the
    datum of the exit holds its trampoline and no callee, and the element
    of the function-pointer table holds the entry of [f]. *)
Definition example_linked (code : Z) : AsmJSModule :=
  set_dynamicallyLinked_
    (set_interruptExit_ (example_module code) (code + 100)) true.

Definition example_linked_memory (code : Z) : Memory :=
  let mem := example_memory code in
  let mem := store_bytes mem (code + 52) (le_bytes 4 3221225632) in
  let mem := store_bytes mem (code + 136) (le_bytes 4 (code + 100)) in
  store_bytes mem (code + 144) (le_bytes 4 (code + 24)).

End Examples.

(** ** The index of heap accesses *)

Section HeapAccessIndex.

Variable P : Platform.

(** [AsmJSModule::containsFunctionPC] is declared in AsmJSModule.h, which is
    not among the sources; [lookupHeapAccess] only asserts it. *)
Variable containsFunctionPC : AsmJSModule -> Z -> bool.

(** [AsmJSModule::lookupHeapAccess]: [Failed] is [return nullptr]. *)
Definition lookupHeapAccess (m : AsmJSModule) (pc : Z)
  : Result AsmJSHeapAccess :=
  if negb (JS_ASSERT P (isFinished m) &&
           JS_ASSERT P (containsFunctionPC m pc))
  then Crashed
  else
    let target := uint32 (pc - code_ m) in
    let lowerBound := O in
    let upperBound := length (heapAccesses_ m) in
    match BinarySearch Z.eqb Z.ltb (map ha_offset_ (heapAccesses_ m))
            lowerBound upperBound target with
    | (false, _) => Failed
    | (true, match_) =>
        match nth_error (heapAccesses_ m) match_ with
        | Some access => Done access
        | None => Crashed
        end
    end.

End HeapAccessIndex.

(** * Properties *)

(** ** Binary search *)

Section BinarySearchFacts.

Context {C T : Type}.
Variable target_eq : T -> C -> bool.
Variable target_lt : T -> C -> bool.
Variable c : list C.
Variable target : T.

(** Going left is safe: nothing at or right of a larger element matches. *)
Hypothesis go_left : forall m x j y,
  nth_error c m = Some x -> nth_error c j = Some y -> (m <= j)%nat ->
  target_lt target x = true -> target_eq target y = false.

(** Going right is safe: nothing at or left of a smaller element matches. *)
Hypothesis go_right : forall m x i y,
  nth_error c m = Some x -> nth_error c i = Some y -> (i <= m)%nat ->
  target_eq target x = false -> target_lt target x = false ->
  target_eq target y = false.

Lemma BinarySearch_loop_sound : forall n low high,
  (high - low <= n)%nat -> (low <= high)%nat -> (high <= length c)%nat ->
  (forall i x, nth_error c i = Some x -> (i < low)%nat ->
               target_eq target x = false) ->
  (forall i x, nth_error c i = Some x -> (high <= i)%nat ->
               target_eq target x = false) ->
  match BinarySearch_loop target_eq target_lt n c low high target with
  | (true, k) => exists x, nth_error c k = Some x /\ target_eq target x = true
  | (false, _) => forall i x, nth_error c i = Some x ->
                              target_eq target x = false
  end.
Proof.
  induction n as [|n IH]; intros low high Hn Hlh Hlen Hl Hr;
    cbn [BinarySearch_loop].
  - intros i x Hi. destruct (Nat.lt_ge_cases i low) as [Hlt|Hge].
    + eapply Hl; eauto.
    + eapply Hr; eauto. lia.
  - destruct (Nat.eqb_spec low high) as [->|Hne].
    + intros i x Hi. destruct (Nat.lt_ge_cases i high) as [Hlt|Hge].
      * eapply Hl; eauto.
      * eapply Hr; eauto.
    + set (middle := (low + (high - low) / 2)%nat).
      assert (Hdiv : ((high - low) / 2 < high - low)%nat)
        by (apply Nat.div_lt; lia).
      assert (Hmid : (low <= middle < high)%nat) by (unfold middle; lia).
      destruct (nth_error c middle) as [x|] eqn:Hx.
      2:{ apply nth_error_None in Hx. lia. }
      destruct (target_eq target x) eqn:Heq.
      * exists x. auto.
      * destruct (target_lt target x) eqn:Hltx.
        -- apply IH; try lia.
           ++ exact Hl.
           ++ intros i y Hi Hge. exact (go_left middle x i y Hx Hi Hge Hltx).
        -- apply IH; try lia.
           ++ intros i y Hi Hlt.
              apply (go_right middle x i y Hx Hi); auto; lia.
           ++ exact Hr.
Qed.

Lemma BinarySearch_sound :
  match BinarySearch target_eq target_lt c 0 (length c) target with
  | (true, k) => exists x, nth_error c k = Some x /\ target_eq target x = true
  | (false, _) => forall i x, nth_error c i = Some x ->
                              target_eq target x = false
  end.
Proof.
  unfold BinarySearch. apply BinarySearch_loop_sound; try lia.
  intros i x Hi Hge.
  assert (nth_error c i = None) by (apply nth_error_None; lia).
  congruence.
Qed.

End BinarySearchFacts.

(** ** lookupCodeRange *)

(** The table is in non-decreasing [begin] order. *)
Definition sorted_by_begin (rs : list CodeRange.t) : Prop :=
  forall i j ri rj, nth_error rs i = Some ri -> nth_error rs j = Some rj ->
    (i < j)%nat -> CodeRange.begin_ ri <= CodeRange.begin_ rj.

(** No two ranges overlap: an earlier range ends before a later one begins,
    as [finish] asserts of neighbours
    ([codeRanges_[i - 1].end() <= codeRanges_[i].begin()]). *)
Definition non_overlapping (rs : list CodeRange.t) : Prop :=
  forall i j ri rj, nth_error rs i = Some ri -> nth_error rs j = Some rj ->
    (i < j)%nat -> CodeRange.end_ ri <= CodeRange.begin_ rj.

(** The offset lies in the interval of the range. *)
Definition in_range (offset : Z) (r : CodeRange.t) : Prop :=
  CodeRange.begin_ r <= offset < CodeRange.end_ r.

Lemma pc_eq_in_range : forall t r, CodeRange.pc_eq t r = true <-> in_range t r.
Proof.
  intros t r. unfold CodeRange.pc_eq, in_range.
  rewrite andb_true_iff, Z.leb_le, Z.ltb_lt. tauto.
Qed.

Lemma lookupCodeRange_sound : forall m pc,
  sorted_by_begin (codeRanges_ m) -> non_overlapping (codeRanges_ m) ->
  match lookupCodeRange m pc with
  | Some r => In r (codeRanges_ m) /\ in_range (uint32 (pc - code_ m)) r
  | None => forall r, In r (codeRanges_ m) ->
                      ~ in_range (uint32 (pc - code_ m)) r
  end.
Proof.
  intros m pc Hs Hn. unfold lookupCodeRange.
  set (t := uint32 (pc - code_ m)).
  assert (Hleft : forall i x j y,
    nth_error (codeRanges_ m) i = Some x ->
    nth_error (codeRanges_ m) j = Some y -> (i <= j)%nat ->
    CodeRange.pc_lt t x = true -> CodeRange.pc_eq t y = false).
  { intros i x j y Hi Hj Hij Hlt. unfold CodeRange.pc_lt in Hlt.
    apply Z.ltb_lt in Hlt. apply not_true_is_false. rewrite pc_eq_in_range.
    unfold in_range. destruct (Nat.eq_dec i j) as [->|Hne].
    - assert (x = y) by congruence. subst. lia.
    - specialize (Hs i j x y Hi Hj ltac:(lia)). lia. }
  assert (Hright : forall i x j y,
    nth_error (codeRanges_ m) i = Some x ->
    nth_error (codeRanges_ m) j = Some y -> (j <= i)%nat ->
    CodeRange.pc_eq t x = false -> CodeRange.pc_lt t x = false ->
    CodeRange.pc_eq t y = false).
  { intros i x j y Hi Hj Hji Heq Hlt. unfold CodeRange.pc_lt in Hlt.
    apply Z.ltb_ge in Hlt. destruct (Nat.eq_dec j i) as [->|Hne].
    - congruence.
    - apply not_true_is_false. rewrite pc_eq_in_range.
      apply not_true_iff_false in Heq. rewrite pc_eq_in_range in Heq.
      unfold in_range in *.
      specialize (Hn j i y x Hj Hi ltac:(lia)). lia. }
  pose proof (BinarySearch_sound CodeRange.pc_eq CodeRange.pc_lt
                (codeRanges_ m) t Hleft Hright) as H.
  destruct (BinarySearch CodeRange.pc_eq CodeRange.pc_lt (codeRanges_ m) 0
              (length (codeRanges_ m)) t) as [[|] k].
  - destruct H as (x & Hx & Heq). rewrite Hx. split.
    + eapply nth_error_In; eauto.
    + apply pc_eq_in_range; auto.
  - intros r Hin Hr. apply In_nth_error in Hin. destruct Hin as [i Hi].
    apply pc_eq_in_range in Hr. rewrite (H i r Hi) in Hr. discriminate.
Qed.

(** At most one range of a valid table holds a given offset. *)
Lemma in_range_unique : forall rs t r r',
  non_overlapping rs -> In r rs -> In r' rs ->
  in_range t r -> in_range t r' -> r = r'.
Proof.
  intros rs t r r' Hn Hr Hr' Ht Ht'.
  apply In_nth_error in Hr, Hr'. destruct Hr as [i Hi], Hr' as [j Hj].
  unfold in_range in *.
  destruct (Nat.lt_trichotomy i j) as [Hlt|[->|Hgt]].
  - specialize (Hn i j r r' Hi Hj Hlt). lia.
  - congruence.
  - specialize (Hn j i r' r Hj Hi Hgt). lia.
Qed.

(** For ranges that are not empty, the order of [non_overlapping] is what
    disjoint intervals in [begin] order have. *)
Lemma disjoint_sorted_non_overlapping : forall rs,
  (forall r, In r rs -> CodeRange.begin_ r < CodeRange.end_ r) ->
  sorted_by_begin rs ->
  (forall i j ri rj t, nth_error rs i = Some ri -> nth_error rs j = Some rj ->
      i <> j -> in_range t ri -> ~ in_range t rj) ->
  non_overlapping rs.
Proof.
  intros rs Hne Hs Hd i j ri rj Hi Hj Hij.
  pose proof (Hs i j ri rj Hi Hj Hij) as Hb.
  pose proof (Hne ri (nth_error_In _ _ Hi)) as Hri.
  pose proof (Hne rj (nth_error_In _ _ Hj)) as Hrj.
  destruct (Z_le_gt_dec (CodeRange.end_ ri) (CodeRange.begin_ rj)) as [|Hgt];
    auto.
  exfalso. apply (Hd i j ri rj (CodeRange.begin_ rj) Hi Hj); unfold in_range; lia.
Qed.

(** The neighbours of the table are in order, as [finish] asserts, and in
    [begin] order. *)
Fixpoint table_ordered (rs : list CodeRange.t) : bool :=
  match rs with
  | r1 :: ((r2 :: _) as rs') =>
      (CodeRange.begin_ r1 <=? CodeRange.begin_ r2) &&
      (CodeRange.end_ r1 <=? CodeRange.begin_ r2) && table_ordered rs'
  | _ => true
  end.

Lemma table_ordered_head : forall r rs j rj,
  table_ordered (r :: rs) = true -> nth_error rs j = Some rj ->
  CodeRange.begin_ r <= CodeRange.begin_ rj /\
  CodeRange.end_ r <= CodeRange.begin_ rj.
Proof.
  intros r rs. revert r.
  induction rs as [|r2 rs IH]; intros r j rj Ho Hj.
  - destruct j; discriminate.
  - cbn [table_ordered] in Ho. apply andb_prop in Ho. destruct Ho as [Ho Hrest].
    apply andb_prop in Ho. destruct Ho as [Hb He].
    apply Z.leb_le in Hb, He.
    destruct j as [|j]; simpl in Hj.
    + inversion Hj; subst. lia.
    + destruct (IH r2 j rj Hrest Hj) as [Hb2 He2].
      split; [lia|].
      (* end r <= begin r2 <= begin rj *) lia.
Qed.

Lemma table_ordered_valid : forall rs,
  table_ordered rs = true -> sorted_by_begin rs /\ non_overlapping rs.
Proof.
  induction rs as [|r rs IH]; intros Ho.
  - split; intros i j ri rj Hi; destruct i; discriminate.
  - assert (Hrest : table_ordered rs = true).
    { destruct rs as [|r2 rs]; [reflexivity|].
      cbn [table_ordered] in Ho. apply andb_prop in Ho. tauto. }
    destruct (IH Hrest) as [Hs Hn].
    split; intros i j ri rj Hi Hj Hij.
    + destruct i as [|i]; destruct j as [|j]; try lia; simpl in Hi, Hj.
      * inversion Hi; subst. apply (table_ordered_head ri rs j rj Ho Hj).
      * apply (Hs i j ri rj Hi Hj). lia.
    + destruct i as [|i]; destruct j as [|j]; try lia; simpl in Hi, Hj.
      * inversion Hi; subst. apply (table_ordered_head ri rs j rj Ho Hj).
      * apply (Hn i j ri rj Hi Hj). lia.
Qed.

(** C1 (amended).  In a finished module whose table of code ranges is in
    [begin] order with no two ranges overlapping, [lookupCodeRange(pc)]
    looks up the 32-bit offset [uint32 (pc - code_)], which is [pc - code_]
    for every [pc] less than 4 GiB above the base: it returns the one range
    whose interval holds that offset when there is one, and nothing when the
    offset is in a gap or outside all ranges. *)
Theorem lookupCodeRange_by_offset : forall m pc,
  isFinished m = true ->
  sorted_by_begin (codeRanges_ m) -> non_overlapping (codeRanges_ m) ->
  let offset := uint32 (pc - code_ m) in
  (0 <= pc - code_ m < 2 ^ 32 -> offset = pc - code_ m) /\
  (forall r, In r (codeRanges_ m) -> in_range offset r ->
     lookupCodeRange m pc = Some r /\
     forall r', In r' (codeRanges_ m) -> in_range offset r' -> r' = r) /\
  ((forall r, In r (codeRanges_ m) -> ~ in_range offset r) ->
   lookupCodeRange m pc = None).
Proof.
  intros m pc _ Hs Hn offset.
  pose proof (lookupCodeRange_sound m pc Hs Hn) as H.
  fold offset in H. repeat split.
  - intros Hpc. unfold offset, uint32. apply Z.mod_small. lia.
  - destruct (lookupCodeRange m pc) as [r0|].
    + destruct H as [Hin0 Hr0]. f_equal.
      apply (in_range_unique (codeRanges_ m) offset); assumption.
    + exfalso. apply (H r); assumption.
  - intros r' Hin' Hr'.
    apply (in_range_unique (codeRanges_ m) offset); assumption.
  - intros Hnone. destruct (lookupCodeRange m pc) as [r0|]; [|reflexivity].
    destruct H as [Hin0 Hr0]. exfalso. apply (Hnone r0); assumption.
Qed.

(** The theorem at the entry of [f] in the example module. *)
Lemma lookupCodeRange_by_offset_witness :
  lookupCodeRange (Examples.example_module 65536) (65536 + 24)
  = Some Examples.range_f.
Proof.
  destruct (table_ordered_valid
              (codeRanges_ (Examples.example_module 65536)) eq_refl)
    as [Hs Hn].
  apply (lookupCodeRange_by_offset (Examples.example_module 65536)
           (65536 + 24) eq_refl Hs Hn).
  - simpl. tauto.
  - vm_compute. split; [intro; discriminate | reflexivity].
Defined.

(** C1 as stated fails on a 64-bit build: a [pc] 4 GiB above an address of
    the function is outside every range, and is answered with the function. *)
Lemma lookupCodeRange_far_pc :
  let m := Examples.example_module 140737488355328 in
  let pc := code_ m + 2 ^ 32 + 24 in
  isFinished m = true /\
  sorted_by_begin (codeRanges_ m) /\ non_overlapping (codeRanges_ m) /\
  (forall r, In r (codeRanges_ m) -> ~ in_range (pc - code_ m) r) /\
  lookupCodeRange m pc = Some Examples.range_f.
Proof.
  intros m pc.
  destruct (table_ordered_valid (codeRanges_ m) eq_refl) as [Hs Hn].
  split; [reflexivity|]. split; [exact Hs|]. split; [exact Hn|].
  split; [|reflexivity].
  intros r Hin [Hb He]. simpl in Hin.
  destruct Hin as [<-|[<-|[<-|[]]]]; vm_compute in He; discriminate.
Qed.

(** ** lookupCallSite *)

(** The table is in increasing order of [returnAddressOffset]: sorted, with
    no offset twice. *)
Definition sorted_unique_offsets (cs : list CallSite.t) : Prop :=
  forall i j ci cj, nth_error cs i = Some ci -> nth_error cs j = Some cj ->
    (i < j)%nat ->
    CallSite.returnAddressOffset_ ci < CallSite.returnAddressOffset_ cj.

Lemma lookupCallSite_sound : forall m returnAddress,
  sorted_unique_offsets (callSites_ m) ->
  match lookupCallSite m returnAddress with
  | Some c => In c (callSites_ m) /\
              CallSite.returnAddressOffset_ c = uint32 (returnAddress - code_ m)
  | None => forall c, In c (callSites_ m) ->
              CallSite.returnAddressOffset_ c <> uint32 (returnAddress - code_ m)
  end.
Proof.
  intros m ra Hs. unfold lookupCallSite.
  set (t := uint32 (ra - code_ m)).
  set (offs := map CallSite.returnAddressOffset_ (callSites_ m)).
  assert (Hnth : forall i x, nth_error offs i = Some x ->
            exists c, nth_error (callSites_ m) i = Some c /\
                      CallSite.returnAddressOffset_ c = x).
  { intros i x Hi. unfold offs in Hi. rewrite nth_error_map in Hi.
    destruct (nth_error (callSites_ m) i) as [c|]; [|discriminate].
    exists c. inversion Hi. auto. }
  assert (Hmono : forall i x j y, nth_error offs i = Some x ->
            nth_error offs j = Some y -> (i <= j)%nat -> x <= y).
  { intros i x j y Hi Hj Hij.
    destruct (Hnth i x Hi) as (ci & Hci & <-).
    destruct (Hnth j y Hj) as (cj & Hcj & <-).
    destruct (Nat.eq_dec i j) as [->|Hne].
    - assert (ci = cj) by congruence. subst. lia.
    - specialize (Hs i j ci cj Hci Hcj ltac:(lia)). lia. }
  assert (Hleft : forall i x j y, nth_error offs i = Some x ->
            nth_error offs j = Some y -> (i <= j)%nat ->
            Z.ltb t x = true -> Z.eqb t y = false).
  { intros i x j y Hi Hj Hij Hlt. apply Z.ltb_lt in Hlt. apply Z.eqb_neq.
    specialize (Hmono i x j y Hi Hj Hij). lia. }
  assert (Hright : forall i x j y, nth_error offs i = Some x ->
            nth_error offs j = Some y -> (j <= i)%nat ->
            Z.eqb t x = false -> Z.ltb t x = false -> Z.eqb t y = false).
  { intros i x j y Hi Hj Hji Hne Hlt. apply Z.ltb_ge in Hlt.
    apply Z.eqb_neq in Hne. apply Z.eqb_neq.
    specialize (Hmono j y i x Hj Hi Hji). lia. }
  pose proof (BinarySearch_sound Z.eqb Z.ltb offs t Hleft Hright) as H.
  replace (length (callSites_ m)) with (length offs)
    by (unfold offs; apply length_map).
  destruct (BinarySearch Z.eqb Z.ltb offs 0 (length offs) t) as [[|] k].
  - destruct H as (x & Hx & Heq). apply Z.eqb_eq in Heq.
    destruct (Hnth k x Hx) as (c & Hc & Hcx). rewrite Hc. split.
    + eapply nth_error_In; eauto.
    + congruence.
  - intros c Hin Hc. apply In_nth_error in Hin. destruct Hin as [i Hi].
    assert (Hoi : nth_error offs i = Some t).
    { unfold offs. rewrite nth_error_map, Hi. simpl. congruence. }
    specialize (H i t Hoi). rewrite Z.eqb_refl in H. discriminate.
Qed.

(** The offsets of a table are increasing. *)
Fixpoint offsets_increasing (cs : list CallSite.t) : bool :=
  match cs with
  | c1 :: ((c2 :: _) as cs') =>
      (CallSite.returnAddressOffset_ c1 <? CallSite.returnAddressOffset_ c2)
      && offsets_increasing cs'
  | _ => true
  end.

Lemma offsets_increasing_head : forall c cs j cj,
  offsets_increasing (c :: cs) = true -> nth_error cs j = Some cj ->
  CallSite.returnAddressOffset_ c < CallSite.returnAddressOffset_ cj.
Proof.
  intros c cs. revert c.
  induction cs as [|c2 cs IH]; intros c j cj Ho Hj.
  - destruct j; discriminate.
  - cbn [offsets_increasing] in Ho. apply andb_prop in Ho.
    destruct Ho as [Hlt Hrest]. apply Z.ltb_lt in Hlt.
    destruct j as [|j]; simpl in Hj.
    + inversion Hj; subst. lia.
    + specialize (IH c2 j cj Hrest Hj). lia.
Qed.

Lemma offsets_increasing_sorted : forall cs,
  offsets_increasing cs = true -> sorted_unique_offsets cs.
Proof.
  induction cs as [|c cs IH]; intros Ho i j ci cj Hi Hj Hij.
  - destruct i; discriminate.
  - assert (Hrest : offsets_increasing cs = true).
    { destruct cs as [|c2 cs]; [reflexivity|].
      cbn [offsets_increasing] in Ho. apply andb_prop in Ho. tauto. }
    destruct i as [|i]; destruct j as [|j]; try lia; simpl in Hi, Hj.
    + inversion Hi; subst. apply (offsets_increasing_head ci cs j cj Ho Hj).
    + apply (IH Hrest i j ci cj Hi Hj). lia.
Qed.

(** C6 (amended).  In a finished module whose table of call sites is in
    increasing order of [returnAddressOffset], [lookupCallSite] looks up the
    32-bit offset [uint32 (returnAddress - code_)], which is
    [returnAddress - code_] for every return address less than 4 GiB above
    the base: it returns the one call site with exactly that offset when
    there is one, and nothing when no entry has it. *)
Theorem lookupCallSite_by_offset : forall m returnAddress,
  isFinished m = true -> sorted_unique_offsets (callSites_ m) ->
  let offset := uint32 (returnAddress - code_ m) in
  (0 <= returnAddress - code_ m < 2 ^ 32 -> offset = returnAddress - code_ m) /\
  (forall c, In c (callSites_ m) -> CallSite.returnAddressOffset_ c = offset ->
     lookupCallSite m returnAddress = Some c) /\
  ((forall c, In c (callSites_ m) -> CallSite.returnAddressOffset_ c <> offset)
   -> lookupCallSite m returnAddress = None).
Proof.
  intros m ra _ Hs offset.
  pose proof (lookupCallSite_sound m ra Hs) as H. fold offset in H.
  repeat split.
  - intros Hra. unfold offset, uint32. apply Z.mod_small. lia.
  - intros c Hin Hc. destruct (lookupCallSite m ra) as [c0|].
    + destruct H as [Hin0 Hc0]. f_equal.
      apply In_nth_error in Hin, Hin0.
      destruct Hin as [i Hi], Hin0 as [j Hj].
      destruct (Nat.lt_trichotomy i j) as [Hlt|[->|Hgt]].
      * specialize (Hs i j c c0 Hi Hj Hlt). lia.
      * congruence.
      * specialize (Hs j i c0 c Hj Hi Hgt). lia.
    + exfalso. apply (H c); assumption.
  - intros Hnone. destruct (lookupCallSite m ra) as [c0|]; [|reflexivity].
    destruct H as [Hin0 Hc0]. exfalso. apply (Hnone c0); assumption.
Qed.

(** The theorem at the external call of the example module. *)
Lemma lookupCallSite_by_offset_witness :
  lookupCallSite (Examples.example_module 65536) (65536 + 36)
  = Some Examples.call_ext.
Proof.
  apply (lookupCallSite_by_offset (Examples.example_module 65536)
           (65536 + 36) eq_refl
           (offsets_increasing_sorted
              (callSites_ (Examples.example_module 65536)) eq_refl)).
  - simpl. tauto.
  - reflexivity.
Defined.

(** C6 as stated fails on a 64-bit build: no call site has the offset of a
    return address 4 GiB above that of a call, and the call is returned. *)
Lemma lookupCallSite_far_returnAddress :
  let m := Examples.example_module 140737488355328 in
  let returnAddress := code_ m + 2 ^ 32 + 36 in
  isFinished m = true /\ sorted_unique_offsets (callSites_ m) /\
  (forall c, In c (callSites_ m) ->
     CallSite.returnAddressOffset_ c <> returnAddress - code_ m) /\
  lookupCallSite m returnAddress = Some Examples.call_ext.
Proof.
  intros m ra. split; [reflexivity|]. split.
  - apply offsets_increasing_sorted. reflexivity.
  - split; [|reflexivity].
    intros c Hin Hc. simpl in Hin.
    destruct Hin as [<-|[<-|[]]]; vm_compute in Hc; discriminate.
Qed.

(** ** Serialization: sizes and the round trip *)

(** What the compiler guarantees of the layouts of a platform. *)
Record ABI_lawful (A : ABI) : Prop := mkABI_lawful {
  law_uint32 : lawful (L_uint32 A);
  law_uint32_fits : forall v, 0 <= v < 2 ^ 32 -> fits (L_uint32 A) v;
  law_Latin1Char : lawful (L_Latin1Char A);
  law_jschar : lawful (L_jschar A);
  law_char : lawful (L_char A);
  law_Pod : lawful (L_Pod A);
  law_GlobalPod : lawful (L_GlobalPod A);
  law_Exit : lawful (L_Exit A);
  law_ExportPod : lawful (L_ExportPod A);
  law_AsmJSCoercion : lawful (L_AsmJSCoercion A);
  law_CallSite : lawful (L_CallSite A);
  law_CodeRange : lawful (L_CodeRange A);
  law_FuncPtrTable : lawful (L_FuncPtrTable A);
  law_HeapAccess : lawful (L_HeapAccess A);
  law_RelativeLink : lawful (L_RelativeLink A)
}.

Lemma uint32_range : forall z, 0 <= uint32 z < 2 ^ 32.
Proof. intros z. unfold uint32. apply Z.mod_pos_bound. lia. Qed.

Lemma uint32_small : forall z, 0 <= z < 2 ^ 32 -> uint32 z = z.
Proof. intros z H. unfold uint32. apply Z.mod_small. lia. Qed.

Lemma length_load_bytes : forall m a n, length (load_bytes m a n) = n.
Proof. intros. unfold load_bytes. rewrite length_map, length_seq. reflexivity. Qed.

Lemma length_array_to_bytes : forall T (L : Layout T) xs,
  lawful L -> length (array_to_bytes L xs) = (length xs * sizeof L)%nat.
Proof.
  intros T L xs [Hlen _]. unfold array_to_bytes.
  induction xs as [|x xs IH]; simpl; auto.
  rewrite length_app, Hlen, IH. lia.
Qed.

Lemma array_of_to_bytes : forall T (L : Layout T) xs rest,
  lawful L -> Forall (fits L) xs ->
  array_of_bytes L (length xs) (array_to_bytes L xs ++ rest) = xs.
Proof.
  intros T L xs rest [Hlen Hrt] Hf. unfold array_to_bytes.
  induction Hf as [|x xs Hx Hxs IH]; simpl; auto.
  rewrite <- app_assoc.
  rewrite firstn_app, Hlen, Nat.sub_diag, firstn_O, app_nil_r.
  rewrite <- (Hlen x) at 1. rewrite firstn_all.
  rewrite skipn_app, Hlen, Nat.sub_diag, skipn_O.
  rewrite <- (Hlen x) at 1. rewrite skipn_all. simpl.
  rewrite Hrt by assumption. f_equal. apply IH.
Qed.

Lemma ReadBytes_app : forall bs rest,
  ReadBytes (bs ++ rest) (length bs) = Some (bs, rest).
Proof.
  intros bs rest. unfold ReadBytes.
  destruct (Nat.ltb_spec (length (bs ++ rest)) (length bs)) as [H|H].
  - rewrite length_app in H. lia.
  - rewrite firstn_app, Nat.sub_diag, firstn_O, app_nil_r, firstn_all.
    rewrite skipn_app, Nat.sub_diag, skipn_O, skipn_all. reflexivity.
Qed.

Lemma ReadBytes_app_n : forall bs rest n,
  length bs = n -> ReadBytes (bs ++ rest) n = Some (bs, rest).
Proof. intros bs rest n <-. apply ReadBytes_app. Qed.

Section CodecFacts.

Variable P : Platform.
Variable cx : ExclusiveContext.
Hypothesis HABI : ABI_lawful (abi P).

Let Hu32 := law_uint32 _ HABI.

Lemma length_WriteScalar_uint32 : forall c t,
  length (WriteScalar_uint32 P c t) = (length c + sizeof (L_uint32 (abi P)))%nat.
Proof.
  intros c t. unfold WriteScalar_uint32, WriteBytes.
  rewrite length_app. destruct Hu32 as [Hl _]. rewrite Hl. reflexivity.
Qed.

Lemma WriteScalar_uint32_app : forall c t,
  WriteScalar_uint32 P c t = c ++ WriteScalar_uint32 P [] t.
Proof. reflexivity. Qed.

Lemma ReadScalar_uint32_Write : forall t rest,
  0 <= t < 2 ^ 32 ->
  ReadScalar_uint32 P (WriteScalar_uint32 P [] t ++ rest) = Some (t, rest).
Proof.
  intros t rest Ht. unfold ReadScalar_uint32, WriteScalar_uint32, WriteBytes.
  simpl. destruct Hu32 as [Hl Hrt].
  rewrite ReadBytes_app_n by apply Hl.
  rewrite uint32_small by assumption.
  rewrite Hrt; auto. apply (law_uint32_fits _ HABI). assumption.
Qed.

Lemma lawful_CharT : forall b, lawful (L_CharT P b).
Proof.
  intros []; simpl; [apply (law_Latin1Char _ HABI) | apply (law_jschar _ HABI)].
Qed.

(** *** Names *)

Lemma length_SerializeName : forall c n,
  length (SerializeName P c n) = (length c + SerializedNameSize P n)%nat.
Proof.
  intros c [n|]; unfold SerializeName, SerializedNameSize.
  - unfold WriteBytes. rewrite length_app, length_WriteScalar_uint32.
    rewrite length_array_to_bytes by apply lawful_CharT. lia.
  - apply length_WriteScalar_uint32.
Qed.

Lemma SerializeName_app : forall c n,
  SerializeName P c n = c ++ SerializeName P [] n.
Proof.
  intros c [n|]; unfold SerializeName, WriteBytes, WriteScalar_uint32, WriteBytes;
    simpl; rewrite ?app_assoc; reflexivity.
Qed.

(** A name the source can serialize: not empty (asserted by
    [SerializeName]), no longer than [JSString::MAX_LENGTH], each character
    within its width. *)
Definition name_ok (n : NamePtr) : Prop :=
  match n with
  | None => True
  | Some p => name_chars p <> [] /\
              Z.of_nat (length (name_chars p)) < 2 ^ 31 /\
              Forall (fits (L_CharT P (hasLatin1Chars p))) (name_chars p)
  end.

Lemma lengthAndEncoding_length : forall l b,
  0 <= l -> Z.shiftr (Z.lor (Z.shiftl l 1) (Z.b2z b)) 1 = l.
Proof.
  intros l b Hl. rewrite Z.shiftr_lor, Z.shiftr_shiftl_l by lia.
  replace (1 - 1) with 0 by lia. rewrite Z.shiftl_0_r.
  destruct b; simpl; rewrite ?Z.lor_0_r; auto.
Qed.

Lemma lengthAndEncoding_tag : forall l b,
  0 <= l -> Z.land (Z.lor (Z.shiftl l 1) (Z.b2z b)) 1 = Z.b2z b.
Proof.
  intros l b Hl. rewrite Z.land_lor_distr_l.
  replace (Z.land (Z.shiftl l 1) 1) with 0.
  - destruct b; reflexivity.
  - symmetry. change 1 with (Z.ones 1) at 2. rewrite Z.land_ones by lia.
    rewrite Z.shiftl_mul_pow2 by lia. apply Z.mod_mul. lia.
Qed.

Lemma lengthAndEncoding_range : forall l b,
  0 <= l < 2 ^ 31 -> 0 <= Z.lor (Z.shiftl l 1) (Z.b2z b) < 2 ^ 32.
Proof.
  intros l b Hl.
  assert (Hland : Z.land (Z.shiftl l 1) (Z.b2z b) = 0).
  { destruct b; simpl Z.b2z; [|apply Z.land_0_r].
    change 1 with (Z.ones 1) at 2. rewrite Z.land_ones by lia.
    rewrite Z.shiftl_mul_pow2 by lia. apply Z.mod_mul. lia. }
  assert (H : Z.lor (Z.shiftl l 1) (Z.b2z b) = 2 * l + Z.b2z b).
  { rewrite <- (Z.lxor_lor _ _ Hland), <- (Z.add_nocarry_lxor _ _ Hland).
    rewrite Z.shiftl_mul_pow2 by lia. lia. }
  rewrite H. change (2 ^ 32) with (2 * 2 ^ 31). destruct b; cbn [Z.b2z]; lia.
Qed.

Hypothesis Hoom : cx_oom cx = false.

Lemma DeserializeName_Serialize : forall n rest,
  name_ok n ->
  DeserializeName P cx (SerializeName P [] n ++ rest) = Some (n, rest).
Proof.
  intros [[latin1 chars]|] rest Hok; unfold DeserializeName, SerializeName.
  - simpl in Hok. destruct Hok as (Hne & Hlen & Hfit).
    cbn [name_chars hasLatin1Chars].
    assert (Hl : 0 < Z.of_nat (length chars) < 2 ^ 31).
    { destruct chars; [congruence|]. simpl length in *. lia. }
    set (l := Z.of_nat (length chars)) in *.
    rewrite (uint32_small l) by lia.
    pose proof (lengthAndEncoding_range l latin1 ltac:(lia)) as Hr.
    rewrite (uint32_small _ Hr).
    unfold WriteBytes. rewrite <- app_assoc.
    rewrite ReadScalar_uint32_Write by assumption.
    rewrite lengthAndEncoding_length by lia.
    destruct (Z.eqb_spec l 0) as [H0|_]; [lia|].
    rewrite lengthAndEncoding_tag by lia.
    replace (negb (Z.b2z latin1 =? 0)) with latin1 by (destruct latin1; reflexivity).
    unfold DeserializeChars, l. rewrite Nat2Z.id.
    rewrite ReadBytes_app_n
      by (apply length_array_to_bytes; apply lawful_CharT).
    unfold AtomizeChars. rewrite Hoom.
    pose proof (array_of_to_bytes _ (L_CharT P latin1) chars []
                  (lawful_CharT latin1) Hfit) as Hrt.
    rewrite app_nil_r in Hrt. rewrite Hrt. reflexivity.
  - rewrite ReadScalar_uint32_Write by lia. reflexivity.
Qed.

(** *** Vectors *)

Lemma resize_ok_true : forall n, resize_ok cx n = true.
Proof. intros n. unfold resize_ok. rewrite Hoom. reflexivity. Qed.

Section VectorFacts.

Context {T : Type}.
Variable size : T -> nat.
Variable ser : list byte -> T -> list byte.
Variable deser : list byte -> option (T * list byte).
Variable ok : T -> Prop.

Hypothesis ser_length : forall c x, length (ser c x) = (length c + size x)%nat.
Hypothesis ser_app : forall c x, ser c x = c ++ ser [] x.
Hypothesis deser_ser : forall x rest,
  ok x -> deser (ser [] x ++ rest) = Some (x, rest).

Lemma fold_left_ser_length : forall v c n,
  length (fold_left ser v c) =
  (length c + (fold_left (fun s x => s + size x) v n - n))%nat.
Proof.
  induction v as [|x v IH]; intros c n; simpl.
  - lia.
  - rewrite (IH (ser c x) (n + size x)%nat), ser_length.
    assert (H : forall l k, (k <= fold_left (fun s y => s + size y) l k)%nat).
    { induction l as [|y l IHl]; intros k; simpl; [lia|].
      specialize (IHl (k + size y)%nat). lia. }
    specialize (H v (n + size x)%nat). lia.
Qed.

Lemma fold_left_size_ge : forall (v : list T) k,
  (k <= fold_left (fun s y => s + size y) v k)%nat.
Proof.
  induction v as [|y l IHl]; intros k; simpl; [lia|].
  specialize (IHl (k + size y)%nat). lia.
Qed.

Lemma length_SerializeVector : forall c v,
  length (SerializeVector P ser c v) =
  (length c + SerializedVectorSize P size v)%nat.
Proof.
  intros c v. unfold SerializeVector, SerializedVectorSize.
  rewrite (fold_left_ser_length v _ (sizeof (L_uint32 (abi P)))).
  rewrite length_WriteScalar_uint32.
  pose proof (fold_left_size_ge v (sizeof (L_uint32 (abi P)))). lia.
Qed.

Lemma fold_left_ser_app : forall v c,
  fold_left ser v c = c ++ fold_left ser v [].
Proof.
  induction v as [|x v IH]; intros c; simpl.
  - rewrite app_nil_r. reflexivity.
  - rewrite (IH (ser c x)), (IH (ser [] x)), (ser_app c x), app_assoc.
    reflexivity.
Qed.

Lemma SerializeVector_app : forall c v,
  SerializeVector P ser c v = c ++ SerializeVector P ser [] v.
Proof.
  intros c v. unfold SerializeVector.
  rewrite fold_left_ser_app, (fold_left_ser_app v (WriteScalar_uint32 P [] _)).
  rewrite WriteScalar_uint32_app, app_assoc. reflexivity.
Qed.

Lemma DeserializeVector_loop_Serialize : forall v rest,
  Forall ok v ->
  DeserializeVector_loop deser (length v) (fold_left ser v [] ++ rest)
  = Some (v, rest).
Proof.
  induction v as [|x v IH]; intros rest Hok; simpl.
  - reflexivity.
  - inversion Hok as [|? ? Hx Hv]; subst.
    rewrite fold_left_ser_app, <- app_assoc, deser_ser by assumption.
    rewrite IH by assumption. reflexivity.
Qed.

Lemma DeserializeVector_Serialize : forall v rest,
  Forall ok v -> Z.of_nat (length v) < 2 ^ 32 ->
  DeserializeVector P cx deser (SerializeVector P ser [] v ++ rest)
  = Some (v, rest).
Proof.
  intros v rest Hok Hlen. unfold DeserializeVector, SerializeVector.
  rewrite fold_left_ser_app, <- app_assoc.
  rewrite ReadScalar_uint32_Write by lia.
  rewrite resize_ok_true, Nat2Z.id.
  apply DeserializeVector_loop_Serialize. assumption.
Qed.

End VectorFacts.

Section PodVectorFacts.

Context {T : Type}.
Variable L : Layout T.
Hypothesis HL : lawful L.

Lemma length_SerializePodVector : forall c v,
  length (SerializePodVector P L c v) =
  (length c + SerializedPodVectorSize P L v)%nat.
Proof.
  intros c v. unfold SerializePodVector, SerializedPodVectorSize, WriteBytes.
  rewrite length_app, length_WriteScalar_uint32, length_array_to_bytes by assumption.
  lia.
Qed.

Lemma SerializePodVector_app : forall c v,
  SerializePodVector P L c v = c ++ SerializePodVector P L [] v.
Proof.
  intros c v. unfold SerializePodVector, WriteBytes.
  rewrite WriteScalar_uint32_app, <- app_assoc. reflexivity.
Qed.

Lemma DeserializePodVector_Serialize : forall v rest,
  Forall (fits L) v -> Z.of_nat (length v) < 2 ^ 32 ->
  DeserializePodVector P cx L (SerializePodVector P L [] v ++ rest)
  = Some (v, rest).
Proof.
  intros v rest Hok Hlen. unfold DeserializePodVector, SerializePodVector.
  unfold WriteBytes. rewrite <- app_assoc.
  rewrite ReadScalar_uint32_Write by lia.
  rewrite resize_ok_true, Nat2Z.id.
  rewrite ReadBytes_app_n by (apply length_array_to_bytes; assumption).
  pose proof (array_of_to_bytes _ L v [] HL Hok) as Hrt.
  rewrite app_nil_r in Hrt. rewrite Hrt. reflexivity.
Qed.

End PodVectorFacts.

(** *** The records of the tables *)

Definition Global_ok (g : Global) : Prop :=
  fits (L_GlobalPod (abi P)) (global_pod g) /\ name_ok (global_name_ g).

Lemma length_Global_serialize : forall c g,
  length (Global_serialize P c g) = (length c + Global_serializedSize P g)%nat.
Proof.
  intros c g. unfold Global_serialize, Global_serializedSize, WriteBytes.
  rewrite length_SerializeName, length_app.
  destruct (law_GlobalPod _ HABI) as [Hl _]. rewrite Hl. lia.
Qed.

Lemma Global_serialize_app : forall c g,
  Global_serialize P c g = c ++ Global_serialize P [] g.
Proof.
  intros c g. unfold Global_serialize, WriteBytes.
  rewrite SerializeName_app, (SerializeName_app ([] ++ _)), app_assoc.
  reflexivity.
Qed.

Lemma Global_deserialize_serialize : forall g rest,
  Global_ok g ->
  Global_deserialize P cx (Global_serialize P [] g ++ rest) = Some (g, rest).
Proof.
  intros [gp gn] rest [Hp Hn]. unfold Global_deserialize, Global_serialize.
  simpl in *. unfold WriteBytes. simpl app.
  rewrite SerializeName_app, <- app_assoc.
  destruct (law_GlobalPod _ HABI) as [Hl Hrt].
  rewrite ReadBytes_app_n by apply Hl.
  rewrite DeserializeName_Serialize by assumption.
  rewrite Hrt by assumption. reflexivity.
Qed.

Lemma length_Exit_serialize : forall c e,
  length (Exit_serialize P c e) = (length c + Exit_serializedSize P e)%nat.
Proof.
  intros c e. unfold Exit_serialize, Exit_serializedSize, WriteBytes.
  rewrite length_app. destruct (law_Exit _ HABI) as [Hl _]. rewrite Hl. lia.
Qed.

Lemma Exit_serialize_app : forall c e,
  Exit_serialize P c e = c ++ Exit_serialize P [] e.
Proof. reflexivity. Qed.

Lemma Exit_deserialize_serialize : forall e rest,
  fits (L_Exit (abi P)) e ->
  Exit_deserialize P (Exit_serialize P [] e ++ rest) = Some (e, rest).
Proof.
  intros e rest He. unfold Exit_deserialize, Exit_serialize, WriteBytes.
  simpl app. destruct (law_Exit _ HABI) as [Hl Hrt].
  rewrite ReadBytes_app_n by apply Hl. rewrite Hrt by assumption. reflexivity.
Qed.

Definition ExportedFunction_ok (f : ExportedFunction) : Prop :=
  name_ok (export_name_ f) /\ name_ok (maybeFieldName_ f) /\
  Forall (fits (L_AsmJSCoercion (abi P))) (argCoercions_ f) /\
  Z.of_nat (length (argCoercions_ f)) < 2 ^ 32 /\
  fits (L_ExportPod (abi P)) (export_pod f).

Lemma length_ExportedFunction_serialize : forall c f,
  length (ExportedFunction_serialize P c f) =
  (length c + ExportedFunction_serializedSize P f)%nat.
Proof.
  intros c f.
  unfold ExportedFunction_serialize, ExportedFunction_serializedSize, WriteBytes.
  rewrite length_app, length_SerializePodVector by apply (law_AsmJSCoercion _ HABI).
  rewrite !length_SerializeName. unfold SerializedPodVectorSize.
  destruct (law_ExportPod _ HABI) as [Hl _]. rewrite Hl. lia.
Qed.

Lemma ExportedFunction_serialize_app : forall c f,
  ExportedFunction_serialize P c f = c ++ ExportedFunction_serialize P [] f.
Proof.
  intros c f. unfold ExportedFunction_serialize, WriteBytes.
  rewrite (SerializePodVector_app _ (SerializeName P (SerializeName P c _) _)).
  rewrite (SerializePodVector_app _ (SerializeName P (SerializeName P [] _) _)).
  rewrite (SerializeName_app (SerializeName P c _)).
  rewrite (SerializeName_app (SerializeName P [] _)).
  rewrite (SerializeName_app c).
  rewrite <- !app_assoc. reflexivity.
Qed.

Lemma ExportedFunction_deserialize_serialize : forall f rest,
  ExportedFunction_ok f ->
  ExportedFunction_deserialize P cx (ExportedFunction_serialize P [] f ++ rest)
  = Some (f, rest).
Proof.
  intros [n fn ac ep] rest (Hn & Hfn & Hac & Hlen & Hep).
  unfold ExportedFunction_deserialize, ExportedFunction_serialize, WriteBytes.
  simpl in *.
  rewrite (SerializePodVector_app _ (SerializeName P (SerializeName P [] _) _)).
  rewrite (SerializeName_app (SerializeName P [] _)).
  rewrite <- !app_assoc.
  rewrite DeserializeName_Serialize by assumption.
  rewrite DeserializeName_Serialize by assumption.
  rewrite DeserializePodVector_Serialize
    by (try apply (law_AsmJSCoercion _ HABI); assumption).
  destruct (law_ExportPod _ HABI) as [Hl Hrt].
  rewrite ReadBytes_app_n by apply Hl. rewrite Hrt by assumption. reflexivity.
Qed.

(** *** Static link data *)

Lemma length_AbsoluteLinkArray_serialize : forall a c,
  length (AbsoluteLinkArray_serialize P c a) =
  (length c + AbsoluteLinkArray_serializedSize P a)%nat.
Proof.
  intros a c. unfold AbsoluteLinkArray_serialize, AbsoluteLinkArray_serializedSize.
  rewrite (fold_left_ser_length
             (SerializedPodVectorSize P (L_uint32 (abi P))) _
             (fun c v => length_SerializePodVector _ Hu32 c v) a c O).
  lia.
Qed.

Lemma AbsoluteLinkArray_serialize_app : forall a c,
  AbsoluteLinkArray_serialize P c a = c ++ AbsoluteLinkArray_serialize P [] a.
Proof.
  intros a c. unfold AbsoluteLinkArray_serialize.
  apply fold_left_ser_app. intros c' v. apply SerializePodVector_app.
Qed.

Definition offsets_ok (v : list Z) : Prop :=
  Forall (fun o => 0 <= o < 2 ^ 32) v /\ Z.of_nat (length v) < 2 ^ 32.

Lemma offsets_fit : forall v,
  Forall (fun o => 0 <= o < 2 ^ 32) v -> Forall (fits (L_uint32 (abi P))) v.
Proof.
  intros v H. eapply Forall_impl; [|exact H].
  intros o Ho. apply (law_uint32_fits _ HABI). assumption.
Qed.

Lemma AbsoluteLinkArray_deserialize_loop_serialize : forall a rest,
  Forall offsets_ok a ->
  AbsoluteLinkArray_deserialize_loop P cx (length a)
    (AbsoluteLinkArray_serialize P [] a ++ rest) = Some (a, rest).
Proof.
  unfold AbsoluteLinkArray_serialize.
  induction a as [|v a IH]; intros rest Hok; simpl.
  - reflexivity.
  - inversion Hok as [|? ? [Hv Hlen] Ha]; subst.
    rewrite (fold_left_ser_app _ (fun c' v' => SerializePodVector_app _ c' v')).
    rewrite <- app_assoc.
    rewrite DeserializePodVector_Serialize by (auto using offsets_fit).
    rewrite IH by assumption. reflexivity.
Qed.

Definition StaticLinkData_ok (d : StaticLinkData) : Prop :=
  0 <= interruptExitOffset d < 2 ^ 32 /\
  Forall (fits (L_RelativeLink (abi P))) (relativeLinks d) /\
  Z.of_nat (length (relativeLinks d)) < 2 ^ 32 /\
  length (absoluteLinks d) = AsmJSImm_Limit (arch P) /\
  Forall offsets_ok (absoluteLinks d).

Lemma length_StaticLinkData_serialize : forall c d,
  length (StaticLinkData_serialize P c d) =
  (length c + StaticLinkData_serializedSize P d)%nat.
Proof.
  intros c d. unfold StaticLinkData_serialize, StaticLinkData_serializedSize.
  rewrite length_AbsoluteLinkArray_serialize.
  rewrite length_SerializePodVector by apply (law_RelativeLink _ HABI).
  rewrite length_WriteScalar_uint32. lia.
Qed.

Lemma StaticLinkData_serialize_app : forall c d,
  StaticLinkData_serialize P c d = c ++ StaticLinkData_serialize P [] d.
Proof.
  intros c d. unfold StaticLinkData_serialize.
  rewrite AbsoluteLinkArray_serialize_app.
  rewrite (AbsoluteLinkArray_serialize_app _ (SerializePodVector P _ (WriteScalar_uint32 P [] _) _)).
  rewrite SerializePodVector_app.
  rewrite (SerializePodVector_app _ (WriteScalar_uint32 P [] _)).
  rewrite WriteScalar_uint32_app, <- !app_assoc. reflexivity.
Qed.

Lemma StaticLinkData_deserialize_serialize : forall d rest,
  StaticLinkData_ok d ->
  StaticLinkData_deserialize P cx (StaticLinkData_serialize P [] d ++ rest)
  = Some (d, rest).
Proof.
  intros [ie rl al] rest (Hie & Hrl & Hlen & Hal & Hoff). simpl in *.
  unfold StaticLinkData_deserialize, StaticLinkData_serialize. simpl.
  rewrite AbsoluteLinkArray_serialize_app, SerializePodVector_app.
  rewrite <- !app_assoc.
  rewrite ReadScalar_uint32_Write by assumption.
  rewrite DeserializePodVector_Serialize
    by (try apply (law_RelativeLink _ HABI); assumption).
  unfold AbsoluteLinkArray_deserialize. rewrite <- Hal.
  rewrite AbsoluteLinkArray_deserialize_loop_serialize by assumption.
  reflexivity.
Qed.

End CodecFacts.

(** *** The module *)

(** A module whose members [serialize] can write: each value within the
    range of its type, each vector length within [uint32_t], one vector of
    absolute links per kind. *)
Definition serializable (P : Platform) (m : AsmJSModule) : Prop :=
  fits (L_Pod (abi P)) (pod m) /\
  name_ok P (globalArgumentName_ m) /\
  name_ok P (importArgumentName_ m) /\
  name_ok P (bufferArgumentName_ m) /\
  (Forall (Global_ok P) (globals_ m) /\
   Z.of_nat (length (globals_ m)) < 2 ^ 32) /\
  (Forall (fits (L_Exit (abi P))) (exits_ m) /\
   Z.of_nat (length (exits_ m)) < 2 ^ 32) /\
  (Forall (ExportedFunction_ok P) (exports_ m) /\
   Z.of_nat (length (exports_ m)) < 2 ^ 32) /\
  (Forall (fits (L_CallSite (abi P))) (callSites_ m) /\
   Z.of_nat (length (callSites_ m)) < 2 ^ 32) /\
  (Forall (fits (L_CodeRange (abi P))) (codeRanges_ m) /\
   Z.of_nat (length (codeRanges_ m)) < 2 ^ 32) /\
  (Forall (fits (L_FuncPtrTable (abi P))) (funcPtrTables_ m) /\
   Z.of_nat (length (funcPtrTables_ m)) < 2 ^ 32) /\
  offsets_ok (builtinThunkOffsets_ m) /\
  (Forall (name_ok P) (names_ m) /\
   Z.of_nat (length (names_ m)) < 2 ^ 32) /\
  (Forall (fits (L_HeapAccess (abi P))) (heapAccesses_ m) /\
   Z.of_nat (length (heapAccesses_ m)) < 2 ^ 32) /\
  StaticLinkData_ok P (staticLinkData_ m).

Lemma and_then_Some : forall A (read : list byte -> option (A * list byte))
  assign c m a c',
  read c = Some (a, c') ->
  and_then (Some c, m) read assign = (Some c', assign m a).
Proof. intros. unfold and_then. rewrite H. reflexivity. Qed.

Lemma store_byte_same : forall m a v, store_byte m a v a = v.
Proof. intros. unfold store_byte. rewrite Z.eqb_refl. reflexivity. Qed.

Lemma store_byte_other : forall m a v x, x <> a -> store_byte m a v x = m x.
Proof.
  intros. unfold store_byte. destruct (Z.eqb_spec x a); congruence.
Qed.

Lemma store_bytes_outside : forall bs m a x,
  x < a \/ a + Z.of_nat (length bs) <= x -> store_bytes m a bs x = m x.
Proof.
  induction bs as [|b bs IH]; intros m a x Hx; simpl.
  - reflexivity.
  - rewrite IH by (simpl length in Hx; lia).
    apply store_byte_other. simpl length in Hx. lia.
Qed.

Lemma store_bytes_inside : forall bs m a i,
  (i < length bs)%nat ->
  store_bytes m a bs (a + Z.of_nat i) = nth i bs 0.
Proof.
  induction bs as [|b bs IH]; intros m a i Hi; simpl in *.
  - lia.
  - destruct i as [|i].
    + rewrite store_bytes_outside by lia.
      replace (a + Z.of_nat 0) with a by lia. apply store_byte_same.
    + replace (a + Z.of_nat (S i)) with (a + 1 + Z.of_nat i) by lia.
      apply IH. lia.
Qed.

Lemma nth_load_bytes : forall m a n i,
  (i < n)%nat -> nth i (load_bytes m a n) 0 = m (a + Z.of_nat i).
Proof.
  intros m a n i Hi. unfold load_bytes.
  set (f := fun j : nat => m (a + Z.of_nat j)).
  transitivity (nth i (map f (seq 0 n)) (f O)).
  - apply nth_indep. rewrite length_map, length_seq. assumption.
  - rewrite map_nth, seq_nth by assumption. reflexivity.
Qed.

(** C10: the size computation and the writer agree. *)
Lemma serialize_length : forall P mem m cursor,
  ABI_lawful (abi P) ->
  length (serialize P mem m cursor) = (length cursor + serializedSize P m)%nat.
Proof.
  intros P mem m cursor HABI. unfold serialize, serializedSize.
  rewrite (length_StaticLinkData_serialize P HABI).
  rewrite (length_SerializePodVector P HABI _ (law_HeapAccess _ HABI)).
  rewrite (length_SerializeVector P HABI _ _ (length_SerializeName P HABI)).
  rewrite (length_SerializePodVector P HABI _ (law_uint32 _ HABI)).
  rewrite (length_SerializePodVector P HABI _ (law_FuncPtrTable _ HABI)).
  rewrite (length_SerializePodVector P HABI _ (law_CodeRange _ HABI)).
  rewrite (length_SerializePodVector P HABI _ (law_CallSite _ HABI)).
  rewrite (length_SerializeVector P HABI _ _
             (length_ExportedFunction_serialize P HABI)).
  rewrite (length_SerializeVector P HABI _ _ (length_Exit_serialize P HABI)).
  rewrite (length_SerializeVector P HABI _ _ (length_Global_serialize P HABI)).
  rewrite !(length_SerializeName P HABI).
  unfold WriteBytes. rewrite !length_app, length_load_bytes.
  destruct (law_Pod _ HABI) as [Hl _]. rewrite Hl.
  unfold Name_serializedSize.
  change (fun n : NamePtr => SerializedNameSize P n) with (SerializedNameSize P).
  lia.
Qed.

Lemma serialize_payload : forall P mem m,
  ABI_lawful (abi P) ->
  serialize P mem m [] =
  to_bytes (L_Pod (abi P)) (pod m) ++
  load_bytes mem (code_ m) (Z.to_nat (codeBytes_ (pod m))) ++
  SerializeName P [] (globalArgumentName_ m) ++
  SerializeName P [] (importArgumentName_ m) ++
  SerializeName P [] (bufferArgumentName_ m) ++
  SerializeVector P (Global_serialize P) [] (globals_ m) ++
  SerializeVector P (Exit_serialize P) [] (exits_ m) ++
  SerializeVector P (ExportedFunction_serialize P) [] (exports_ m) ++
  SerializePodVector P (L_CallSite (abi P)) [] (callSites_ m) ++
  SerializePodVector P (L_CodeRange (abi P)) [] (codeRanges_ m) ++
  SerializePodVector P (L_FuncPtrTable (abi P)) [] (funcPtrTables_ m) ++
  SerializePodVector P (L_uint32 (abi P)) [] (builtinThunkOffsets_ m) ++
  SerializeVector P (Name_serialize P) [] (names_ m) ++
  SerializePodVector P (L_HeapAccess (abi P)) [] (heapAccesses_ m) ++
  StaticLinkData_serialize P [] (staticLinkData_ m).
Proof.
  intros P mem m HABI. unfold serialize, WriteBytes. simpl app.
  set (c2 := _ ++ load_bytes _ _ _).
  set (c3 := SerializeName P c2 _).
  set (c4 := SerializeName P c3 _).
  set (c5 := SerializeName P c4 _).
  set (c6 := SerializeVector P (Global_serialize P) c5 _).
  set (c7 := SerializeVector P (Exit_serialize P) c6 _).
  set (c8 := SerializeVector P (ExportedFunction_serialize P) c7 _).
  set (c9 := SerializePodVector P (L_CallSite (abi P)) c8 _).
  set (c10 := SerializePodVector P (L_CodeRange (abi P)) c9 _).
  set (c11 := SerializePodVector P (L_FuncPtrTable (abi P)) c10 _).
  set (c12 := SerializePodVector P (L_uint32 (abi P)) c11 _).
  set (c13 := SerializeVector P (Name_serialize P) c12 _).
  set (c14 := SerializePodVector P (L_HeapAccess (abi P)) c13 _).
  rewrite (StaticLinkData_serialize_app P c14). subst c14.
  rewrite (SerializePodVector_app P _ c13). subst c13.
  rewrite (SerializeVector_app P _ (SerializeName_app P) c12). subst c12.
  rewrite (SerializePodVector_app P _ c11). subst c11.
  rewrite (SerializePodVector_app P _ c10). subst c10.
  rewrite (SerializePodVector_app P _ c9). subst c9.
  rewrite (SerializePodVector_app P _ c8). subst c8.
  rewrite (SerializeVector_app P _ (ExportedFunction_serialize_app P) c7).
  subst c7.
  rewrite (SerializeVector_app P _ (Exit_serialize_app P) c6). subst c6.
  rewrite (SerializeVector_app P _ (Global_serialize_app P) c5). subst c5.
  rewrite (SerializeName_app P c4). subst c4.
  rewrite (SerializeName_app P c3). subst c3.
  rewrite (SerializeName_app P c2). subst c2.
  rewrite <- !app_assoc. reflexivity.
Qed.

(** C2: reading back what [serialize] wrote. *)
Lemma deserialize_serialize_eq : forall P cx m m0 mem_s mem_d base rest,
  ABI_lawful (abi P) -> cx_oom cx = false -> cx_mmap cx = Some base ->
  base <> 0 -> serializable P m ->
  deserialize P cx m0 mem_d (serialize P mem_s m [] ++ rest) =
  (Some rest,
   set_loadedFromCache_
     (set_staticLinkData_
     (set_heapAccesses_
     (set_names_
     (set_builtinThunkOffsets_
     (set_funcPtrTables_
     (set_codeRanges_
     (set_callSites_
     (set_exports_
     (set_exits_
     (set_globals_
     (set_bufferArgumentName_
     (set_importArgumentName_
     (set_globalArgumentName_
     (set_code_ (set_pod m0 (pod m)) base)
       (globalArgumentName_ m)) (importArgumentName_ m))
       (bufferArgumentName_ m)) (globals_ m)) (exits_ m)) (exports_ m))
       (callSites_ m)) (codeRanges_ m)) (funcPtrTables_ m))
       (builtinThunkOffsets_ m)) (names_ m)) (heapAccesses_ m))
       (staticLinkData_ m)) true,
   store_bytes (zero_fill mem_d base (totalBytes_ (pod m))) base
     (load_bytes mem_s (code_ m) (Z.to_nat (codeBytes_ (pod m))))).
Proof.
  intros P cx m m0 mem_s mem_d base rest HABI Hoom Hmmap Hbase Hok.
  destruct Hok as (Hpod & Hg & Hi & Hb & [Hgl Hgll] & [Hex Hexl] & [Hxp Hxpl]
                   & [Hcs Hcsl] & [Hcr Hcrl] & [Hft Hftl] & [Hbt Hbtl]
                   & [Hnm Hnml] & [Hha Hhal] & Hsl).
  rewrite (serialize_payload P mem_s m HABI). rewrite <- !app_assoc.
  unfold deserialize.
  destruct (law_Pod _ HABI) as [Hl Hrt].
  rewrite ReadBytes_app_n by apply Hl. rewrite Hrt by assumption.
  unfold AllocateExecutableMemory. rewrite Hmmap.
  cbn [pod set_pod code_ set_code_].
  destruct (Z.eqb_spec base 0) as [|_]; [contradiction|].
  rewrite ReadBytes_app_n by apply length_load_bytes.
  erewrite and_then_Some by (apply DeserializeName_Serialize; assumption).
  erewrite and_then_Some by (apply DeserializeName_Serialize; assumption).
  erewrite and_then_Some by (apply DeserializeName_Serialize; assumption).
  erewrite and_then_Some
    by (apply (DeserializeVector_Serialize P cx HABI Hoom _ _ (Global_ok P)
                 (Global_serialize_app P)
                 (Global_deserialize_serialize P cx HABI Hoom)); assumption).
  erewrite and_then_Some
    by (apply (DeserializeVector_Serialize P cx HABI Hoom _ _ _
                 (Exit_serialize_app P)
                 (Exit_deserialize_serialize P HABI)); assumption).
  erewrite and_then_Some
    by (apply (DeserializeVector_Serialize P cx HABI Hoom _ _
                 (ExportedFunction_ok P)
                 (ExportedFunction_serialize_app P)
                 (ExportedFunction_deserialize_serialize P cx HABI Hoom));
        assumption).
  erewrite and_then_Some
    by (apply (DeserializePodVector_Serialize P cx HABI Hoom _
                 (law_CallSite _ HABI)); assumption).
  erewrite and_then_Some
    by (apply (DeserializePodVector_Serialize P cx HABI Hoom _
                 (law_CodeRange _ HABI)); assumption).
  erewrite and_then_Some
    by (apply (DeserializePodVector_Serialize P cx HABI Hoom _
                 (law_FuncPtrTable _ HABI)); assumption).
  erewrite and_then_Some
    by (apply (DeserializePodVector_Serialize P cx HABI Hoom _
                 (law_uint32 _ HABI)); auto using offsets_fit).
  erewrite and_then_Some
    by (apply (DeserializeVector_Serialize P cx HABI Hoom _ _ (name_ok P)
                 (SerializeName_app P)
                 (DeserializeName_Serialize P cx HABI Hoom)); assumption).
  erewrite and_then_Some
    by (apply (DeserializePodVector_Serialize P cx HABI Hoom _
                 (law_HeapAccess _ HABI)); assumption).
  erewrite and_then_Some
    by (apply (StaticLinkData_deserialize_serialize P cx HABI Hoom);
        assumption).
  reflexivity.
Qed.

(** ** The little-endian instance is lawful *)

Module LittleEndianFacts.

Import LittleEndian.

Lemma length_le_bytes : forall n v, length (le_bytes n v) = n.
Proof. induction n; intros v; simpl; auto. Qed.

Lemma le_value_le_bytes : forall n v,
  le_value (le_bytes n v) = v mod 2 ^ (8 * Z.of_nat n).
Proof.
  induction n as [|n IH]; intros v.
  - simpl. rewrite Z.mod_1_r. reflexivity.
  - cbn [le_bytes le_value]. rewrite IH.
    replace (8 * Z.of_nat (S n)) with (8 + 8 * Z.of_nat n) by lia.
    rewrite Z.pow_add_r by lia. change (2 ^ 8) with 256.
    rewrite (Z.rem_mul_r v 256 (2 ^ (8 * Z.of_nat n))) by lia.
    reflexivity.
Qed.

Lemma le_value_le_bytes_small : forall n v,
  0 <= v < 2 ^ (8 * Z.of_nat n) -> le_value (le_bytes n v) = v.
Proof. intros. rewrite le_value_le_bytes. apply Z.mod_small. assumption. Qed.

Lemma le_layout_lawful : forall n, lawful (le_layout n).
Proof.
  intros n. split; simpl.
  - apply length_le_bytes.
  - apply le_value_le_bytes_small.
Qed.

Lemma words_layout_lawful : forall T n (proj : T -> list Z) build,
  (forall x, length (proj x) = n) -> (forall x, build (proj x) = x) ->
  lawful (words_layout n proj build).
Proof.
  intros T n proj build Hlen Hbuild. split; simpl.
  - intros x. rewrite length_array_to_bytes by apply le_layout_lawful.
    rewrite length_firstn, length_app, repeat_length, Hlen. simpl. lia.
  - intros x Hfit.
    rewrite firstn_app, Hlen, Nat.sub_diag, firstn_O, app_nil_r.
    rewrite <- (Hlen x) at 2. rewrite firstn_all.
    pose proof (array_of_to_bytes Z (le_layout 4) (proj x) []
                  (le_layout_lawful 4) Hfit) as H.
    rewrite app_nil_r, Hlen in H. rewrite H. apply Hbuild.
Qed.

Lemma rep_layout_lawful : forall T n (rep : T -> list byte) mk,
  (forall x, mk (rep x) = x) -> lawful (rep_layout n rep mk).
Proof.
  intros T n rep mk Hmk. split; simpl.
  - intros x. rewrite length_firstn, length_app, repeat_length. lia.
  - intros x Hlen.
    rewrite firstn_app, Hlen, Nat.sub_diag, firstn_O, app_nil_r.
    rewrite <- Hlen, firstn_all. apply Hmk.
Qed.

Lemma le_abi_lawful : ABI_lawful le_abi.
Proof.
  constructor; simpl;
    try apply le_layout_lawful;
    try (apply rep_layout_lawful; intros []; reflexivity);
    try (apply words_layout_lawful; [reflexivity|]).
  - intros v Hv. simpl. lia.
  - intros [a b c d e [] [] h i]; reflexivity.
  - intros []; reflexivity.
  - intros [a []]; reflexivity.
  - intros [a b c d e [] g h i j]; reflexivity.
  - intros [a b]. cbv [w nth]. rewrite Nat2Z.id. reflexivity.
  - intros []; reflexivity.
  - intros [[] b c]; reflexivity.
Qed.

End LittleEndianFacts.

(** ** The claims on the codec *)

(** C10.  [serialize] moves the cursor by exactly [serializedSize()] bytes:
    the size computation and the writer agree on the POD header, the code,
    the three argument names, each length-prefixed table and the static-link
    data, so an entry of [serializedSize()] bytes is filled to its end and
    not beyond. *)
Theorem serialize_advances_by_serializedSize : forall P mem m cursor,
  ABI_lawful (abi P) ->
  length (serialize P mem m cursor) = (length cursor + serializedSize P m)%nat.
Proof. exact serialize_length. Qed.

(** The theorem for the example module on the x86 build. *)
Lemma serialize_advances_by_serializedSize_witness :
  length (serialize (LittleEndian.x86 false) (Examples.example_memory 65536)
            (Examples.example_module 65536) [])
  = (0 + serializedSize (LittleEndian.x86 false)
           (Examples.example_module 65536))%nat.
Proof.
  apply (serialize_advances_by_serializedSize (LittleEndian.x86 false)
           (Examples.example_memory 65536) (Examples.example_module 65536) []).
  exact LittleEndianFacts.le_abi_lawful.
Defined.

(** C2.  For a module whose members [serialize] can write, reading the
    bytes of [serialize] back with [deserialize] (the allocator and the
    mapping succeeding) consumes exactly those bytes and gives a module
    whose first [codeBytes] bytes of code are those of the module written
    and whose [pod], argument names, tables and static-link data are equal
    to its. *)
Theorem deserialize_serialize_roundtrip :
  forall P cx m m0 mem_s mem_d base rest,
  ABI_lawful (abi P) -> cx_oom cx = false -> cx_mmap cx = Some base ->
  base <> 0 -> serializable P m ->
  exists m' mem',
    deserialize P cx m0 mem_d (serialize P mem_s m [] ++ rest)
    = (Some rest, m', mem') /\
    code_ m' = base /\
    (forall i, 0 <= i < codeBytes_ (pod m) ->
               mem' (base + i) = mem_s (code_ m + i)) /\
    pod m' = pod m /\
    globalArgumentName_ m' = globalArgumentName_ m /\
    importArgumentName_ m' = importArgumentName_ m /\
    bufferArgumentName_ m' = bufferArgumentName_ m /\
    globals_ m' = globals_ m /\
    exits_ m' = exits_ m /\
    exports_ m' = exports_ m /\
    callSites_ m' = callSites_ m /\
    codeRanges_ m' = codeRanges_ m /\
    funcPtrTables_ m' = funcPtrTables_ m /\
    builtinThunkOffsets_ m' = builtinThunkOffsets_ m /\
    names_ m' = names_ m /\
    heapAccesses_ m' = heapAccesses_ m /\
    staticLinkData_ m' = staticLinkData_ m.
Proof.
  intros P cx m m0 mem_s mem_d base rest HABI Hoom Hmmap Hbase Hok.
  eexists. eexists. split.
  - apply deserialize_serialize_eq; eassumption.
  - split; [reflexivity|]. split; [|repeat split; reflexivity].
    intros i Hi.
    replace i with (Z.of_nat (Z.to_nat i)) by lia.
    rewrite store_bytes_inside by (rewrite length_load_bytes; lia).
    apply nth_load_bytes. lia.
Qed.

Ltac wf_example :=
  repeat first
    [ exact I
    | apply Forall_nil
    | apply Forall_cons
    | match goal with |- _ /\ _ => split end
    | progress cbv [Global_ok ExportedFunction_ok offsets_ok
                    StaticLinkData_ok name_ok]
    | progress simpl ];
  try lia; try discriminate; try reflexivity.

Lemma example_module_serializable : forall code,
  serializable (LittleEndian.x86 false) (Examples.example_module code).
Proof.
  intros code.
  unfold serializable, Examples.example_module,
    Examples.example_absoluteLinks.
  wf_example.
Defined.

(** The theorem for the example module, read back at another address. *)
Lemma deserialize_serialize_roundtrip_witness :
  exists m' mem',
    deserialize (LittleEndian.x86 false)
      (LittleEndian.example_cx 131072 [1] None)
      (AsmJSModule_new (LittleEndian.x86 false) (mkScriptSource [97]) 0 8
         false false)
      Examples.zero_memory
      (serialize (LittleEndian.x86 false) (Examples.example_memory 65536)
         (Examples.example_module 65536) [] ++ [])
    = (Some [], m', mem') /\
    code_ m' = 131072 /\
    (forall i, 0 <= i < 128 ->
               mem' (131072 + i) = Examples.example_memory 65536 (65536 + i)) /\
    codeRanges_ m' = codeRanges_ (Examples.example_module 65536).
Proof.
  destruct (deserialize_serialize_roundtrip (LittleEndian.x86 false)
              (LittleEndian.example_cx 131072 [1] None)
              (Examples.example_module 65536)
              (AsmJSModule_new (LittleEndian.x86 false) (mkScriptSource [97])
                 0 8 false false)
              (Examples.example_memory 65536) Examples.zero_memory 131072 []
              LittleEndianFacts.le_abi_lawful eq_refl eq_refl
              ltac:(discriminate) (example_module_serializable 65536))
    as (m' & mem' & Hd & Hc & Hm & H).
  exists m', mem'. repeat split; try assumption. tauto.
Defined.

(** ** finish: the sizes of the image *)

Lemma AlignBytes_spec : forall bytes alignment,
  0 < alignment ->
  AlignBytes bytes alignment mod alignment = 0 /\
  bytes <= AlignBytes bytes alignment < bytes + alignment.
Proof.
  intros b a Ha. unfold AlignBytes.
  pose proof (Z.mod_pos_bound b a Ha) as Hr.
  pose proof (Z.div_mod b a ltac:(lia)) as Hb.
  destruct (Z.eq_dec (b mod a) 0) as [H0|H0].
  - rewrite H0, Z.sub_0_r, Z.mod_same, Z.add_0_r by lia. split; [assumption|lia].
  - rewrite (Z.mod_small (a - b mod a) a) by lia. split; [|lia].
    replace (b + (a - b mod a)) with ((b / a + 1) * a) by lia.
    apply Z.mod_mul. lia.
Qed.

(** The members of [pod] that [finish] leaves as they are computed at its
    start. *)
Lemma finish_pod : forall P cx ts masm il m mem m' mem',
  finish P cx ts masm il m mem = Done (m', mem') ->
  let p0 := pod_set_codeBytes_
              (pod_set_srcLengthWithRightBrace_
                 (pod_set_srcLength_ (pod m)
                    (uint32 (endBeforeCurly ts - srcStart_ m)))
                 (uint32 (endAfterCurly ts - srcStart_ m)))
              (uint32 (AlignBytes (bytesNeeded masm) sizeof_double)) in
  codeBytes_ (pod m') = uint32 (AlignBytes (bytesNeeded masm) sizeof_double) /\
  totalBytes_ (pod m') =
    uint32 (AlignBytes (codeBytes_ p0 + globalDataBytes P p0) (AsmJSPageSize P)) /\
  funcPtrTableAndExitBytes_ (pod m') = funcPtrTableAndExitBytes_ (pod m) /\
  code_ m' <> 0.
Proof.
  intros P cx ts masm il m mem m' mem' H. unfold finish in H.
  destruct (arch P) eqn:Harch;
  repeat match type of H with
         | (if ?c then _ else _) = _ => destruct c eqn:?; try discriminate
         | (let '(_, _) := ?e in _) = _ => destruct e eqn:?
         | match ?e with _ => _ end = _ => destruct e eqn:?; try discriminate
         end.
  all: inversion H; subst; clear H; cbn -[AlignBytes uint32];
    repeat split; try reflexivity;
    match goal with
    | Hc : (?z =? 0) = false |- ?z <> 0 => apply Z.eqb_neq; exact Hc
    | _ => idtac
    end.
Qed.

(** C8 (amended).  After a successful [finish], with sizes that fit the
    32-bit members: [codeBytes] is the assembler's byte count rounded up to
    a multiple of [sizeof(double)], which is 8 on every build and not the
    pointer size; [totalBytes] is [codeBytes] plus the size of the global
    data rounded up to a multiple of the page size; [codeBytes <=
    totalBytes] and [totalBytes % pageSize == 0]. *)
Theorem finish_sizes : forall P cx ts masm il m mem m' mem',
  0 < AsmJSPageSize P ->
  (forall p q, funcPtrTableAndExitBytes_ p = funcPtrTableAndExitBytes_ q ->
               globalDataBytes P p = globalDataBytes P q) ->
  0 <= bytesNeeded masm -> 0 <= globalDataBytes P (pod m) ->
  AlignBytes (AlignBytes (bytesNeeded masm) sizeof_double
              + globalDataBytes P (pod m)) (AsmJSPageSize P) < 2 ^ 32 ->
  finish P cx ts masm il m mem = Done (m', mem') ->
  let codeBytes := codeBytes_ (pod m') in
  let totalBytes := totalBytes_ (pod m') in
  let dataBytes := globalDataBytes P (pod m') in
  codeBytes = AlignBytes (bytesNeeded masm) sizeof_double /\
  (codeBytes mod sizeof_double = 0 /\
   bytesNeeded masm <= codeBytes < bytesNeeded masm + sizeof_double) /\
  totalBytes = AlignBytes (codeBytes + dataBytes) (AsmJSPageSize P) /\
  (totalBytes mod AsmJSPageSize P = 0 /\
   codeBytes + dataBytes <= totalBytes
                          < codeBytes + dataBytes + AsmJSPageSize P) /\
  codeBytes <= totalBytes.
Proof.
  intros P cx ts masm il m mem m' mem' Hpage Hgd Hn Hd Hfit Hfin
         codeBytes totalBytes dataBytes.
  destruct (finish_pod _ _ _ _ _ _ _ _ _ Hfin) as (Hc & Ht & Hf & _).
  cbv zeta in Ht.
  assert (Hdata : dataBytes = globalDataBytes P (pod m)).
  { unfold dataBytes. apply Hgd. assumption. }
  match type of Ht with
  | context [globalDataBytes P ?p] => rewrite (Hgd p (pod m) eq_refl) in Ht
  end.
  destruct (AlignBytes_spec (bytesNeeded masm) sizeof_double ltac:(unfold sizeof_double; lia))
    as [Hcm Hcb].
  set (c := AlignBytes (bytesNeeded masm) sizeof_double) in *.
  destruct (AlignBytes_spec (c + globalDataBytes P (pod m)) (AsmJSPageSize P) Hpage)
    as [Htm Htb].
  assert (Hcs : uint32 c = c) by (apply uint32_small; lia).
  cbn [codeBytes_ pod_set_codeBytes_] in Ht. rewrite Hcs in Ht, Hc.
  rewrite uint32_small in Ht by lia.
  fold codeBytes in Hc. fold totalBytes in Ht.
  rewrite Hdata, Hc, Ht. unfold sizeof_double in *. repeat split; lia.
Qed.

(** The theorem for the example: 124 bytes of code and 24 bytes of global
    data on the x86 build. *)
Lemma finish_sizes_witness :
  codeBytes_ Examples.example_pod = 128 /\
  totalBytes_ Examples.example_pod = 4096.
Proof.
  pose proof (finish_sizes (LittleEndian.x86 true)
                (LittleEndian.example_cx 65536 [1] None)
                Examples.example_tokenStream Examples.example_masm 100
                Examples.example_unfinished Examples.zero_memory
                (Examples.example_module 65536)
                (store_bytes (zero_fill Examples.zero_memory 65536 4096) 65536
                   (firstn 124 Examples.example_code))
                ltac:(simpl; lia)
                ltac:(intros p q Hpq; simpl; rewrite Hpq; reflexivity)
                ltac:(simpl; lia) ltac:(simpl; lia)
                ltac:(vm_compute; reflexivity)
                ltac:(vm_compute; reflexivity)) as H.
  cbv zeta in H. destruct H as (Hc & _ & Ht & _).
  split; [exact Hc | exact Ht].
Defined.

(** C8 as stated fails on a 32-bit build: 124 bytes of code are a multiple
    of the pointer size, 4, and [codeBytes] is 128. *)
Lemma finish_codeBytes_not_pointer_aligned :
  exists m' mem',
    finish (LittleEndian.x86 false) (LittleEndian.example_cx 65536 [1] None)
      Examples.example_tokenStream Examples.example_masm 100
      Examples.example_unfinished Examples.zero_memory = Done (m', mem') /\
    sizeof_ptr (LittleEndian.x86 false) = 4 /\
    AlignBytes (bytesNeeded Examples.example_masm)
               (sizeof_ptr (LittleEndian.x86 false)) = 124 /\
    codeBytes_ (pod m') = 128.
Proof.
  eexists. eexists. split; [vm_compute; reflexivity|].
  split; [reflexivity|]. split; reflexivity.
Qed.

(** ** Fields of memory and writes to them *)

(** The address [a] is one of the bytes of the field [F] at [p]. *)
Definition in_field (F : Field) (p a : Z) : Prop :=
  p + f_lo F <= a < p + f_lo F + f_len F.

(** What a field of the assembler has to satisfy: writing it changes its
    bytes only and to bytes that depend on the value only; reading it reads
    its bytes only; a value it can hold is read back. *)
Record field_ok (F : Field) : Prop := mk_field_ok {
  set_frame : forall m p v a, ~ in_field F p a -> f_set F m p v a = m a;
  set_local : forall m1 m2 p v a,
    in_field F p a -> f_set F m1 p v a = f_set F m2 p v a;
  get_local : forall m1 m2 p,
    (forall a, in_field F p a -> m1 a = m2 a) -> f_get F m1 p = f_get F m2 p;
  get_set : forall m p v,
    f_valid F p v = true -> f_get F (f_set F m p v) p = v
}.

(** A write of the value [v] to the field [F] at [p]. *)
Definition Write : Type := Field * Z * Z.

Definition w_field (w : Write) : Field := fst (fst w).
Definition w_at (w : Write) : Z := snd (fst w).
Definition w_value (w : Write) : Z := snd w.

Definition run_write (m : Memory) (w : Write) : Memory :=
  f_set (w_field w) m (w_at w) (w_value w).

Definition run_writes (ws : list Write) (m : Memory) : Memory :=
  fold_left run_write ws m.

(** The bytes of two writes do not meet. *)
Definition writes_disjoint (w1 w2 : Write) : Prop :=
  forall a, in_field (w_field w1) (w_at w1) a ->
            ~ in_field (w_field w2) (w_at w2) a.

Definition write_ok (w : Write) : Prop :=
  field_ok (w_field w) /\ f_valid (w_field w) (w_at w) (w_value w) = true.

Lemma run_writes_outside : forall ws m a,
  Forall write_ok ws ->
  (forall w, In w ws -> ~ in_field (w_field w) (w_at w) a) ->
  run_writes ws m a = m a.
Proof.
  induction ws as [|w ws IH]; intros m a Hok Hout; simpl.
  - reflexivity.
  - inversion Hok as [|? ? [Hw _] Hws]; subst.
    rewrite IH by (auto; intros w' Hin; apply Hout; right; exact Hin).
    apply (set_frame _ Hw). apply Hout. left. reflexivity.
Qed.

(** In a sequence of writes to fields that do not meet, each value written
    is read back at the end. *)
Lemma run_writes_get : forall ws m w,
  Forall write_ok ws -> ForallOrdPairs writes_disjoint ws -> In w ws ->
  f_get (w_field w) (run_writes ws m) (w_at w) = w_value w.
Proof.
  induction ws as [|w0 ws IH]; intros m w Hok Hdis Hin.
  - contradiction.
  - inversion Hok as [|? ? Hw0 Hws]; subst.
    inversion Hdis as [|? ? Hd0 Hdws]; subst.
    destruct Hin as [<-|Hin].
    + simpl. destruct Hw0 as [Hf Hv].
      rewrite (get_local _ Hf (run_writes ws (run_write m w0))
                 (run_write m w0)).
      * apply (get_set _ Hf). exact Hv.
      * intros a Ha. apply run_writes_outside; [assumption|].
        intros w' Hin'. rewrite Forall_forall in Hd0.
        apply (Hd0 w' Hin' a Ha).
    + simpl. apply IH; assumption.
Qed.

Lemma fold_left_map_writes : forall A (f : Memory -> A -> Memory)
  (g : A -> Write) l m,
  (forall m x, f m x = run_write m (g x)) ->
  fold_left f l m = run_writes (map g l) m.
Proof.
  intros A f g l. induction l as [|x l IH]; intros m Hfg; simpl.
  - reflexivity.
  - rewrite Hfg. apply IH. assumption.
Qed.

Lemma run_writes_app : forall ws1 ws2 m,
  run_writes (ws1 ++ ws2) m = run_writes ws2 (run_writes ws1 m).
Proof. intros. unfold run_writes. apply fold_left_app. Qed.

(** ** staticallyLink *)

Section StaticLink.

Variable P : Platform.

(** The write that applies one relative link. *)
Definition relativeLink_write (code : Z) (link : RelativeLink.t) : Write :=
  (if isRawPointerPatch P link then rawPointer (asm P)
   else instructionImmediate (asm P),
   code + RelativeLink.patchAtOffset link,
   code + RelativeLink.targetOffset link).

(** The writes that patch the absolute links of one kind. *)
Definition absoluteLink_writes (cx : ExclusiveContext) (code : Z)
  (link : AsmJSImmKind * list Z) : list Write :=
  match AddressOf P (fst link) (Some cx) with
  | Some target => map (fun off => (patchedData (asm P), code + off, target))
                       (snd link)
  | None => []
  end.

(** The two writes that initialize the datum of one exit. *)
Definition exit_writes (m : AsmJSModule) (e : Exit) : list Write :=
  [(rawPointer (asm P), exitDatum_exit m e, interpExitTrampoline m e);
   (rawPointer (asm P), exitDatum_fun P m e, 0)].

(** All the writes of [staticallyLink], in its order. *)
Definition link_writes (cx : ExclusiveContext) (m : AsmJSModule)
  : list Write :=
  map (relativeLink_write (code_ m)) (relativeLinks (staticLinkData_ m))
  ++ flat_map (absoluteLink_writes cx (code_ m)) (absoluteLinks_by_kind P m)
  ++ flat_map (exit_writes m) (exits_ m).

Lemma patch_offsets_writes : forall code offsets to from mem mem',
  patch_offsets P code offsets to from mem = Some mem' ->
  mem' = run_writes (map (fun off => (patchedData (asm P), code + off, to))
                         offsets) mem.
Proof.
  induction offsets as [|off offsets IH]; intros to from mem mem' H;
    simpl in H.
  - inversion H. reflexivity.
  - unfold PatchDataWithValueCheck in H.
    destruct (JS_ASSERT P _); [|discriminate].
    apply IH in H. exact H.
Qed.

Lemma patch_absoluteLinks_writes : forall cx code links mem mem',
  patch_absoluteLinks P true cx code links mem = Some mem' ->
  mem' = run_writes (flat_map (absoluteLink_writes cx code) links) mem.
Proof.
  induction links as [|[imm offsets] links IH]; intros mem mem' H;
    simpl in H.
  - inversion H. reflexivity.
  - cbn [flat_map]. unfold absoluteLink_writes at 1. cbn [fst snd].
    destruct (AddressOf P imm (Some cx)) as [target|]; [|discriminate].
    destruct (patch_offsets P code offsets target (minus_one P) mem)
      as [mem1|] eqn:H1; [|discriminate].
    apply patch_offsets_writes in H1. apply IH in H.
    rewrite run_writes_app, <- H1. exact H.
Qed.

Lemma exits_writes : forall m exits mem,
  fold_left (init_exitDatum P m) exits mem
  = run_writes (flat_map (exit_writes m) exits) mem.
Proof.
  intros m exits. induction exits as [|e exits IH]; intros mem; simpl.
  - reflexivity.
  - rewrite IH. reflexivity.
Qed.

Lemma staticallyLink_writes : forall cx m mem m' mem',
  staticallyLink P cx m mem = Some (m', mem') ->
  m' = set_interruptExit_ m (code_ m + interruptExitOffset (staticLinkData_ m))
  /\ mem' = run_writes (link_writes cx m) mem.
Proof.
  intros cx m mem m' mem' H. unfold staticallyLink in H.
  destruct (negb _); [discriminate|].
  destruct (patch_absoluteLinks P true cx _ _ _) as [mem2|] eqn:H2;
    [|discriminate].
  destruct (JS_ASSERT P _); [|discriminate].
  inversion H; subst; clear H. split; [reflexivity|].
  apply patch_absoluteLinks_writes in H2.
  unfold link_writes. rewrite !run_writes_app.
  rewrite exits_writes. f_equal.
  cbn [code_ set_interruptExit_ staticLinkData_] in *.
  unfold absoluteLinks_by_kind in *.
  cbn [staticLinkData_ set_interruptExit_] in H2.
  rewrite H2. f_equal.
  apply fold_left_map_writes. intros m0 link.
  unfold apply_relativeLink, run_write, relativeLink_write, w_field, w_at,
    w_value. simpl. destruct (isRawPointerPatch P link); reflexivity.
Qed.

End StaticLink.

(** *** The fields of the little-endian instance *)

Lemma load_store_bytes : forall bs m a,
  load_bytes (store_bytes m a bs) a (length bs) = bs.
Proof.
  intros bs m a. apply nth_ext with (d := 0) (d' := 0).
  - apply length_load_bytes.
  - intros i Hi. rewrite length_load_bytes in Hi.
    rewrite nth_load_bytes by assumption.
    apply store_bytes_inside. assumption.
Qed.

Lemma load_bytes_ext : forall m1 m2 a n,
  (forall x, a <= x < a + Z.of_nat n -> m1 x = m2 x) ->
  load_bytes m1 a n = load_bytes m2 a n.
Proof.
  intros m1 m2 a n H. unfold load_bytes. apply map_ext_in.
  intros i Hi. apply in_seq in Hi. apply H. lia.
Qed.

Lemma store_bytes_local : forall bs m1 m2 a x,
  a <= x < a + Z.of_nat (length bs) ->
  store_bytes m1 a bs x = store_bytes m2 a bs x.
Proof.
  intros bs m1 m2 a x Hx.
  replace x with (a + Z.of_nat (Z.to_nat (x - a))) by lia.
  rewrite !store_bytes_inside by lia. reflexivity.
Qed.

Lemma le_field_ok : forall lo n, field_ok (LittleEndian.le_field lo n).
Proof.
  intros lo n.
  constructor; unfold in_field, LittleEndian.le_field;
    cbn [f_lo f_len f_get f_set f_valid].
  - intros m p v a Ha. apply store_bytes_outside.
    rewrite LittleEndianFacts.length_le_bytes. lia.
  - intros m1 m2 p v a Ha. apply store_bytes_local.
    rewrite LittleEndianFacts.length_le_bytes. lia.
  - intros m1 m2 p H. f_equal. apply load_bytes_ext. intros x Hx.
    apply H. lia.
  - intros m p v Hv. apply andb_prop in Hv. destruct Hv as [H0 H1].
    apply Z.leb_le in H0. apply Z.ltb_lt in H1.
    rewrite <- (LittleEndianFacts.length_le_bytes n v) at 2.
    rewrite load_store_bytes.
    apply LittleEndianFacts.le_value_le_bytes_small. lia.
Qed.

(** *** The claim *)

(** C7.  When [staticallyLink] returns on a finished module that is not
    yet linked, memory is what the writes of [staticallyLink] make of it, in
    their order: for each relative link the write of [base + targetOffset]
    at [base + patchAtOffset], as a raw pointer or as the immediate of an
    instruction, then the absolute links, then for each exit the trampoline
    of the interpreted call and no callee.  When the locations written do
    not meet and can hold their values, these are the values read back at
    the end: each relative link is applied, and the datum of each exit
    holds its trampoline and [nullptr]. *)
Theorem staticallyLink_links_and_exits : forall P cx m mem m' mem',
  isFinished m = true -> isStaticallyLinked m = false ->
  staticallyLink P cx m mem = Some (m', mem') ->
  interruptExit_ m' = code_ m + interruptExitOffset (staticLinkData_ m) /\
  mem' = run_writes (link_writes P cx m) mem /\
  (Forall write_ok (link_writes P cx m) ->
   ForallOrdPairs writes_disjoint (link_writes P cx m) ->
   (forall link, In link (relativeLinks (staticLinkData_ m)) ->
      f_get (if isRawPointerPatch P link then rawPointer (asm P)
             else instructionImmediate (asm P))
        mem' (code_ m + RelativeLink.patchAtOffset link)
      = code_ m + RelativeLink.targetOffset link) /\
   (forall e, In e (exits_ m) ->
      f_get (rawPointer (asm P)) mem' (exitDatum_exit m e)
      = interpExitTrampoline m e /\
      f_get (rawPointer (asm P)) mem' (exitDatum_fun P m e) = 0)).
Proof.
  intros P cx m mem m' mem' _ _ H.
  apply staticallyLink_writes in H. destruct H as [-> ->].
  split; [reflexivity|]. split; [reflexivity|].
  intros Hok Hdis. split.
  - intros link Hin.
    apply (run_writes_get (link_writes P cx m) mem
             (relativeLink_write P (code_ m) link) Hok Hdis).
    unfold link_writes. apply in_or_app. left. apply in_map. exact Hin.
  - intros e Hin. split.
    + apply (run_writes_get (link_writes P cx m) mem
               (rawPointer (asm P), exitDatum_exit m e,
                interpExitTrampoline m e) Hok Hdis).
      unfold link_writes. apply in_or_app. right. apply in_or_app. right.
      apply in_flat_map. exists e. split; [exact Hin|]. left. reflexivity.
    + apply (run_writes_get (link_writes P cx m) mem
               (rawPointer (asm P), exitDatum_fun P m e, 0) Hok Hdis).
      unfold link_writes. apply in_or_app. right. apply in_or_app. right.
      apply in_flat_map. exists e. split; [exact Hin|].
      right. left. reflexivity.
Qed.

(** Without assertions [staticallyLink] returns on every module. *)
Lemma staticallyLink_returns : forall P cx m mem,
  DEBUG P = false -> exists r, staticallyLink P cx m mem = Some r.
Proof.
  intros P cx m mem HD. unfold staticallyLink, JS_ASSERT. rewrite HD. simpl.
  assert (Hoff : forall code offsets to from mem0,
            exists mem1, patch_offsets P code offsets to from mem0 = Some mem1).
  { induction offsets as [|off offsets IH]; intros to from mem0; simpl.
    - eauto.
    - unfold PatchDataWithValueCheck, JS_ASSERT. rewrite HD. simpl. apply IH. }
  assert (Habs : forall links mem0,
            Forall (fun l => In (fst l) (AsmJSImmKinds (arch P))) links ->
            exists mem1,
              patch_absoluteLinks P true cx (code_ m) links mem0 = Some mem1).
  { induction links as [|[imm offsets] links IH]; intros mem0 Hin; simpl.
    - eauto.
    - inversion Hin as [|? ? Himm Hrest]; subst. simpl in Himm.
      assert (exists t, AddressOf P imm (Some cx) = Some t) as [t Ht].
      { unfold AsmJSImmKinds in Himm. unfold AddressOf.
        destruct (arch P); simpl in Himm;
          repeat (destruct Himm as [<-|Himm]; [simpl; eauto|]);
          contradiction. }
      rewrite Ht.
      destruct (Hoff (code_ m) offsets t (minus_one P) mem0) as [mem1 ->].
      apply IH. assumption. }
  destruct (Habs (absoluteLinks_by_kind P
                    (set_interruptExit_ m
                       (code_ m + interruptExitOffset (staticLinkData_ m))))
              (fold_left (apply_relativeLink P (code_ m))
                 (relativeLinks (staticLinkData_ m)) mem)) as [mem1 H1].
  - unfold absoluteLinks_by_kind. apply Forall_forall. intros [k v] Hin.
    apply in_combine_l in Hin. exact Hin.
  - cbn [code_ set_interruptExit_ staticLinkData_] in *. rewrite H1. eauto.
Qed.

(** The theorem for the example module on the x86 build with assertions. *)

(** The theorem for the example module on the x86 build with assertions. *)
Lemma staticallyLink_links_and_exits_witness :
  exists m' mem',
    staticallyLink (LittleEndian.x86 true)
      (LittleEndian.example_cx 131072 [1] None)
      (Examples.example_module 65536) (Examples.example_memory 65536)
    = Some (m', mem') /\
    LittleEndian.le_value (load_bytes mem' (65536 + 144) 4) = 65536 + 24 /\
    LittleEndian.le_value (load_bytes mem' (65536 + 128 + 8) 4) = 65536 + 100 /\
    LittleEndian.le_value (load_bytes mem' (65536 + 128 + 8 + 4) 4) = 0.
Proof.
  set (P := LittleEndian.x86 true).
  set (cx := LittleEndian.example_cx 131072 [1] None).
  set (m := Examples.example_module 65536).
  destruct (staticallyLink P cx m (Examples.example_memory 65536))
    as [[m' mem']|] eqn:Hlink; [|vm_compute in Hlink; discriminate].
  exists m', mem'. split; [reflexivity|].
  assert (Hlw : link_writes P cx m
                = [(LittleEndian.le_field 0 4, 65680, 65560);
                   (LittleEndian.le_field (-4) 4, 65592, 3221225632);
                   (LittleEndian.le_field 0 4, 65672, 65636);
                   (LittleEndian.le_field 0 4, 65676, 0)]) by reflexivity.
  assert (Hok : Forall write_ok (link_writes P cx m)).
  { rewrite Hlw. repeat constructor; try apply le_field_ok. }
  assert (Hdis : ForallOrdPairs writes_disjoint (link_writes P cx m)).
  { rewrite Hlw.
    repeat first [apply FOP_nil | apply FOP_cons | apply Forall_nil
                 | apply Forall_cons];
      intros a; unfold in_field, w_at, w_field; simpl; lia. }
  destruct (staticallyLink_links_and_exits P cx m
              (Examples.example_memory 65536) m' mem' eq_refl eq_refl
              Hlink) as (_ & _ & Hread).
  destruct (Hread Hok Hdis) as (Hrel & Hexit).
  split.
  - apply (Hrel (RelativeLink.mk RelativeLink.RawPointer 144 24)).
    left. reflexivity.
  - apply (Hexit (mkExit 8 100 110)). left. reflexivity.
Defined.

(** ** Attaching a heap *)

Section InitHeapFacts.

Variable P : Platform.

Lemma JS_ASSERT_release : forall b, DEBUG P = false -> JS_ASSERT P b = true.
Proof. intros b H. unfold JS_ASSERT. rewrite H. reflexivity. Qed.

Lemma JS_ASSERT_debug : forall b,
  DEBUG P = true -> JS_ASSERT P b = true -> b = true.
Proof. intros b H. unfold JS_ASSERT. rewrite H. simpl. auto. Qed.

Lemma initHeap_x86_loop_release : forall code heapOffset heapLength accesses mem,
  DEBUG P = false ->
  exists mem',
    fold_left (initHeap_x86_access P code heapOffset heapLength) accesses
      (Some mem) = Some mem'.
Proof.
  intros code heapOffset heapLength accesses.
  induction accesses as [|access accesses IH]; intros mem HD.
  - exists mem. reflexivity.
  - cbn [fold_left initHeap_x86_access].
    rewrite (JS_ASSERT_release _ HD). apply IH. exact HD.
Qed.

(** Without assertions [initHeap] returns for every heap, and binds it. *)
Lemma initHeap_release : forall heap m mem,
  DEBUG P = false ->
  exists mem',
    initHeap P heap m mem = Some (set_maybeHeap_ m (Some heap), mem').
Proof.
  intros heap m mem HD. unfold initHeap.
  rewrite !(JS_ASSERT_release _ HD). cbn [andb negb].
  destruct (arch P).
  - destruct (initHeap_x86_loop_release
                (code_ (set_maybeHeap_ m (Some heap))) (dataPointer heap)
                (byteLength heap) (heapAccesses_ (set_maybeHeap_ m (Some heap)))
                (f_set (rawPointer (asm P)) mem
                   (heapDatum P (set_maybeHeap_ m (Some heap)))
                   (dataPointer heap)) HD) as [mem' ->].
    eauto.
  - destruct (usesSignalHandlersForOOB _); eauto.
  - eauto.
  - eauto.
  - eauto.
Qed.

(** Whenever [initHeap] returns, the module is the one it was given with
    the heap bound. *)
Lemma initHeap_module : forall heap m mem m' mem',
  initHeap P heap m mem = Some (m', mem') ->
  m' = set_maybeHeap_ m (Some heap).
Proof.
  intros heap m mem m' mem' H. unfold initHeap in H.
  destruct (negb _); [discriminate|].
  destruct (arch P).
  - destruct (fold_left _ _ _); [|discriminate]. congruence.
  - destruct (usesSignalHandlersForOOB _); congruence.
  - congruence.
  - congruence.
  - congruence.
Qed.

End InitHeapFacts.

(** ** Patches on spans of memory that do not meet *)

(** The bytes [[fst s, fst s + snd s)]. *)
Definition Span : Type := (Z * Z)%type.

Definition in_span (s : Span) (x : Z) : Prop := fst s <= x < fst s + snd s.

Definition spans_disjoint (s1 s2 : Span) : Prop :=
  forall x, in_span s1 x -> ~ in_span s2 x.

Definition no_span : Span := (0, 0).

Definition field_span (F : Field) (p : Z) : Span := (p + f_lo F, f_len F).

(** A step of a loop that rewrites memory, or stops on a failed assertion. *)
Definition Patch : Type := Memory -> option Memory.

Definition run_patches (ps : list Patch) (acc : option Memory)
  : option Memory :=
  fold_left (fun acc p => match acc with None => None | Some m => p m end)
    ps acc.

(** The patch reads and writes the bytes of the span only. *)
Record patch_local (s : Span) (p : Patch) : Prop := mk_patch_local {
  patch_frame : forall m m', p m = Some m' ->
    forall x, ~ in_span s x -> m' x = m x;
  patch_reads : forall m1 m2, (forall x, in_span s x -> m1 x = m2 x) ->
    match p m1, p m2 with
    | Some r1, Some r2 => forall x, in_span s x -> r1 x = r2 x
    | None, None => True
    | _, _ => False
    end
}.

(** A patch that turns something on, the patch that turns it off, and the
    bytes that hold it. *)
Record Toggle := mkToggle {
  t_span : Span;
  t_on : Patch;
  t_off : Patch
}.

(** From [mem] the two patches of the toggle, one after the other, give
    back the bytes of [mem]. *)
Record toggle_ok (mem : Memory) (t : Toggle) : Prop := mk_toggle_ok {
  on_local : patch_local (t_span t) (t_on t);
  off_local : patch_local (t_span t) (t_off t);
  on_off : exists m1 m2,
    t_on t mem = Some m1 /\ t_off t m1 = Some m2 /\
    forall x, in_span (t_span t) x -> m2 x = mem x
}.

Lemma in_span_dec : forall s x, {in_span s x} + {~ in_span s x}.
Proof.
  intros [lo len] x. unfold in_span. simpl.
  destruct (Z_le_dec lo x); destruct (Z_lt_dec x (lo + len));
    [left | right | right | right]; lia.
Qed.

Lemma no_span_empty : forall x, ~ in_span no_span x.
Proof. intros x. unfold in_span, no_span. simpl. lia. Qed.

Lemma spans_disjoint_sym : forall s1 s2,
  spans_disjoint s1 s2 -> spans_disjoint s2 s1.
Proof. intros s1 s2 H x H2 H1. exact (H x H1 H2). Qed.

Lemma run_patches_None : forall ps, run_patches ps None = None.
Proof. induction ps as [|p ps IH]; simpl; auto. Qed.

Lemma run_patches_app : forall ps qs acc,
  run_patches (ps ++ qs) acc = run_patches qs (run_patches ps acc).
Proof. intros. unfold run_patches. apply fold_left_app. Qed.

(** A loop whose body does nothing once it has failed is a run of patches. *)
Lemma fold_left_run_patches : forall {A} (f : option Memory -> A -> option Memory)
  (l : list A) acc,
  (forall a, f None a = None) ->
  fold_left f l acc = run_patches (map (fun a mem => f (Some mem) a) l) acc.
Proof.
  intros A f l acc Hf. revert acc.
  induction l as [|a l IH]; intros acc; simpl.
  - reflexivity.
  - rewrite IH. destruct acc; [reflexivity|]. rewrite Hf. reflexivity.
Qed.

(** Patches on spans that do not meet act as each does alone. *)
Lemma run_patches_disjoint : forall (ps : list (Span * Patch)) m0,
  Forall (fun sp => patch_local (fst sp) (snd sp)) ps ->
  ForallOrdPairs (fun a b => spans_disjoint (fst a) (fst b)) ps ->
  Forall (fun sp => exists r, snd sp m0 = Some r) ps ->
  exists M,
    run_patches (map snd ps) (Some m0) = Some M /\
    Forall (fun sp => forall r, snd sp m0 = Some r ->
                      forall x, in_span (fst sp) x -> M x = r x) ps /\
    (forall x, Forall (fun sp => ~ in_span (fst sp) x) ps -> M x = m0 x).
Proof.
  unfold Patch, Memory.
  induction ps as [|[s p] ps IH]; intros m0 Hloc Hdis Hrun.
  - exists m0. simpl. repeat split; auto.
  - inversion Hloc as [|? ? Hp Hloc']; subst.
    inversion Hdis as [|? ? Hsp Hdis']; subst.
    inversion Hrun as [|? ? [r Hr] Hrun']; subst.
    simpl in Hp, Hr, Hsp.
    assert (Hagree : forall q, In q ps ->
              forall x, in_span (fst q) x -> r x = m0 x).
    { intros q Hq x Hx. apply (patch_frame _ _ Hp _ _ Hr).
      rewrite Forall_forall in Hsp. intros Hs. exact (Hsp q Hq x Hs Hx). }
    destruct (IH r Hloc' Hdis') as (M & HM & Hon & Hoff).
    { apply Forall_forall. intros q Hq.
      rewrite Forall_forall in Hrun', Hloc'.
      destruct (Hrun' q Hq) as [rq Hrq].
      pose proof (patch_reads _ _ (Hloc' q Hq) r m0 (Hagree q Hq)) as Hrd.
      rewrite Hrq in Hrd. destruct (snd q r); [eauto|contradiction]. }
    exists M. simpl. rewrite Hr. split; [exact HM|]. split.
    + constructor.
      * simpl. intros r' Hr' x Hx. rewrite Hr in Hr'. injection Hr' as <-.
        apply Hoff. apply Forall_forall. intros q Hq Hxq.
        rewrite Forall_forall in Hsp. exact (Hsp q Hq x Hx Hxq).
      * apply Forall_forall. intros q Hq rq Hrq x Hx.
        rewrite Forall_forall in Hon, Hloc'.
        pose proof (patch_reads _ _ (Hloc' q Hq) r m0 (Hagree q Hq)) as Hrd.
        rewrite Hrq in Hrd. destruct (snd q r) as [r'|] eqn:Hqr;
          [|contradiction].
        rewrite (Hon q Hq r' Hqr x Hx). apply Hrd. exact Hx.
    + intros x Hx. inversion Hx as [|? ? Hxs Hx']; subst. simpl in Hxs.
      rewrite (Hoff x Hx'). apply (patch_frame _ _ Hp _ _ Hr). exact Hxs.
Qed.

Lemma in_some_span_dec : forall (ts : list Toggle) x,
  {t | In t ts /\ in_span (t_span t) x} +
  {Forall (fun t => ~ in_span (t_span t) x) ts}.
Proof.
  induction ts as [|t ts IH]; intros x.
  - right. constructor.
  - destruct (in_span_dec (t_span t) x) as [Hin|Hout].
    + left. exists t. split; [left; reflexivity|exact Hin].
    + destruct (IH x) as [[t' [Ht' Hx]]|Hall].
      * left. exists t'. split; [right; exact Ht'|exact Hx].
      * right. constructor; assumption.
Qed.

(** Turning on and then off toggles whose spans do not meet gives back
    the memory. *)
Lemma toggles_involution : forall ts mem,
  Forall (toggle_ok mem) ts ->
  ForallOrdPairs (fun a b => spans_disjoint (t_span a) (t_span b)) ts ->
  exists M1 M2,
    run_patches (map t_on ts) (Some mem) = Some M1 /\
    run_patches (map t_off ts) (Some M1) = Some M2 /\
    forall x, M2 x = mem x.
Proof.
  intros ts mem Hok Hdis.
  assert (Hdis' : forall f : Toggle -> Patch,
            ForallOrdPairs (fun a b => spans_disjoint (fst a) (fst b))
              (map (fun t => (t_span t, f t)) ts)).
  { intros f. clear Hok. induction Hdis as [|t ts Ht Hdis IH]; simpl.
    - constructor.
    - constructor; [|exact IH].
      apply Forall_map. simpl. exact Ht. }
  rewrite Forall_forall in Hok.
  destruct (run_patches_disjoint (map (fun t => (t_span t, t_on t)) ts) mem)
    as (M1 & HM1 & Hon1 & Hoff1).
  { apply Forall_map. apply Forall_forall. intros t Ht. simpl.
    apply (on_local _ _ (Hok t Ht)). }
  { apply Hdis'. }
  { apply Forall_map. apply Forall_forall. intros t Ht. simpl.
    destruct (on_off _ _ (Hok t Ht)) as (m1 & _ & H1 & _). eauto. }
  rewrite map_map in HM1. simpl in HM1.
  rewrite Forall_map in Hon1. simpl in Hon1. rewrite Forall_forall in Hon1.
  assert (Hoffs : forall t, In t ts -> exists r,
            t_off t M1 = Some r /\
            forall x, in_span (t_span t) x -> r x = mem x).
  { intros t Ht.
    destruct (on_off _ _ (Hok t Ht)) as (m1 & m2 & H1 & H2 & H3).
    pose proof (patch_reads _ _ (off_local _ _ (Hok t Ht)) M1 m1
                  (Hon1 t Ht m1 H1)) as Hrd.
    rewrite H2 in Hrd. destruct (t_off t M1) as [r|]; [|contradiction].
    exists r. split; [reflexivity|]. intros x Hx.
    rewrite (Hrd x Hx). apply H3. exact Hx. }
  destruct (run_patches_disjoint (map (fun t => (t_span t, t_off t)) ts) M1)
    as (M2 & HM2 & Hon2 & Hoff2).
  { apply Forall_map. apply Forall_forall. intros t Ht. simpl.
    apply (off_local _ _ (Hok t Ht)). }
  { apply Hdis'. }
  { apply Forall_map. apply Forall_forall. intros t Ht. simpl.
    destruct (Hoffs t Ht) as (r & Hr & _). eauto. }
  rewrite map_map in HM2. simpl in HM2.
  rewrite Forall_map in Hon2. simpl in Hon2. rewrite Forall_forall in Hon2.
  exists M1, M2. split; [exact HM1|]. split; [exact HM2|].
  intros x. destruct (in_some_span_dec ts x) as [[t [Ht Hx]]|Hnone].
  - destruct (Hoffs t Ht) as (r & Hr & Hrm).
    rewrite (Hon2 t Ht r Hr x Hx). apply Hrm. exact Hx.
  - rewrite Hoff2 by (apply Forall_map; exact Hnone).
    apply Hoff1. apply Forall_map. exact Hnone.
Qed.

(** *** Patches of one field *)

(** What a step does with the value it reads from a field: stop on a
    failed assertion, leave the field, or write a value to it. *)
Inductive Decision := Stop | Keep | Put (v : Z).

Definition field_patch (F : Field) (p : Z) (k : Z -> Decision) : Patch :=
  fun mem =>
    match k (f_get F mem p) with
    | Stop => None
    | Keep => Some mem
    | Put v => Some (f_set F mem p v)
    end.

(** The field holds the encoding that writing its value gives. *)
Definition canonical (F : Field) (mem : Memory) (p : Z) : Prop :=
  forall x, f_set F mem p (f_get F mem p) x = mem x.

Lemma patch_local_ext : forall s (p q : Patch),
  (forall mem, p mem = q mem) -> patch_local s p -> patch_local s q.
Proof.
  intros s p q Heq [Hframe Hreads]. constructor.
  - intros m m'. rewrite <- Heq. apply Hframe.
  - intros m1 m2 H. rewrite <- !Heq. apply Hreads. exact H.
Qed.

Lemma toggle_ok_ext : forall mem s (on off on' off' : Patch),
  (forall m, on m = on' m) -> (forall m, off m = off' m) ->
  toggle_ok mem (mkToggle s on off) -> toggle_ok mem (mkToggle s on' off').
Proof.
  intros mem s on off on' off' Hon Hoff [H1 H2 (m1 & m2 & H3 & H4 & H5)].
  simpl in *. constructor; simpl.
  - exact (patch_local_ext _ _ _ Hon H1).
  - exact (patch_local_ext _ _ _ Hoff H2).
  - exists m1, m2. rewrite <- Hon, <- Hoff. auto.
Qed.

Lemma field_patch_local : forall F p k,
  field_ok F -> patch_local (field_span F p) (field_patch F p k).
Proof.
  intros F p k HF. constructor; unfold field_patch.
  - intros m m' H x Hx. destruct (k (f_get F m p)); try discriminate;
      injection H as <-; [reflexivity|].
    apply (set_frame F HF). exact Hx.
  - intros m1 m2 H. rewrite (get_local F HF m1 m2 p H).
    destruct (k (f_get F m2 p)); auto.
    intros x Hx. apply (set_local F HF). exact Hx.
Qed.

(** A toggle that leaves its field. *)
Lemma field_toggle_keep : forall mem F p k_on k_off,
  field_ok F ->
  k_on (f_get F mem p) = Keep -> k_off (f_get F mem p) = Keep ->
  toggle_ok mem
    (mkToggle (field_span F p) (field_patch F p k_on) (field_patch F p k_off)).
Proof.
  intros mem F p k_on k_off HF Hon Hoff. constructor; simpl.
  - apply field_patch_local. exact HF.
  - apply field_patch_local. exact HF.
  - exists mem, mem. unfold field_patch. rewrite Hon, Hoff. auto.
Qed.

(** A toggle that writes [v1] over the value of the field, and the value
    over [v1]. *)
Lemma field_toggle_put : forall mem F p k_on k_off v1,
  field_ok F -> canonical F mem p ->
  k_on (f_get F mem p) = Put v1 -> f_valid F p v1 = true ->
  k_off v1 = Put (f_get F mem p) ->
  toggle_ok mem
    (mkToggle (field_span F p) (field_patch F p k_on) (field_patch F p k_off)).
Proof.
  intros mem F p k_on k_off v1 HF Hcan Hon Hv1 Hoff. constructor; simpl.
  - apply field_patch_local. exact HF.
  - apply field_patch_local. exact HF.
  - exists (f_set F mem p v1), (f_set F (f_set F mem p v1) p (f_get F mem p)).
    unfold field_patch. rewrite Hon.
    rewrite (get_set F HF mem p v1 Hv1), Hoff.
    split; [reflexivity|]. split; [reflexivity|].
    intros x Hx. rewrite <- (Hcan x). apply (set_local F HF). exact Hx.
Qed.

(** ** Profiling *)

Section ProfilingFacts.

Variable P : Platform.

(** The four loops of [setProfilingEnabled]. *)
Definition profiling_loops (enabled : bool) (m : AsmJSModule) (mem : Memory)
  : option Memory :=
  let acc := fold_left (patch_callSite P enabled m) (callSites_ m) (Some mem) in
  let acc := fold_left (patch_funcPtr P enabled m)
               (flat_map (funcPtrTable_slots P m) (funcPtrTables_ m)) acc in
  let acc := fold_left (patch_jump P enabled m) (codeRanges_ m) acc in
  fold_left (patch_builtin P enabled m) (seq 0 (Builtin_Limit P)) acc.

(** The labels that [setProfilingEnabled] leaves in the module. *)
Definition profiling_labels (enabled : bool) (cx : ExclusiveContext)
  (m : AsmJSModule) : option (list (option ProfilingLabel)) :=
  if enabled
  then fold_left (make_label cx m) (codeRanges_ m) (Some (resize_labels cx m))
  else Some [].

(** The two modules differ in nothing that the loops read but the flag. *)
Definition same_tables (m m' : AsmJSModule) : Prop :=
  code_ m' = code_ m /\ pod m' = pod m /\
  callSites_ m' = callSites_ m /\ codeRanges_ m' = codeRanges_ m /\
  funcPtrTables_ m' = funcPtrTables_ m /\
  builtinThunkOffsets_ m' = builtinThunkOffsets_ m /\
  heapAccesses_ m' = heapAccesses_ m /\
  staticLinkData_ m' = staticLinkData_ m.

Lemma profiling_loops_same : forall enabled m m' mem,
  same_tables m m' -> profilingEnabled_ m' = profilingEnabled_ m ->
  profiling_loops enabled m' mem = profiling_loops enabled m mem.
Proof.
  intros enabled m m' mem H Hflag. destruct m, m'.
  unfold same_tables in H. simpl in H, Hflag.
  destruct H as (? & ? & ? & ? & ? & ? & ? & ?). subst. reflexivity.
Qed.

Lemma setProfilingEnabled_loops : forall enabled cx m mem labels,
  dynamicallyLinked_ m = true -> profilingEnabled_ m = negb enabled ->
  profiling_labels enabled cx m = Some labels ->
  exists m',
    same_tables m m' /\ profilingEnabled_ m' = enabled /\
    dynamicallyLinked_ m' = true /\
    setProfilingEnabled P enabled cx m mem
    = option_map (fun mem' => (m', mem')) (profiling_loops enabled m mem).
Proof.
  intros enabled cx m mem labels Hlinked Hflag Hlabels.
  unfold setProfilingEnabled, profiling_labels in *.
  unfold isDynamicallyLinked, JS_ASSERT. rewrite Hlinked, Hflag.
  rewrite orb_true_r. cbn [negb].
  replace (Bool.eqb (negb enabled) enabled) with false
    by (destruct enabled; reflexivity).
  rewrite Hlabels.
  unfold AutoUnprotectCode_enter, codeIsProtected, unprotectCode,
    isDynamicallyLinked, JS_ASSERT.
  cbn [dynamicallyLinked_ set_profilingLabels_ codeIsProtected_].
  rewrite Hlinked, orb_true_r.
  destruct (codeIsProtected_ m) eqn:Hprot; cbn [option_map].
  - exists (set_codeIsProtected_
              (set_profilingEnabled_
                 (set_codeIsProtected_ (set_profilingLabels_ m labels) false)
                 enabled) true).
    split; [repeat split|]. split; [reflexivity|]. split; [exact Hlinked|].
    change (fold_left (patch_builtin P enabled _) _ _)
      with (profiling_loops enabled
              (set_codeIsProtected_ (set_profilingLabels_ m labels) false) mem).
    rewrite (profiling_loops_same enabled m) by (repeat split; reflexivity).
    destruct (profiling_loops enabled m mem); [|reflexivity].
    unfold AutoUnprotectCode_leave, protectCode, isDynamicallyLinked, JS_ASSERT.
    cbn [dynamicallyLinked_ set_profilingEnabled_ set_codeIsProtected_
         set_profilingLabels_].
    rewrite Hlinked, orb_true_r. reflexivity.
  - exists (set_profilingEnabled_ (set_profilingLabels_ m labels) enabled).
    split; [repeat split|]. split; [reflexivity|]. split; [exact Hlinked|].
    change (fold_left (patch_builtin P enabled _) _ _)
      with (profiling_loops enabled (set_profilingLabels_ m labels) mem).
    rewrite (profiling_loops_same enabled m) by (repeat split; reflexivity).
    destruct (profiling_loops enabled m mem); reflexivity.
Qed.

(** *** The labels *)

Lemma vector_set_Some : forall {A} (v : list A) i x,
  (i < length v)%nat ->
  exists v', vector_set v i x = Some v' /\ length v' = length v.
Proof.
  induction v as [|y v IH]; intros i x Hi; simpl in Hi; [lia|].
  destruct i as [|i]; simpl.
  - eexists. split; reflexivity.
  - destruct (IH i x) as (v' & Hv' & Hlen); [lia|].
    rewrite Hv'. simpl. eexists. split; [reflexivity|]. simpl. lia.
Qed.

Lemma length_resize_labels : forall cx m,
  resize_ok cx (length (names_ m)) = true ->
  length (resize_labels cx m) = length (names_ m).
Proof.
  intros cx m H. unfold resize_labels. rewrite H.
  rewrite length_app, length_firstn, repeat_length. lia.
Qed.

(** Every function of the table has a name. *)
Definition functions_named (m : AsmJSModule) : Prop :=
  forall r, In r (codeRanges_ m) -> CodeRange.isFunction r = true ->
    exists name,
      nth_error (names_ m) (Z.to_nat (CodeRange.nameIndex_ r))
      = Some (Some name).

Lemma profiling_labels_Some : forall enabled cx m,
  resize_ok cx (length (names_ m)) = true -> functions_named m ->
  exists labels, profiling_labels enabled cx m = Some labels.
Proof.
  intros enabled cx m Hresize Hnamed. unfold profiling_labels.
  destruct enabled; [|eauto].
  pose proof (length_resize_labels cx m Hresize) as Hlen.
  unfold functions_named in Hnamed.
  revert Hlen Hnamed. generalize (resize_labels cx m).
  generalize (codeRanges_ m).
  induction l as [|r rs IH]; intros labels Hlen Hnamed; simpl.
  - eauto.
  - destruct (CodeRange.isFunction r) eqn:Hf; simpl.
    + destruct (Hnamed r (or_introl eq_refl) Hf) as [name Hname].
      rewrite Hname.
      destruct (vector_set_Some labels (Z.to_nat (CodeRange.nameIndex_ r))
                  (if cx_oom cx then None
                   else Some (mkLabel (Some name) (filename (scriptSource_ m))
                                (CodeRange.lineNumber_ r))))
        as (labels' & Hset & Hlen').
      { rewrite Hlen. apply nth_error_Some. rewrite Hname. discriminate. }
      rewrite Hset. apply IH; [congruence|].
      intros r' Hr'. apply Hnamed. right. exact Hr'.
    + apply IH; [exact Hlen|].
      intros r' Hr'. apply Hnamed. right. exact Hr'.
Qed.

(** *** The loops as toggles *)

(** The module as the second call finds it. *)
Definition profiling_on (m : AsmJSModule) : AsmJSModule :=
  set_profilingEnabled_ m true.

(** The bytes of the call that a call site stands for, where the loop over
    the call sites looks at it. *)
Definition callSite_span (m : AsmJSModule) (cs : CallSite.t) : Span :=
  match CallSite.kind_ cs with
  | CallSite.Relative =>
      match call_field P (code_ m + CallSite.returnAddressOffset_ cs) with
      | Some (F, at_) => field_span F at_
      | None => no_span
      end
  | CallSite.External => no_span
  end.

Definition slot_span (slot : Z) : Span := field_span (rawPointer (asm P)) slot.

(** The bytes of the nop or jump of the epilogue of a function. *)
Definition jump_span (m : AsmJSModule) (cr : CodeRange.t) : Span :=
  if CodeRange.isFunction cr
  then match arch P with
       | X86 | X64 => (code_ m + CodeRange.profilingJump cr, 2)
       | ARM => field_span (armB (asm P)) (code_ m + CodeRange.profilingJump cr)
       | MIPS | NONE => no_span
       end
  else no_span.

(** [staticLinkData_.absoluteLinks[imm]] of a builtin. *)
Definition builtin_offsets (m : AsmJSModule) (builtin : nat) : list Z :=
  nth (imm_index (arch P) (BuiltinToImmKind P builtin))
      (absoluteLinks (staticLinkData_ m)) [].

Definition caller_span (m : AsmJSModule) (offset : Z) : Span :=
  field_span (patchedData (asm P)) (code_ m + offset).

(** The step of the loop over the callers of a builtin, with the two
    addresses that the loop over the builtins finds. *)
Definition patch_caller (enabled : bool) (m : AsmJSModule) (builtin : nat)
  (offset : Z) : Patch :=
  fun mem =>
    match AddressOf P (BuiltinToImmKind P builtin) None,
          nth_error (builtinThunkOffsets_ m) builtin with
    | Some from, Some thunkOffset =>
        let to := code_ m + thunkOffset in
        let '(from, to) := if enabled then (from, to) else (to, from) in
        patch_builtin_caller P m to from (Some mem) offset
    | _, _ => None
    end.

Definition callSite_toggle (m : AsmJSModule) (cs : CallSite.t) : Toggle :=
  mkToggle (callSite_span m cs)
    (fun mem => patch_callSite P true m (Some mem) cs)
    (fun mem => patch_callSite P false (profiling_on m) (Some mem) cs).

Definition slot_toggle (m : AsmJSModule) (slot : Z) : Toggle :=
  mkToggle (slot_span slot)
    (fun mem => patch_funcPtr P true m (Some mem) slot)
    (fun mem => patch_funcPtr P false (profiling_on m) (Some mem) slot).

Definition jump_toggle (m : AsmJSModule) (cr : CodeRange.t) : Toggle :=
  mkToggle (jump_span m cr)
    (fun mem => patch_jump P true m (Some mem) cr)
    (fun mem => patch_jump P false (profiling_on m) (Some mem) cr).

Definition caller_toggle (m : AsmJSModule) (builtin : nat) (offset : Z)
  : Toggle :=
  mkToggle (caller_span m offset)
    (patch_caller true m builtin offset)
    (patch_caller false (profiling_on m) builtin offset).

Definition builtin_toggles (m : AsmJSModule) (builtin : nat) : list Toggle :=
  map (caller_toggle m builtin) (builtin_offsets m builtin).

(** Every patch of [setProfilingEnabled], in the order of the loops. *)
Definition toggles (m : AsmJSModule) : list Toggle :=
  map (callSite_toggle m) (callSites_ m)
  ++ map (slot_toggle m) (flat_map (funcPtrTable_slots P m) (funcPtrTables_ m))
  ++ map (jump_toggle m) (codeRanges_ m)
  ++ flat_map (builtin_toggles m) (seq 0 (Builtin_Limit P)).

(** The bytes that [setProfilingEnabled] may rewrite. *)
Definition profiling_spans (m : AsmJSModule) : list Span :=
  map (callSite_span m) (callSites_ m)
  ++ map slot_span (flat_map (funcPtrTable_slots P m) (funcPtrTables_ m))
  ++ map (jump_span m) (codeRanges_ m)
  ++ flat_map (fun builtin => map (caller_span m) (builtin_offsets m builtin))
       (seq 0 (Builtin_Limit P)).

Lemma toggles_spans : forall m, map t_span (toggles m) = profiling_spans m.
Proof.
  intros m. unfold toggles, profiling_spans.
  rewrite !map_app, !map_map. cbn [t_span callSite_toggle slot_toggle jump_toggle].
  do 3 f_equal.
  induction (seq 0 (Builtin_Limit P)) as [|b bs IH]; simpl.
  - reflexivity.
  - rewrite map_app, IH. f_equal. unfold builtin_toggles.
    rewrite map_map. reflexivity.
Qed.

(** Every builtin has an address and a thunk. *)
Definition builtins_present (m : AsmJSModule) : Prop :=
  forall builtin, (builtin < Builtin_Limit P)%nat ->
    (exists from, AddressOf P (BuiltinToImmKind P builtin) None = Some from) /\
    (exists thunkOffset,
       nth_error (builtinThunkOffsets_ m) builtin = Some thunkOffset).

Lemma patch_builtin_run : forall enabled m acc builtin,
  (exists from, AddressOf P (BuiltinToImmKind P builtin) None = Some from) ->
  (exists thunkOffset,
     nth_error (builtinThunkOffsets_ m) builtin = Some thunkOffset) ->
  patch_builtin P enabled m acc builtin
  = run_patches (map (patch_caller enabled m builtin)
                   (builtin_offsets m builtin)) acc.
Proof.
  intros enabled m acc builtin [from Hfrom] [thunkOffset Hthunk].
  unfold patch_builtin. destruct acc as [mem|];
    [|rewrite run_patches_None; reflexivity].
  rewrite Hfrom, Hthunk. fold (builtin_offsets m builtin).
  destruct enabled.
  - rewrite fold_left_run_patches by reflexivity.
    f_equal. apply map_ext. intros offset.
    unfold patch_caller. rewrite Hfrom, Hthunk. reflexivity.
  - rewrite fold_left_run_patches by reflexivity.
    f_equal. apply map_ext. intros offset.
    unfold patch_caller. rewrite Hfrom, Hthunk. reflexivity.
Qed.

Lemma patch_builtins_run : forall enabled m builtins acc,
  (forall builtin, In builtin builtins ->
     (exists from, AddressOf P (BuiltinToImmKind P builtin) None = Some from) /\
     (exists thunkOffset,
        nth_error (builtinThunkOffsets_ m) builtin = Some thunkOffset)) ->
  fold_left (patch_builtin P enabled m) builtins acc
  = run_patches
      (flat_map (fun builtin => map (patch_caller enabled m builtin)
                                  (builtin_offsets m builtin)) builtins) acc.
Proof.
  intros enabled m builtins.
  induction builtins as [|b bs IH]; intros acc H; simpl.
  - reflexivity.
  - destruct (H b (or_introl eq_refl)) as [Hfrom Hthunk].
    rewrite (patch_builtin_run enabled m acc b Hfrom Hthunk).
    rewrite run_patches_app. apply IH. intros b' Hb'. apply H. right. exact Hb'.
Qed.

Lemma flat_map_map : forall {A B C} (f : A -> list B) (g : B -> C) l,
  map g (flat_map f l) = flat_map (fun a => map g (f a)) l.
Proof.
  intros A B C f g l. induction l as [|a l IH]; simpl.
  - reflexivity.
  - rewrite map_app, IH. reflexivity.
Qed.

Lemma profiling_loops_on : forall m mem,
  builtins_present m ->
  profiling_loops true m mem = run_patches (map t_on (toggles m)) (Some mem).
Proof.
  intros m mem Hb. unfold profiling_loops, toggles.
  rewrite !map_app, !run_patches_app, !map_map, flat_map_map.
  rewrite patch_builtins_run
    by (intros b Hin; apply Hb; apply in_seq in Hin; lia).
  rewrite !fold_left_run_patches by reflexivity.
  unfold builtin_toggles. 
  f_equal.
  apply flat_map_ext. intros b. rewrite map_map. reflexivity.
Qed.

Lemma profiling_loops_off : forall m mem,
  builtins_present m ->
  profiling_loops false (profiling_on m) mem
  = run_patches (map t_off (toggles m)) (Some mem).
Proof.
  intros m mem Hb. unfold profiling_loops, toggles.
  rewrite !map_app, !run_patches_app, !map_map, flat_map_map.
  rewrite patch_builtins_run
    by (intros b Hin; apply Hb; apply in_seq in Hin; lia).
  rewrite !fold_left_run_patches by reflexivity.
  unfold builtin_toggles.
  f_equal.
  apply flat_map_ext. intros b. rewrite map_map. reflexivity.
Qed.

End ProfilingFacts.

(** *** The module before profiling is turned on *)

(** The table of code ranges is in order, its ranges do not overlap and
    none is empty. *)
Definition table_ok (m : AsmJSModule) : Prop :=
  sorted_by_begin (codeRanges_ m) /\ non_overlapping (codeRanges_ m) /\
  forall r, In r (codeRanges_ m) ->
    0 <= CodeRange.begin_ r < CodeRange.end_ r /\ CodeRange.begin_ r < 2 ^ 32.

Lemma lookupCodeRange_begin : forall m cr,
  table_ok m -> In cr (codeRanges_ m) ->
  lookupCodeRange m (code_ m + CodeRange.begin_ cr) = Some cr.
Proof.
  intros m cr (Hs & Hn & Hr) Hin.
  destruct (Hr cr Hin) as [Hb Hlt].
  pose proof (lookupCodeRange_sound m (code_ m + CodeRange.begin_ cr) Hs Hn)
    as H.
  replace (code_ m + CodeRange.begin_ cr - code_ m)
    with (CodeRange.begin_ cr) in H by lia.
  unfold uint32 in H. rewrite Z.mod_small in H by lia.
  assert (Hcr : in_range (CodeRange.begin_ cr) cr) by (unfold in_range; lia).
  destruct (lookupCodeRange m (code_ m + CodeRange.begin_ cr)) as [r|].
  - destruct H as [Hrin Hrange]. f_equal.
    exact (in_range_unique _ _ _ _ Hn Hrin Hin Hrange Hcr).
  - exfalso. exact (H cr Hin Hcr).
Qed.

Lemma lookupCodeRange_In : forall m pc cr,
  table_ok m -> lookupCodeRange m pc = Some cr -> In cr (codeRanges_ m).
Proof.
  intros m pc cr (Hs & Hn & _) H.
  pose proof (lookupCodeRange_sound m pc Hs Hn) as Hsound.
  rewrite H in Hsound. apply Hsound.
Qed.

Lemma skip_toggle_ok : forall mem s (on off : Patch),
  (forall m, on m = Some m) -> (forall m, off m = Some m) ->
  toggle_ok mem (mkToggle s on off).
Proof.
  intros mem s on off Hon Hoff.
  apply (toggle_ok_ext mem s (fun m => Some m) (fun m => Some m));
    [intros; symmetry; apply Hon | intros; symmetry; apply Hoff |].
  assert (Hl : patch_local s (fun m => Some m)).
  { constructor.
    - intros m m' H x _. injection H as <-. reflexivity.
    - intros m1 m2 H. exact H. }
  constructor; simpl; [exact Hl | exact Hl |].
  exists mem, mem. auto.
Qed.

Section UnprofiledFacts.

Variable P : Platform.
Variable m : AsmJSModule.
Variable mem : Memory.

Hypothesis Hflag : profilingEnabled_ m = false.
Hypothesis Htable : table_ok m.

(** The field of a callee holds the entry of the function [cr], as the
    assembler writes it, and can hold the profiling entry. *)
Definition callee_ok (F : Field) (p : Z) (cr : CodeRange.t) : Prop :=
  f_get F mem p = code_ m + CodeRange.entry cr /\
  canonical F mem p /\
  f_valid F p (code_ m + CodeRange.begin_ cr) = true.

(** A call between functions of the module goes to the entry of the
    callee. *)
Definition callSite_ok (cs : CallSite.t) : Prop :=
  CallSite.kind_ cs = CallSite.Relative ->
  exists F p cr,
    call_field P (code_ m + CallSite.returnAddressOffset_ cs) = Some (F, p) /\
    field_ok F /\
    lookupCodeRange m (f_get F mem p) = Some cr /\
    (CodeRange.isFunction cr = true -> callee_ok F p cr).

(** An element of a function-pointer table is the entry of a function. *)
Definition slot_ok (slot : Z) : Prop :=
  exists cr,
    lookupCodeRange m (f_get (rawPointer (asm P)) mem slot) = Some cr /\
    callee_ok (rawPointer (asm P)) slot cr.

Lemma callee_asserts_off : forall callee profilingEntry,
  callee_asserts P m callee profilingEntry callee = true.
Proof.
  intros. unfold callee_asserts, JS_ASSERT. rewrite Hflag. simpl.
  rewrite Z.eqb_refl, !orb_true_r. reflexivity.
Qed.

Lemma callee_asserts_on : forall callee entry,
  callee_asserts P (profiling_on m) callee callee entry = true.
Proof.
  intros. unfold callee_asserts, JS_ASSERT. simpl.
  rewrite Z.eqb_refl, !orb_true_r. reflexivity.
Qed.

Lemma callSite_toggle_ok : forall cs,
  callSite_ok cs -> toggle_ok mem (callSite_toggle P m cs).
Proof.
  intros cs Hok. unfold callSite_toggle, callSite_span.
  destruct (CallSite.kind_ cs) eqn:Hkind.
  - destruct (Hok Hkind) as (F & p & cr & Hcf & HF & Hlook & Hcallee).
    rewrite Hcf.
    set (k := fun enabled (m' : AsmJSModule) callee =>
                match lookupCodeRange m' callee with
                | None => Stop
                | Some codeRange =>
                    if negb (CodeRange.isFunction codeRange) then Keep
                    else if callee_asserts P m' callee
                              (code_ m + CodeRange.begin_ codeRange)
                              (code_ m + CodeRange.entry codeRange)
                    then Put (if enabled : bool
                              then code_ m + CodeRange.begin_ codeRange
                              else code_ m + CodeRange.entry codeRange)
                    else Stop
                end).
    apply (toggle_ok_ext mem _ (field_patch F p (k true m))
             (field_patch F p (k false (profiling_on m)))).
    + intros mem0. unfold patch_callSite, field_patch, k.
      rewrite Hkind, Hcf. cbn [CallSite.Kind_eqb negb].
      destruct (lookupCodeRange m (f_get F mem0 p)) as [codeRange|];
        [|reflexivity].
      unfold CodeRange.isFunction.
      destruct (negb _); [reflexivity|].
      destruct (callee_asserts _ _ _ _ _); reflexivity.
    + intros mem0. unfold patch_callSite, field_patch, k.
      rewrite Hkind. cbn [CallSite.Kind_eqb negb code_ profiling_on
                          set_profilingEnabled_].
      rewrite Hcf.
      destruct (lookupCodeRange (profiling_on m) (f_get F mem0 p))
        as [codeRange|]; [|reflexivity].
      unfold CodeRange.isFunction.
      destruct (negb _); [reflexivity|].
      destruct (callee_asserts _ _ _ _ _); reflexivity.
    + destruct (CodeRange.isFunction cr) eqn:Hfun.
      * destruct (Hcallee eq_refl) as (Hentry & Hcan & Hvalid).
        apply (field_toggle_put mem F p _ _ (code_ m + CodeRange.begin_ cr));
          try assumption.
        -- unfold k. rewrite Hlook, Hfun. cbn [negb].
           rewrite Hentry, callee_asserts_off. reflexivity.
        -- unfold k.
           change (lookupCodeRange (profiling_on m))
             with (lookupCodeRange m).
           rewrite (lookupCodeRange_begin m cr Htable
                      (lookupCodeRange_In m _ cr Htable Hlook)).
           rewrite Hfun. cbn [negb]. rewrite callee_asserts_on, Hentry.
           reflexivity.
      * apply field_toggle_keep; try assumption.
        -- unfold k. rewrite Hlook, Hfun. reflexivity.
        -- unfold k.
           change (lookupCodeRange (profiling_on m))
             with (lookupCodeRange m).
           rewrite Hlook, Hfun. reflexivity.
  - apply skip_toggle_ok; intros mem0; unfold patch_callSite;
      rewrite Hkind; reflexivity.
Qed.

Lemma slot_toggle_ok : forall slot,
  field_ok (rawPointer (asm P)) ->
  slot_ok slot -> toggle_ok mem (slot_toggle P m slot).
Proof.
  intros slot HF (cr & Hlook & Hentry & Hcan & Hvalid).
  unfold slot_toggle, slot_span.
  set (k := fun enabled (m' : AsmJSModule) callee =>
              match lookupCodeRange m' callee with
              | None => Stop
              | Some codeRange =>
                  if callee_asserts P m' callee
                       (code_ m + CodeRange.begin_ codeRange)
                       (code_ m + CodeRange.entry codeRange)
                  then Put (if enabled : bool
                            then code_ m + CodeRange.begin_ codeRange
                            else code_ m + CodeRange.entry codeRange)
                  else Stop
              end).
  apply (toggle_ok_ext mem _ (field_patch (rawPointer (asm P)) slot (k true m))
           (field_patch (rawPointer (asm P)) slot (k false (profiling_on m)))).
  - intros mem0. unfold patch_funcPtr, field_patch, k.
    destruct (lookupCodeRange m (f_get (rawPointer (asm P)) mem0 slot))
      as [codeRange|]; [|reflexivity].
    destruct (callee_asserts _ _ _ _ _); reflexivity.
  - intros mem0. unfold patch_funcPtr, field_patch, k.
    cbn [code_ profiling_on set_profilingEnabled_].
    destruct (lookupCodeRange (profiling_on m)
                (f_get (rawPointer (asm P)) mem0 slot)) as [codeRange|];
      [|reflexivity].
    destruct (callee_asserts _ _ _ _ _); reflexivity.
  - apply (field_toggle_put mem _ slot _ _ (code_ m + CodeRange.begin_ cr));
      try assumption.
    + unfold k. rewrite Hlook.
      rewrite Hentry, callee_asserts_off. reflexivity.
    + unfold k.
      change (lookupCodeRange (profiling_on m)) with (lookupCodeRange m).
      rewrite (lookupCodeRange_begin m cr Htable
                 (lookupCodeRange_In m _ cr Htable Hlook)).
      rewrite callee_asserts_on, Hentry. reflexivity.
Qed.

(** **** The jumps of the epilogues *)

(** The two steps of the x86 loop on the two bytes at [jump]. *)
Definition x86_jump_on (jump jumpImmediate : Z) : Patch :=
  fun mem0 =>
    if JS_ASSERT P (mem0 jump =? 102) && JS_ASSERT P (mem0 (jump + 1) =? 144)
    then Some (store_byte (store_byte mem0 jump 235) (jump + 1)
                 (uint8 jumpImmediate))
    else None.

Definition x86_jump_off (jump jumpImmediate : Z) : Patch :=
  fun mem0 =>
    if JS_ASSERT P (mem0 jump =? 235) &&
       JS_ASSERT P (mem0 (jump + 1) =? jumpImmediate)
    then Some (store_byte (store_byte mem0 jump 102) (jump + 1) 144)
    else None.

Lemma two_bytes : forall jump x,
  in_span (jump, 2) x -> x = jump \/ x = jump + 1.
Proof. intros jump x. unfold in_span. simpl. lia. Qed.

Lemma store_two_frame : forall mem0 jump a b x,
  ~ in_span (jump, 2) x ->
  store_byte (store_byte mem0 jump a) (jump + 1) b x = mem0 x.
Proof.
  intros mem0 jump a b x Hx. unfold in_span in Hx. simpl in Hx.
  rewrite !store_byte_other by lia. reflexivity.
Qed.

Lemma store_two_local : forall m1 m2 jump a b x,
  in_span (jump, 2) x ->
  store_byte (store_byte m1 jump a) (jump + 1) b x
  = store_byte (store_byte m2 jump a) (jump + 1) b x.
Proof.
  intros m1 m2 jump a b x Hx.
  destruct (two_bytes jump x Hx) as [-> | ->].
  - rewrite !(store_byte_other _ (jump + 1)) by lia.
    rewrite !store_byte_same. reflexivity.
  - rewrite !store_byte_same. reflexivity.
Qed.

Lemma x86_jump_on_local : forall jump jumpImmediate,
  patch_local (jump, 2) (x86_jump_on jump jumpImmediate).
Proof.
  intros jump imm. constructor; unfold x86_jump_on.
  - intros m0 m' H x Hx. destruct (_ && _); [|discriminate].
    injection H as <-. apply store_two_frame. exact Hx.
  - intros m1 m2 H.
    rewrite (H jump), (H (jump + 1)) by (unfold in_span; simpl; lia).
    destruct (_ && _); [|exact I].
    intros x Hx. apply store_two_local. exact Hx.
Qed.

Lemma x86_jump_off_local : forall jump jumpImmediate,
  patch_local (jump, 2) (x86_jump_off jump jumpImmediate).
Proof.
  intros jump imm. constructor; unfold x86_jump_off.
  - intros m0 m' H x Hx. destruct (_ && _); [|discriminate].
    injection H as <-. apply store_two_frame. exact Hx.
  - intros m1 m2 H.
    rewrite (H jump), (H (jump + 1)) by (unfold in_span; simpl; lia).
    destruct (_ && _); [|exact I].
    intros x Hx. apply store_two_local. exact Hx.
Qed.

Lemma x86_jump_toggle_ok : forall jump jumpImmediate,
  mem jump = 102 -> mem (jump + 1) = 144 ->
  0 < jumpImmediate <= 127 ->
  toggle_ok mem
    (mkToggle (jump, 2) (x86_jump_on jump jumpImmediate)
       (x86_jump_off jump jumpImmediate)).
Proof.
  intros jump imm H0 H1 Himm. constructor; simpl.
  - apply x86_jump_on_local.
  - apply x86_jump_off_local.
  - eexists. eexists. unfold x86_jump_on at 1. rewrite H0, H1.
    unfold JS_ASSERT at 1 2. cbn [Z.eqb Pos.eqb]. rewrite !orb_true_r.
    cbn [andb]. split; [reflexivity|].
    unfold x86_jump_off.
    rewrite store_byte_same, store_byte_other, store_byte_same by lia.
    unfold uint8. rewrite Z.mod_small by lia.
    unfold JS_ASSERT. rewrite !Z.eqb_refl, !orb_true_r.
    cbn [andb]. split; [reflexivity|].
    intros x Hx. destruct (two_bytes jump x Hx) as [-> | ->].
    + rewrite store_byte_other, store_byte_same by lia. congruence.
    + rewrite store_byte_same. congruence.
Qed.

(** What the loops ask of the ARM instructions: the nop and the branch
    fill the same bytes, which alone are read and written. *)
Record arm_ok (A : Assembler) : Prop := mk_arm_ok {
  armB_ok : field_ok (armB A);
  nop_frame : forall m0 p x,
    ~ in_field (armB A) p x -> armWriteNOP A m0 p x = m0 x;
  nop_local : forall m1 m2 p x,
    in_field (armB A) p x -> armWriteNOP A m1 p x = armWriteNOP A m2 p x;
  isNOP_local : forall m1 m2 p,
    (forall x, in_field (armB A) p x -> m1 x = m2 x) ->
    armIsNOP A m1 p = armIsNOP A m2 p;
  isBImm_local : forall m1 m2 p,
    (forall x, in_field (armB A) p x -> m1 x = m2 x) ->
    armIsBImm A m1 p = armIsBImm A m2 p;
  isBImm_set : forall m0 p v,
    f_valid (armB A) p v = true -> armIsBImm A (f_set (armB A) m0 p v) p = true
}.

Definition arm_jump_on (jump profilingEpilogue : Z) : Patch :=
  fun mem0 =>
    if JS_ASSERT P (armIsNOP (asm P) mem0 jump)
    then Some (f_set (armB (asm P)) mem0 jump profilingEpilogue)
    else None.

Definition arm_jump_off (jump : Z) : Patch :=
  fun mem0 =>
    if JS_ASSERT P (armIsBImm (asm P) mem0 jump)
    then Some (armWriteNOP (asm P) mem0 jump)
    else None.

Lemma arm_jump_toggle_ok : forall jump profilingEpilogue,
  arm_ok (asm P) ->
  armIsNOP (asm P) mem jump = true ->
  (forall x, armWriteNOP (asm P) mem jump x = mem x) ->
  f_valid (armB (asm P)) jump profilingEpilogue = true ->
  toggle_ok mem
    (mkToggle (field_span (armB (asm P)) jump)
       (arm_jump_on jump profilingEpilogue) (arm_jump_off jump)).
Proof.
  intros jump pe HA Hnop Hcan Hvalid. constructor; simpl.
  - constructor; unfold arm_jump_on.
    + intros m0 m' H x Hx. destruct (JS_ASSERT _ _); [|discriminate].
      injection H as <-. apply (set_frame _ (armB_ok _ HA)). exact Hx.
    + intros m1 m2 H. rewrite (isNOP_local _ HA m1 m2 jump H).
      destruct (JS_ASSERT _ _); [|exact I].
      intros x Hx. apply (set_local _ (armB_ok _ HA)). exact Hx.
  - constructor; unfold arm_jump_off.
    + intros m0 m' H x Hx. destruct (JS_ASSERT _ _); [|discriminate].
      injection H as <-. apply (nop_frame _ HA). exact Hx.
    + intros m1 m2 H. rewrite (isBImm_local _ HA m1 m2 jump H).
      destruct (JS_ASSERT _ _); [|exact I].
      intros x Hx. apply (nop_local _ HA). exact Hx.
  - eexists. eexists. unfold arm_jump_on, arm_jump_off.
    rewrite Hnop, (isBImm_set _ HA mem jump pe Hvalid).
    unfold JS_ASSERT. rewrite !orb_true_r.
    split; [reflexivity|]. split; [reflexivity|].
    intros x Hx. rewrite <- (Hcan x). apply (nop_local _ HA). exact Hx.
Qed.

(** The epilogue of a function holds the nop that profiling replaces. *)
Definition jump_ok (cr : CodeRange.t) : Prop :=
  CodeRange.isFunction cr = true ->
  let jump := code_ m + CodeRange.profilingJump cr in
  let profilingEpilogue := code_ m + CodeRange.profilingEpilogue cr in
  match arch P with
  | X86 | X64 =>
      mem jump = 102 /\ mem (jump + 1) = 144 /\
      0 < profilingEpilogue - jump - 2 <= 127
  | ARM =>
      arm_ok (asm P) /\
      armIsNOP (asm P) mem jump = true /\
      (forall x, armWriteNOP (asm P) mem jump x = mem x) /\
      f_valid (armB (asm P)) jump profilingEpilogue = true
  | MIPS | NONE => False
  end.

Lemma jump_immediate_assert : forall z,
  0 < z <= 127 -> JS_ASSERT P ((0 <? z) && (z <=? 127)) = true.
Proof.
  intros z Hz. unfold JS_ASSERT.
  replace (0 <? z) with true by (symmetry; apply Z.ltb_lt; lia).
  replace (z <=? 127) with true by (symmetry; apply Z.leb_le; lia).
  apply orb_true_r.
Qed.

Lemma jump_toggle_ok : forall cr,
  jump_ok cr -> toggle_ok mem (jump_toggle P m cr).
Proof.
  intros cr Hok. unfold jump_toggle, jump_span.
  destruct (CodeRange.isFunction cr) eqn:Hfun.
  - specialize (Hok Hfun). cbv zeta in Hok.
    destruct (arch P) eqn:Harch; try contradiction.
    + destruct Hok as (H0 & H1 & Himm).
      eapply toggle_ok_ext;
        [| | exact (x86_jump_toggle_ok _ _ H0 H1 Himm)];
        intros mem0; unfold patch_jump, x86_jump_on, x86_jump_off;
        cbn [code_ profiling_on set_profilingEnabled_];
        rewrite Hfun, Harch, (jump_immediate_assert _ Himm); reflexivity.
    + destruct Hok as (H0 & H1 & Himm).
      eapply toggle_ok_ext;
        [| | exact (x86_jump_toggle_ok _ _ H0 H1 Himm)];
        intros mem0; unfold patch_jump, x86_jump_on, x86_jump_off;
        cbn [code_ profiling_on set_profilingEnabled_];
        rewrite Hfun, Harch, (jump_immediate_assert _ Himm); reflexivity.
    + destruct Hok as (HA & Hnop & Hcan & Hvalid).
      eapply toggle_ok_ext;
        [| | exact (arm_jump_toggle_ok _ _ HA Hnop Hcan Hvalid)];
        intros mem0; unfold patch_jump, arm_jump_on, arm_jump_off;
        cbn [code_ profiling_on set_profilingEnabled_];
        rewrite Hfun, Harch; reflexivity.
  - apply skip_toggle_ok; intros mem0; unfold patch_jump;
      rewrite Hfun; reflexivity.
Qed.

(** **** The calls of builtins *)

(** A call of a builtin from a function holds the address of the builtin,
    as the assembler writes it, and can hold the address of the thunk. *)
Definition caller_ok (from to : Z) (offset : Z) : Prop :=
  exists cr,
    lookupCodeRange m (code_ m + offset) = Some cr /\
    (CodeRange.isThunk cr = false ->
       CodeRange.isFunction cr = true /\
       f_get (patchedData (asm P)) mem (code_ m + offset) = from /\
       canonical (patchedData (asm P)) mem (code_ m + offset) /\
       f_valid (patchedData (asm P)) (code_ m + offset) to = true).

Definition builtin_ok (builtin : nat) : Prop :=
  exists from thunkOffset,
    AddressOf P (BuiltinToImmKind P builtin) None = Some from /\
    nth_error (builtinThunkOffsets_ m) builtin = Some thunkOffset /\
    Forall (caller_ok from (code_ m + thunkOffset))
      (builtin_offsets P m builtin).

Lemma caller_toggle_ok : forall builtin from thunkOffset offset,
  field_ok (patchedData (asm P)) ->
  AddressOf P (BuiltinToImmKind P builtin) None = Some from ->
  nth_error (builtinThunkOffsets_ m) builtin = Some thunkOffset ->
  caller_ok from (code_ m + thunkOffset) offset ->
  toggle_ok mem (caller_toggle P m builtin offset).
Proof.
  intros builtin from thunkOffset offset HF Hfrom Hthunk (cr & Hlook & Hcr).
  unfold caller_toggle, caller_span.
  set (k := fun (expected newValue v : Z) =>
              match lookupCodeRange m (code_ m + offset) with
              | None => Stop
              | Some codeRange =>
                  if CodeRange.isThunk codeRange then Keep
                  else if JS_ASSERT P (CodeRange.isFunction codeRange)
                  then if JS_ASSERT P (v =? expected)
                       then Put newValue else Stop
                  else Stop
              end).
  apply (toggle_ok_ext mem _
           (field_patch (patchedData (asm P)) (code_ m + offset)
              (k from (code_ m + thunkOffset)))
           (field_patch (patchedData (asm P)) (code_ m + offset)
              (k (code_ m + thunkOffset) from))).
  - intros mem0. unfold patch_caller, field_patch, k.
    rewrite Hfrom, Hthunk. unfold patch_builtin_caller.
    destruct (lookupCodeRange m (code_ m + offset)) as [codeRange|];
      [|reflexivity].
    destruct (CodeRange.isThunk codeRange); [reflexivity|].
    destruct (JS_ASSERT P (CodeRange.isFunction codeRange)); [|reflexivity].
    unfold PatchDataWithValueCheck.
    destruct (JS_ASSERT P _); reflexivity.
  - intros mem0. unfold patch_caller, field_patch, k.
    cbn [code_ builtinThunkOffsets_ profiling_on set_profilingEnabled_].
    rewrite Hfrom, Hthunk. unfold patch_builtin_caller.
    change (lookupCodeRange (profiling_on m)) with (lookupCodeRange m).
    cbn [code_ profiling_on set_profilingEnabled_].
    destruct (lookupCodeRange m (code_ m + offset)) as [codeRange|];
      [|reflexivity].
    destruct (CodeRange.isThunk codeRange); [reflexivity|].
    destruct (JS_ASSERT P (CodeRange.isFunction codeRange)); [|reflexivity].
    unfold PatchDataWithValueCheck.
    destruct (JS_ASSERT P _); reflexivity.
  - destruct (CodeRange.isThunk cr) eqn:Hthunk_cr.
    + apply field_toggle_keep; try assumption;
        unfold k; rewrite Hlook, Hthunk_cr; reflexivity.
    + destruct (Hcr eq_refl) as (Hfun & Hget & Hcan & Hvalid).
      apply (field_toggle_put mem _ _ _ _ (code_ m + thunkOffset));
        try assumption.
      * unfold k. rewrite Hlook, Hthunk_cr, Hfun, Hget.
        unfold JS_ASSERT. rewrite Z.eqb_refl, !orb_true_r. reflexivity.
      * unfold k. rewrite Hlook, Hthunk_cr, Hfun, Hget.
        unfold JS_ASSERT. rewrite Z.eqb_refl, !orb_true_r. reflexivity.
Qed.

(** **** The whole module *)

(** The code is as the compiler leaves it: calls between functions and
    function-pointer tables go to the entries that do no profiling, the
    epilogues hold their nops, and builtins are called directly. *)
Record unprofiled : Prop := mk_unprofiled {
  up_pointers : field_ok (rawPointer (asm P));
  up_data : field_ok (patchedData (asm P));
  up_callSites : Forall callSite_ok (callSites_ m);
  up_slots : Forall slot_ok
               (flat_map (funcPtrTable_slots P m) (funcPtrTables_ m));
  up_jumps : Forall jump_ok (codeRanges_ m);
  up_builtins : forall builtin, (builtin < Builtin_Limit P)%nat ->
                  builtin_ok builtin
}.

Lemma unprofiled_builtins_present : unprofiled -> builtins_present P m.
Proof.
  intros H builtin Hb.
  destruct (up_builtins H builtin Hb) as (from & thunkOffset & H1 & H2 & _).
  eauto.
Qed.

Lemma toggles_ok : unprofiled -> Forall (toggle_ok mem) (toggles P m).
Proof.
  intros H. unfold toggles. repeat (apply Forall_app; split).
  - apply Forall_map. eapply Forall_impl; [|exact (up_callSites H)].
    exact callSite_toggle_ok.
  - apply Forall_map. eapply Forall_impl; [|exact (up_slots H)].
    intros slot. apply slot_toggle_ok. exact (up_pointers H).
  - apply Forall_map. eapply Forall_impl; [|exact (up_jumps H)].
    exact jump_toggle_ok.
  - apply Forall_flat_map. apply Forall_forall. intros builtin Hin.
    apply in_seq in Hin.
    destruct (up_builtins H builtin) as (from & thunkOffset & H1 & H2 & H3);
      [lia|].
    unfold builtin_toggles. apply Forall_map.
    eapply Forall_impl; [|exact H3].
    intros offset. apply caller_toggle_ok; try assumption.
    exact (up_data H).
Qed.

End UnprofiledFacts.

Lemma ForallOrdPairs_map : forall {A B} (f : A -> B) (R : B -> B -> Prop) l,
  ForallOrdPairs R (map f l) -> ForallOrdPairs (fun a b => R (f a) (f b)) l.
Proof.
  intros A B f R l. induction l as [|a l IH]; simpl; intros H.
  - constructor.
  - inversion H as [|? ? Ha Hl]; subst. constructor.
    + rewrite Forall_forall in *. intros b Hb. apply Ha.
      apply in_map. exact Hb.
    + apply IH. exact Hl.
Qed.

(** C5.  On a dynamically linked module whose code is as the compiler
    leaves it, with a valid table of code ranges, a name for every
    function, room for the labels, and patch locations that do not meet:
    [setProfilingEnabled(true)] and then [setProfilingEnabled(false)]
    both return, and every byte of memory is what it was before the first
    call; so are the call sites, the function-pointer tables, the
    epilogues and the calls of builtins that the two calls rewrote. *)
Theorem setProfilingEnabled_involution : forall P cx m mem,
  isDynamicallyLinked m = true ->
  profilingEnabled_ m = false ->
  table_ok m -> functions_named m ->
  resize_ok cx (length (names_ m)) = true ->
  unprofiled P m mem ->
  ForallOrdPairs spans_disjoint (profiling_spans P m) ->
  exists m1 mem1 m2 mem2,
    setProfilingEnabled P true cx m mem = Some (m1, mem1) /\
    setProfilingEnabled P false cx m1 mem1 = Some (m2, mem2) /\
    profilingEnabled_ m1 = true /\ profilingEnabled_ m2 = false /\
    forall x, mem2 x = mem x.
Proof.
  intros P cx m mem Hlinked Hflag Htable Hnamed Hresize Hun Hdis.
  unfold isDynamicallyLinked in Hlinked.
  destruct (profiling_labels_Some true cx m Hresize Hnamed) as [labels Hl].
  destruct (setProfilingEnabled_loops P true cx m mem labels Hlinked Hflag Hl)
    as (m1 & Hsame1 & Hen1 & Hlinked1 & Heq1).
  destruct (toggles_involution (toggles P m) mem
              (toggles_ok P m mem Hflag Htable Hun))
    as (M1 & M2 & HM1 & HM2 & Hback).
  { apply ForallOrdPairs_map. rewrite toggles_spans. exact Hdis. }
  pose proof (unprofiled_builtins_present P m mem Hun) as Hpresent.
  rewrite (profiling_loops_on P m mem Hpresent), HM1 in Heq1.
  destruct (setProfilingEnabled_loops P false cx m1 M1 [] Hlinked1 Hen1 eq_refl)
    as (m2 & Hsame2 & Hen2 & _ & Heq2).
  rewrite (profiling_loops_same P false (profiling_on m) m1) in Heq2.
  - rewrite (profiling_loops_off P m M1 Hpresent), HM2 in Heq2.
    exists m1, M1, m2, M2. auto.
  - exact Hsame1.
  - exact Hen1.
Qed.

(** *** The example *)

Lemma signed32_wrap : forall z,
  - 2 ^ 31 <= z < 2 ^ 31 -> LittleEndian.signed32 (z mod 2 ^ 32) = z.
Proof.
  intros z Hz. unfold LittleEndian.signed32.
  destruct (Z_lt_dec z 0) as [Hneg|Hpos].
  - replace (z mod 2 ^ 32) with (z + 2 ^ 32).
    + replace (z + 2 ^ 32 <? 2 ^ 31) with false by (symmetry; apply Z.ltb_ge; lia).
      lia.
    + symmetry. rewrite <- (Z_mod_plus_full z 1 (2 ^ 32)).
      apply Z.mod_small. lia.
  - rewrite Z.mod_small by lia.
    replace (z <? 2 ^ 31) with true by (symmetry; apply Z.ltb_lt; lia).
    reflexivity.
Qed.

Lemma rel32_field_ok : field_ok LittleEndian.rel32_field.
Proof.
  constructor; unfold in_field, LittleEndian.rel32_field;
    cbn [f_lo f_len f_get f_set f_valid].
  - intros m p v a Ha. apply store_bytes_outside.
    rewrite LittleEndianFacts.length_le_bytes. lia.
  - intros m1 m2 p v a Ha. apply store_bytes_local.
    rewrite LittleEndianFacts.length_le_bytes. lia.
  - intros m1 m2 p H. do 3 f_equal. apply load_bytes_ext. intros x Hx.
    apply H. lia.
  - intros m p v Hv. apply andb_prop in Hv. destruct Hv as [H0 H1].
    apply Z.leb_le in H0. apply Z.ltb_lt in H1.
    rewrite <- (LittleEndianFacts.length_le_bytes 4 (v - p)) at 2.
    rewrite load_store_bytes, LittleEndianFacts.le_value_le_bytes.
    change (2 ^ (8 * Z.of_nat 4)) with (2 ^ 32).
    rewrite signed32_wrap by lia. lia.
Qed.

Lemma store_load_bytes : forall n mem a x,
  store_bytes mem a (load_bytes mem a n) x = mem x.
Proof.
  intros n mem a x.
  destruct (Z_le_dec a x) as [Hle|Hlt];
    [destruct (Z_lt_dec x (a + Z.of_nat n)) as [Hin|Hout]|].
  - replace x with (a + Z.of_nat (Z.to_nat (x - a))) by lia.
    rewrite store_bytes_inside by (rewrite length_load_bytes; lia).
    rewrite nth_load_bytes by lia. reflexivity.
  - apply store_bytes_outside. rewrite length_load_bytes. lia.
  - apply store_bytes_outside. lia.
Qed.

(** A field holds its value as it is written when its bytes are those of
    the value. *)
Lemma le_field_canonical : forall lo n mem p,
  LittleEndian.le_bytes n (f_get (LittleEndian.le_field lo n) mem p)
  = load_bytes mem (p + lo) n ->
  canonical (LittleEndian.le_field lo n) mem p.
Proof.
  intros lo n mem p H x. unfold LittleEndian.le_field in *.
  cbn [f_get f_set] in *. rewrite H. apply store_load_bytes.
Qed.

Lemma rel32_field_canonical : forall mem p,
  LittleEndian.le_bytes 4 (f_get LittleEndian.rel32_field mem p - p)
  = load_bytes mem (p - 4) 4 ->
  canonical LittleEndian.rel32_field mem p.
Proof.
  intros mem p H x. unfold LittleEndian.rel32_field in *.
  cbn [f_get f_set] in *. rewrite H. apply store_load_bytes.
Qed.

Lemma example_table_ok : forall code, table_ok (Examples.example_linked code).
Proof.
  intros code. unfold table_ok.
  destruct (table_ordered_valid (codeRanges_ (Examples.example_linked code))
              eq_refl) as [Hs Hn].
  split; [exact Hs|]. split; [exact Hn|].
  intros r [<-|[<-|[<-|[]]]]; simpl; lia.
Qed.

Lemma example_functions_named : forall code,
  functions_named (Examples.example_linked code).
Proof.
  intros code r [<-|[<-|[<-|[]]]] Hf; try discriminate Hf.
  exists Examples.name_f. reflexivity.
Qed.

Lemma example_unprofiled :
  unprofiled (LittleEndian.x86 true) (Examples.example_linked 65536)
    (Examples.example_linked_memory 65536).
Proof.
  constructor.
  - apply le_field_ok.
  - apply le_field_ok.
  - repeat first [apply Forall_nil | apply Forall_cons].
    + intros _. exists LittleEndian.rel32_field, (65536 + 32), Examples.range_f.
      split; [reflexivity|]. split; [apply rel32_field_ok|].
      split; [reflexivity|]. intros _.
      split; [reflexivity|]. split; [|reflexivity].
      apply rel32_field_canonical. reflexivity.
    + intros H. discriminate H.
  - repeat first [apply Forall_nil | apply Forall_cons]. exists Examples.range_f.
    split; [reflexivity|]. split; [reflexivity|]. split; [|reflexivity].
    apply le_field_canonical. reflexivity.
  - repeat first [apply Forall_nil | apply Forall_cons].
    + intros H. discriminate H.
    + intros _. cbv zeta. simpl. repeat split; lia.
    + intros H. discriminate H.
  - intros builtin Hb. change (builtin < 3)%nat in Hb.
    destruct builtin as [|[|[|builtin]]]; [| | |lia].
    + exists 3221225632, 64. split; [reflexivity|]. split; [reflexivity|].
      repeat first [apply Forall_nil | apply Forall_cons]. exists Examples.range_f.
      split; [reflexivity|]. intros _.
      split; [reflexivity|]. split; [reflexivity|]. split; [|reflexivity].
      apply le_field_canonical. reflexivity.
    + exists 3221225680, 64. split; [reflexivity|]. split; [reflexivity|].
      apply Forall_nil.
    + exists 3221225696, 64. split; [reflexivity|]. split; [reflexivity|].
      apply Forall_nil.
Qed.

Lemma example_spans_disjoint :
  ForallOrdPairs spans_disjoint
    (profiling_spans (LittleEndian.x86 true) (Examples.example_linked 65536)).
Proof.
  change (profiling_spans (LittleEndian.x86 true)
            (Examples.example_linked 65536))
    with [(65536 + 32 + -4, 4); no_span; (65536 + 128 + 16 + 0 * 4 + 0, 4);
          no_span; (65536 + 40, 2); no_span; (65536 + 56 + -4, 4)].
  repeat first [apply FOP_nil | apply FOP_cons | apply Forall_nil
               | apply Forall_cons];
    intros x; unfold in_span, no_span; simpl; lia.
Qed.

(** The theorem for the linked example on the x86 build with assertions. *)
Lemma setProfilingEnabled_involution_witness :
  exists m1 mem1 m2 mem2,
    setProfilingEnabled (LittleEndian.x86 true) true
      (LittleEndian.example_cx 131072 [1] None)
      (Examples.example_linked 65536) (Examples.example_linked_memory 65536)
    = Some (m1, mem1) /\
    setProfilingEnabled (LittleEndian.x86 true) false
      (LittleEndian.example_cx 131072 [1] None) m1 mem1 = Some (m2, mem2) /\
    profilingEnabled_ m1 = true /\ profilingEnabled_ m2 = false /\
    forall x, mem2 x = Examples.example_linked_memory 65536 x.
Proof.
  apply setProfilingEnabled_involution.
  - reflexivity.
  - reflexivity.
  - apply example_table_ok.
  - apply example_functions_named.
  - reflexivity.
  - apply example_unprofiled.
  - apply example_spans_disjoint.
Defined.

(** ** The bytes that the mutations of a module may write *)

(** [x] is in none of the spans. *)
Definition outside (spans : list Span) (x : Z) : Prop :=
  forall s, In s spans -> ~ in_span s x.

Lemma outside_app : forall s1 s2 x,
  outside (s1 ++ s2) x <-> outside s1 x /\ outside s2 x.
Proof.
  intros s1 s2 x. unfold outside. split.
  - intros H. split; intros s Hs; apply H; apply in_or_app; auto.
  - intros [H1 H2] s Hs. apply in_app_or in Hs. destruct Hs; auto.
Qed.

Lemma outside_cons : forall s spans x,
  outside (s :: spans) x <-> ~ in_span s x /\ outside spans x.
Proof.
  intros s spans x. unfold outside. split.
  - intros H. split; [apply H; left; reflexivity|].
    intros s' Hs'. apply H. right. exact Hs'.
  - intros [H1 H2] s' [<-|Hs']; auto.
Qed.

Lemma outside_flat_map : forall {A} (f : A -> list Span) l a x,
  outside (flat_map f l) x -> In a l -> outside (f a) x.
Proof.
  intros A f l a x H Ha s Hs. apply H. apply in_flat_map. eauto.
Qed.

Lemma outside_map : forall {A} (f : A -> Span) l a x,
  outside (map f l) x -> In a l -> ~ in_span (f a) x.
Proof. intros A f l a x H Ha. apply H. apply in_map. exact Ha. Qed.

(** A loop that writes nothing outside the spans of its elements. *)
Lemma fold_frame : forall {A} (f : Memory -> A -> Memory)
  (spans : A -> list Span),
  (forall a mem x, outside (spans a) x -> f mem a x = mem x) ->
  forall l mem x, outside (flat_map spans l) x -> fold_left f l mem x = mem x.
Proof.
  intros A f spans Hf. induction l as [|a l IH]; intros mem x Hx; simpl.
  - reflexivity.
  - simpl in Hx. apply outside_app in Hx. destruct Hx as [Ha Hl].
    rewrite (IH _ x Hl). apply Hf. exact Ha.
Qed.

Lemma fold_left_None : forall {A} (f : option Memory -> A -> option Memory) l,
  (forall a, f None a = None) -> fold_left f l None = None.
Proof.
  intros A f l Hf. induction l as [|a l IH]; simpl;
    [reflexivity | rewrite Hf; exact IH].
Qed.

Lemma fold_frame_opt : forall {A} (f : option Memory -> A -> option Memory)
  (spans : A -> list Span),
  (forall a, f None a = None) ->
  (forall a mem mem', f (Some mem) a = Some mem' ->
     forall x, outside (spans a) x -> mem' x = mem x) ->
  forall l mem mem', fold_left f l (Some mem) = Some mem' ->
    forall x, outside (flat_map spans l) x -> mem' x = mem x.
Proof.
  intros A f spans Hnone Hf. induction l as [|a l IH]; intros mem mem' H x Hx.
  - simpl in H. injection H as <-. reflexivity.
  - simpl in H, Hx. apply outside_app in Hx. destruct Hx as [Ha Hl].
    destruct (f (Some mem) a) as [mem1|] eqn:Hstep.
    + rewrite (IH mem1 mem' H x Hl). exact (Hf a mem mem1 Hstep x Ha).
    + rewrite (fold_left_None f l Hnone) in H. discriminate.
Qed.

(** Writing a field changes no byte outside it. *)
Definition field_framed (F : Field) : Prop :=
  forall mem p v x, ~ in_span (field_span F p) x -> f_set F mem p v x = mem x.

Lemma field_ok_framed : forall F, field_ok F -> field_framed F.
Proof. intros F HF mem p v x Hx. apply (set_frame F HF). exact Hx. Qed.

(** The instructions and data that the mutations rewrite are written in
    place. *)
Record asm_framed (A : Assembler) : Prop := mk_asm_framed {
  framed_rawPointer : field_framed (rawPointer A);
  framed_patchedData : field_framed (patchedData A);
  framed_rel32 : field_framed (rel32 A);
  framed_x86Pointer : field_framed (x86Pointer A);
  framed_x86Int32 : field_framed (x86Int32 A);
  framed_armBL : field_framed (armBL A);
  framed_armB : field_framed (armB A);
  framed_boundsCheck : field_framed (boundsCheck A);
  framed_nop : forall mem p x,
    ~ in_span (field_span (armB A) p) x -> armWriteNOP A mem p x = mem x
}.

Section Frames.

Variable P : Platform.
Hypothesis HA : asm_framed (asm P).

(** The bytes that [initHeap] and [restoreToInitialState] rewrite for one
    heap access. *)
Definition access_spans (code : Z) (a : AsmJSHeapAccess) : list Span :=
  match arch P with
  | X86 =>
      (if hasLengthCheck a
       then [field_span (x86Pointer (asm P)) (patchLengthAt a code)] else [])
      ++ [field_span (x86Pointer (asm P)) (patchOffsetAt a code)]
  | X64 =>
      if hasLengthCheck a
      then [field_span (x86Int32 (asm P)) (patchLengthAt a code)] else []
  | ARM | MIPS => [field_span (boundsCheck (asm P)) (ha_offset_ a + code)]
  | NONE => []
  end.

Definition heap_spans (m : AsmJSModule) : list Span :=
  field_span (rawPointer (asm P)) (heapDatum P m)
  :: flat_map (access_spans (code_ m)) (heapAccesses_ m).

(** The bytes of the absolute links. *)
Definition link_spans (m : AsmJSModule) : list Span :=
  flat_map (fun offsets =>
              map (fun off => field_span (patchedData (asm P)) (code_ m + off))
                offsets)
    (absoluteLinks (staticLinkData_ m)).

(** Every byte that [initHeap], [restoreToInitialState] and
    [setProfilingEnabled] may write. *)
Definition patch_spans (m : AsmJSModule) : list Span :=
  heap_spans m ++ link_spans m ++ profiling_spans P m.

Lemma initHeap_frame : forall heap m mem m' mem',
  initHeap P heap m mem = Some (m', mem') ->
  forall x, outside (heap_spans m) x -> mem' x = mem x.
Proof.
  intros heap m mem m' mem' H x Hx. unfold initHeap in H.
  destruct (negb _); [discriminate|].
  unfold heap_spans in Hx. apply outside_cons in Hx. destruct Hx as [Hd Hacc].
  assert (Hdatum : f_set (rawPointer (asm P)) mem
                     (heapDatum P (set_maybeHeap_ m (Some heap)))
                     (dataPointer heap) x = mem x).
  { apply (framed_rawPointer _ HA). exact Hd. }
  cbn [code_ heapAccesses_ set_maybeHeap_] in H.
  unfold access_spans in Hacc.
  destruct (arch P).
  - destruct (fold_left _ _ _) as [mem2|] eqn:Hfold; [|discriminate].
    injection H as <- <-. rewrite <- Hdatum.
    refine (fold_frame_opt _
              (fun a =>
                 (if hasLengthCheck a
                  then [field_span (x86Pointer (asm P))
                          (patchLengthAt a (code_ m))]
                  else [])
                 ++ [field_span (x86Pointer (asm P))
                       (patchOffsetAt a (code_ m))])
              _ _ _ _ _ Hfold x Hacc).
    + reflexivity.
    + intros a mem0 mem1 Hstep y Hy. unfold initHeap_x86_access in Hstep.
      destruct (JS_ASSERT _ _); [|discriminate]. injection Hstep as <-.
      apply outside_app in Hy. destruct Hy as [Hlen Hoff].
      rewrite (framed_x86Pointer _ HA)
        by (apply Hoff; left; reflexivity).
      destruct (hasLengthCheck a); [|reflexivity].
      apply (framed_x86Pointer _ HA). apply Hlen. left. reflexivity.
  - destruct (usesSignalHandlersForOOB _);
      injection H as <- <-; [exact Hdatum|].
    rewrite <- Hdatum.
    apply fold_frame with
      (spans := fun a =>
         if hasLengthCheck a
         then [field_span (x86Int32 (asm P)) (patchLengthAt a (code_ m))]
         else []).
    + intros a mem0 y Hy. destruct (hasLengthCheck a); [|reflexivity].
      apply (framed_x86Int32 _ HA). apply Hy. left. reflexivity.
    + exact Hacc.
  - injection H as <- <-. rewrite <- Hdatum.
    apply fold_frame with
      (spans := fun a =>
         [field_span (boundsCheck (asm P)) (ha_offset_ a + code_ m)]).
    + intros a mem0 y Hy.
      apply (framed_boundsCheck _ HA). apply Hy. left. reflexivity.
    + exact Hacc.
  - injection H as <- <-. rewrite <- Hdatum.
    apply fold_frame with
      (spans := fun a =>
         [field_span (boundsCheck (asm P)) (ha_offset_ a + code_ m)]).
    + intros a mem0 y Hy.
      apply (framed_boundsCheck _ HA). apply Hy. left. reflexivity.
    + exact Hacc.
  - injection H as <- <-. exact Hdatum.
Qed.

Lemma patch_offsets_frame : forall code offsets to from mem mem',
  patch_offsets P code offsets to from mem = Some mem' ->
  forall x,
    outside (map (fun off => field_span (patchedData (asm P)) (code + off))
               offsets) x ->
    mem' x = mem x.
Proof.
  intros code offsets to from.
  induction offsets as [|off offsets IH]; intros mem mem' H x Hx; simpl in H.
  - injection H as <-. reflexivity.
  - simpl in Hx. apply outside_cons in Hx. destruct Hx as [Hoff Hrest].
    unfold PatchDataWithValueCheck in H.
    destruct (JS_ASSERT _ _); [|discriminate].
    rewrite (IH _ _ H x Hrest).
    apply (framed_patchedData _ HA). exact Hoff.
Qed.

Lemma patch_absoluteLinks_frame : forall forward cx code links mem mem',
  patch_absoluteLinks P forward cx code links mem = Some mem' ->
  forall x,
    outside (flat_map (fun offsets =>
                         map (fun off => field_span (patchedData (asm P))
                                           (code + off)) offsets)
               (map snd links)) x ->
    mem' x = mem x.
Proof.
  intros forward cx code links.
  induction links as [|[imm offsets] links IH]; intros mem mem' H x Hx;
    simpl in H.
  - injection H as <-. reflexivity.
  - simpl in Hx. apply outside_app in Hx. destruct Hx as [Hoff Hrest].
    destruct (AddressOf P imm (Some cx)) as [target|]; [|discriminate].
    destruct forward.
    + destruct (patch_offsets _ _ _ _ _ _) as [mem1|] eqn:H1; [|discriminate].
      rewrite (IH _ _ H x Hrest). exact (patch_offsets_frame _ _ _ _ _ _ H1 x Hoff).
    + destruct (patch_offsets _ _ _ _ _ _) as [mem1|] eqn:H1; [|discriminate].
      rewrite (IH _ _ H x Hrest). exact (patch_offsets_frame _ _ _ _ _ _ H1 x Hoff).
Qed.

Lemma outside_incl : forall s1 s2 x,
  incl s1 s2 -> outside s2 x -> outside s1 x.
Proof. intros s1 s2 x Hincl H s Hs. apply H. apply Hincl. exact Hs. Qed.

Lemma in_map_snd_combine : forall {A B} (l1 : list A) (l2 : list B) y,
  In y (map snd (combine l1 l2)) -> In y l2.
Proof.
  intros A B l1 l2 y H. apply in_map_iff in H.
  destruct H as [[a b] [<- Hin]]. apply in_combine_r in Hin. exact Hin.
Qed.

Lemma restoreToInitialState_frame : forall prev cx m mem mem',
  restoreToInitialState P prev cx m mem = Some mem' ->
  forall x, outside (heap_spans m ++ link_spans m) x -> mem' x = mem x.
Proof.
  intros prev cx m mem mem' H x Hx. apply outside_app in Hx.
  destruct Hx as [Hheap Hlink]. unfold restoreToInitialState in H.
  destruct (if DEBUG P then _ else Some mem) as [mem1|] eqn:H1;
    [|discriminate].
  assert (Hmem1 : mem1 x = mem x).
  { destruct (DEBUG P); [|injection H1 as <-; reflexivity].
    apply (patch_absoluteLinks_frame _ _ _ _ _ _ H1).
    intros s Hs. apply Hlink. unfold link_spans.
    apply in_flat_map in Hs. destruct Hs as [offsets [Hin Hs]].
    apply in_flat_map. exists offsets. split; [|exact Hs].
    unfold absoluteLinks_by_kind in Hin.
    exact (in_map_snd_combine _ _ _ Hin). }
  rewrite <- Hmem1.
  unfold heap_spans in Hheap. apply outside_cons in Hheap.
  destruct Hheap as [_ Hacc]. unfold access_spans in Hacc.
  destruct prev as [prev|]; [|injection H as <-; reflexivity].
  destruct (arch P); try (injection H as <-; reflexivity).
  refine (fold_frame_opt _
            (fun a =>
               (if hasLengthCheck a
                then [field_span (x86Pointer (asm P))
                        (patchLengthAt a (code_ m))]
                else [])
               ++ [field_span (x86Pointer (asm P))
                     (patchOffsetAt a (code_ m))])
            _ _ _ _ _ H x Hacc).
  - reflexivity.
  - intros a mem0 mem2 Hstep y Hy. unfold restore_x86_access in Hstep.
    destruct (JS_ASSERT _ _); [|discriminate]. injection Hstep as <-.
    apply outside_app in Hy. destruct Hy as [_ Hoff].
    apply (framed_x86Pointer _ HA). apply Hoff. left. reflexivity.
Qed.

End Frames.

Lemma same_tables_refl : forall m, same_tables m m.
Proof. intros m. repeat split. Qed.

Lemma same_tables_trans : forall m1 m2 m3,
  same_tables m1 m2 -> same_tables m2 m3 -> same_tables m1 m3.
Proof.
  intros m1 m2 m3 H12 H23. unfold same_tables in *.
  destruct H12 as (? & ? & ? & ? & ? & ? & ? & ?).
  destruct H23 as (? & ? & ? & ? & ? & ? & ? & ?).
  repeat split; congruence.
Qed.

Section ProfilingFrame.

Variable P : Platform.
Hypothesis HA : asm_framed (asm P).

Lemma patch_spans_same : forall m m',
  same_tables m m' -> patch_spans P m' = patch_spans P m.
Proof.
  intros m m' H. destruct m, m'. unfold same_tables in H. simpl in H.
  destruct H as (? & ? & ? & ? & ? & ? & ? & ?). subst. reflexivity.
Qed.

Lemma call_field_framed : forall callerRetAddr F p,
  call_field P callerRetAddr = Some (F, p) -> field_framed F.
Proof.
  intros r F p H. unfold call_field in H.
  destruct (arch P); try discriminate; injection H as <- <-.
  - exact (framed_rel32 _ HA).
  - exact (framed_rel32 _ HA).
  - exact (framed_armBL _ HA).
Qed.

Lemma patch_callSite_frame : forall enabled m cs mem mem',
  patch_callSite P enabled m (Some mem) cs = Some mem' ->
  forall x, outside [callSite_span P m cs] x -> mem' x = mem x.
Proof.
  intros enabled m cs mem mem' H x Hx.
  specialize (Hx _ (or_introl eq_refl)).
  unfold patch_callSite in H. unfold callSite_span in Hx.
  destruct (CallSite.kind_ cs); cbn [CallSite.Kind_eqb negb] in H;
    [|injection H as <-; reflexivity].
  destruct (call_field P _) as [[F p]|] eqn:Hcf; [|discriminate].
  destruct (lookupCodeRange m _) as [cr|]; [|discriminate].
  destruct (negb _); [injection H as <-; reflexivity|].
  destruct (callee_asserts _ _ _ _ _); [|discriminate].
  injection H as <-. apply (call_field_framed _ _ _ Hcf). exact Hx.
Qed.

Lemma patch_funcPtr_frame : forall enabled m slot mem mem',
  patch_funcPtr P enabled m (Some mem) slot = Some mem' ->
  forall x, outside [slot_span P slot] x -> mem' x = mem x.
Proof.
  intros enabled m slot mem mem' H x Hx.
  specialize (Hx _ (or_introl eq_refl)). unfold patch_funcPtr in H.
  destruct (lookupCodeRange m _) as [cr|]; [|discriminate].
  destruct (callee_asserts _ _ _ _ _); [|discriminate].
  injection H as <-. apply (framed_rawPointer _ HA). exact Hx.
Qed.

Lemma patch_jump_frame : forall enabled m cr mem mem',
  patch_jump P enabled m (Some mem) cr = Some mem' ->
  forall x, outside [jump_span P m cr] x -> mem' x = mem x.
Proof.
  intros enabled m cr mem mem' H x Hx.
  specialize (Hx _ (or_introl eq_refl)).
  unfold patch_jump in H. unfold jump_span in Hx.
  destruct (CodeRange.isFunction cr); cbn [negb] in H;
    [|injection H as <-; reflexivity].
  destruct (arch P); try discriminate.
  - destruct (negb _); [discriminate|].
    destruct enabled; (destruct (_ && _); [|discriminate]);
      injection H as <-; apply store_two_frame; exact Hx.
  - destruct (negb _); [discriminate|].
    destruct enabled; (destruct (_ && _); [|discriminate]);
      injection H as <-; apply store_two_frame; exact Hx.
  - destruct enabled; (destruct (JS_ASSERT _ _); [|discriminate]);
      injection H as <-.
    + apply (framed_armB _ HA). exact Hx.
    + apply (framed_nop _ HA). exact Hx.
Qed.

Lemma patch_builtin_caller_frame : forall m to from offset mem mem',
  patch_builtin_caller P m to from (Some mem) offset = Some mem' ->
  forall x, outside [caller_span P m offset] x -> mem' x = mem x.
Proof.
  intros m to from offset mem mem' H x Hx.
  specialize (Hx _ (or_introl eq_refl)). unfold patch_builtin_caller in H.
  destruct (lookupCodeRange m _) as [cr|]; [|discriminate].
  destruct (CodeRange.isThunk cr); [injection H as <-; reflexivity|].
  destruct (JS_ASSERT _ _); [|discriminate].
  unfold PatchDataWithValueCheck in H.
  destruct (JS_ASSERT _ _); [|discriminate].
  injection H as <-. apply (framed_patchedData _ HA). exact Hx.
Qed.

Lemma flat_map_singleton : forall {A B} (f : A -> B) l,
  flat_map (fun a => [f a]) l = map f l.
Proof.
  intros A B f l. induction l as [|a l IH]; simpl; [|rewrite IH]; reflexivity.
Qed.

Lemma patch_builtin_frame : forall enabled m builtin mem mem',
  patch_builtin P enabled m (Some mem) builtin = Some mem' ->
  forall x,
    outside (map (caller_span P m) (builtin_offsets P m builtin)) x ->
    mem' x = mem x.
Proof.
  intros enabled m builtin mem mem' H x Hx. unfold patch_builtin in H.
  destruct (AddressOf P _ None) as [from|]; [|discriminate].
  destruct (nth_error _ _) as [thunkOffset|]; [|discriminate].
  fold (builtin_offsets P m builtin) in H.
  rewrite <- flat_map_singleton in Hx.
  destruct enabled;
    refine (fold_frame_opt _ (fun off => [caller_span P m off])
              _ _ _ _ _ H x Hx);
    try reflexivity;
    intros off mem0 mem1 Hstep y Hy;
    exact (patch_builtin_caller_frame _ _ _ _ _ _ Hstep y Hy).
Qed.

Lemma profiling_loops_frame : forall enabled m mem mem',
  profiling_loops P enabled m mem = Some mem' ->
  forall x, outside (profiling_spans P m) x -> mem' x = mem x.
Proof.
  intros enabled m mem mem' H x Hx.
  unfold profiling_loops in H. unfold profiling_spans in Hx.
  apply outside_app in Hx. destruct Hx as [H1 Hx].
  apply outside_app in Hx. destruct Hx as [H2 Hx].
  apply outside_app in Hx. destruct Hx as [H3 H4].
  rewrite <- flat_map_singleton in H1.
  rewrite <- flat_map_singleton in H2.
  rewrite <- flat_map_singleton in H3.
  destruct (fold_left (patch_callSite P enabled m) _ _) as [mem1|] eqn:E1;
    [|rewrite !fold_left_None in H by reflexivity; discriminate].
  destruct (fold_left (patch_funcPtr P enabled m) _ _) as [mem2|] eqn:E2;
    [|rewrite !fold_left_None in H by reflexivity; discriminate].
  destruct (fold_left (patch_jump P enabled m) _ _) as [mem3|] eqn:E3;
    [|rewrite !fold_left_None in H by reflexivity; discriminate].
  rewrite (fold_frame_opt _ (fun b => map (caller_span P m)
                                        (builtin_offsets P m b))
             (fun _ => eq_refl)
             (fun b mem0 mem1 => patch_builtin_frame enabled m b mem0 mem1)
             _ _ _ H x H4).
  rewrite (fold_frame_opt _ (fun cr => [jump_span P m cr])
             (fun _ => eq_refl)
             (fun cr mem0 mem1 => patch_jump_frame enabled m cr mem0 mem1)
             _ _ _ E3 x H3).
  rewrite (fold_frame_opt _ (fun slot => [slot_span P slot])
             (fun _ => eq_refl)
             (fun s mem0 mem1 => patch_funcPtr_frame enabled m s mem0 mem1)
             _ _ _ E2 x H2).
  exact (fold_frame_opt _ (fun cs => [callSite_span P m cs])
           (fun _ => eq_refl)
           (fun cs mem0 mem1 => patch_callSite_frame enabled m cs mem0 mem1)
           _ _ _ E1 x H1).
Qed.

Lemma profiling_spans_same : forall m m',
  same_tables m m' -> profiling_spans P m' = profiling_spans P m.
Proof.
  intros m m' H. destruct m, m'. unfold same_tables in H. simpl in H.
  destruct H as (? & ? & ? & ? & ? & ? & ? & ?). subst. reflexivity.
Qed.

Lemma AutoUnprotectCode_enter_same : forall m b m',
  AutoUnprotectCode_enter P m = Some (b, m') -> same_tables m m'.
Proof.
  intros m b m' H. unfold AutoUnprotectCode_enter in H.
  destruct (codeIsProtected P m) as [[|]|]; try discriminate.
  - unfold unprotectCode in H. destruct (JS_ASSERT _ _); [|discriminate].
    injection H as <- <-. repeat split.
  - injection H as <- <-. apply same_tables_refl.
Qed.

Lemma AutoUnprotectCode_leave_same : forall b m m',
  AutoUnprotectCode_leave P b m = Some m' -> same_tables m m'.
Proof.
  intros b m m' H. unfold AutoUnprotectCode_leave in H. destruct b.
  - unfold protectCode in H. destruct (JS_ASSERT _ _); [|discriminate].
    injection H as <-. repeat split.
  - injection H as <-. apply same_tables_refl.
Qed.

Lemma setProfilingEnabled_frame : forall enabled cx m mem m' mem',
  setProfilingEnabled P enabled cx m mem = Some (m', mem') ->
  same_tables m m' /\
  forall x, outside (profiling_spans P m) x -> mem' x = mem x.
Proof.
  intros enabled cx m mem m' mem' H. unfold setProfilingEnabled in H.
  destruct (negb _); [discriminate|].
  destruct (Bool.eqb _ _).
  { injection H as <- <-. split; [apply same_tables_refl|reflexivity]. }
  destruct (if enabled then _ else Some []) as [labels|]; [|discriminate].
  destruct (AutoUnprotectCode_enter P _) as [[b m1]|] eqn:Henter;
    [|discriminate].
  apply AutoUnprotectCode_enter_same in Henter.
  assert (Hm1 : same_tables m m1).
  { apply (same_tables_trans m (set_profilingLabels_ m labels));
      [repeat split|exact Henter]. }
  change (fold_left (patch_builtin P enabled m1) _ _)
    with (profiling_loops P enabled m1 mem) in H.
  destruct (profiling_loops P enabled m1 mem) as [mem1|] eqn:Hloops;
    [|discriminate].
  destruct (AutoUnprotectCode_leave P b _) as [m2|] eqn:Hleave;
    [|discriminate].
  injection H as <- <-. apply AutoUnprotectCode_leave_same in Hleave.
  split.
  - apply (same_tables_trans m m1); [exact Hm1|].
    apply (same_tables_trans m1 (set_profilingEnabled_ m1 enabled));
      [repeat split|exact Hleave].
  - intros x Hx. apply (profiling_loops_frame _ _ _ _ Hloops).
    rewrite (profiling_spans_same m m1 Hm1). exact Hx.
Qed.

End ProfilingFrame.

(** ** Mutations of a module and its image *)

(** The bytes of the module: code and global data. *)
Definition image (m : AsmJSModule) : Span := (code_ m, totalBytes_ (pod m)).

(** Attaching a heap, undoing the links of a heap, and turning profiling
    on or off. *)
Inductive mutation (P : Platform)
  : AsmJSModule * Memory -> AsmJSModule * Memory -> Prop :=
| mutation_initHeap : forall heap m mem m' mem',
    initHeap P heap m mem = Some (m', mem') ->
    mutation P (m, mem) (m', mem')
| mutation_restoreToInitialState : forall prev cx m mem mem',
    restoreToInitialState P prev cx m mem = Some mem' ->
    mutation P (m, mem) (m, mem')
| mutation_setProfilingEnabled : forall enabled cx m mem m' mem',
    setProfilingEnabled P enabled cx m mem = Some (m', mem') ->
    mutation P (m, mem) (m', mem').

(** Any number of mutations, one after the other. *)
Definition mutated (P : Platform)
  : AsmJSModule * Memory -> AsmJSModule * Memory -> Prop :=
  clos_refl_trans_1n _ (mutation P).

(** Every byte that a mutation may write is a byte of the module. *)
Definition patches_within_image (P : Platform) (m : AsmJSModule) : Prop :=
  forall s, In s (patch_spans P m) ->
  forall x, in_span s x -> in_span (image m) x.

Lemma image_same : forall m m', same_tables m m' -> image m' = image m.
Proof.
  intros m m' (Hcode & Hpod & _). unfold image. rewrite Hcode, Hpod.
  reflexivity.
Qed.

Section MutationFacts.

Variable P : Platform.
Hypothesis HA : asm_framed (asm P).

Lemma outside_image : forall m x,
  patches_within_image P m -> ~ in_span (image m) x ->
  outside (patch_spans P m) x.
Proof. intros m x Hw Hx s Hs Hin. apply Hx. exact (Hw s Hs x Hin). Qed.

Lemma mutation_frame : forall m mem m' mem',
  mutation P (m, mem) (m', mem') ->
  same_tables m m' /\
  forall x, outside (patch_spans P m) x -> mem' x = mem x.
Proof.
  intros m mem m' mem' H. inversion H; subst.
  - split.
    + rewrite (initHeap_module P _ _ _ _ _ H1). repeat split.
    + intros x Hx. apply (initHeap_frame P HA _ _ _ _ _ H1).
      unfold patch_spans in Hx. apply outside_app in Hx. apply Hx.
  - split; [apply same_tables_refl|].
    intros x Hx. apply (restoreToInitialState_frame P HA _ _ _ _ _ H1).
    unfold patch_spans in Hx. rewrite app_assoc in Hx.
    apply outside_app in Hx. apply Hx.
  - destruct (setProfilingEnabled_frame P HA _ _ _ _ _ _ H1) as [Hs Hf].
    split; [exact Hs|].
    intros x Hx. apply Hf.
    unfold patch_spans in Hx. rewrite app_assoc in Hx.
    apply outside_app in Hx. apply Hx.
Qed.

(** Mutations of a module write no byte outside its image, and leave its
    image where it is. *)
Lemma mutated_frame : forall s s',
  mutated P s s' ->
  patches_within_image P (fst s) ->
  same_tables (fst s) (fst s') /\
  forall x, ~ in_span (image (fst s)) x -> snd s' x = snd s x.
Proof.
  intros s s' H. induction H as [s | s s1 s' Hstep Hrest IH]; intros Hw.
  - split; [apply same_tables_refl|reflexivity].
  - destruct s as [m mem], s1 as [m1 mem1]. simpl in *.
    destruct (mutation_frame _ _ _ _ Hstep) as [Hsame Hframe].
    destruct IH as [Hsame' Hframe'].
    { unfold patches_within_image.
      rewrite (patch_spans_same P m m1 Hsame), (image_same m m1 Hsame).
      exact Hw. }
    split; [exact (same_tables_trans _ _ _ Hsame Hsame')|].
    intros x Hx. rewrite Hframe'.
    + apply Hframe. apply outside_image; assumption.
    + rewrite (image_same m m1 Hsame). exact Hx.
Qed.

End MutationFacts.

(** *** The patches of a copy at another address *)

(** [s'] is [s] moved by [d] bytes. *)
Definition span_shifted (d : Z) (s s' : Span) : Prop :=
  forall x, in_span s' x <-> in_span s (x - d).

Lemma field_span_shifted : forall F p p' d,
  p' = p + d -> span_shifted d (field_span F p) (field_span F p').
Proof.
  intros F p p' d -> x. unfold in_span, field_span. simpl. lia.
Qed.

Lemma no_span_shifted : forall d, span_shifted d no_span no_span.
Proof. intros d x. unfold in_span, no_span. simpl. lia. Qed.

Lemma Forall2_map_pointwise : forall {A B} (R : B -> B -> Prop)
  (f g : A -> B) l,
  (forall a, R (f a) (g a)) -> Forall2 R (map f l) (map g l).
Proof.
  intros A B R f g l H. induction l as [|a l IH]; simpl; constructor; auto.
Qed.

Lemma Forall2_flat_map_pointwise : forall {A B} (R : B -> B -> Prop)
  (f g : A -> list B) l,
  (forall a, Forall2 R (f a) (g a)) ->
  Forall2 R (flat_map f l) (flat_map g l).
Proof.
  intros A B R f g l H. induction l as [|a l IH]; simpl.
  - constructor.
  - apply Forall2_app; auto.
Qed.

Lemma Forall2_In_r : forall {A} (R : A -> A -> Prop) l l' y,
  Forall2 R l l' -> In y l' -> exists x, In x l /\ R x y.
Proof.
  intros A R l l' y H. induction H as [|a b l l' Hab H IH]; intros Hy.
  - contradiction.
  - destruct Hy as [<-|Hy].
    + exists a. split; [left; reflexivity|exact Hab].
    + destruct (IH Hy) as (x & Hx & Hxy). exists x. split; [right|]; auto.
Qed.

Section Shift.

Variable P : Platform.

Lemma patch_spans_shifted : forall m d,
  Forall2 (span_shifted d) (patch_spans P m)
    (patch_spans P (set_code_ m (code_ m + d))).
Proof.
  intros m d. unfold patch_spans. apply Forall2_app; [|apply Forall2_app].
  - unfold heap_spans. cbn [code_ heapAccesses_ set_code_]. constructor.
    + apply field_span_shifted. unfold heapDatum, globalData.
      cbn [code_ pod set_code_]. lia.
    + apply Forall2_flat_map_pointwise. intros a. unfold access_spans.
      destruct (arch P); try destruct (hasLengthCheck a); simpl;
        repeat first [apply Forall2_nil | apply Forall2_cons];
        apply field_span_shifted; unfold patchLengthAt, patchOffsetAt; lia.
  - unfold link_spans. cbn [code_ staticLinkData_ set_code_].
    apply Forall2_flat_map_pointwise. intros offsets.
    apply Forall2_map_pointwise. intros off.
    apply field_span_shifted. lia.
  - unfold profiling_spans.
    cbn [callSites_ funcPtrTables_ codeRanges_ set_code_].
    apply Forall2_app; [|apply Forall2_app; [|apply Forall2_app]].
    + apply Forall2_map_pointwise. intros cs. unfold callSite_span.
      cbn [code_ set_code_].
      destruct (CallSite.kind_ cs); [|apply no_span_shifted].
      unfold call_field. destruct (arch P); try apply no_span_shifted;
        apply field_span_shifted; lia.
    + unfold funcPtrTable_slots, globalData. cbn [code_ pod set_code_].
      rewrite !flat_map_concat_map, !concat_map, !map_map.
      rewrite <- !flat_map_concat_map.
      apply Forall2_flat_map_pointwise. intros t. rewrite !map_map.
      apply Forall2_map_pointwise. intros j.
      apply field_span_shifted. lia.
    + apply Forall2_map_pointwise. intros cr. unfold jump_span.
      cbn [code_ set_code_].
      destruct (CodeRange.isFunction cr); [|apply no_span_shifted].
      destruct (arch P); try apply no_span_shifted;
        try (apply field_span_shifted; lia);
        intros x; unfold in_span; simpl; lia.
    + apply Forall2_flat_map_pointwise. intros b.
      unfold builtin_offsets. cbn [staticLinkData_ set_code_].
      apply Forall2_map_pointwise. intros off. unfold caller_span.
      cbn [code_ set_code_]. apply field_span_shifted. lia.
Qed.

(** A copy of the tables at another address keeps its patches within its
    image. *)
Lemma patches_within_image_shift : forall m m' d,
  same_tables (set_code_ m (code_ m + d)) m' ->
  patches_within_image P m -> patches_within_image P m'.
Proof.
  intros m m' d Hsame Hw. unfold patches_within_image.
  rewrite (patch_spans_same P _ _ Hsame), (image_same _ _ Hsame).
  intros s' Hs' x Hx.
  destruct (Forall2_In_r _ _ _ _ (patch_spans_shifted m d) Hs')
    as (s & Hs & Hshift).
  apply Hshift in Hx. apply (Hw s Hs) in Hx.
  unfold in_span, image in *. cbn [code_ pod set_code_ fst snd] in *. lia.
Qed.

End Shift.

(** ** clone *)

Lemma ClonePodVector_Some : forall {T} cx (v v' : list T),
  ClonePodVector cx v = Some v' -> v' = v.
Proof.
  intros T cx v v' H. unfold ClonePodVector in H.
  destruct (resize_ok cx _); congruence.
Qed.

Lemma AbsoluteLinkArray_clone_Some : forall cx a a',
  AbsoluteLinkArray_clone cx a = Some a' -> a' = a.
Proof.
  intros cx a. induction a as [|v a IH]; intros a' H; simpl in H.
  - congruence.
  - destruct (ClonePodVector cx v) as [v'|] eqn:Hv; [|discriminate].
    destruct (AbsoluteLinkArray_clone cx a) as [vs|] eqn:Hvs; [|discriminate].
    injection H as <-. apply ClonePodVector_Some in Hv.
    rewrite (IH vs eq_refl). congruence.
Qed.

Lemma StaticLinkData_clone_Some : forall cx d d',
  StaticLinkData_clone cx d = Some d' -> d' = d.
Proof.
  intros cx d d' H. unfold StaticLinkData_clone in H.
  destruct (ClonePodVector cx (relativeLinks d)) as [r|] eqn:Hr;
    [|discriminate].
  destruct (AbsoluteLinkArray_clone cx (absoluteLinks d)) as [a|] eqn:Ha;
    [|discriminate].
  injection H as <-. apply ClonePodVector_Some in Hr.
  apply AbsoluteLinkArray_clone_Some in Ha. subst. destruct d. reflexivity.
Qed.

(** What [clone] returns: the module it was given, and a module with no
    heap, at the address of the new mapping, whose tables are equal to
    those of the module it was given. *)
Lemma clone_Done : forall P cx M mem M0 C mem0,
  clone P cx M mem = Done (M0, C, mem0) ->
  same_tables M M0 /\
  exists base,
    cx_mmap cx = Some base /\
    same_tables (set_code_ M (code_ M + (base - code_ M))) C /\
    maybeHeap_ C = None /\
    profilingEnabled_ C = profilingEnabled_ M.
Proof.
  intros P cx M mem M0 C mem0 H. unfold clone in H.
  destruct (AutoUnprotectCode_enter P M) as [[b M1]|] eqn:Henter;
    [|discriminate].
  assert (Hflag : profilingEnabled_ M1 = profilingEnabled_ M).
  { unfold AutoUnprotectCode_enter in Henter.
    destruct (codeIsProtected P M) as [[|]|]; try discriminate.
    - unfold unprotectCode in Henter.
      destruct (JS_ASSERT _ _); [|discriminate].
      injection Henter as _ <-. reflexivity.
    - injection Henter as _ <-. reflexivity. }
  apply AutoUnprotectCode_enter_same in Henter.
  destruct (cx_oom cx); [discriminate|].
  unfold AllocateExecutableMemory in H.
  destruct (cx_mmap cx) as [base|]; [|discriminate].
  cbn [code_ set_code_] in H.
  destruct (base =? 0); [discriminate|].
  destruct (CloneVector cx Global_clone _) as [globals|]; [|discriminate].
  destruct (CloneVector cx Exit_clone _) as [exits|]; [|discriminate].
  destruct (CloneVector cx (ExportedFunction_clone cx) _) as [exports|];
    [|discriminate].
  destruct (ClonePodVector cx (callSites_ M1)) as [callSites|] eqn:H1;
    [|discriminate].
  destruct (ClonePodVector cx (codeRanges_ M1)) as [codeRanges|] eqn:H2;
    [|discriminate].
  destruct (ClonePodVector cx (funcPtrTables_ M1)) as [funcPtrTables|] eqn:H3;
    [|discriminate].
  destruct (ClonePodVector cx (builtinThunkOffsets_ M1))
    as [builtinThunkOffsets|] eqn:H4; [|discriminate].
  destruct (CloneVector cx Name_clone _) as [names|]; [|discriminate].
  destruct (ClonePodVector cx (heapAccesses_ M1)) as [heapAccesses|] eqn:H5;
    [|discriminate].
  destruct (StaticLinkData_clone cx (staticLinkData_ M1))
    as [staticLinkData|] eqn:H6; [|discriminate].
  destruct (restoreToInitialState P _ cx _ _) as [mem1|]; [|discriminate].
  destruct (AutoUnprotectCode_leave P b M1) as [M2|] eqn:Hleave;
    [|discriminate].
  apply AutoUnprotectCode_leave_same in Hleave.
  injection H as <- <- <-.
  apply ClonePodVector_Some in H1, H2, H3, H4, H5.
  apply StaticLinkData_clone_Some in H6. subst.
  split; [exact (same_tables_trans _ _ _ Henter Hleave)|].
  exists base. split; [reflexivity|].
  destruct Henter as (E1 & E2 & E3 & E4 & E5 & E6 & E7 & E8).
  split; [|split].
  - unfold same_tables. cbn. repeat split; try congruence. lia.
  - reflexivity.
  - exact Hflag.
Qed.

(** C9.  [clone] gives the copy a mapping of its own, the tables of the
    original in vectors of its own, and no heap.  When the new mapping does
    not meet the image of the original, and every patch of the original
    lies in its image, then at any later time attaching or detaching a
    heap or turning profiling on or off in one of the two, any number of
    times, leaves every byte of the image of the other as it is, whatever
    the state of the two has become. *)
Theorem clone_independent : forall P cx M mem M0 C mem0,
  asm_framed (asm P) ->
  patches_within_image P M ->
  (forall base, cx_mmap cx = Some base ->
     spans_disjoint (image M) (base, totalBytes_ (pod M))) ->
  clone P cx M mem = Done (M0, C, mem0) ->
  maybeHeap_ C = None /\
  profilingEnabled_ C = profilingEnabled_ M /\
  spans_disjoint (image M0) (image C) /\
  (forall M1 mem1 M' mem',
     same_tables M0 M1 -> mutated P (M1, mem1) (M', mem') ->
     same_tables M0 M' /\
     forall x, in_span (image C) x -> mem' x = mem1 x) /\
  (forall C1 mem1 C' mem',
     same_tables C C1 -> mutated P (C1, mem1) (C', mem') ->
     same_tables C C' /\
     forall x, in_span (image M0) x -> mem' x = mem1 x).
Proof.
  intros P cx M mem M0 C mem0 HA Hw Hfresh Hclone.
  destruct (clone_Done _ _ _ _ _ _ _ Hclone)
    as (HM0 & base & Hbase & HC & Hheap & Hflag).
  assert (HimageM : image M0 = image M) by exact (image_same _ _ HM0).
  assert (HimageC : image C = (base, totalBytes_ (pod M))).
  { rewrite (image_same _ _ HC). unfold image. cbn [code_ pod set_code_].
    f_equal. lia. }
  assert (Hdis : spans_disjoint (image M0) (image C)).
  { rewrite HimageM, HimageC. exact (Hfresh base Hbase). }
  assert (HwC : patches_within_image P C)
    by exact (patches_within_image_shift P M C _ HC Hw).
  split; [exact Hheap|]. split; [exact Hflag|]. split; [exact Hdis|]. split.
  - intros M1 mem1 M' mem' Hsame Hmut.
    destruct (mutated_frame P HA _ _ Hmut) as [Hsame' Hframe].
    { simpl. unfold patches_within_image.
      rewrite (patch_spans_same P M M1), (image_same M M1)
        by exact (same_tables_trans _ _ _ HM0 Hsame).
      exact Hw. }
    simpl in *. split; [exact (same_tables_trans _ _ _ Hsame Hsame')|].
    intros x Hx. apply Hframe. rewrite (image_same _ _ Hsame).
    intros HxM. exact (Hdis x HxM Hx).
  - intros C1 mem1 C' mem' Hsame Hmut.
    destruct (mutated_frame P HA _ _ Hmut) as [Hsame' Hframe].
    { simpl. unfold patches_within_image.
      rewrite (patch_spans_same P C C1), (image_same C C1) by exact Hsame.
      exact HwC. }
    simpl in *. split; [exact (same_tables_trans _ _ _ Hsame Hsame')|].
    intros x Hx. apply Hframe. rewrite (image_same _ _ Hsame).
    intros HxC. exact (Hdis x Hx HxC).
Qed.

(** *** The example *)

Lemma x86_asm_framed : asm_framed LittleEndian.x86_asm.
Proof.
  constructor; try (apply field_ok_framed; apply le_field_ok).
  - apply field_ok_framed. apply rel32_field_ok.
  - intros mem p x Hx. unfold LittleEndian.x86_asm in *.
    cbn [armWriteNOP armB] in *. apply store_bytes_outside.
    rewrite LittleEndianFacts.length_le_bytes.
    unfold in_span, field_span, LittleEndian.le_field in Hx.
    cbn [f_lo f_len fst snd] in Hx. lia.
Qed.

Lemma example_patches_within_image :
  patches_within_image (LittleEndian.x86 true) (Examples.example_linked 65536).
Proof.
  unfold patches_within_image.
  change (patch_spans (LittleEndian.x86 true) (Examples.example_linked 65536))
    with [(65668, 4); (65582, 4); (65588, 4); (65564, 4); (0, 0);
          (65680, 4); (0, 0); (65576, 2); (0, 0); (65588, 4)].
  intros s Hs x. unfold in_span, image.
  repeat (destruct Hs as [<-|Hs]; [simpl; lia|]). contradiction.
Qed.

(** The theorem for the clone of the linked example at 131072, and a heap
    that is then attached to the original. *)
Lemma clone_independent_witness :
  exists M0 C mem0,
    clone (LittleEndian.x86 true) (LittleEndian.example_cx 131072 [1] None)
      (Examples.example_linked 65536) (Examples.example_linked_memory 65536)
    = Done (M0, C, mem0) /\
    forall heap M' mem',
      initHeap (LittleEndian.x86 true) heap M0 mem0 = Some (M', mem') ->
      forall x, in_span (image C) x -> mem' x = mem0 x.
Proof.
  assert (Hdone : is_Done (clone (LittleEndian.x86 true)
                             (LittleEndian.example_cx 131072 [1] None)
                             (Examples.example_linked 65536)
                             (Examples.example_linked_memory 65536)) = true)
    by (vm_compute; reflexivity).
  destruct (clone (LittleEndian.x86 true)
              (LittleEndian.example_cx 131072 [1] None)
              (Examples.example_linked 65536)
              (Examples.example_linked_memory 65536))
    as [| |[[M0 C] mem0]] eqn:Hclone; try discriminate Hdone.
  exists M0, C, mem0. split; [reflexivity|].
  assert (Hfresh : forall base,
            cx_mmap (LittleEndian.example_cx 131072 [1] None) = Some base ->
            spans_disjoint (image (Examples.example_linked 65536))
              (base, totalBytes_ (pod (Examples.example_linked 65536)))).
  { intros base Hbase. injection Hbase as <-. intros x H1 H2.
    unfold in_span, image in *. simpl in *. lia. }
  destruct (clone_independent (LittleEndian.x86 true) _ _ _ _ _ _
              x86_asm_framed example_patches_within_image Hfresh Hclone)
    as (_ & _ & _ & Horig & _).
  intros heap M' mem' Hinit.
  apply (Horig M0 mem0 M' mem' (same_tables_refl M0)).
  apply clos_rt1n_step. apply mutation_initHeap with (heap := heap).
  exact Hinit.
Defined.

(** ** The persistent cache *)

Lemma PodEqual_eq : forall a b, PodEqual a b = true <-> a = b.
Proof.
  induction a as [|x a IH]; intros [|y b]; simpl; split; intros H;
    try reflexivity; try discriminate.
  - apply andb_prop in H. destruct H as [Hxy Hab].
    apply Z.eqb_eq in Hxy. apply IH in Hab. congruence.
  - injection H as -> ->. rewrite Z.eqb_refl. simpl. apply IH. reflexivity.
Qed.

Lemma MachineId_eq_true : forall lhs rhs,
  MachineId_eq lhs rhs = true <-> lhs = rhs.
Proof.
  intros [c1 b1] [c2 b2]. unfold MachineId_eq. simpl. split.
  - intros H. apply andb_prop in H. destruct H as [H Hb].
    apply andb_prop in H. destruct H as [Hc Hlen].
    apply Z.eqb_eq in Hc. apply Nat.eqb_eq in Hlen. apply PodEqual_eq in Hb.
    rewrite Hlen, firstn_all in Hb. congruence.
  - intros H. injection H as -> ->.
    rewrite Z.eqb_refl, Nat.eqb_refl, firstn_all. simpl.
    apply PodEqual_eq. reflexivity.
Qed.

Lemma args_match_eq : forall funCtorArgs args,
  length funCtorArgs = length args ->
  args_match funCtorArgs args = true -> funCtorArgs = map Some args.
Proof.
  induction funCtorArgs as [|n l IH]; intros [|a args] Hlen H;
    simpl in *; try discriminate; try reflexivity.
  destruct n as [n|]; [|discriminate].
  apply andb_prop in H. destruct H as [H Hrest].
  apply andb_prop in H. destruct H as [Hchars Hwidth].
  apply PodEqual_eq in Hchars. apply eqb_prop in Hwidth.
  rewrite (IH args) by (try lia; exact Hrest).
  destruct n, a. simpl in *. subst. reflexivity.
Qed.

(** The recorded characters are the characters of the source from the
    function on, it is recorded as what it is, and for the body of a
    [Function] constructor the source ends where they end and the formals
    are those recorded. *)
Definition source_matches (c : ModuleCharsForLookup) (parser : AsmJSParser)
  : Prop :=
  chars_ c = firstn (length (chars_ c))
               (skipn (Z.to_nat (beginOffset parser)) (rawChars parser)) /\
  lookup_isFunCtor_ c = Z.b2z (isFunctionConstructorBody parser) /\
  (isFunctionConstructorBody parser = true ->
     beginOffset parser + Z.of_nat (length (chars_ c))
     = Z.of_nat (length (rawChars parser)) /\
     lookup_funCtorArgs_ c = map Some (FunctionArgsList parser)).

Lemma match_source_matches : forall P c parser,
  ModuleCharsForLookup_match P c parser = Some true ->
  source_matches c parser.
Proof.
  intros P c parser H. unfold ModuleCharsForLookup_match in H.
  destruct (negb (JS_ASSERT P _)); [discriminate|].
  destruct (_ <? _); [discriminate|].
  destruct (PodEqual _ _) eqn:Hchars; [|discriminate]. cbn [negb] in H.
  destruct (lookup_isFunCtor_ c =? Z.b2z _) eqn:Hflag; [|discriminate].
  cbn [negb] in H. apply PodEqual_eq in Hchars. apply Z.eqb_eq in Hflag.
  split; [exact Hchars|]. split; [exact Hflag|]. intros Hctor.
  rewrite Hctor in Hflag. simpl in Hflag. rewrite Hflag in H.
  cbn [Z.eqb negb] in H.
  destruct (_ =? _) eqn:Hend; [|discriminate]. cbn [negb] in H.
  destruct (Nat.eqb _ _) eqn:Hlen; [|discriminate]. cbn [negb] in H.
  apply Z.eqb_eq in Hend. apply Nat.eqb_eq in Hlen.
  split; [exact Hend|]. apply args_match_eq; [exact Hlen|congruence].
Qed.

Lemma match_Some : forall P c parser,
  beginOffset parser <= Z.of_nat (length (rawChars parser)) ->
  exists b, ModuleCharsForLookup_match P c parser = Some b.
Proof.
  intros P c parser Hle. unfold ModuleCharsForLookup_match, JS_ASSERT.
  replace (beginOffset parser <=? _) with true
    by (symmetry; apply Z.leb_le; exact Hle).
  rewrite orb_true_r. cbn [negb].
  repeat match goal with
         | |- context [if ?b then _ else _] => destruct b
         end; eauto.
Qed.

(** The word [GetCPUID] writes for the architecture of the build. *)
Definition arch_tag (a : Arch) : Z :=
  match a with X86 => 1 | X64 => 2 | ARM => 3 | MIPS => 4 | NONE => 0 end.

Lemma lor_tag_flags : forall t f,
  0 <= t < 8 -> 0 <= f -> Z.lor t (Z.shiftl f 3) = t + 8 * f.
Proof.
  intros t f Ht Hf.
  assert (Hland : Z.land t (Z.shiftl f 3) = 0).
  { apply Z.bits_inj'. intros n Hn. rewrite Z.land_spec, Z.bits_0.
    destruct (Z.lt_ge_cases n 3) as [Hlt|Hge].
    - rewrite (Z.shiftl_spec_low f 3 n Hlt). apply andb_false_r.
    - replace (Z.testbit t n) with false; [reflexivity|].
      symmetry. destruct (Z.eq_dec t 0) as [->|Hnz]; [apply Z.bits_0|].
      apply Z.bits_above_log2; [lia|].
      assert (Z.log2 t < 3) by (apply Z.log2_lt_pow2; lia). lia. }
  rewrite <- (Z.lxor_lor _ _ Hland), <- (Z.add_nocarry_lxor _ _ Hland).
  rewrite Z.shiftl_mul_pow2 by lia. lia.
Qed.

Lemma GetCPUID_value : forall P id,
  0 <= cpuFlags P <= Z.shiftr UINT32_MAX ARCH_BITS ->
  GetCPUID P = Some id -> id = arch_tag (arch P) + 8 * cpuFlags P.
Proof.
  intros P id Hf H.
  change (Z.shiftr UINT32_MAX ARCH_BITS) with 536870911 in Hf.
  unfold GetCPUID, ARCH_BITS in H.
  destruct (arch P); try discriminate;
    match type of H with
    | Some ?v = Some _ => replace id with v by congruence
    end;
    rewrite lor_tag_flags by lia; cbn [arch_tag];
    apply uint32_small; lia.
Qed.

Lemma source_matches_nth : forall c parser i,
  source_matches c parser -> (i < length (chars_ c))%nat ->
  nth_error (rawChars parser) (Z.to_nat (beginOffset parser) + i)
  = nth_error (chars_ c) i.
Proof.
  intros c parser i (Hchars & _) Hi.
  transitivity (nth_error
                  (firstn (length (chars_ c))
                     (skipn (Z.to_nat (beginOffset parser))
                        (rawChars parser))) i);
    [|rewrite <- Hchars; reflexivity].
  rewrite nth_error_firstn.
  destruct (Nat.ltb_spec i (length (chars_ c))) as [_|Hge]; [|lia].
  rewrite nth_error_skipn. reflexivity.
Qed.

(** C3.  For a cache entry that opens and holds a machine identifier.  A
    module is taken from the entry only if the identifier recorded is the
    current one, CPU word and build identifier, and the characters recorded
    are those of the source at the function, one for one, with the same
    flag and, for the body of a [Function] constructor, the same formals
    and the end of the source where they end.  The lookup reports a miss
    when the identifier recorded differs from the current one, be it in one
    byte of the build identifier or in one CPU flag of the machine that
    recorded it; when one character of the source inside the range recorded
    differs from the one recorded; and, for the body of a [Function]
    constructor, when the source goes on after the characters recorded.
    (The characters recorded for a function statement or expression end
    with its closing brace; the source ends with the function only for the
    body of a [Function] constructor, and there the end is tested.)  The
    CPU flags fit their 29 bits and the function begins inside the source,
    as [GetCPUID] and [match] assert. *)
Theorem cache_admission : forall P cx parser mem machineId entry cached cursor,
  0 <= cpuFlags P <= Z.shiftr UINT32_MAX ARCH_BITS ->
  beginOffset parser <= Z.of_nat (length (rawChars parser)) ->
  extractCurrentState P cx = Some machineId ->
  cacheOps_openEntryForRead cx = Some (Some entry) ->
  MachineId_deserialize P cx entry = Some (cached, cursor) ->
  let lookup := LookupAsmJSModuleInCache P cx parser mem in
  (forall module mem' advanceTo,
     lookup = Done (Hit module mem' advanceTo) ->
     cpuId_ cached = cpuId_ machineId /\
     buildId_ cached = buildId_ machineId /\
     exists moduleChars cursor',
       ModuleCharsForLookup_deserialize P cx cursor
       = Some (moduleChars, cursor') /\
       source_matches moduleChars parser) /\
  ((cpuId_ cached <> cpuId_ machineId \/
    buildId_ cached <> buildId_ machineId) -> lookup = Done Miss) /\
  (forall i,
     nth_error (buildId_ cached) i <> nth_error (buildId_ machineId) i ->
     lookup = Done Miss) /\
  (forall P',
     0 <= cpuFlags P' <= Z.shiftr UINT32_MAX ARCH_BITS ->
     GetCPUID P' = Some (cpuId_ cached) ->
     cpuFlags P' <> cpuFlags P -> lookup = Done Miss) /\
  (forall moduleChars cursor',
     ModuleCharsForLookup_deserialize P cx cursor
     = Some (moduleChars, cursor') ->
     (~ source_matches moduleChars parser -> lookup = Done Miss) /\
     (forall i, (i < length (chars_ moduleChars))%nat ->
        nth_error (rawChars parser) (Z.to_nat (beginOffset parser) + i)
        <> nth_error (chars_ moduleChars) i ->
        lookup = Done Miss) /\
     (isFunctionConstructorBody parser = true ->
      beginOffset parser + Z.of_nat (length (chars_ moduleChars))
      <> Z.of_nat (length (rawChars parser)) ->
      lookup = Done Miss)).
Proof.
  intros P cx parser mem machineId entry cached cursor Hflags Hle Hid Hopen
    Hcached lookup.
  assert (Hids : (cpuId_ cached <> cpuId_ machineId \/
                  buildId_ cached <> buildId_ machineId) ->
                 lookup = Done Miss).
  { intros Hne. unfold lookup, LookupAsmJSModuleInCache.
    rewrite Hid, Hopen, Hcached.
    destruct (MachineId_eq machineId cached) eqn:Heq; [|reflexivity].
    apply MachineId_eq_true in Heq. subst cached.
    destruct Hne as [Hne|Hne]; congruence. }
  assert (Hsrc : forall moduleChars cursor',
            ModuleCharsForLookup_deserialize P cx cursor
            = Some (moduleChars, cursor') ->
            ~ source_matches moduleChars parser -> lookup = Done Miss).
  { intros moduleChars cursor' Hchars Hnot.
    unfold lookup, LookupAsmJSModuleInCache.
    rewrite Hid, Hopen, Hcached.
    destruct (MachineId_eq machineId cached); [|reflexivity]. cbn [negb].
    rewrite Hchars.
    destruct (match_Some P moduleChars parser Hle) as [[|] Hb].
    - exfalso. apply Hnot. exact (match_source_matches _ _ _ Hb).
    - rewrite Hb. reflexivity. }
  split; [|split; [exact Hids|split; [|split]]].
  - intros module mem' advanceTo H. unfold lookup in H.
    unfold LookupAsmJSModuleInCache in H.
    rewrite Hid, Hopen, Hcached in H.
    destruct (MachineId_eq machineId cached) eqn:Heq; [|discriminate].
    cbn [negb] in H. apply MachineId_eq_true in Heq. subst cached.
    split; [reflexivity|]. split; [reflexivity|].
    destruct (ModuleCharsForLookup_deserialize P cx cursor)
      as [[moduleChars cursor']|].
    + exists moduleChars, cursor'. split; [reflexivity|].
      destruct (ModuleCharsForLookup_match P moduleChars parser)
        as [[|]|] eqn:Hb; try discriminate.
      exact (match_source_matches _ _ _ Hb).
    + exfalso.
      destruct (ModuleCharsForLookup_deserialize_nullptr P cx cursor)
        as [left|]; [|discriminate].
      destruct (ModuleCharsForLookup_match P left parser)
        as [[|]|]; try discriminate.
      destruct (cx_oom cx); discriminate.
  - intros i Hi. apply Hids. right. congruence.
  - intros P' Hflags' Hcpu Hne. apply Hids. left.
    unfold extractCurrentState in Hid.
    destruct (cacheOps_buildId cx) as [[buildId|]|]; try discriminate.
    destruct (GetCPUID P) as [cpuId|] eqn:Hmine; [|discriminate].
    injection Hid as <-. cbn [cpuId_].
    pose proof (GetCPUID_value P cpuId Hflags Hmine) as E1.
    pose proof (GetCPUID_value P' _ Hflags' Hcpu) as E2.
    assert (Ht : 0 <= arch_tag (arch P) < 8 /\ 0 <= arch_tag (arch P') < 8)
      by (destruct (arch P), (arch P'); simpl; lia).
    change (Z.shiftr UINT32_MAX ARCH_BITS) with 536870911 in *. lia.
  - intros moduleChars cursor' Hchars. split; [|split].
    + exact (Hsrc moduleChars cursor' Hchars).
    + intros i Hi Hne. apply (Hsrc moduleChars cursor' Hchars).
      intros Hm. apply Hne. exact (source_matches_nth _ _ i Hm Hi).
    + intros Hctor Hend. apply (Hsrc moduleChars cursor' Hchars).
      intros (_ & _ & Hm). destruct (Hm Hctor) as [Hm' _]. contradiction.
Qed.

(** The theorem for the entry of the example on the x86 build: looked up at
    the function it was stored for, the module is taken and the identifier
    recorded is the current one; looked up at a source that differs in its
    third character, it is a miss. *)
Lemma cache_admission_witness :
  (exists module mem' advanceTo,
     LookupAsmJSModuleInCache (LittleEndian.x86 true)
       (LittleEndian.example_cx 131072 [1] (Some Examples.example_entry))
       (Examples.example_parser Examples.example_source false)
       Examples.zero_memory
     = Done (Hit module mem' advanceTo)) /\
  MachineId_deserialize (LittleEndian.x86 true)
    (LittleEndian.example_cx 131072 [1] (Some Examples.example_entry))
    Examples.example_entry
  = Some (mkMachineId 57 [1],
          skipn 9 Examples.example_entry) /\
  LookupAsmJSModuleInCache (LittleEndian.x86 true)
    (LittleEndian.example_cx 131072 [1] (Some Examples.example_entry))
    (Examples.example_parser
       ([102; 117; 109] ++ skipn 3 Examples.example_source) false)
    Examples.zero_memory
  = Done Miss.
Proof.
  set (P := LittleEndian.x86 true).
  set (cx := LittleEndian.example_cx 131072 [1]
               (Some Examples.example_entry)).
  assert (Hflags : 0 <= cpuFlags P <= Z.shiftr UINT32_MAX ARCH_BITS)
    by (change (0 <= 7 <= 536870911); lia).
  assert (Hcached : MachineId_deserialize P cx Examples.example_entry
                    = Some (mkMachineId 57 [1],
                            skipn 9 Examples.example_entry))
    by (vm_compute; reflexivity).
  split; [|split; [exact Hcached|]].
  - set (parser := Examples.example_parser Examples.example_source false).
    assert (Hfound : is_Hit (LookupAsmJSModuleInCache P cx parser
                               Examples.zero_memory) = true)
      by (vm_compute; reflexivity).
    destruct (LookupAsmJSModuleInCache P cx parser Examples.zero_memory)
      as [| |[|module mem' advanceTo]] eqn:Hlookup;
      try discriminate Hfound.
    exists module, mem', advanceTo. reflexivity.
  - set (parser := Examples.example_parser
                     ([102; 117; 109] ++ skipn 3 Examples.example_source)
                     false).
    destruct (cache_admission P cx parser Examples.zero_memory
                (mkMachineId 57 [1]) Examples.example_entry
                (mkMachineId 57 [1]) (skipn 9 Examples.example_entry)
                Hflags ltac:(vm_compute; discriminate) eq_refl eq_refl
                Hcached) as (_ & _ & _ & _ & Hsrc).
    destruct (ModuleCharsForLookup_deserialize P cx
                (skipn 9 Examples.example_entry))
      as [[moduleChars cursor']|] eqn:Hchars;
      [|vm_compute in Hchars; discriminate].
    destruct (Hsrc moduleChars cursor' eq_refl) as (_ & Hchar & _).
    apply (Hchar 2%nat).
    + vm_compute in Hchars. injection Hchars as <- _. simpl. lia.
    + vm_compute in Hchars. injection Hchars as <- _. vm_compute.
      discriminate.
Defined.

(** * Further properties *)

(** ** lookupHeapAccess *)

(** The table of heap accesses is in increasing order of [offset]. *)
Definition sorted_access_offsets (hs : list AsmJSHeapAccess) : Prop :=
  forall i j ai aj, nth_error hs i = Some ai -> nth_error hs j = Some aj ->
    (i < j)%nat -> ha_offset_ ai < ha_offset_ aj.

Fixpoint access_offsets_increasing (hs : list AsmJSHeapAccess) : bool :=
  match hs with
  | a1 :: ((a2 :: _) as hs') =>
      (ha_offset_ a1 <? ha_offset_ a2) && access_offsets_increasing hs'
  | _ => true
  end.

Lemma access_offsets_increasing_head : forall a hs j aj,
  access_offsets_increasing (a :: hs) = true -> nth_error hs j = Some aj ->
  ha_offset_ a < ha_offset_ aj.
Proof.
  intros a hs. revert a.
  induction hs as [|a2 hs IH]; intros a j aj Ho Hj.
  - destruct j; discriminate.
  - cbn [access_offsets_increasing] in Ho. apply andb_prop in Ho.
    destruct Ho as [Hlt Hrest]. apply Z.ltb_lt in Hlt.
    destruct j as [|j]; simpl in Hj.
    + inversion Hj; subst. lia.
    + specialize (IH a2 j aj Hrest Hj). lia.
Qed.

Lemma access_offsets_increasing_sorted : forall hs,
  access_offsets_increasing hs = true -> sorted_access_offsets hs.
Proof.
  induction hs as [|a hs IH]; intros Ho i j ai aj Hi Hj Hij.
  - destruct i; discriminate.
  - assert (Hrest : access_offsets_increasing hs = true).
    { destruct hs as [|a2 hs]; [reflexivity|].
      cbn [access_offsets_increasing] in Ho. apply andb_prop in Ho. tauto. }
    destruct i as [|i]; destruct j as [|j]; try lia; simpl in Hi, Hj.
    + inversion Hi; subst.
      apply (access_offsets_increasing_head ai hs j aj Ho Hj).
    + apply (IH Hrest i j ai aj Hi Hj). lia.
Qed.

(** The search of [lookupHeapAccess] over a sorted table. *)
Lemma heapAccess_search_sound : forall hs t,
  sorted_access_offsets hs ->
  match BinarySearch Z.eqb Z.ltb (map ha_offset_ hs) 0 (length hs) t with
  | (true, k) => exists a, nth_error hs k = Some a /\ ha_offset_ a = t
  | (false, _) => forall a, In a hs -> ha_offset_ a <> t
  end.
Proof.
  intros hs t Hs.
  set (offs := map ha_offset_ hs).
  assert (Hnth : forall i x, nth_error offs i = Some x ->
            exists a, nth_error hs i = Some a /\ ha_offset_ a = x).
  { intros i x Hi. unfold offs in Hi. rewrite nth_error_map in Hi.
    destruct (nth_error hs i) as [a|]; [|discriminate].
    exists a. inversion Hi. auto. }
  assert (Hmono : forall i x j y, nth_error offs i = Some x ->
            nth_error offs j = Some y -> (i <= j)%nat -> x <= y).
  { intros i x j y Hi Hj Hij.
    destruct (Hnth i x Hi) as (ai & Hai & <-).
    destruct (Hnth j y Hj) as (aj & Haj & <-).
    destruct (Nat.eq_dec i j) as [->|Hne].
    - assert (ai = aj) by congruence. subst. lia.
    - specialize (Hs i j ai aj Hai Haj ltac:(lia)). lia. }
  assert (Hleft : forall i x j y, nth_error offs i = Some x ->
            nth_error offs j = Some y -> (i <= j)%nat ->
            Z.ltb t x = true -> Z.eqb t y = false).
  { intros i x j y Hi Hj Hij Hlt. apply Z.ltb_lt in Hlt. apply Z.eqb_neq.
    specialize (Hmono i x j y Hi Hj Hij). lia. }
  assert (Hright : forall i x j y, nth_error offs i = Some x ->
            nth_error offs j = Some y -> (j <= i)%nat ->
            Z.eqb t x = false -> Z.ltb t x = false -> Z.eqb t y = false).
  { intros i x j y Hi Hj Hji Hne Hlt. apply Z.ltb_ge in Hlt.
    apply Z.eqb_neq in Hne. apply Z.eqb_neq.
    specialize (Hmono j y i x Hj Hi Hji). lia. }
  pose proof (BinarySearch_sound Z.eqb Z.ltb offs t Hleft Hright) as H.
  replace (length hs) with (length offs) by (unfold offs; apply length_map).
  destruct (BinarySearch Z.eqb Z.ltb offs 0 (length offs) t) as [[|] k].
  - destruct H as (x & Hx & Heq). apply Z.eqb_eq in Heq.
    destruct (Hnth k x Hx) as (a & Ha & Hax). exists a. split; congruence.
  - intros a Hin Ha. apply In_nth_error in Hin. destruct Hin as [i Hi].
    assert (Hoi : nth_error offs i = Some t).
    { unfold offs. rewrite nth_error_map, Hi. simpl. congruence. }
    specialize (H i t Hoi). rewrite Z.eqb_refl in H. discriminate.
Qed.

(** X1.  On a finished module whose heap accesses are in increasing order
    of offset, for a [pc] inside the function code (the two conditions the
    function asserts), [lookupHeapAccess] returns the access whose offset is
    exactly the 32-bit offset of [pc] from the base when the table has one,
    and [nullptr] when it has none. *)
Theorem lookupHeapAccess_by_offset :
  forall P containsFunctionPC m pc,
  isFinished m = true -> containsFunctionPC m pc = true ->
  sorted_access_offsets (heapAccesses_ m) ->
  let offset := uint32 (pc - code_ m) in
  (forall a, In a (heapAccesses_ m) -> ha_offset_ a = offset ->
     lookupHeapAccess P containsFunctionPC m pc = Done a) /\
  ((forall a, In a (heapAccesses_ m) -> ha_offset_ a <> offset) ->
   lookupHeapAccess P containsFunctionPC m pc = Failed).
Proof.
  intros P cf m pc Hfin Hcf Hs offset.
  pose proof (heapAccess_search_sound (heapAccesses_ m) offset Hs) as H.
  unfold lookupHeapAccess, JS_ASSERT. rewrite Hfin, Hcf, !orb_true_r.
  cbn [andb negb]. fold offset.
  destruct (BinarySearch Z.eqb Z.ltb (map ha_offset_ (heapAccesses_ m)) 0
              (length (heapAccesses_ m)) offset) as [[|] k].
  - destruct H as (a0 & Hk & Ha0). rewrite Hk. split.
    + intros a Hin Ha. f_equal.
      apply In_nth_error in Hin. destruct Hin as [i Hi].
      destruct (Nat.lt_trichotomy i k) as [Hlt|[->|Hgt]].
      * specialize (Hs i k a a0 Hi Hk Hlt). lia.
      * congruence.
      * specialize (Hs k i a0 a Hk Hi Hgt). lia.
    + intros Hnone. exfalso. apply (Hnone a0); [|exact Ha0].
      eapply nth_error_In; eauto.
  - split.
    + intros a Hin Ha. exfalso. apply (H a); assumption.
    + reflexivity.
Qed.

(** The theorem at the heap access of the example module. *)
Lemma lookupHeapAccess_by_offset_witness :
  lookupHeapAccess (LittleEndian.x86 true)
    (fun m pc => (code_ m <=? pc) && (pc <? code_ m + 96))
    (Examples.example_module 65536) (65536 + 44)
  = Done (mkHeapAccess 44 0 6).
Proof.
  apply (lookupHeapAccess_by_offset (LittleEndian.x86 true) _
           (Examples.example_module 65536) (65536 + 44) eq_refl eq_refl
           (access_offsets_increasing_sorted
              (heapAccesses_ (Examples.example_module 65536)) eq_refl)).
  - simpl. tauto.
  - reflexivity.
Defined.

(** ** The codec of names, vectors and records *)

(** X2.  [SerializeName] writes [SerializedNameSize] bytes, and
    [DeserializeName] reads back from them the name written, [nullptr]
    included, and stops at their end, for every name that is [nullptr] or
    not empty (what [SerializeName] asserts) with characters that fit their
    width, when atomization does not run out of memory. *)
Theorem SerializeName_roundtrip : forall P cx name cursor rest,
  ABI_lawful (abi P) -> cx_oom cx = false -> name_ok P name ->
  length (SerializeName P cursor name)
  = (length cursor + SerializedNameSize P name)%nat /\
  DeserializeName P cx (SerializeName P [] name ++ rest) = Some (name, rest).
Proof.
  intros P cx name cursor rest HABI Hoom Hok. split.
  - apply length_SerializeName. exact HABI.
  - apply DeserializeName_Serialize; assumption.
Qed.

Lemma example_name_ok :
  name_ok (LittleEndian.x86 false) (Some Examples.name_f).
Proof.
  cbv [name_ok Examples.name_f name_chars hasLatin1Chars]. split.
  - discriminate.
  - split; [simpl; lia|]. apply Forall_cons; [simpl; lia|apply Forall_nil].
Defined.

(** The theorem for the name [f] of the example. *)
Lemma SerializeName_roundtrip_witness :
  length (SerializeName (LittleEndian.x86 false) [7] (Some Examples.name_f))
  = (1 + SerializedNameSize (LittleEndian.x86 false)
           (Some Examples.name_f))%nat /\
  DeserializeName (LittleEndian.x86 false)
    (LittleEndian.example_cx 131072 [1] None)
    (SerializeName (LittleEndian.x86 false) [] (Some Examples.name_f) ++ [9])
  = Some (Some Examples.name_f, [9]).
Proof.
  apply (SerializeName_roundtrip (LittleEndian.x86 false)
           (LittleEndian.example_cx 131072 [1] None)
           (Some Examples.name_f) [7] [9]
           LittleEndianFacts.le_abi_lawful eq_refl example_name_ok).
Defined.

(** X3.  In a build without assertions a name that is not [nullptr] but
    has no character is written as the word of [nullptr], and read back as
    [nullptr]: the empty name does not survive the codec, which is what
    the assertion of [SerializeName] excludes. *)
Theorem SerializeName_empty_reads_nullptr : forall P cx latin1 rest,
  ABI_lawful (abi P) -> DEBUG P = false ->
  length (SerializeName P [] (Some (mkPropertyName latin1 [])))
  = sizeof (L_uint32 (abi P)) /\
  DeserializeName P cx
    (SerializeName P [] (Some (mkPropertyName latin1 [])) ++ rest)
  = Some (None, rest).
Proof.
  intros P cx latin1 rest HABI _. split.
  - rewrite (length_SerializeName P HABI). simpl. lia.
  - unfold SerializeName, DeserializeName, WriteBytes.
    cbn [name_chars hasLatin1Chars length array_to_bytes flat_map].
    rewrite app_nil_r.
    change (uint32 (Z.of_nat 0)) with 0. rewrite Z.shiftl_0_l, Z.lor_0_l.
    assert (Hb : 0 <= Z.b2z latin1 < 2 ^ 32) by (destruct latin1; simpl; lia).
    rewrite (uint32_small _ Hb).
    rewrite (ReadScalar_uint32_Write P HABI _ rest Hb).
    destruct latin1; reflexivity.
Qed.

Lemma SerializeName_empty_reads_nullptr_witness :
  length (SerializeName (LittleEndian.x86 false) []
            (Some (mkPropertyName true [])))
  = sizeof (L_uint32 (abi (LittleEndian.x86 false))) /\
  DeserializeName (LittleEndian.x86 false)
    (LittleEndian.example_cx 131072 [1] None)
    (SerializeName (LittleEndian.x86 false) []
       (Some (mkPropertyName true [])) ++ [9])
  = Some (None, [9]).
Proof.
  apply (SerializeName_empty_reads_nullptr (LittleEndian.x86 false)
           (LittleEndian.example_cx 131072 [1] None) true [9]
           LittleEndianFacts.le_abi_lawful eq_refl).
Defined.

(** X4.  For every element type whose [serialize] appends
    [serializedSize()] bytes to the cursor and whose [deserialize] reads an
    element back, [SerializeVector] writes [SerializedVectorSize] bytes and
    [DeserializeVector] reads back the vector written, of fewer than 2^32
    elements, and stops at the end of what was written. *)
Theorem SerializeVector_roundtrip :
  forall P cx (T : Type) (size : T -> nat)
         (ser : list byte -> T -> list byte)
         (deser : list byte -> option (T * list byte)) (ok : T -> Prop)
         (vec : list T) cursor rest,
  ABI_lawful (abi P) -> cx_oom cx = false ->
  (forall c x, length (ser c x) = (length c + size x)%nat) ->
  (forall c x, ser c x = c ++ ser [] x) ->
  (forall x rest, ok x -> deser (ser [] x ++ rest) = Some (x, rest)) ->
  Forall ok vec -> Z.of_nat (length vec) < 2 ^ 32 ->
  length (SerializeVector P ser cursor vec)
  = (length cursor + SerializedVectorSize P size vec)%nat /\
  DeserializeVector P cx deser (SerializeVector P ser [] vec ++ rest)
  = Some (vec, rest).
Proof.
  intros P cx T size ser deser ok vec cursor rest HABI Hoom Hlen Happ Hrt
    Hok Hn.
  split.
  - apply length_SerializeVector; assumption.
  - apply (DeserializeVector_Serialize P cx HABI Hoom ser deser ok);
      assumption.
Qed.

Lemma example_exit_fits :
  fits (L_Exit (abi (LittleEndian.x86 false))) (mkExit 8 100 110).
Proof. simpl. repeat (apply Forall_cons; [lia|]). apply Forall_nil. Defined.

(** The theorem for the vector of exits of the example. *)
Lemma SerializeVector_roundtrip_witness :
  length (SerializeVector (LittleEndian.x86 false)
            (Exit_serialize (LittleEndian.x86 false)) [7] [mkExit 8 100 110])
  = (1 + SerializedVectorSize (LittleEndian.x86 false)
           (Exit_serializedSize (LittleEndian.x86 false))
           [mkExit 8 100 110])%nat /\
  DeserializeVector (LittleEndian.x86 false)
    (LittleEndian.example_cx 131072 [1] None)
    (Exit_deserialize (LittleEndian.x86 false))
    (SerializeVector (LittleEndian.x86 false)
       (Exit_serialize (LittleEndian.x86 false)) [] [mkExit 8 100 110] ++ [9])
  = Some ([mkExit 8 100 110], [9]).
Proof.
  apply (SerializeVector_roundtrip (LittleEndian.x86 false)
           (LittleEndian.example_cx 131072 [1] None) Exit
           (Exit_serializedSize (LittleEndian.x86 false))
           (Exit_serialize (LittleEndian.x86 false))
           (Exit_deserialize (LittleEndian.x86 false))
           (fits (L_Exit (abi (LittleEndian.x86 false))))
           [mkExit 8 100 110] [7] [9]
           LittleEndianFacts.le_abi_lawful eq_refl
           (length_Exit_serialize (LittleEndian.x86 false)
              LittleEndianFacts.le_abi_lawful)
           (Exit_serialize_app (LittleEndian.x86 false))
           (Exit_deserialize_serialize (LittleEndian.x86 false)
              LittleEndianFacts.le_abi_lawful)
           (Forall_cons _ example_exit_fits (Forall_nil _))).
  simpl. lia.
Defined.

(** X5.  For every lawful layout, [SerializePodVector] writes
    [SerializedPodVectorSize] bytes, the length and then the elements as
    they lie in memory, and [DeserializePodVector] reads back the vector
    written, of fewer than 2^32 elements that fit their type, and stops at
    the end of what was written. *)
Theorem SerializePodVector_roundtrip :
  forall P cx (T : Type) (L : Layout T) (vec : list T) cursor rest,
  ABI_lawful (abi P) -> cx_oom cx = false -> lawful L ->
  Forall (fits L) vec -> Z.of_nat (length vec) < 2 ^ 32 ->
  length (SerializePodVector P L cursor vec)
  = (length cursor + SerializedPodVectorSize P L vec)%nat /\
  DeserializePodVector P cx L (SerializePodVector P L [] vec ++ rest)
  = Some (vec, rest).
Proof.
  intros P cx T L vec cursor rest HABI Hoom HL Hfit Hn. split.
  - apply length_SerializePodVector; assumption.
  - apply DeserializePodVector_Serialize; assumption.
Qed.

(** The theorem for the builtin thunk offsets of the example. *)
Lemma SerializePodVector_roundtrip_witness :
  length (SerializePodVector (LittleEndian.x86 false)
            (LittleEndian.le_layout 4) [7] [64; 64; 64])
  = (1 + SerializedPodVectorSize (LittleEndian.x86 false)
           (LittleEndian.le_layout 4) [64; 64; 64]%Z)%nat /\
  DeserializePodVector (LittleEndian.x86 false)
    (LittleEndian.example_cx 131072 [1] None) (LittleEndian.le_layout 4)
    (SerializePodVector (LittleEndian.x86 false) (LittleEndian.le_layout 4)
       [] [64; 64; 64] ++ [9])
  = Some ([64; 64; 64], [9]).
Proof.
  apply (SerializePodVector_roundtrip (LittleEndian.x86 false)
           (LittleEndian.example_cx 131072 [1] None) Z
           (LittleEndian.le_layout 4) [64; 64; 64] [7] [9]
           LittleEndianFacts.le_abi_lawful eq_refl
           (LittleEndianFacts.le_layout_lawful 4)).
  - repeat (apply Forall_cons; [simpl; lia|]). apply Forall_nil.
  - simpl. lia.
Defined.

(** X6.  [ExportedFunction::serialize] writes
    [ExportedFunction::serializedSize()] bytes, and
    [ExportedFunction::deserialize] reads back from them the exported
    function written (its name, its field name, its argument coercions and
    its [pod]) and stops at their end. *)
Theorem ExportedFunction_roundtrip : forall P cx f cursor rest,
  ABI_lawful (abi P) -> cx_oom cx = false -> ExportedFunction_ok P f ->
  length (ExportedFunction_serialize P cursor f)
  = (length cursor + ExportedFunction_serializedSize P f)%nat /\
  ExportedFunction_deserialize P cx
    (ExportedFunction_serialize P [] f ++ rest) = Some (f, rest).
Proof.
  intros P cx f cursor rest HABI Hoom Hok. split.
  - apply length_ExportedFunction_serialize. exact HABI.
  - apply ExportedFunction_deserialize_serialize; assumption.
Qed.

Definition example_export : ExportedFunction :=
  mkExportedFunction (Some Examples.name_f) None [0]
    (mkExportPod [24; 0; 0; 0; 0; 0; 0; 0]).

Lemma example_export_ok :
  ExportedFunction_ok (LittleEndian.x86 false) example_export.
Proof. unfold ExportedFunction_ok, example_export. wf_example. Defined.

(** The theorem for the exported function of the example. *)
Lemma ExportedFunction_roundtrip_witness :
  length (ExportedFunction_serialize (LittleEndian.x86 false) [7]
            example_export)
  = (1 + ExportedFunction_serializedSize (LittleEndian.x86 false)
           example_export)%nat /\
  ExportedFunction_deserialize (LittleEndian.x86 false)
    (LittleEndian.example_cx 131072 [1] None)
    (ExportedFunction_serialize (LittleEndian.x86 false) [] example_export
     ++ [9])
  = Some (example_export, [9]).
Proof.
  apply (ExportedFunction_roundtrip (LittleEndian.x86 false)
           (LittleEndian.example_cx 131072 [1] None) example_export [7] [9]
           LittleEndianFacts.le_abi_lawful eq_refl example_export_ok).
Defined.

(** X7.  [StaticLinkData::serialize] writes
    [StaticLinkData::serializedSize()] bytes, and
    [StaticLinkData::deserialize] reads back from them the offset of the
    interrupt exit, the relative links and the offsets of every kind of
    absolute link, provided there is one vector of offsets per kind of the
    build, which is what [AbsoluteLinkArray::deserialize] reads. *)
Theorem StaticLinkData_roundtrip : forall P cx d cursor rest,
  ABI_lawful (abi P) -> cx_oom cx = false -> StaticLinkData_ok P d ->
  length (StaticLinkData_serialize P cursor d)
  = (length cursor + StaticLinkData_serializedSize P d)%nat /\
  StaticLinkData_deserialize P cx (StaticLinkData_serialize P [] d ++ rest)
  = Some (d, rest).
Proof.
  intros P cx d cursor rest HABI Hoom Hok. split.
  - apply length_StaticLinkData_serialize. exact HABI.
  - apply StaticLinkData_deserialize_serialize; assumption.
Qed.

Lemma example_staticLinkData_ok :
  StaticLinkData_ok (LittleEndian.x86 false)
    (staticLinkData_ (Examples.example_module 65536)).
Proof.
  unfold StaticLinkData_ok, Examples.example_module,
    Examples.example_absoluteLinks.
  wf_example.
Defined.

(** The theorem for the static link data of the example. *)
Lemma StaticLinkData_roundtrip_witness :
  length (StaticLinkData_serialize (LittleEndian.x86 false) [7]
            (staticLinkData_ (Examples.example_module 65536)))
  = (1 + StaticLinkData_serializedSize (LittleEndian.x86 false)
           (staticLinkData_ (Examples.example_module 65536)))%nat /\
  StaticLinkData_deserialize (LittleEndian.x86 false)
    (LittleEndian.example_cx 131072 [1] None)
    (StaticLinkData_serialize (LittleEndian.x86 false) []
       (staticLinkData_ (Examples.example_module 65536)) ++ [9])
  = Some (staticLinkData_ (Examples.example_module 65536), [9]).
Proof.
  apply (StaticLinkData_roundtrip (LittleEndian.x86 false)
           (LittleEndian.example_cx 131072 [1] None)
           (staticLinkData_ (Examples.example_module 65536)) [7] [9]
           LittleEndianFacts.le_abi_lawful eq_refl
           example_staticLinkData_ok).
Defined.

(** ** The identity of the machine *)

(** A machine identity that [MachineId::serialize] can write: a 32-bit
    [cpuId_] and fewer than 2^32 characters of build identifier. *)
Definition MachineId_ok (P : Platform) (id : MachineId) : Prop :=
  0 <= cpuId_ id < 2 ^ 32 /\
  Forall (fits (L_char (abi P))) (buildId_ id) /\
  Z.of_nat (length (buildId_ id)) < 2 ^ 32.

(** X8.  [MachineId::serialize] writes [MachineId::serializedSize()] bytes
    and [MachineId::deserialize] reads back from them the identity written,
    CPU word and build identifier, and stops at their end. *)
Theorem MachineId_roundtrip : forall P cx id rest,
  ABI_lawful (abi P) -> cx_oom cx = false -> MachineId_ok P id ->
  length (MachineId_serialize P [] id) = MachineId_serializedSize P id /\
  MachineId_deserialize P cx (MachineId_serialize P [] id ++ rest)
  = Some (id, rest).
Proof.
  intros P cx [cpuId buildId] rest HABI Hoom (Hcpu & Hfit & Hlen).
  cbn [cpuId_ buildId_] in *.
  unfold MachineId_serialize, MachineId_serializedSize, MachineId_deserialize.
  cbn [cpuId_ buildId_]. split.
  - rewrite (length_SerializePodVector P HABI _ (law_char _ HABI)).
    rewrite (length_WriteScalar_uint32 P HABI). simpl. lia.
  - rewrite SerializePodVector_app, <- app_assoc.
    rewrite (ReadScalar_uint32_Write P HABI _ _ Hcpu).
    rewrite (DeserializePodVector_Serialize P cx HABI Hoom _
               (law_char _ HABI) buildId rest Hfit Hlen).
    reflexivity.
Qed.

(** The theorem for the identity of the example machine. *)
Lemma MachineId_roundtrip_witness :
  length (MachineId_serialize (LittleEndian.x86 false) [] (mkMachineId 57 [1]))
  = MachineId_serializedSize (LittleEndian.x86 false) (mkMachineId 57 [1]) /\
  MachineId_deserialize (LittleEndian.x86 false)
    (LittleEndian.example_cx 131072 [1] None)
    (MachineId_serialize (LittleEndian.x86 false) [] (mkMachineId 57 [1])
     ++ [9])
  = Some (mkMachineId 57 [1], [9]).
Proof.
  apply (MachineId_roundtrip (LittleEndian.x86 false)
           (LittleEndian.example_cx 131072 [1] None) (mkMachineId 57 [1]) [9]
           LittleEndianFacts.le_abi_lawful eq_refl).
  unfold MachineId_ok. simpl. split; [lia|]. split; [|lia].
  apply Forall_cons; [simpl; lia|apply Forall_nil].
Defined.

(** X9.  When the flags of the CPU fit the 29 bits that [GetCPUID] asserts
    they do, the word it returns holds the architecture of the build in its
    low three bits and the flags above them; so two builds that get the
    same word have the same architecture and the same CPU flags. *)
Theorem GetCPUID_injective : forall P1 P2 id,
  0 <= cpuFlags P1 <= Z.shiftr UINT32_MAX ARCH_BITS ->
  0 <= cpuFlags P2 <= Z.shiftr UINT32_MAX ARCH_BITS ->
  GetCPUID P1 = Some id -> GetCPUID P2 = Some id ->
  Z.land id 7 = arch_tag (arch P1) /\ Z.shiftr id ARCH_BITS = cpuFlags P1 /\
  arch P1 = arch P2 /\ cpuFlags P1 = cpuFlags P2.
Proof.
  intros P1 P2 id Hf1 Hf2 H1 H2.
  pose proof (GetCPUID_value P1 id Hf1 H1) as E1.
  pose proof (GetCPUID_value P2 id Hf2 H2) as E2.
  assert (Ht1 : 1 <= arch_tag (arch P1) <= 4).
  { unfold GetCPUID in H1. destruct (arch P1); simpl; try lia; discriminate. }
  assert (Ht2 : 1 <= arch_tag (arch P2) <= 4).
  { unfold GetCPUID in H2. destruct (arch P2); simpl; try lia; discriminate. }
  change (Z.shiftr UINT32_MAX ARCH_BITS) with 536870911 in *.
  assert (Hmod : id mod 8 = arch_tag (arch P1)).
  { symmetry. apply (Z.mod_unique_pos id 8 (cpuFlags P1)); lia. }
  assert (Hdiv : id / 8 = cpuFlags P1).
  { symmetry. apply (Z.div_unique_pos id 8 (cpuFlags P1)
                        (arch_tag (arch P1))); lia. }
  split; [|split; [|split]].
  - change 7 with (Z.ones 3). rewrite Z.land_ones by lia. exact Hmod.
  - unfold ARCH_BITS. rewrite Z.shiftr_div_pow2 by lia. exact Hdiv.
  - assert (Htag : arch_tag (arch P1) = arch_tag (arch P2)) by lia.
    destruct (arch P1), (arch P2); simpl in *; try reflexivity; lia.
  - lia.
Qed.

(** The theorem for the x86 build with and without assertions. *)
Lemma GetCPUID_injective_witness :
  Z.land 57 7 = arch_tag (arch (LittleEndian.x86 true)) /\
  Z.shiftr 57 ARCH_BITS = cpuFlags (LittleEndian.x86 true) /\
  arch (LittleEndian.x86 true) = arch (LittleEndian.x86 false) /\
  cpuFlags (LittleEndian.x86 true) = cpuFlags (LittleEndian.x86 false).
Proof.
  apply (GetCPUID_injective (LittleEndian.x86 true) (LittleEndian.x86 false)
           57).
  - change (0 <= 7 <= 536870911). lia.
  - change (0 <= 7 <= 536870911). lia.
  - reflexivity.
  - reflexivity.
Defined.

(** ** The characters of the module in the cache *)

(** What [LZ4::decompress] guarantees of [LZ4::compress]: the bytes
    compressed are read back in full, whatever follows them. *)
Definition LZ4_lawful (P : Platform) : Prop :=
  forall src rest,
    LZ4_decompress P (LZ4_compress P src ++ rest) (length src) = Some src.

(** A parser at a function whose characters [ModuleCharsForStore] can
    record: the function lies inside the source, its characters fit
    [jschar] and their size in bytes fits [uint32_t], and the formals of a
    [Function] constructor can be written as names. *)
Definition storable_source (P : Platform) (parser : AsmJSParser) : Prop :=
  0 <= beginOffset parser < endOffset parser /\
  endOffset parser <= Z.of_nat (length (rawChars parser)) /\
  (endOffset parser - beginOffset parser)
    * Z.of_nat (sizeof (L_jschar (abi P))) < 2 ^ 32 /\
  (0 < sizeof (L_jschar (abi P)))%nat /\
  Forall (fits (L_jschar (abi P)))
    (source_chars parser (beginOffset parser) (endOffset parser)) /\
  (isFunctionConstructorBody parser = true ->
     Forall (name_ok P) (map Some (FunctionArgsList parser)) /\
     Z.of_nat (length (FunctionArgsList parser)) < 2 ^ 32).

Lemma firstn_array_to_bytes : forall T (L : Layout T) k xs,
  lawful L ->
  firstn (k * sizeof L) (array_to_bytes L xs) = array_to_bytes L (firstn k xs).
Proof.
  intros T L k xs HL. revert xs.
  induction k as [|k IH]; intros xs; [reflexivity|].
  destruct xs as [|x xs].
  - simpl. apply firstn_nil.
  - unfold array_to_bytes in *. cbn [flat_map firstn].
    destruct HL as [Hlen Hrt].
    rewrite firstn_app, Hlen.
    rewrite (firstn_all2 (to_bytes L x)) by (rewrite Hlen; lia).
    replace (S k * sizeof L - sizeof L)%nat with (k * sizeof L)%nat by lia.
    rewrite IH. reflexivity.
Qed.

Lemma length_source_chars : forall parser from to,
  0 <= from <= to -> to <= Z.of_nat (length (rawChars parser)) ->
  length (source_chars parser from to) = Z.to_nat (to - from).
Proof.
  intros parser from to Hft Hto. unfold source_chars.
  rewrite length_firstn, length_skipn. lia.
Qed.

(** The record that [ModuleCharsForStore::init] makes for a parser. *)
Lemma ModuleCharsForStore_init_Done : forall P cx parser c,
  ModuleCharsForStore_init P cx parser = Done c ->
  let source :=
    firstn (Z.to_nat (uncompressedSize_ c))
      (array_to_bytes (L_jschar (abi P))
         (skipn (Z.to_nat (beginOffset parser)) (rawChars parser))) in
  uncompressedSize_ c
  = uint32 ((endOffset parser - beginOffset parser)
            * Z.of_nat (sizeof (L_jschar (abi P)))) /\
  compressedBuffer_ c = LZ4_compress P source /\
  compressedSize_ c = Z.of_nat (length (compressedBuffer_ c)) /\
  0 < compressedSize_ c <= UINT32_MAX /\
  store_isFunCtor_ c = Z.b2z (isFunctionConstructorBody parser) /\
  store_funCtorArgs_ c
  = (if isFunctionConstructorBody parser
     then map Some (FunctionArgsList parser) else []).
Proof.
  intros P cx parser c H. unfold ModuleCharsForStore_init in H.
  destruct (negb (JS_ASSERT P _)); [discriminate|].
  destruct (_ <? _); [discriminate|].
  destruct (negb (resize_ok cx _)); [discriminate|].
  destruct (_ || _) eqn:Hsize; [discriminate|].
  destruct (_ && _); [discriminate|].
  injection H as <-. cbn [uncompressedSize_ compressedBuffer_ compressedSize_
                          store_isFunCtor_ store_funCtorArgs_].
  apply orb_false_elim in Hsize. destruct Hsize as [H0 Hmax].
  apply Z.eqb_neq in H0. apply Z.ltb_ge in Hmax.
  repeat split; try reflexivity; lia.
Qed.

(** X10.  What [ModuleCharsForStore::init] records of the function being
    parsed and [serialize] writes, in [serializedSize()] bytes,
    [ModuleCharsForLookup::deserialize] reads back as the characters of the
    source from the begin to the end offset of the function, with the flag
    and, for the body of a [Function] constructor, the formals recorded;
    it stops at the end of what was written. *)
Theorem ModuleChars_roundtrip : forall P cx_store cx parser c rest,
  ABI_lawful (abi P) -> LZ4_lawful P -> cx_oom cx = false ->
  storable_source P parser ->
  ModuleCharsForStore_init P cx_store parser = Done c ->
  length (ModuleCharsForStore_serialize P [] c)
  = ModuleCharsForStore_serializedSize P c /\
  ModuleCharsForLookup_deserialize P cx
    (ModuleCharsForStore_serialize P [] c ++ rest)
  = Some (mkCharsForLookup
            (Z.b2z (isFunctionConstructorBody parser))
            (if isFunctionConstructorBody parser
             then map Some (FunctionArgsList parser) else [])
            (source_chars parser (beginOffset parser) (endOffset parser)),
          rest).
Proof.
  intros P cx_s cx parser c rest HABI HLZ Hoom
    (Hbe & Hend & Hfit32 & Hsz & Hfit & Hargs) Hinit.
  destruct (ModuleCharsForStore_init_Done P cx_s parser c Hinit)
    as (Hunc & Hbuf & Hcs & Hcsr & Hflag & Hfa).
  set (sz := sizeof (L_jschar (abi P))) in *.
  set (n := Z.to_nat (endOffset parser - beginOffset parser)).
  assert (Huncv : uncompressedSize_ c = Z.of_nat (n * sz)).
  { rewrite Hunc, uint32_small by lia. unfold n. lia. }
  assert (Hsrc : firstn (Z.to_nat (uncompressedSize_ c))
                   (array_to_bytes (L_jschar (abi P))
                      (skipn (Z.to_nat (beginOffset parser))
                         (rawChars parser)))
                 = array_to_bytes (L_jschar (abi P))
                     (source_chars parser (beginOffset parser)
                        (endOffset parser))).
  { rewrite Huncv, Nat2Z.id.
    apply firstn_array_to_bytes. apply (law_jschar _ HABI). }
  rewrite Hsrc in Hbuf.
  assert (Hlen : length (source_chars parser (beginOffset parser)
                           (endOffset parser)) = n).
  { apply length_source_chars; lia. }
  assert (Hfirst : firstn (Z.to_nat (compressedSize_ c)) (compressedBuffer_ c)
                   = compressedBuffer_ c).
  { apply firstn_all2. lia. }
  assert (Hu32 : 0 <= uncompressedSize_ c < 2 ^ 32).
  { rewrite Hunc. apply uint32_range. }
  assert (Hc32 : 0 <= compressedSize_ c < 2 ^ 32).
  { unfold UINT32_MAX in Hcsr. lia. }
  assert (Hf32 : 0 <= store_isFunCtor_ c < 2 ^ 32).
  { rewrite Hflag. destruct (isFunctionConstructorBody parser); simpl; lia. }
  split.
  - unfold ModuleCharsForStore_serialize, ModuleCharsForStore_serializedSize.
    destruct (store_isFunCtor_ c =? 0).
    + rewrite !(length_WriteScalar_uint32 P HABI). unfold WriteBytes.
      rewrite length_app, !(length_WriteScalar_uint32 P HABI), Hfirst.
      simpl. lia.
    + rewrite (length_SerializeVector P HABI (SerializedNameSize P)
                 (SerializeName P) (length_SerializeName P HABI)).
      rewrite !(length_WriteScalar_uint32 P HABI). unfold WriteBytes.
      rewrite length_app, !(length_WriteScalar_uint32 P HABI), Hfirst.
      simpl. lia.
  - assert (Hser : ModuleCharsForStore_serialize P [] c
                   = WriteScalar_uint32 P [] (uncompressedSize_ c)
                     ++ WriteScalar_uint32 P [] (compressedSize_ c)
                     ++ compressedBuffer_ c
                     ++ WriteScalar_uint32 P [] (store_isFunCtor_ c)
                     ++ (if store_isFunCtor_ c =? 0 then []
                         else SerializeVector P (SerializeName P) []
                                (store_funCtorArgs_ c))).
    { unfold ModuleCharsForStore_serialize. rewrite Hfirst.
      destruct (store_isFunCtor_ c =? 0).
      - unfold WriteScalar_uint32, WriteBytes. simpl.
        rewrite app_nil_r, <- !app_assoc. reflexivity.
      - rewrite (SerializeVector_app P (SerializeName P))
          by (apply SerializeName_app).
        unfold WriteScalar_uint32, WriteBytes. simpl.
        rewrite <- !app_assoc. reflexivity. }
    rewrite Hser. unfold ModuleCharsForLookup_deserialize.
    rewrite <- !app_assoc.
    rewrite (ReadScalar_uint32_Write P HABI _ _ Hu32).
    rewrite (ReadScalar_uint32_Write P HABI _ _ Hc32).
    rewrite (resize_ok_true cx Hoom). cbn [negb].
    assert (Hdec : Z.to_nat (uncompressedSize_ c)
                   = length (array_to_bytes (L_jschar (abi P))
                               (source_chars parser (beginOffset parser)
                                  (endOffset parser)))).
    { rewrite length_array_to_bytes by apply (law_jschar _ HABI).
      rewrite Hlen, Huncv, Nat2Z.id. reflexivity. }
    rewrite Hdec. rewrite Hbuf at 1. rewrite HLZ.
    subst sz.
    replace (Z.to_nat (uncompressedSize_ c
                       / Z.of_nat (sizeof (L_jschar (abi P))))) with n.
    2:{ rewrite Huncv, Nat2Z.inj_mul, Z.div_mul by lia. lia. }
    pose proof (array_of_to_bytes _ (L_jschar (abi P)) _ []
                  (law_jschar _ HABI) Hfit) as Hrt.
    rewrite app_nil_r, Hlen in Hrt. rewrite Hrt.
    rewrite ReadBytes_app_n by lia.
    rewrite (ReadScalar_uint32_Write P HABI _ _ Hf32).
    rewrite Hflag, Hfa.
    destruct (isFunctionConstructorBody parser) eqn:Hctor; cbn [Z.b2z Z.eqb].
    + destruct (Hargs eq_refl) as [Hnames Hn].
      rewrite (DeserializeVector_Serialize P cx HABI Hoom
                 (SerializeName P) (DeserializeName P cx) (name_ok P)
                 (SerializeName_app P)
                 (DeserializeName_Serialize P cx HABI Hoom)
                 (map Some (FunctionArgsList parser)) rest Hnames)
        by (rewrite length_map; exact Hn).
      reflexivity.
    + reflexivity.
Qed.

Lemma x86_LZ4_lawful : forall debug, LZ4_lawful (LittleEndian.x86 debug).
Proof.
  intros debug src rest. simpl.
  destruct (Nat.ltb_spec (length (src ++ rest)) (length src)) as [H|H].
  - rewrite length_app in H. lia.
  - rewrite firstn_app, Nat.sub_diag, firstn_O, app_nil_r, firstn_all.
    reflexivity.
Qed.

Lemma example_storable_source : forall debug,
  storable_source (LittleEndian.x86 debug)
    (Examples.example_parser Examples.example_source false).
Proof.
  intros debug. unfold storable_source. simpl.
  repeat split; try lia; try discriminate.
  repeat (apply Forall_cons; [simpl; lia|]). apply Forall_nil.
Defined.

(** The record of the example function, as [init] makes it. *)
Definition example_moduleChars : ModuleCharsForStore :=
  Eval vm_compute in
    match ModuleCharsForStore_init (LittleEndian.x86 false)
            (LittleEndian.example_cx 131072 [1] None)
            (Examples.example_parser Examples.example_source false) with
    | Done c => c
    | _ => mkCharsForStore 0 [] 0 0 []
    end.

(** The theorem for the function statement of the example. *)
Lemma ModuleChars_roundtrip_witness :
  length (ModuleCharsForStore_serialize (LittleEndian.x86 false) []
            example_moduleChars)
  = ModuleCharsForStore_serializedSize (LittleEndian.x86 false)
      example_moduleChars /\
  ModuleCharsForLookup_deserialize (LittleEndian.x86 false)
    (LittleEndian.example_cx 131072 [1] None)
    (ModuleCharsForStore_serialize (LittleEndian.x86 false) []
       example_moduleChars ++ [9])
  = Some (mkCharsForLookup 0 [] Examples.example_source, [9]).
Proof.
  apply (ModuleChars_roundtrip (LittleEndian.x86 false)
           (LittleEndian.example_cx 131072 [1] None)
           (LittleEndian.example_cx 131072 [1] None)
           (Examples.example_parser Examples.example_source false)
           example_moduleChars [9]
           LittleEndianFacts.le_abi_lawful (x86_LZ4_lawful false) eq_refl
           (example_storable_source false)).
  vm_compute. reflexivity.
Defined.

Lemma args_match_refl : forall args, args_match (map Some args) args = true.
Proof.
  induction args as [|a args IH]; [reflexivity|].
  cbn [map args_match]. rewrite IH, eqb_reflx, andb_true_r, andb_true_r.
  apply PodEqual_eq. reflexivity.
Qed.

(** X11.  [ModuleCharsForLookup::match] has no false miss: when the source
    from the function on begins with the characters recorded, the flag
    recorded is the parser's and, for the body of a [Function] constructor,
    the source ends with them and the formals are those recorded, [match]
    returns true.  The source is shorter than 2^32 characters. *)
Theorem ModuleCharsForLookup_match_complete : forall P c parser,
  0 <= beginOffset parser <= Z.of_nat (length (rawChars parser)) ->
  Z.of_nat (length (rawChars parser)) < 2 ^ 32 ->
  source_matches c parser ->
  ModuleCharsForLookup_match P c parser = Some true.
Proof.
  intros P c parser Hb H32 (Hchars & Hflag & Hctor).
  unfold ModuleCharsForLookup_match, JS_ASSERT.
  replace (beginOffset parser <=? _) with true
    by (symmetry; apply Z.leb_le; lia).
  rewrite orb_true_r. cbn [negb].
  assert (Hlen : Z.of_nat (length (chars_ c))
                 <= Z.of_nat (length (rawChars parser)) - beginOffset parser).
  { rewrite Hchars at 1. rewrite length_firstn, length_skipn. lia. }
  rewrite uint32_small by lia.
  destruct (Z.ltb_spec (Z.of_nat (length (rawChars parser))
                        - beginOffset parser)
                       (Z.of_nat (length (chars_ c)))) as [Hlt|_]; [lia|].
  replace (PodEqual (chars_ c) _) with true
    by (symmetry; apply PodEqual_eq; exact Hchars).
  cbn [negb]. rewrite Hflag, Z.eqb_refl. cbn [negb].
  destruct (isFunctionConstructorBody parser); cbn [Z.b2z Z.eqb negb].
  - destruct (Hctor eq_refl) as [Hend Hargs].
    rewrite Hend, Z.eqb_refl, Hargs, length_map, Nat.eqb_refl. cbn [negb].
    rewrite args_match_refl. reflexivity.
  - reflexivity.
Qed.

(** The theorem for the function statement of the example. *)
Lemma ModuleCharsForLookup_match_complete_witness :
  ModuleCharsForLookup_match (LittleEndian.x86 true)
    (mkCharsForLookup 0 [] Examples.example_source)
    (Examples.example_parser Examples.example_source false) = Some true.
Proof.
  apply ModuleCharsForLookup_match_complete.
  - simpl. lia.
  - simpl. lia.
  - unfold source_matches. simpl. repeat split; discriminate.
Defined.

(** ** Storing a module in the cache and finding it again *)

Lemma serialize_app : forall P mem m cursor,
  ABI_lawful (abi P) ->
  serialize P mem m cursor = cursor ++ serialize P mem m [].
Proof.
  intros P mem m cursor HABI. rewrite (serialize_payload P mem m HABI).
  unfold serialize, WriteBytes.
  set (c2 := _ ++ load_bytes _ _ _).
  set (c3 := SerializeName P c2 _).
  set (c4 := SerializeName P c3 _).
  set (c5 := SerializeName P c4 _).
  set (c6 := SerializeVector P (Global_serialize P) c5 _).
  set (c7 := SerializeVector P (Exit_serialize P) c6 _).
  set (c8 := SerializeVector P (ExportedFunction_serialize P) c7 _).
  set (c9 := SerializePodVector P (L_CallSite (abi P)) c8 _).
  set (c10 := SerializePodVector P (L_CodeRange (abi P)) c9 _).
  set (c11 := SerializePodVector P (L_FuncPtrTable (abi P)) c10 _).
  set (c12 := SerializePodVector P (L_uint32 (abi P)) c11 _).
  set (c13 := SerializeVector P (Name_serialize P) c12 _).
  set (c14 := SerializePodVector P (L_HeapAccess (abi P)) c13 _).
  rewrite (StaticLinkData_serialize_app P c14). subst c14.
  rewrite (SerializePodVector_app P _ c13). subst c13.
  rewrite (SerializeVector_app P _ (SerializeName_app P) c12). subst c12.
  rewrite (SerializePodVector_app P _ c11). subst c11.
  rewrite (SerializePodVector_app P _ c10). subst c10.
  rewrite (SerializePodVector_app P _ c9). subst c9.
  rewrite (SerializePodVector_app P _ c8). subst c8.
  rewrite (SerializeVector_app P _ (ExportedFunction_serialize_app P) c7).
  subst c7.
  rewrite (SerializeVector_app P _ (Exit_serialize_app P) c6). subst c6.
  rewrite (SerializeVector_app P _ (Global_serialize_app P) c5). subst c5.
  rewrite (SerializeName_app P c4). subst c4.
  rewrite (SerializeName_app P c3). subst c3.
  rewrite (SerializeName_app P c2). subst c2.
  rewrite <- !app_assoc. reflexivity.
Qed.

Lemma length_MachineId_serialize : forall P cursor id,
  ABI_lawful (abi P) ->
  length (MachineId_serialize P cursor id)
  = (length cursor + MachineId_serializedSize P id)%nat.
Proof.
  intros P cursor id HABI.
  unfold MachineId_serialize, MachineId_serializedSize.
  rewrite (length_SerializePodVector P HABI _ (law_char _ HABI)).
  rewrite (length_WriteScalar_uint32 P HABI). lia.
Qed.

Lemma ModuleCharsForStore_serialize_app : forall P cursor c,
  ModuleCharsForStore_serialize P cursor c
  = cursor ++ ModuleCharsForStore_serialize P [] c.
Proof.
  intros P cursor c. unfold ModuleCharsForStore_serialize.
  destruct (store_isFunCtor_ c =? 0).
  - unfold WriteScalar_uint32, WriteBytes. simpl.
    rewrite <- !app_assoc. reflexivity.
  - rewrite (SerializeVector_app P (SerializeName P) (SerializeName_app P)).
    rewrite (SerializeVector_app P (SerializeName P) (SerializeName_app P)
               (WriteScalar_uint32 P (WriteBytes _ _) _)).
    unfold WriteScalar_uint32, WriteBytes. simpl.
    rewrite <- !app_assoc. reflexivity.
Qed.

Lemma length_ModuleCharsForStore_serialize : forall P cursor c,
  ABI_lawful (abi P) ->
  compressedSize_ c = Z.of_nat (length (compressedBuffer_ c)) ->
  length (ModuleCharsForStore_serialize P cursor c)
  = (length cursor + ModuleCharsForStore_serializedSize P c)%nat.
Proof.
  intros P cursor c HABI Hcs.
  assert (Hfirst : firstn (Z.to_nat (compressedSize_ c)) (compressedBuffer_ c)
                   = compressedBuffer_ c) by (apply firstn_all2; lia).
  unfold ModuleCharsForStore_serialize, ModuleCharsForStore_serializedSize.
  destruct (store_isFunCtor_ c =? 0).
  - rewrite !(length_WriteScalar_uint32 P HABI). unfold WriteBytes.
    rewrite length_app, !(length_WriteScalar_uint32 P HABI), Hfirst. lia.
  - rewrite (length_SerializeVector P HABI (SerializedNameSize P)
               (SerializeName P) (length_SerializeName P HABI)).
    rewrite !(length_WriteScalar_uint32 P HABI). unfold WriteBytes.
    rewrite length_app, !(length_WriteScalar_uint32 P HABI), Hfirst. lia.
Qed.

(** What [StoreAsmJSModuleInCache] went through when it returns true. *)
Lemma StoreAsmJSModuleInCache_Done : forall P parser module mem cx entry,
  ABI_lawful (abi P) ->
  StoreAsmJSModuleInCache P parser module mem cx = Done entry ->
  exists id c open,
    numFunctionCounts module = O /\
    extractCurrentState P cx = Some id /\
    ModuleCharsForStore_init P cx parser = Done c /\
    cacheOps_openEntryForWrite cx = Some open /\
    open (length entry) = true /\
    entry = MachineId_serialize P [] id
            ++ ModuleCharsForStore_serialize P [] c
            ++ serialize P mem module [] /\
    length entry = (MachineId_serializedSize P id
                    + ModuleCharsForStore_serializedSize P c
                    + serializedSize P module)%nat.
Proof.
  intros P parser module mem cx entry HABI H.
  unfold StoreAsmJSModuleInCache in H.
  destruct (Nat.eqb_spec (numFunctionCounts module) 0) as [Hn|];
    [|discriminate]. cbn [negb] in H.
  destruct (extractCurrentState P cx) as [id|]; [|discriminate].
  destruct (ModuleCharsForStore_init P cx parser) as [| |c] eqn:Hinit;
    try discriminate.
  destruct (cacheOps_openEntryForWrite cx) as [open|]; [|discriminate].
  destruct (open _) eqn:Hopen; [|discriminate]. cbn [negb] in H.
  destruct (JS_ASSERT P _); [|discriminate]. injection H as <-.
  destruct (ModuleCharsForStore_init_Done P cx parser c Hinit)
    as (_ & _ & Hcs & _).
  assert (Hlen : length (serialize P mem module
                           (ModuleCharsForStore_serialize P
                              (MachineId_serialize P [] id) c))
                 = (MachineId_serializedSize P id
                    + ModuleCharsForStore_serializedSize P c
                    + serializedSize P module)%nat).
  { rewrite (serialize_length P mem module _ HABI).
    rewrite (length_ModuleCharsForStore_serialize P _ c HABI Hcs).
    rewrite (length_MachineId_serialize P [] id HABI). simpl. lia. }
  exists id, c, open. rewrite Hlen.
  repeat split; try assumption; try reflexivity.
  rewrite (serialize_app P mem module _ HABI).
  rewrite ModuleCharsForStore_serialize_app, <- app_assoc. reflexivity.
Qed.

(** X12.  Whenever [StoreAsmJSModuleInCache] returns true it has filled
    the entry it opened to its end and not beyond: the entry holds the
    machine identity, the record of the source and the module, one after
    the other, in exactly the [serializedSize] bytes that were asked of
    [openEntryForWrite]. *)
Theorem StoreAsmJSModuleInCache_fills_entry :
  forall P parser module mem cx entry,
  ABI_lawful (abi P) ->
  StoreAsmJSModuleInCache P parser module mem cx = Done entry ->
  exists id c,
    extractCurrentState P cx = Some id /\
    ModuleCharsForStore_init P cx parser = Done c /\
    entry = MachineId_serialize P [] id
            ++ ModuleCharsForStore_serialize P [] c
            ++ serialize P mem module [] /\
    length entry = (MachineId_serializedSize P id
                    + ModuleCharsForStore_serializedSize P c
                    + serializedSize P module)%nat.
Proof.
  intros P parser module mem cx entry HABI H.
  destruct (StoreAsmJSModuleInCache_Done P parser module mem cx entry HABI H)
    as (id & c & open & _ & Hid & Hinit & _ & _ & Hentry & Hlen).
  exists id, c. auto.
Qed.

(** The theorem for the entry stored for the example. *)
Lemma StoreAsmJSModuleInCache_fills_entry_witness :
  length Examples.example_entry
  = (MachineId_serializedSize (LittleEndian.x86 true) (mkMachineId 57 [1]%Z)
     + ModuleCharsForStore_serializedSize (LittleEndian.x86 true)
         example_moduleChars
     + serializedSize (LittleEndian.x86 true)
         (Examples.example_module 65536))%nat.
Proof.
  destruct (StoreAsmJSModuleInCache_fills_entry (LittleEndian.x86 true)
              (Examples.example_parser Examples.example_source false)
              (Examples.example_module 65536) (Examples.example_memory 65536)
              (LittleEndian.example_cx 131072 [1] None)
              Examples.example_entry
              LittleEndianFacts.le_abi_lawful ltac:(vm_compute; reflexivity))
    as (id & c & Hid & Hc & _ & Hlen).
  vm_compute in Hid. injection Hid as <-.
  vm_compute in Hc. injection Hc as <-. exact Hlen.
Defined.

(** The build identifier of the embedding can be written to an entry. *)
Definition buildId_ok (P : Platform) (cx : ExclusiveContext) : Prop :=
  match cacheOps_buildId cx with
  | Some (Some buildId) =>
      Forall (fits (L_char (abi P))) buildId /\
      Z.of_nat (length buildId) < 2 ^ 32
  | _ => True
  end.

Lemma extractCurrentState_ok : forall P cx id,
  buildId_ok P cx -> extractCurrentState P cx = Some id -> MachineId_ok P id.
Proof.
  intros P cx id Hok H. unfold extractCurrentState, buildId_ok in *.
  destruct (cacheOps_buildId cx) as [[buildId|]|]; try discriminate.
  destruct (GetCPUID P) as [cpuId|] eqn:Hcpu; [|discriminate].
  injection H as <-. unfold MachineId_ok. cbn [cpuId_ buildId_].
  split; [|exact Hok].
  unfold GetCPUID in Hcpu.
  destruct (arch P); try discriminate; injection Hcpu as <-;
    apply uint32_range.
Qed.

Lemma extractCurrentState_same : forall P cx1 cx2,
  cacheOps_buildId cx1 = cacheOps_buildId cx2 ->
  extractCurrentState P cx1 = extractCurrentState P cx2.
Proof. intros P cx1 cx2 H. unfold extractCurrentState. rewrite H. reflexivity. Qed.

(** The part of an entry written by [StoreAsmJSModuleInCache] that comes
    before the module, as [LookupAsmJSModuleInCache] reads it. *)
Lemma stored_entry_prefix :
  forall P cx_store cx parser module mem_store entry,
  ABI_lawful (abi P) -> LZ4_lawful P -> cx_oom cx = false ->
  cacheOps_buildId cx = cacheOps_buildId cx_store -> buildId_ok P cx ->
  storable_source P parser ->
  Z.of_nat (length (rawChars parser)) < 2 ^ 32 ->
  (isFunctionConstructorBody parser = true ->
   endOffset parser = Z.of_nat (length (rawChars parser))) ->
  StoreAsmJSModuleInCache P parser module mem_store cx_store = Done entry ->
  exists id cursor chars,
    extractCurrentState P cx = Some id /\
    MachineId_deserialize P cx entry = Some (id, cursor) /\
    ModuleCharsForLookup_deserialize P cx cursor
    = Some (chars, serialize P mem_store module []) /\
    ModuleCharsForLookup_match P chars parser = Some true.
Proof.
  intros P cx_s cx parser module mem_s entry HABI HLZ Hoom Hbid Hbok Hsrc
    Hraw Hctor Hstore.
  destruct (StoreAsmJSModuleInCache_Done P parser module mem_s cx_s entry
              HABI Hstore)
    as (id & c & open & _ & Hid & Hinit & _ & _ & Hentry & _).
  rewrite <- (extractCurrentState_same P cx cx_s Hbid) in Hid.
  pose proof (extractCurrentState_ok P cx id Hbok Hid) as Hidok.
  assert (Hmid : MachineId_deserialize P cx entry
                 = Some (id, ModuleCharsForStore_serialize P [] c
                             ++ serialize P mem_s module [])).
  { rewrite Hentry.
    destruct Hidok as (Hcpu & Hfit & Hlen). destruct id as [cpuId buildId].
    cbn [cpuId_ buildId_] in *.
    unfold MachineId_serialize, MachineId_deserialize. cbn [cpuId_ buildId_].
    rewrite SerializePodVector_app, <- app_assoc.
    rewrite (ReadScalar_uint32_Write P HABI _ _ Hcpu).
    rewrite (DeserializePodVector_Serialize P cx HABI Hoom _
               (law_char _ HABI) buildId _ Hfit Hlen).
    reflexivity. }
  set (chars := mkCharsForLookup
                  (Z.b2z (isFunctionConstructorBody parser))
                  (if isFunctionConstructorBody parser
                   then map Some (FunctionArgsList parser) else [])
                  (source_chars parser (beginOffset parser)
                     (endOffset parser))).
  assert (Hchars : ModuleCharsForLookup_deserialize P cx
                     (ModuleCharsForStore_serialize P [] c
                      ++ serialize P mem_s module [])
                   = Some (chars, serialize P mem_s module [])).
  { pose proof Hsrc as (Hbe & Hend & Hfit32 & Hsz & Hfit & Hargs).
    destruct (ModuleCharsForStore_init_Done P cx_s parser c Hinit)
      as (Hunc & Hbuf & Hcs & Hcsr & Hflag & Hfa).
    set (n := Z.to_nat (endOffset parser - beginOffset parser)).
    assert (Huncv : uncompressedSize_ c
                    = Z.of_nat (n * sizeof (L_jschar (abi P)))).
    { rewrite Hunc, uint32_small by lia. unfold n. lia. }
    assert (Hsrcb : firstn (Z.to_nat (uncompressedSize_ c))
                      (array_to_bytes (L_jschar (abi P))
                         (skipn (Z.to_nat (beginOffset parser))
                            (rawChars parser)))
                    = array_to_bytes (L_jschar (abi P))
                        (source_chars parser (beginOffset parser)
                           (endOffset parser))).
    { rewrite Huncv, Nat2Z.id.
      apply firstn_array_to_bytes. apply (law_jschar _ HABI). }
    rewrite Hsrcb in Hbuf.
    assert (Hlen : length (source_chars parser (beginOffset parser)
                             (endOffset parser)) = n)
      by (apply length_source_chars; lia).
    assert (Hfirst : firstn (Z.to_nat (compressedSize_ c))
                       (compressedBuffer_ c) = compressedBuffer_ c)
      by (apply firstn_all2; lia).
    assert (Hu32 : 0 <= uncompressedSize_ c < 2 ^ 32)
      by (rewrite Hunc; apply uint32_range).
    assert (Hc32 : 0 <= compressedSize_ c < 2 ^ 32)
      by (unfold UINT32_MAX in Hcsr; lia).
    assert (Hf32 : 0 <= store_isFunCtor_ c < 2 ^ 32).
    { rewrite Hflag. destruct (isFunctionConstructorBody parser); simpl; lia. }
    assert (Hser : ModuleCharsForStore_serialize P [] c
                   = WriteScalar_uint32 P [] (uncompressedSize_ c)
                     ++ WriteScalar_uint32 P [] (compressedSize_ c)
                     ++ compressedBuffer_ c
                     ++ WriteScalar_uint32 P [] (store_isFunCtor_ c)
                     ++ (if store_isFunCtor_ c =? 0 then []
                         else SerializeVector P (SerializeName P) []
                                (store_funCtorArgs_ c))).
    { unfold ModuleCharsForStore_serialize. rewrite Hfirst.
      destruct (store_isFunCtor_ c =? 0).
      - unfold WriteScalar_uint32, WriteBytes. simpl.
        rewrite app_nil_r, <- !app_assoc. reflexivity.
      - rewrite (SerializeVector_app P (SerializeName P))
          by (apply SerializeName_app).
        unfold WriteScalar_uint32, WriteBytes. simpl.
        rewrite <- !app_assoc. reflexivity. }
    rewrite Hser. unfold ModuleCharsForLookup_deserialize.
    rewrite <- !app_assoc.
    rewrite (ReadScalar_uint32_Write P HABI _ _ Hu32).
    rewrite (ReadScalar_uint32_Write P HABI _ _ Hc32).
    rewrite (resize_ok_true cx Hoom). cbn [negb].
    assert (Hdec : Z.to_nat (uncompressedSize_ c)
                   = length (array_to_bytes (L_jschar (abi P))
                               (source_chars parser (beginOffset parser)
                                  (endOffset parser)))).
    { rewrite length_array_to_bytes by apply (law_jschar _ HABI).
      rewrite Hlen, Huncv, Nat2Z.id. reflexivity. }
    rewrite Hdec. rewrite Hbuf at 1. rewrite HLZ.
    replace (Z.to_nat (uncompressedSize_ c
                       / Z.of_nat (sizeof (L_jschar (abi P))))) with n.
    2:{ rewrite Huncv, Nat2Z.inj_mul, Z.div_mul by lia. lia. }
    pose proof (array_of_to_bytes _ (L_jschar (abi P)) _ []
                  (law_jschar _ HABI) Hfit) as Hrt.
    rewrite app_nil_r, Hlen in Hrt. rewrite Hrt.
    rewrite ReadBytes_app_n by lia.
    rewrite (ReadScalar_uint32_Write P HABI _ _ Hf32).
    rewrite Hflag, Hfa. unfold chars.
    destruct (isFunctionConstructorBody parser) eqn:Hc; cbn [Z.b2z Z.eqb].
    + destruct (Hargs eq_refl) as [Hnames Hn].
      rewrite (DeserializeVector_Serialize P cx HABI Hoom
                 (SerializeName P) (DeserializeName P cx) (name_ok P)
                 (SerializeName_app P)
                 (DeserializeName_Serialize P cx HABI Hoom)
                 (map Some (FunctionArgsList parser)) _ Hnames)
        by (rewrite length_map; exact Hn).
      reflexivity.
    + rewrite app_nil_l. reflexivity. }
  assert (Hmatch : ModuleCharsForLookup_match P chars parser = Some true).
  { destruct Hsrc as (Hbe & Hend & _).
    assert (Hlen : length (source_chars parser (beginOffset parser)
                             (endOffset parser))
                   = Z.to_nat (endOffset parser - beginOffset parser))
      by (apply length_source_chars; lia).
    unfold ModuleCharsForLookup_match, JS_ASSERT.
    replace (beginOffset parser <=? _) with true
      by (symmetry; apply Z.leb_le; lia).
    rewrite orb_true_r. cbn [negb]. unfold chars.
    cbn [chars_ lookup_isFunCtor_ lookup_funCtorArgs_].
    rewrite Hlen, uint32_small by lia.
    destruct (Z.ltb_spec (Z.of_nat (length (rawChars parser))
                          - beginOffset parser)
                (Z.of_nat (Z.to_nat (endOffset parser - beginOffset parser))))
      as [Hlt|_]; [lia|].
    replace (PodEqual _ _) with true
      by (symmetry; apply PodEqual_eq; reflexivity).
    cbn [negb]. rewrite Z.eqb_refl. cbn [negb].
    destruct (isFunctionConstructorBody parser); cbn [Z.b2z Z.eqb negb].
    - replace (beginOffset parser
               + Z.of_nat (Z.to_nat (endOffset parser - beginOffset parser)))
        with (endOffset parser) by lia.
      rewrite (Hctor eq_refl), Z.eqb_refl, length_map, Nat.eqb_refl.
      cbn [negb]. rewrite args_match_refl. reflexivity.
    - reflexivity. }
  exists id, (ModuleCharsForStore_serialize P [] c
              ++ serialize P mem_s module []), chars.
  auto.
Qed.

(** X13.  A stored module is found again.  When [StoreAsmJSModuleInCache]
    has written an entry for a module at a function, and the cache opens
    that entry for a parser at the same function on a machine with the same
    build identifier, then [LookupAsmJSModuleInCache] reads the whole entry,
    maps the code at a new address and links it statically: what it gives
    to [staticallyLink] is a module with the [pod], the tables and the
    static link data of the module stored, over a copy of its code.  In a
    build without assertions the lookup is a hit.  The flags of the CPU
    fit their 29 bits and the size of the image is a multiple of the page
    size, as [GetCPUID] and [AllocateExecutableMemory] assert. *)
Theorem LookupAsmJSModuleInCache_finds_stored :
  forall P cx_store cx parser module mem_store mem entry base,
  ABI_lawful (abi P) -> LZ4_lawful P ->
  cx_oom cx = false -> cx_mmap cx = Some base -> base <> 0 ->
  cacheOps_buildId cx = cacheOps_buildId cx_store -> buildId_ok P cx ->
  cacheOps_openEntryForRead cx = Some (Some entry) ->
  storable_source P parser ->
  Z.of_nat (length (rawChars parser)) < 2 ^ 32 ->
  (isFunctionConstructorBody parser = true ->
   endOffset parser = Z.of_nat (length (rawChars parser))) ->
  serializable P module ->
  0 <= cpuFlags P <= Z.shiftr UINT32_MAX ARCH_BITS ->
  totalBytes_ (pod module) mod AsmJSPageSize P = 0 ->
  StoreAsmJSModuleInCache P parser module mem_store cx_store = Done entry ->
  exists m' mem',
    code_ m' = base /\
    (forall i, 0 <= i < codeBytes_ (pod module) ->
               mem' (base + i) = mem_store (code_ module + i)) /\
    pod m' = pod module /\
    globals_ m' = globals_ module /\
    exits_ m' = exits_ module /\
    exports_ m' = exports_ module /\
    callSites_ m' = callSites_ module /\
    codeRanges_ m' = codeRanges_ module /\
    funcPtrTables_ m' = funcPtrTables_ module /\
    builtinThunkOffsets_ m' = builtinThunkOffsets_ module /\
    names_ m' = names_ module /\
    heapAccesses_ m' = heapAccesses_ module /\
    staticLinkData_ m' = staticLinkData_ module /\
    loadedFromCache_ m' = true /\
    LookupAsmJSModuleInCache P cx parser mem
    = match staticallyLink P cx m' mem' with
      | None => Crashed
      | Some (linked, mem'') =>
          Done (Hit linked mem'' (srcEndBeforeCurly linked))
      end /\
    (DEBUG P = false ->
     is_Hit (LookupAsmJSModuleInCache P cx parser mem) = true).
Proof.
  intros P cx_s cx parser module mem_s mem entry base HABI HLZ Hoom Hmmap
    Hbase Hbid Hbok Hopen Hsrc Hraw Hctor Hmod _ _ Hstore.
  destruct (stored_entry_prefix P cx_s cx parser module mem_s entry HABI HLZ
              Hoom Hbid Hbok Hsrc Hraw Hctor Hstore)
    as (id & cursor & chars & Hid & Hmid & Hchars & Hmatch).
  pose proof (deserialize_serialize_eq P cx module
                (AsmJSModule_new P (parser_ss parser) (pn_body_begin parser)
                   (currentToken_end parser)
                   (sc_strict parser && negb (hasExplicitUseStrict parser))
                   false)
                mem_s mem base [] HABI Hoom Hmmap Hbase Hmod) as Hdes.
  rewrite app_nil_r in Hdes.
  match type of Hdes with
  | _ = (_, ?m, ?mm) =>
      assert (Hlookup :
        LookupAsmJSModuleInCache P cx parser mem
        = match staticallyLink P cx m mm with
          | None => Crashed
          | Some (linked, mem'') =>
              Done (Hit linked mem'' (srcEndBeforeCurly linked))
          end);
      [|exists m, mm]
  end.
  { unfold LookupAsmJSModuleInCache.
    rewrite Hid, Hopen, Hmid, (proj2 (MachineId_eq_true id id) eq_refl).
    cbn [negb]. rewrite Hchars, Hmatch, Hoom, Hdes.
    unfold JS_ASSERT, isFinished.
    cbn [code_ set_loadedFromCache_ set_staticLinkData_ set_heapAccesses_
         set_names_ set_builtinThunkOffsets_ set_funcPtrTables_
         set_codeRanges_ set_callSites_ set_exports_ set_exits_ set_globals_
         set_bufferArgumentName_ set_importArgumentName_
         set_globalArgumentName_ set_code_].
    destruct (Z.eqb_spec base 0) as [H0|_]; [contradiction|].
    cbn [negb length Nat.eqb]. rewrite !orb_true_r. cbn [negb].
    reflexivity. }
  split; [reflexivity|]. split.
  { intros i Hi.
    replace i with (Z.of_nat (Z.to_nat i)) by lia.
    rewrite store_bytes_inside by (rewrite length_load_bytes; lia).
    apply nth_load_bytes. lia. }
  repeat (split; [reflexivity|]).
  split; [exact Hlookup|].
  intros HD. rewrite Hlookup.
  match goal with
  | |- context [staticallyLink P cx ?m ?mm] =>
      destruct (staticallyLink_returns P cx m mm HD) as [[m2 mem2] ->]
  end.
  reflexivity.
Qed.

(** The theorem for the entry of the example, stored and looked up in the
    build without assertions. *)
Lemma LookupAsmJSModuleInCache_finds_stored_witness :
  is_Hit (LookupAsmJSModuleInCache (LittleEndian.x86 false)
            (LittleEndian.example_cx 131072 [1] (Some Examples.example_entry))
            (Examples.example_parser Examples.example_source false)
            Examples.zero_memory) = true.
Proof.
  assert (Hbok : buildId_ok (LittleEndian.x86 false)
                   (LittleEndian.example_cx 131072 [1]
                      (Some Examples.example_entry))).
  { unfold buildId_ok. simpl. split; [|lia].
    apply Forall_cons; [simpl; lia|apply Forall_nil]. }
  assert (Hstore : StoreAsmJSModuleInCache (LittleEndian.x86 false)
                     (Examples.example_parser Examples.example_source false)
                     (Examples.example_module 65536)
                     (Examples.example_memory 65536)
                     (LittleEndian.example_cx 131072 [1] None)
                   = Done Examples.example_entry)
    by (vm_compute; reflexivity).
  assert (Hflags : 0 <= cpuFlags (LittleEndian.x86 false)
                   <= Z.shiftr UINT32_MAX ARCH_BITS)
    by (change (0 <= 7 <= 536870911); lia).
  destruct (LookupAsmJSModuleInCache_finds_stored (LittleEndian.x86 false)
              (LittleEndian.example_cx 131072 [1] None)
              (LittleEndian.example_cx 131072 [1]
                 (Some Examples.example_entry))
              (Examples.example_parser Examples.example_source false)
              (Examples.example_module 65536)
              (Examples.example_memory 65536) Examples.zero_memory
              Examples.example_entry 131072
              LittleEndianFacts.le_abi_lawful (x86_LZ4_lawful false)
              eq_refl eq_refl ltac:(discriminate) eq_refl Hbok eq_refl
              (example_storable_source false) ltac:(simpl; lia)
              ltac:(discriminate) (example_module_serializable 65536)
              Hflags eq_refl Hstore) as (m' & mem' & H).
  apply H. reflexivity.
Defined.

Lemma sizeof_uint32_pos : forall A,
  ABI_lawful A -> (0 < sizeof (L_uint32 A))%nat.
Proof.
  intros A HA. destruct (law_uint32 _ HA) as [Hlen Hrt].
  destruct (sizeof (L_uint32 A)) eqn:Hs; [|lia]. exfalso.
  assert (H0 : fits (L_uint32 A) 0) by (apply (law_uint32_fits _ HA); lia).
  assert (H1 : fits (L_uint32 A) 1) by (apply (law_uint32_fits _ HA); lia).
  pose proof (Hrt 0 H0) as E0. pose proof (Hrt 1 H1) as E1.
  assert (Hb0 : to_bytes (L_uint32 A) 0 = [])
    by (apply length_zero_iff_nil; rewrite Hlen; reflexivity).
  assert (Hb1 : to_bytes (L_uint32 A) 1 = [])
    by (apply length_zero_iff_nil; rewrite Hlen; reflexivity).
  rewrite Hb0 in E0. rewrite Hb1 in E1. congruence.
Qed.

(** X14.  When the entry found is one that [StoreAsmJSModuleInCache] wrote
    for this function and this machine but the executable mapping for the
    code fails, [AsmJSModule::deserialize] stops with its cursor after
    [pod] and not at [nullptr]; the lookup then returns true without a
    module, as for a miss, in a build without assertions, and stops on the
    assertion of [setAutoFlushICacheRange] in a build with assertions. *)
Theorem LookupAsmJSModuleInCache_mapping_fails :
  forall P cx_store cx parser module mem_store mem entry,
  ABI_lawful (abi P) -> LZ4_lawful P ->
  cx_oom cx = false -> cx_mmap cx = None ->
  cacheOps_buildId cx = cacheOps_buildId cx_store -> buildId_ok P cx ->
  cacheOps_openEntryForRead cx = Some (Some entry) ->
  storable_source P parser ->
  Z.of_nat (length (rawChars parser)) < 2 ^ 32 ->
  (isFunctionConstructorBody parser = true ->
   endOffset parser = Z.of_nat (length (rawChars parser))) ->
  StoreAsmJSModuleInCache P parser module mem_store cx_store = Done entry ->
  LookupAsmJSModuleInCache P cx parser mem
  = if DEBUG P then Crashed else Done Miss.
Proof.
  intros P cx_s cx parser module mem_s mem entry HABI HLZ Hoom Hmmap
    Hbid Hbok Hopen Hsrc Hraw Hctor Hstore.
  destruct (stored_entry_prefix P cx_s cx parser module mem_s entry HABI HLZ
              Hoom Hbid Hbok Hsrc Hraw Hctor Hstore)
    as (id & cursor & chars & Hid & Hmid & Hchars & Hmatch).
  unfold LookupAsmJSModuleInCache.
  rewrite Hid, Hopen, Hmid, (proj2 (MachineId_eq_true id id) eq_refl).
  cbn [negb]. rewrite Hchars, Hmatch, Hoom.
  unfold deserialize. rewrite (serialize_payload P mem_s module HABI).
  rewrite ReadBytes_app_n by (apply (law_Pod _ HABI)).
  unfold AllocateExecutableMemory. rewrite Hmmap.
  cbn [code_ set_code_ Z.eqb].
  unfold JS_ASSERT, isFinished. cbn [code_ set_loadedFromCache_ set_code_].
  cbn [Z.eqb negb]. rewrite orb_false_r.
  destruct (DEBUG P); cbn [negb]; [reflexivity|].
  rewrite !length_app.
  pose proof (length_SerializeName P HABI [] (globalArgumentName_ module))
    as Hn.
  pose proof (sizeof_uint32_pos _ HABI) as Hpos.
  assert (Hs : (0 < SerializedNameSize P (globalArgumentName_ module))%nat).
  { unfold SerializedNameSize. destruct (globalArgumentName_ module); lia. }
  simpl length in Hn.
  match goal with
  | |- context [Nat.eqb ?n 0] =>
      destruct (Nat.eqb_spec n 0) as [H0|_]; [lia|]
  end.
  reflexivity.
Qed.

(** The theorem for the entry of the example when no mapping is left. *)
Lemma LookupAsmJSModuleInCache_mapping_fails_witness :
  LookupAsmJSModuleInCache (LittleEndian.x86 false)
    (mkContext false None 3221221376 3221221380 3221221384
       (Some (Some [1])) (Some (Some Examples.example_entry))
       (Some (fun _ => true)))
    (Examples.example_parser Examples.example_source false)
    Examples.zero_memory
  = Done Miss.
Proof.
  assert (Hbok : buildId_ok (LittleEndian.x86 false)
                   (mkContext false None 3221221376 3221221380 3221221384
                      (Some (Some [1])) (Some (Some Examples.example_entry))
                      (Some (fun _ => true)))).
  { unfold buildId_ok. simpl. split; [|lia].
    apply Forall_cons; [simpl; lia|apply Forall_nil]. }
  assert (Hstore : StoreAsmJSModuleInCache (LittleEndian.x86 false)
                     (Examples.example_parser Examples.example_source false)
                     (Examples.example_module 65536)
                     (Examples.example_memory 65536)
                     (LittleEndian.example_cx 131072 [1] None)
                   = Done Examples.example_entry)
    by (vm_compute; reflexivity).
  apply (LookupAsmJSModuleInCache_mapping_fails (LittleEndian.x86 false)
           (LittleEndian.example_cx 131072 [1] None)
           (mkContext false None 3221221376 3221221380 3221221384
              (Some (Some [1])) (Some (Some Examples.example_entry))
              (Some (fun _ => true)))
           (Examples.example_parser Examples.example_source false)
           (Examples.example_module 65536)
           (Examples.example_memory 65536) Examples.zero_memory
           Examples.example_entry
           LittleEndianFacts.le_abi_lawful (x86_LZ4_lawful false)
           eq_refl eq_refl eq_refl Hbok eq_refl
           (example_storable_source false) ltac:(simpl; lia)
           ltac:(discriminate) Hstore).
Defined.

(** ** staticallyLink: the absolute links and the rest of memory *)

Lemma patch_absoluteLinks_AddressOf : forall P forward cx code links mem mem',
  patch_absoluteLinks P forward cx code links mem = Some mem' ->
  forall imm offsets, In (imm, offsets) links ->
  exists target, AddressOf P imm (Some cx) = Some target.
Proof.
  intros P forward cx code links.
  induction links as [|[imm0 offsets0] links IH]; intros mem mem' H imm offsets
    Hin.
  - contradiction.
  - simpl in H.
    destruct (AddressOf P imm0 (Some cx)) as [t|] eqn:Ht; [|discriminate].
    destruct (if forward then _ else _) as [mem1|]; [|discriminate].
    destruct Hin as [Heq|Hin].
    + injection Heq as <- <-. eauto.
    + exact (IH mem1 mem' H imm offsets Hin).
Qed.

(** X15.  When [staticallyLink] returns and the locations it writes do not
    meet and can hold their values, every absolute link is applied: for
    each kind of immediate and each offset recorded for it, the patched
    datum at [base + offset] holds the address [AddressOf] gives for the
    kind, which for the three kinds of the runtime is the address read
    through [cx]. *)
Theorem staticallyLink_absolute_links : forall P cx m mem m' mem',
  staticallyLink P cx m mem = Some (m', mem') ->
  Forall write_ok (link_writes P cx m) ->
  ForallOrdPairs writes_disjoint (link_writes P cx m) ->
  forall imm offsets off,
    In (imm, offsets) (absoluteLinks_by_kind P m) -> In off offsets ->
    exists target,
      AddressOf P imm (Some cx) = Some target /\
      f_get (patchedData (asm P)) mem' (code_ m + off) = target.
Proof.
  intros P cx m mem m' mem' H Hok Hdis imm offsets off Hin Hoff.
  assert (Haddr : exists target, AddressOf P imm (Some cx) = Some target).
  { unfold staticallyLink in H.
    destruct (negb _); [discriminate|].
    destruct (patch_absoluteLinks P true cx _ _ _) as [mem2|] eqn:H2;
      [|discriminate].
    apply (patch_absoluteLinks_AddressOf P true cx _ _ _ _ H2 imm offsets).
    exact Hin. }
  destruct Haddr as [target Ht]. exists target. split; [exact Ht|].
  apply staticallyLink_writes in H. destruct H as [_ ->].
  apply (run_writes_get (link_writes P cx m) mem
           (patchedData (asm P), code_ m + off, target) Hok Hdis).
  unfold link_writes. apply in_or_app. right. apply in_or_app. left.
  apply in_flat_map. exists (imm, offsets). split; [exact Hin|].
  unfold absoluteLink_writes. cbn [fst snd]. rewrite Ht.
  apply in_map_iff. exists off. split; [reflexivity|exact Hoff].
Qed.

(** The theorem for the call of [ToInt32] in the example. *)
Lemma staticallyLink_absolute_links_witness :
  exists m' mem',
    staticallyLink (LittleEndian.x86 true)
      (LittleEndian.example_cx 131072 [1] None)
      (Examples.example_module 65536) (Examples.example_memory 65536)
    = Some (m', mem') /\
    LittleEndian.le_value (load_bytes mem' (65536 + 56 - 4) 4) = 3221225632.
Proof.
  set (P := LittleEndian.x86 true).
  set (cx := LittleEndian.example_cx 131072 [1] None).
  set (m := Examples.example_module 65536).
  destruct (staticallyLink P cx m (Examples.example_memory 65536))
    as [[m' mem']|] eqn:Hlink; [|vm_compute in Hlink; discriminate].
  exists m', mem'. split; [reflexivity|].
  assert (Hlw : link_writes P cx m
                = [(LittleEndian.le_field 0 4, 65680, 65560);
                   (LittleEndian.le_field (-4) 4, 65592, 3221225632);
                   (LittleEndian.le_field 0 4, 65672, 65636);
                   (LittleEndian.le_field 0 4, 65676, 0)]) by reflexivity.
  assert (Hok : Forall write_ok (link_writes P cx m)).
  { rewrite Hlw. repeat constructor; try apply le_field_ok. }
  assert (Hdis : ForallOrdPairs writes_disjoint (link_writes P cx m)).
  { rewrite Hlw.
    repeat first [apply FOP_nil | apply FOP_cons | apply Forall_nil
                 | apply Forall_cons];
      intros a; unfold in_field, w_at, w_field; simpl; lia. }
  destruct (staticallyLink_absolute_links P cx m
              (Examples.example_memory 65536) m' mem' Hlink Hok Hdis
              AsmJSImm_ToInt32 [56] 56) as (target & Ht & Hget).
  - unfold absoluteLinks_by_kind. simpl. do 10 right. left. reflexivity.
  - left. reflexivity.
  - vm_compute in Ht. injection Ht as <-. exact Hget.
Defined.

(** X16.  [staticallyLink] changes nothing of the module but
    [interruptExit_], which becomes the address of the interrupt exit, and
    writes no byte of memory outside the fields of its links and the data
    of the exits: every other byte of the code and of the global data is
    what it was. *)
Theorem staticallyLink_frame : forall P cx m mem m' mem',
  field_ok (rawPointer (asm P)) ->
  field_ok (instructionImmediate (asm P)) ->
  field_ok (patchedData (asm P)) ->
  staticallyLink P cx m mem = Some (m', mem') ->
  m' = set_interruptExit_ m
         (code_ m + interruptExitOffset (staticLinkData_ m)) /\
  forall a,
    (forall w, In w (link_writes P cx m) ->
               ~ in_field (w_field w) (w_at w) a) ->
    mem' a = mem a.
Proof.
  intros P cx m mem m' mem' Hraw Himm Hdata H.
  apply staticallyLink_writes in H. destruct H as [-> ->].
  split; [reflexivity|]. intros a Hout.
  assert (Hfields : forall w, In w (link_writes P cx m) ->
                              field_ok (w_field w)).
  { intros w Hw. unfold link_writes in Hw.
    apply in_app_or in Hw. destruct Hw as [Hw|Hw].
    - apply in_map_iff in Hw. destruct Hw as (link & <- & _).
      unfold relativeLink_write, w_field. cbn [fst].
      destruct (isRawPointerPatch P link); assumption.
    - apply in_app_or in Hw. destruct Hw as [Hw|Hw].
      + apply in_flat_map in Hw. destruct Hw as (l & _ & Hw).
        unfold absoluteLink_writes in Hw.
        destruct (AddressOf P (fst l) (Some cx)); [|contradiction].
        apply in_map_iff in Hw. destruct Hw as (off & <- & _). exact Hdata.
      + apply in_flat_map in Hw. destruct Hw as (e & _ & Hw).
        destruct Hw as [<-|[<-|[]]]; exact Hraw. }
  generalize dependent mem. revert Hout Hfields.
  generalize (link_writes P cx m) as ws.
  induction ws as [|w ws IH]; intros Hout Hfields mem; simpl.
  - reflexivity.
  - rewrite IH.
    + apply (set_frame _ (Hfields w (or_introl eq_refl))).
      apply Hout. left. reflexivity.
    + intros w' Hw'. apply Hout. right. exact Hw'.
    + intros w' Hw'. apply Hfields. right. exact Hw'.
Qed.

(** The theorem for the example: the first byte of the code is not
    written. *)
Lemma staticallyLink_frame_witness :
  exists m' mem',
    staticallyLink (LittleEndian.x86 true)
      (LittleEndian.example_cx 131072 [1] None)
      (Examples.example_module 65536) (Examples.example_memory 65536)
    = Some (m', mem') /\
    interruptExit_ m' = 65536 + 100 /\
    mem' 65536 = Examples.example_memory 65536 65536.
Proof.
  set (P := LittleEndian.x86 true).
  set (cx := LittleEndian.example_cx 131072 [1] None).
  set (m := Examples.example_module 65536).
  destruct (staticallyLink P cx m (Examples.example_memory 65536))
    as [[m' mem']|] eqn:Hlink; [|vm_compute in Hlink; discriminate].
  exists m', mem'. split; [reflexivity|].
  destruct (staticallyLink_frame P cx m (Examples.example_memory 65536)
              m' mem' (le_field_ok 0 4) (le_field_ok (-4) 4)
              (le_field_ok (-4) 4) Hlink) as [Hm Hframe].
  split.
  - rewrite Hm. reflexivity.
  - apply Hframe. intros w Hw.
    assert (Hlw : link_writes P cx m
                  = [(LittleEndian.le_field 0 4, 65680, 65560);
                     (LittleEndian.le_field (-4) 4, 65592, 3221225632);
                     (LittleEndian.le_field 0 4, 65672, 65636);
                     (LittleEndian.le_field 0 4, 65676, 0)]) by reflexivity.
    rewrite Hlw in Hw.
    destruct Hw as [<-|[<-|[<-|[<-|[]]]]];
      unfold in_field, w_at, w_field; simpl; lia.
Defined.

(** ** The guard of the protection state *)

Lemma set_codeIsProtected_same : forall m,
  set_codeIsProtected_ m (codeIsProtected_ m) = m.
Proof. intros []. reflexivity. Qed.

Lemma AutoUnprotectCode_enter_Some : forall P m b m1,
  AutoUnprotectCode_enter P m = Some (b, m1) ->
  JS_ASSERT P (isDynamicallyLinked m) = true /\
  b = codeIsProtected_ m /\ m1 = set_codeIsProtected_ m false.
Proof.
  intros P m b m1 H. unfold AutoUnprotectCode_enter, codeIsProtected in H.
  destruct (JS_ASSERT P (isDynamicallyLinked m)) eqn:Ha; [|discriminate].
  split; [reflexivity|].
  destruct (codeIsProtected_ m) eqn:Hp.
  - unfold unprotectCode in H. rewrite Ha in H. simpl in H.
    injection H as <- <-. auto.
  - injection H as <- <-. split; [reflexivity|].
    rewrite <- Hp. symmetry. apply set_codeIsProtected_same.
Qed.

(** The destructor of the guard undoes its constructor. *)
Lemma AutoUnprotectCode_leave_enter : forall P m protectedBefore m1,
  AutoUnprotectCode_enter P m = Some (protectedBefore, m1) ->
  AutoUnprotectCode_leave P protectedBefore m1 = Some m.
Proof.
  intros P m b m1 H.
  destruct (AutoUnprotectCode_enter_Some P m b m1 H) as (Ha & -> & ->).
  unfold AutoUnprotectCode_leave, protectCode.
  destruct (codeIsProtected_ m) eqn:Hp.
  - replace (isDynamicallyLinked (set_codeIsProtected_ m false))
      with (isDynamicallyLinked m) by (destruct m; reflexivity).
    rewrite Ha. f_equal. destruct m; simpl in *; subst; reflexivity.
  - f_equal. rewrite <- Hp. apply set_codeIsProtected_same.
Qed.

(** X17.  [AutoUnprotectCode] leaves the module as it found it: while the
    guard lives the code is not protected, and when its destructor returns
    the module is exactly the one the constructor was given, protected if
    and only if it was. *)
Theorem AutoUnprotectCode_restores : forall P m protectedBefore m1 m2,
  AutoUnprotectCode_enter P m = Some (protectedBefore, m1) ->
  AutoUnprotectCode_leave P protectedBefore m1 = Some m2 ->
  protectedBefore = codeIsProtected_ m /\
  codeIsProtected_ m1 = false /\
  m2 = m.
Proof.
  intros P m b m1 m2 H Hleave.
  rewrite (AutoUnprotectCode_leave_enter P m b m1 H) in Hleave.
  injection Hleave as <-.
  destruct (AutoUnprotectCode_enter_Some P m b m1 H) as (_ & -> & ->).
  split; [reflexivity|]. split; [destruct m; reflexivity|reflexivity].
Qed.

(** The theorem for the example module, linked and protected. *)
Lemma AutoUnprotectCode_restores_witness :
  true = codeIsProtected_
           (set_codeIsProtected_ (Examples.example_linked 65536) true) /\
  codeIsProtected_
    (set_codeIsProtected_
       (set_codeIsProtected_ (Examples.example_linked 65536) true) false)
  = false /\
  set_codeIsProtected_
    (set_codeIsProtected_
       (set_codeIsProtected_ (Examples.example_linked 65536) true) false)
    true
  = set_codeIsProtected_ (Examples.example_linked 65536) true.
Proof.
  apply (AutoUnprotectCode_restores (LittleEndian.x86 true)
           (set_codeIsProtected_ (Examples.example_linked 65536) true)
           true
           (set_codeIsProtected_
              (set_codeIsProtected_ (Examples.example_linked 65536) true)
              false));
    reflexivity.
Defined.

(** ** setProfilingEnabled: what it does to the module *)

(** What [setProfilingEnabled] went through when it returns after a
    change of state. *)
Lemma setProfilingEnabled_Some : forall P enabled cx m mem m' mem',
  profilingEnabled_ m = negb enabled ->
  setProfilingEnabled P enabled cx m mem = Some (m', mem') ->
  JS_ASSERT P (isDynamicallyLinked m) = true /\
  exists labels,
    profiling_labels enabled cx m = Some labels /\
    m' = set_profilingEnabled_ (set_profilingLabels_ m labels) enabled.
Proof.
  intros P enabled cx m mem m' mem' Hflag H.
  unfold setProfilingEnabled in H.
  destruct (JS_ASSERT P (isDynamicallyLinked m)) eqn:Ha; [|discriminate].
  cbn [negb] in H. split; [reflexivity|].
  rewrite Hflag in H.
  replace (Bool.eqb (negb enabled) enabled) with false in H
    by (destruct enabled; reflexivity).
  fold (profiling_labels enabled cx m) in H.
  destruct (profiling_labels enabled cx m) as [labels|]; [|discriminate].
  exists labels. split; [reflexivity|].
  destruct (AutoUnprotectCode_enter P (set_profilingLabels_ m labels))
    as [[b m1]|] eqn:Henter; [|discriminate].
  destruct (AutoUnprotectCode_enter_Some P _ b m1 Henter) as (_ & -> & ->).
  destruct (fold_left (patch_builtin P enabled _) _ _) as [mem1|];
    [|discriminate].
  destruct (AutoUnprotectCode_leave P _ _) as [m2|] eqn:Hleave;
    [|discriminate].
  injection H as <- <-.
  unfold AutoUnprotectCode_leave, protectCode in Hleave.
  cbn [codeIsProtected_ set_profilingLabels_] in Hleave.
  destruct (codeIsProtected_ m) eqn:Hp.
  - destruct (JS_ASSERT P _); [|discriminate]. injection Hleave as <-.
    destruct m; simpl in *; subst; reflexivity.
  - injection Hleave as <-.
    destruct m; simpl in *; subst; reflexivity.
Qed.

(** X18.  [setProfilingEnabled] changes nothing of the module but the
    flag, which becomes the state asked for, and the profiling labels; the
    code is protected afterwards if and only if it was before; and turning
    profiling off clears the labels. *)
Theorem setProfilingEnabled_module : forall P enabled cx m mem m' mem',
  setProfilingEnabled P enabled cx m mem = Some (m', mem') ->
  profilingEnabled_ m' = enabled /\
  set_profilingLabels_ (set_profilingEnabled_ m' (profilingEnabled_ m))
    (profilingLabels_ m) = m /\
  (profilingEnabled_ m = true -> enabled = false -> profilingLabels_ m' = []).
Proof.
  intros P enabled cx m mem m' mem' H.
  destruct (Bool.eqb (profilingEnabled_ m) enabled) eqn:Hsame.
  - unfold setProfilingEnabled in H.
    destruct (negb _); [discriminate|]. rewrite Hsame in H.
    injection H as <- <-. apply eqb_prop in Hsame.
    split; [exact Hsame|]. split; [destruct m; reflexivity|].
    intros H1 H2. congruence.
  - assert (Hflag : profilingEnabled_ m = negb enabled).
    { destruct (profilingEnabled_ m), enabled; simpl in *; congruence. }
    destruct (setProfilingEnabled_Some P enabled cx m mem m' mem' Hflag H)
      as (_ & labels & Hlabels & ->).
    split; [reflexivity|]. split; [destruct m; reflexivity|].
    intros _ ->. unfold profiling_labels in Hlabels.
    injection Hlabels as <-. reflexivity.
Qed.

(** X19.  A second call of [setProfilingEnabled] for the same state does
    nothing: the module and the memory are those the first call left. *)
Theorem setProfilingEnabled_idempotent :
  forall P enabled cx cx2 m mem m' mem',
  setProfilingEnabled P enabled cx m mem = Some (m', mem') ->
  setProfilingEnabled P enabled cx2 m' mem' = Some (m', mem').
Proof.
  intros P enabled cx cx2 m mem m' mem' H.
  assert (Ha : JS_ASSERT P (isDynamicallyLinked m') = true
               /\ profilingEnabled_ m' = enabled).
  { destruct (Bool.eqb (profilingEnabled_ m) enabled) eqn:Hsame.
    - unfold setProfilingEnabled in H.
      destruct (JS_ASSERT P (isDynamicallyLinked m)) eqn:Ha; [|discriminate].
      cbn [negb] in H. rewrite Hsame in H. injection H as <- <-.
      apply eqb_prop in Hsame. auto.
    - assert (Hflag : profilingEnabled_ m = negb enabled).
      { destruct (profilingEnabled_ m), enabled; simpl in *; congruence. }
      destruct (setProfilingEnabled_Some P enabled cx m mem m' mem' Hflag H)
        as (Ha & labels & _ & ->).
      split; [|reflexivity].
      replace (isDynamicallyLinked _) with (isDynamicallyLinked m)
        by (destruct m; reflexivity).
      exact Ha. }
  destruct Ha as [Ha Hflag]. unfold setProfilingEnabled.
  rewrite Ha, Hflag, eqb_reflx. reflexivity.
Qed.

(** The theorem for the linked example on the x86 build with assertions. *)
Lemma setProfilingEnabled_module_witness :
  exists m' mem',
    setProfilingEnabled (LittleEndian.x86 true) true
      (LittleEndian.example_cx 131072 [1] None)
      (Examples.example_linked 65536) (Examples.example_linked_memory 65536)
    = Some (m', mem') /\
    profilingEnabled_ m' = true /\
    set_profilingLabels_ (set_profilingEnabled_ m' false) []
    = Examples.example_linked 65536.
Proof.
  destruct (setProfilingEnabled (LittleEndian.x86 true) true
              (LittleEndian.example_cx 131072 [1] None)
              (Examples.example_linked 65536)
              (Examples.example_linked_memory 65536))
    as [[m' mem']|] eqn:H; [|vm_compute in H; discriminate].
  exists m', mem'. split; [reflexivity|].
  destruct (setProfilingEnabled_module _ _ _ _ _ _ _ H) as (Hflag & Hm & _).
  split; [exact Hflag|exact Hm].
Defined.

Lemma setProfilingEnabled_idempotent_witness :
  exists m' mem',
    setProfilingEnabled (LittleEndian.x86 true) true
      (LittleEndian.example_cx 131072 [1] None)
      (Examples.example_linked 65536) (Examples.example_linked_memory 65536)
    = Some (m', mem') /\
    setProfilingEnabled (LittleEndian.x86 true) true
      (LittleEndian.example_cx 131072 [1] None) m' mem' = Some (m', mem').
Proof.
  destruct (setProfilingEnabled (LittleEndian.x86 true) true
              (LittleEndian.example_cx 131072 [1] None)
              (Examples.example_linked 65536)
              (Examples.example_linked_memory 65536))
    as [[m' mem']|] eqn:H; [|vm_compute in H; discriminate].
  exists m', mem'. split; [reflexivity|].
  exact (setProfilingEnabled_idempotent _ _ _ _ _ _ _ _ H).
Defined.

(** ** setProfilingEnabled: the labels *)

Lemma vector_set_spec : forall {A} (v v' : list A) i x,
  vector_set v i x = Some v' ->
  length v' = length v /\ nth_error v' i = Some x /\
  forall j, j <> i -> nth_error v' j = nth_error v j.
Proof.
  induction v as [|y v IH]; intros v' i x H; simpl in H; [discriminate|].
  destruct i as [|i].
  - injection H as <-. repeat split. intros [|j] Hj; [congruence|reflexivity].
  - destruct (vector_set v i x) as [v1|] eqn:Hv; [|discriminate].
    injection H as <-. destruct (IH v1 i x Hv) as (Hlen & Hi & Hother).
    split; [simpl; lia|]. split; [exact Hi|].
    intros [|j] Hj; [reflexivity|]. simpl. apply Hother. lia.
Qed.

(** The label [setProfilingEnabled] makes for a function. *)
Definition label_of (m : AsmJSModule) (name : PropertyName) (cr : CodeRange.t)
  : ProfilingLabel :=
  mkLabel (Some name) (filename (scriptSource_ m)) (CodeRange.lineNumber_ cr).

(** [last] is the last function of the table [rs] whose name index is
    [index]: no function after it has this name index. *)
Definition last_function_named (rs : list CodeRange.t) (index : nat)
  (last : CodeRange.t) : Prop :=
  exists before after,
    rs = before ++ last :: after /\
    CodeRange.isFunction last = true /\
    Z.to_nat (CodeRange.nameIndex_ last) = index /\
    Forall (fun r => CodeRange.isFunction r = true ->
                     Z.to_nat (CodeRange.nameIndex_ r) <> index) after.

Lemma last_function_named_snoc : forall rs index last r,
  last_function_named rs index last ->
  (CodeRange.isFunction r = true ->
   Z.to_nat (CodeRange.nameIndex_ r) <> index) ->
  last_function_named (rs ++ [r]) index last.
Proof.
  intros rs index last r (before & after & -> & Hf & Hi & Hafter) Hr.
  exists before, (after ++ [r]). rewrite <- app_assoc. split; [reflexivity|].
  split; [exact Hf|]. split; [exact Hi|].
  apply Forall_app. split; [exact Hafter|]. constructor; [exact Hr|constructor].
Qed.

(** The loop over the code ranges: the vector keeps its length, and the
    element of every function holds the label of the last function with its
    name index. *)
Lemma make_labels_spec : forall cx m rs labels labels',
  cx_oom cx = false ->
  fold_left (make_label cx m) rs (Some labels) = Some labels' ->
  length labels' = length labels /\
  forall cr, In cr rs -> CodeRange.isFunction cr = true ->
    exists name last,
      last_function_named rs (Z.to_nat (CodeRange.nameIndex_ cr)) last /\
      nth_error (names_ m) (Z.to_nat (CodeRange.nameIndex_ cr))
      = Some (Some name) /\
      nth_error labels' (Z.to_nat (CodeRange.nameIndex_ cr))
      = Some (Some (label_of m name last)).
Proof.
  intros cx m rs labels labels' Hoom. revert labels labels'.
  induction rs as [|r rs IH] using rev_ind; intros labels labels' H.
  - simpl in H. injection H as <-. split; [reflexivity|]. intros cr [].
  - rewrite fold_left_app in H. simpl in H.
    destruct (fold_left (make_label cx m) rs (Some labels)) as [l1|] eqn:H1;
      [|discriminate].
    destruct (IH labels l1 H1) as [Hlen Hsp]. unfold make_label in H.
    destruct (CodeRange.isFunction r) eqn:Hf; cbn [negb] in H.
    + destruct (nth_error (names_ m) (Z.to_nat (CodeRange.nameIndex_ r)))
        as [[name|]|] eqn:Hname; try discriminate.
      rewrite Hoom in H.
      destruct (vector_set_spec _ _ _ _ H) as (Hlen' & Hi & Hother).
      split; [lia|]. intros cr Hin Hcr.
      destruct (Nat.eq_dec (Z.to_nat (CodeRange.nameIndex_ cr))
                  (Z.to_nat (CodeRange.nameIndex_ r))) as [Heq|Hne].
      * exists name, r. rewrite Heq. split; [|split; assumption].
        exists rs, []. repeat split; auto.
      * apply in_app_or in Hin. destruct Hin as [Hin|[->|[]]]; [|congruence].
        destruct (Hsp cr Hin Hcr) as (n & last & Hlast & Hn & Hlab).
        exists n, last. split; [|split; [exact Hn|]].
        -- apply last_function_named_snoc; [exact Hlast|]. intros _. lia.
        -- rewrite (Hother _ Hne). exact Hlab.
    + injection H as <-. split; [exact Hlen|]. intros cr Hin Hcr.
      apply in_app_or in Hin. destruct Hin as [Hin|[->|[]]]; [|congruence].
      destruct (Hsp cr Hin Hcr) as (n & last & Hlast & Hn & Hlab).
      exists n, last. split; [|split; assumption].
      apply last_function_named_snoc; [exact Hlast|]. congruence.
Qed.

(** X20.  When [setProfilingEnabled(true)] returns on a module that was
    not being profiled, with memory for the labels, the module has one
    profiling label per name, and for every function of the code-range
    table the label at its name index is made of the name at that index,
    the file name of the script and the line of the function (the line of
    the last function of the table with that name index, if several share
    it: no function after it in the table has this name index). *)
Theorem setProfilingEnabled_labels : forall P cx m mem m' mem',
  profilingEnabled_ m = false -> cx_oom cx = false ->
  setProfilingEnabled P true cx m mem = Some (m', mem') ->
  length (profilingLabels_ m') = length (names_ m) /\
  forall cr, In cr (codeRanges_ m) -> CodeRange.isFunction cr = true ->
    exists name last,
      last_function_named (codeRanges_ m)
        (Z.to_nat (CodeRange.nameIndex_ cr)) last /\
      nth_error (names_ m) (Z.to_nat (CodeRange.nameIndex_ cr))
      = Some (Some name) /\
      nth_error (profilingLabels_ m') (Z.to_nat (CodeRange.nameIndex_ cr))
      = Some (Some (label_of m name last)).
Proof.
  intros P cx m mem m' mem' Hflag Hoom H.
  destruct (setProfilingEnabled_Some P true cx m mem m' mem' Hflag H)
    as (_ & labels & Hlabels & ->).
  cbn [profilingLabels_ set_profilingEnabled_ set_profilingLabels_].
  unfold profiling_labels in Hlabels.
  destruct (make_labels_spec cx m (codeRanges_ m) _ labels Hoom Hlabels)
    as [Hlen Hsp].
  split; [|exact Hsp].
  rewrite Hlen. apply length_resize_labels.
  unfold resize_ok. rewrite Hoom. reflexivity.
Qed.

(** The linked example with a second function [g] in the code-range
    table, at line 2, that has the name index of [f]. *)
Definition range_g : CodeRange.t :=
  CodeRange.mk 0 2 96 120 128 CodeRange.Function 8 16 8 0.

Definition example_two_functions : AsmJSModule :=
  set_codeRanges_ (Examples.example_linked 65536)
    [Examples.range_entry; Examples.range_f; Examples.range_thunk; range_g].

(** The theorem for the function [f] of this example, whose label has the
    line of [g], the last function with its name index. *)
Lemma setProfilingEnabled_labels_witness :
  exists m' mem',
    setProfilingEnabled (LittleEndian.x86 false) true
      (LittleEndian.example_cx 131072 [1] None)
      example_two_functions (Examples.example_linked_memory 65536)
    = Some (m', mem') /\
    length (profilingLabels_ m') = 1%nat /\
    nth_error (profilingLabels_ m') 0
    = Some (Some (mkLabel (Some Examples.name_f) [97] 2)).
Proof.
  destruct (setProfilingEnabled (LittleEndian.x86 false) true
              (LittleEndian.example_cx 131072 [1] None)
              example_two_functions
              (Examples.example_linked_memory 65536))
    as [[m' mem']|] eqn:H; [|vm_compute in H; discriminate].
  exists m', mem'. split; [reflexivity|].
  destruct (setProfilingEnabled_labels (LittleEndian.x86 false)
              (LittleEndian.example_cx 131072 [1] None)
              example_two_functions
              (Examples.example_linked_memory 65536) m' mem'
              eq_refl eq_refl H) as [Hlen Hsp].
  split; [exact Hlen|].
  destruct (Hsp Examples.range_f)
    as (name & last & (before & after & Hdec & Hlf & _ & Hafter) & Hn & Hlab).
  - simpl. right. left. reflexivity.
  - reflexivity.
  - simpl in Hn. injection Hn as <-.
    assert (Hlast : last = range_g).
    { change (codeRanges_ example_two_functions)
        with [Examples.range_entry; Examples.range_f; Examples.range_thunk;
              range_g] in Hdec.
      destruct before as [|b0 [|b1 [|b2 [|b3 [|b4 before]]]]];
        simpl in Hdec; injection Hdec; intros; subst;
        try discriminate; try reflexivity.
      exfalso. inversion Hafter as [|? ? _ Hrest]; subst.
      inversion Hrest as [|? ? Hg _]; subst.
      apply (Hg eq_refl). reflexivity. }
    rewrite Hlast in Hlab. exact Hlab.
Defined.

(** ** clone: the copy *)

Lemma CloneVector_Some : forall {T} cx (clone_ : T -> option T) (v v' : list T),
  (forall x y, clone_ x = Some y -> y = x) ->
  CloneVector cx clone_ v = Some v' -> v' = v.
Proof.
  intros T cx clone_ v v' Hc H. unfold CloneVector in H.
  destruct (resize_ok cx _); [|discriminate]. revert v' H.
  induction v as [|x v IH]; intros v' H; simpl in H.
  - congruence.
  - destruct (clone_ x) as [y|] eqn:Hx; [|discriminate].
    destruct (fold_right _ _ v) as [ys|]; [|discriminate].
    injection H as <-. rewrite (Hc x y Hx), (IH ys eq_refl). reflexivity.
Qed.

Lemma ExportedFunction_clone_Some : forall cx f f',
  ExportedFunction_clone cx f = Some f' -> f' = f.
Proof.
  intros cx f f' H. unfold ExportedFunction_clone in H.
  destruct (ClonePodVector cx (argCoercions_ f)) as [a|] eqn:Ha;
    [|discriminate].
  injection H as <-. apply ClonePodVector_Some in Ha. subst.
  destruct f. reflexivity.
Qed.

(** The memory just after [clone] has copied the code into the new
    mapping. *)
Definition cloned_code (M : AsmJSModule) (mem : Memory) (base : Z) : Memory :=
  memcpy (zero_fill mem base (totalBytes_ (pod M))) base (code_ M)
    (Z.to_nat (codeBytes_ (pod M))).

(** What [clone] went through when it returns true. *)
Lemma clone_Done_exact : forall P cx M mem M0 C mem0,
  clone P cx M mem = Done (M0, C, mem0) ->
  M0 = M /\
  exists base,
    cx_mmap cx = Some base /\ base <> 0 /\
    C = mkModule (srcStart_ M) (srcBodyStart_ M) (scriptSource_ M)
          (globalArgumentName_ M) (importArgumentName_ M)
          (bufferArgumentName_ M) base 0 false (loadedFromCache_ M)
          (profilingEnabled_ M) false (pod M) (globals_ M) (exits_ M)
          (exports_ M) (callSites_ M) (codeRanges_ M) (funcPtrTables_ M)
          (builtinThunkOffsets_ M) (names_ M) (heapAccesses_ M) O
          (staticLinkData_ M) None [] /\
    restoreToInitialState P (maybeHeap_ M) cx C (cloned_code M mem base)
    = Some mem0.
Proof.
  intros P cx M mem M0 C mem0 H. unfold clone in H.
  destruct (AutoUnprotectCode_enter P M) as [[b M1]|] eqn:Henter;
    [|discriminate].
  pose proof (AutoUnprotectCode_leave_enter P M b M1 Henter) as Hleave.
  destruct (AutoUnprotectCode_enter_Some P M b M1 Henter) as (_ & _ & HM1).
  destruct (cx_oom cx); [discriminate|].
  unfold AllocateExecutableMemory in H.
  destruct (cx_mmap cx) as [base|]; [|discriminate].
  cbn [code_ set_code_] in H.
  destruct (Z.eqb_spec base 0) as [|Hbase]; [discriminate|].
  destruct (CloneVector cx Global_clone _) as [globals|] eqn:G1;
    [|discriminate].
  destruct (CloneVector cx Exit_clone _) as [exits|] eqn:G2; [|discriminate].
  destruct (CloneVector cx (ExportedFunction_clone cx) _) as [exports|] eqn:G3;
    [|discriminate].
  destruct (ClonePodVector cx (callSites_ M1)) as [callSites|] eqn:H1;
    [|discriminate].
  destruct (ClonePodVector cx (codeRanges_ M1)) as [codeRanges|] eqn:H2;
    [|discriminate].
  destruct (ClonePodVector cx (funcPtrTables_ M1)) as [funcPtrTables|] eqn:H3;
    [|discriminate].
  destruct (ClonePodVector cx (builtinThunkOffsets_ M1))
    as [builtinThunkOffsets|] eqn:H4; [|discriminate].
  destruct (CloneVector cx Name_clone _) as [names|] eqn:G4; [|discriminate].
  destruct (ClonePodVector cx (heapAccesses_ M1)) as [heapAccesses|] eqn:H5;
    [|discriminate].
  destruct (StaticLinkData_clone cx (staticLinkData_ M1))
    as [staticLinkData|] eqn:H6; [|discriminate].
  destruct (restoreToInitialState P _ cx _ _) as [mem1|] eqn:Hrestore;
    [|discriminate].
  rewrite Hleave in H. injection H as <- <- <-.
  split; [reflexivity|]. exists base.
  split; [reflexivity|]. split; [exact Hbase|].
  apply ClonePodVector_Some in H1, H2, H3, H4, H5.
  apply StaticLinkData_clone_Some in H6.
  apply CloneVector_Some in G1; [|intros x y E; injection E as <-; reflexivity].
  apply CloneVector_Some in G2; [|intros x y E; injection E as <-; reflexivity].
  apply CloneVector_Some in G3; [|apply ExportedFunction_clone_Some].
  apply CloneVector_Some in G4; [|intros x y E; injection E as <-; reflexivity].
  subst. destruct M. split; [reflexivity|]. exact Hrestore.
Qed.

(** X21.  When [clone] returns true the module cloned is exactly as it was
    given, protected if it was; the copy has the [pod], the argument names
    and every table of the original in vectors of its own, and the flags
    [loadedFromCache_] and [profilingEnabled_] of the original; it is
    finished, at the address of the new mapping, but it is neither
    statically nor dynamically linked, not protected, and has no heap and
    no profiling label, whatever the state of the original. *)
Theorem clone_copy_state : forall P cx M mem M0 C mem0,
  clone P cx M mem = Done (M0, C, mem0) ->
  M0 = M /\
  (pod C = pod M /\
   globalArgumentName_ C = globalArgumentName_ M /\
   importArgumentName_ C = importArgumentName_ M /\
   bufferArgumentName_ C = bufferArgumentName_ M /\
   globals_ C = globals_ M /\ exits_ C = exits_ M /\
   exports_ C = exports_ M /\ callSites_ C = callSites_ M /\
   codeRanges_ C = codeRanges_ M /\ funcPtrTables_ C = funcPtrTables_ M /\
   builtinThunkOffsets_ C = builtinThunkOffsets_ M /\
   names_ C = names_ M /\ heapAccesses_ C = heapAccesses_ M /\
   staticLinkData_ C = staticLinkData_ M) /\
  loadedFromCache_ C = loadedFromCache_ M /\
  profilingEnabled_ C = profilingEnabled_ M /\
  cx_mmap cx = Some (code_ C) /\ isFinished C = true /\
  isStaticallyLinked C = false /\ isDynamicallyLinked C = false /\
  codeIsProtected_ C = false /\ maybeHeap_ C = None /\
  profilingLabels_ C = [].
Proof.
  intros P cx M mem M0 C mem0 H.
  destruct (clone_Done_exact P cx M mem M0 C mem0 H)
    as (-> & base & Hmmap & Hbase & -> & _).
  split; [reflexivity|]. split; [repeat split|].
  cbn [loadedFromCache_ profilingEnabled_ code_ codeIsProtected_ maybeHeap_
       profilingLabels_].
  unfold isFinished, isStaticallyLinked, isDynamicallyLinked.
  cbn [code_ interruptExit_ dynamicallyLinked_].
  destruct (Z.eqb_spec base 0) as [|_]; [contradiction|].
  repeat split; try reflexivity. exact Hmmap.
Qed.

(** The theorem for the clone of the linked example with profiling on. *)
Lemma clone_copy_state_witness :
  exists M0 C mem0,
    clone (LittleEndian.x86 true) (LittleEndian.example_cx 131072 [1] None)
      (set_profilingEnabled_ (Examples.example_linked 65536) true)
      (Examples.example_linked_memory 65536)
    = Done (M0, C, mem0) /\
    M0 = set_profilingEnabled_ (Examples.example_linked 65536) true /\
    codeRanges_ C = codeRanges_ (Examples.example_linked 65536) /\
    profilingEnabled_ C = true /\ profilingLabels_ C = [] /\
    isStaticallyLinked C = false /\ isDynamicallyLinked C = false.
Proof.
  assert (Hdone : is_Done (clone (LittleEndian.x86 true)
                             (LittleEndian.example_cx 131072 [1] None)
                             (set_profilingEnabled_
                                (Examples.example_linked 65536) true)
                             (Examples.example_linked_memory 65536)) = true)
    by (vm_compute; reflexivity).
  destruct (clone (LittleEndian.x86 true)
              (LittleEndian.example_cx 131072 [1] None)
              (set_profilingEnabled_ (Examples.example_linked 65536) true)
              (Examples.example_linked_memory 65536))
    as [| |[[M0 C] mem0]] eqn:Hclone; try discriminate Hdone.
  exists M0, C, mem0. split; [reflexivity|].
  destruct (clone_copy_state _ _ _ _ _ _ _ Hclone)
    as (HM0 & Htab & _ & Hprof & _ & _ & Hsl & Hdl & _ & _ & Hlab).
  decompose [and] Htab. repeat split; assumption.
Defined.

(** X22.  The copy that [clone] makes holds the code of the original: when
    the new mapping does not meet the code cloned, every byte of the first
    [codeBytes] bytes of the copy that [restoreToInitialState] does not
    put back (the fields of its heap accesses and of its absolute links)
    is the byte of the original at the same offset, and every such byte of
    the global data of the copy is zero: the global data is not copied. *)
Theorem clone_copies_code : forall P cx M mem M0 C mem0,
  asm_framed (asm P) ->
  0 <= codeBytes_ (pod M) <= totalBytes_ (pod M) ->
  (forall base, cx_mmap cx = Some base ->
     spans_disjoint (code_ M, codeBytes_ (pod M))
       (base, totalBytes_ (pod M))) ->
  clone P cx M mem = Done (M0, C, mem0) ->
  (forall i, 0 <= i < codeBytes_ (pod M) ->
     outside (heap_spans P C ++ link_spans P C) (code_ C + i) ->
     mem0 (code_ C + i) = mem (code_ M + i)) /\
  (forall x, code_ C + codeBytes_ (pod M) <= x < code_ C + totalBytes_ (pod M)
     -> outside (heap_spans P C ++ link_spans P C) x -> mem0 x = 0).
Proof.
  intros P cx M mem M0 C mem0 HA Hsizes Hfresh H.
  destruct (clone_Done_exact P cx M mem M0 C mem0 H)
    as (_ & base & Hmmap & Hbase & HC & Hrestore).
  specialize (Hfresh base Hmmap).
  assert (Hcode : code_ C = base) by (rewrite HC; reflexivity).
  rewrite Hcode.
  pose proof (restoreToInitialState_frame P HA _ _ _ _ _ Hrestore) as Hframe.
  split.
  - intros i Hi Hout. rewrite (Hframe _ Hout).
    unfold cloned_code, memcpy.
    replace i with (Z.of_nat (Z.to_nat i)) at 1 by lia.
    rewrite store_bytes_inside by (rewrite length_load_bytes; lia).
    rewrite nth_load_bytes by lia.
    replace (Z.of_nat (Z.to_nat i)) with i by lia.
    unfold zero_fill.
    destruct ((base <=? code_ M + i)
              && (code_ M + i <? base + totalBytes_ (pod M))) eqn:Hin;
      [|reflexivity].
    exfalso. apply andb_prop in Hin. destruct Hin as [H1 H2].
    apply Z.leb_le in H1. apply Z.ltb_lt in H2.
    apply (Hfresh (code_ M + i)); unfold in_span; simpl; lia.
  - intros x Hx Hout. rewrite (Hframe _ Hout).
    unfold cloned_code, memcpy.
    rewrite store_bytes_outside by (rewrite length_load_bytes; lia).
    unfold zero_fill.
    replace ((base <=? x) && (x <? base + totalBytes_ (pod M))) with true;
      [reflexivity|].
    symmetry. apply andb_true_intro. split; [apply Z.leb_le|apply Z.ltb_lt];
      lia.
Qed.

(** The theorem for the clone of the linked example: the opcode of the
    call at offset 27 is copied, and the datum of the exit, 136 bytes into
    the image, is zero in the copy. *)
Lemma clone_copies_code_witness :
  exists M0 C mem0,
    clone (LittleEndian.x86 true) (LittleEndian.example_cx 131072 [1] None)
      (Examples.example_linked 65536) (Examples.example_linked_memory 65536)
    = Done (M0, C, mem0) /\
    mem0 (code_ C + 27) = Examples.example_linked_memory 65536 (65536 + 27) /\
    mem0 (code_ C + 136) = 0.
Proof.
  assert (Hdone : is_Done (clone (LittleEndian.x86 true)
                             (LittleEndian.example_cx 131072 [1] None)
                             (Examples.example_linked 65536)
                             (Examples.example_linked_memory 65536)) = true)
    by (vm_compute; reflexivity).
  destruct (clone (LittleEndian.x86 true)
              (LittleEndian.example_cx 131072 [1] None)
              (Examples.example_linked 65536)
              (Examples.example_linked_memory 65536))
    as [| |[[M0 C] mem0]] eqn:Hclone; try discriminate Hdone.
  exists M0, C, mem0. split; [reflexivity|].
  assert (Hfresh : forall base,
            cx_mmap (LittleEndian.example_cx 131072 [1] None) = Some base ->
            spans_disjoint
              (code_ (Examples.example_linked 65536),
               codeBytes_ (pod (Examples.example_linked 65536)))
              (base, totalBytes_ (pod (Examples.example_linked 65536)))).
  { intros base Hbase. injection Hbase as <-. intros x H1 H2.
    unfold in_span in *. simpl in *. lia. }
  assert (Hsizes : 0 <= codeBytes_ (pod (Examples.example_linked 65536))
                   <= totalBytes_ (pod (Examples.example_linked 65536)))
    by (simpl; lia).
  destruct (clone_copies_code (LittleEndian.x86 true) _ _ _ _ _ _
              x86_asm_framed Hsizes Hfresh Hclone)
    as [Hcode Hdata].
  destruct (clone_Done_exact _ _ _ _ _ _ _ Hclone)
    as (_ & base & Hmmap & _ & HC & _).
  injection Hmmap as <-.
  assert (Hspans : heap_spans (LittleEndian.x86 true) C
                   ++ link_spans (LittleEndian.x86 true) C
                   = [(131204, 4); (131118, 4); (131124, 4)])
    by (rewrite HC; reflexivity).
  assert (Hout : forall x, ~ 131118 <= x < 131128 -> ~ 131204 <= x < 131208 ->
            outside (heap_spans (LittleEndian.x86 true) C
                     ++ link_spans (LittleEndian.x86 true) C) x).
  { intros x H1 H2 s Hs. rewrite Hspans in Hs.
    destruct Hs as [<-|[<-|[<-|[]]]]; unfold in_span; cbn [fst snd]; lia. }
  assert (Hbase : code_ C = 131072) by (rewrite HC; reflexivity).
  split.
  - apply (Hcode 27); [simpl; lia|]. rewrite Hbase. apply Hout; lia.
  - apply (Hdata (code_ C + 136)).
    + rewrite Hbase. simpl. lia.
    + rewrite Hbase. apply Hout; lia.
Defined.

(** ** finish: the image and the link data *)

(** The memory and the mapping after [finish], on the builds that do not
    patch the copied code. *)
Lemma finish_memory : forall P cx ts masm il m mem m' mem',
  arch P <> X64 ->
  finish P cx ts masm il m mem = Done (m', mem') ->
  cx_mmap cx = Some (code_ m') /\
  mem' = store_bytes (zero_fill mem (code_ m') (totalBytes_ (pod m')))
           (code_ m') (masm_code masm).
Proof.
  intros P cx ts masm il m mem m' mem' Harch H. unfold finish in H.
  unfold AllocateExecutableMemory in H.
  destruct (cx_mmap cx) as [p|] eqn:Hmap.
  2:{ destruct (negb _); [discriminate|].
      destruct (negb _); [discriminate|].
      rewrite Z.eqb_refl in H. discriminate. }
  destruct (arch P) eqn:Ha; try congruence;
  repeat match type of H with
         | (if ?c then _ else _) = _ => destruct c eqn:?; try discriminate
         | match ?e with _ => _ end = _ => destruct e eqn:?; try discriminate
         end.
  all: inversion H; subst; clear H; cbn -[AlignBytes uint32 zero_fill store_bytes];
    split; reflexivity.
Qed.

(** A link that [finish] records for a use of one of the assembler's code
    labels. *)
Definition codeLabel_link (masm : MacroAssembler) (link : RelativeLink.t)
  : Prop :=
  RelativeLink.kind_ link = RelativeLink.CodeLabel /\
  exists label, In label (codeLabels masm) /\
    RelativeLink.targetOffset link = actualOffset masm (snd label).

Lemma codeLabel_links_target : forall P fuel masm mem code labelOffset target ls,
  codeLabel_links P fuel masm mem code labelOffset target = Some ls ->
  Forall (fun link => RelativeLink.kind_ link = RelativeLink.CodeLabel /\
                      RelativeLink.targetOffset link = target) ls.
Proof.
  intros P fuel masm mem code. induction fuel as [|fuel IH];
    intros labelOffset target ls H; simpl in H.
  - destruct (labelOffset =? INVALID_OFFSET P); [|discriminate].
    injection H as <-. constructor.
  - destruct (labelOffset =? INVALID_OFFSET P).
    + injection H as <-. constructor.
    + destruct (codeLabel_links P fuel masm mem code _ target) as [ls'|] eqn:E;
        [|discriminate].
      injection H as <-. constructor; [split; reflexivity|].
      exact (IH _ _ _ E).
Qed.

Lemma codeLabels_links_target : forall P masm mem code fuel labels ls,
  codeLabels_links P masm mem code fuel labels = Some ls ->
  Forall (fun link => RelativeLink.kind_ link = RelativeLink.CodeLabel /\
            exists label, In label labels /\
              RelativeLink.targetOffset link = actualOffset masm (snd label))
    ls.
Proof.
  intros P masm mem code fuel. induction labels as [|[dest src] labels IH];
    intros ls H; simpl in H.
  - injection H as <-. constructor.
  - destruct (codeLabel_links P fuel masm mem code dest _) as [l|] eqn:E;
      [|discriminate].
    destruct (codeLabels_links P masm mem code fuel labels) as [ls'|] eqn:E';
      [|discriminate].
    injection H as <-. apply Forall_app. split.
    + apply codeLabel_links_target in E.
      eapply Forall_impl; [|exact E]. intros link [Hk Ht]. split; [exact Hk|].
      exists (dest, src). split; [left; reflexivity|exact Ht].
    + eapply Forall_impl; [|exact (IH _ eq_refl)]. intros link (Hk & lbl & Hin & Ht).
      split; [exact Hk|]. exists lbl. split; [right; exact Hin|exact Ht].
Qed.

Lemma finish_labelLinks : forall P (cx : ExclusiveContext) masm mem code fuel
  (l rest : list RelativeLink.t),
  (if cx_oom cx
   then Some (if existsb (fun l => negb (fst l =? INVALID_OFFSET P))
                   (codeLabels masm)
              then [RelativeLink.mk RelativeLink.CodeLabel 0 0]
              else [])
   else codeLabels_links P masm mem code fuel (codeLabels masm)) = Some l ->
  cx_oom cx && negb (Nat.eqb (length (l ++ rest)) 0) = false ->
  Forall (codeLabel_link masm) l.
Proof.
  intros P cx masm mem code fuel l rest H Hoom.
  destruct (cx_oom cx).
  - destruct l as [|x l]; [constructor|discriminate].
  - exact (codeLabels_links_target _ _ _ _ _ _ _ H).
Qed.

(** The static link data after [finish]. *)
Lemma finish_staticLinkData : forall P cx ts masm il m mem m' mem',
  finish P cx ts masm il m mem = Done (m', mem') ->
  interruptExitOffset (staticLinkData_ m') = actualOffset masm il /\
  absoluteLinks (staticLinkData_ m')
  = fold_left (fun links src =>
                 append_absoluteLink links (imm_index (arch P) (fst src))
                   (actualOffset masm (snd src)))
      (asmJSAbsoluteLinks masm) (absoluteLinks (staticLinkData_ m)) /\
  exists labelLinks,
    relativeLinks (staticLinkData_ m')
    = relativeLinks (staticLinkData_ m) ++ labelLinks ++
      match arch P with
      | X86 =>
          map (fun a => RelativeLink.mk RelativeLink.InstructionImmediate
                          (labelOffsetToPatchOffset masm (fst a))
                          (codeBytes_ (pod m') + snd a))
            (asmJSGlobalAccesses masm)
      | MIPS =>
          map (fun j => RelativeLink.mk RelativeLink.InstructionImmediate j
                          (ExtractLuiOriValue (asm P) mem' (code_ m' + j)
                           - uint32 (code_ m')))
            (longJumps masm)
      | _ => []
      end /\
    Forall (codeLabel_link masm) labelLinks.
Proof.
  intros P cx ts masm il m mem m' mem' H. unfold finish in H.
  destruct (arch P) eqn:Ha;
  repeat match type of H with
         | (if ?c then _ else _) = _ => destruct c eqn:?; try discriminate
         | (let '(_, _) := ?e in _) = _ => destruct e eqn:?
         | match ?e with _ => _ end = _ => destruct e eqn:?; try discriminate
         end.
  all: inversion H; subst; clear H;
    cbn -[AlignBytes uint32 zero_fill store_bytes].
  all: split; [reflexivity|]; split; [reflexivity|].
  all: match goal with
       | Hl : (if cx_oom _ then _ else _) = Some ?l |- _ =>
           exists l; split;
           [first [reflexivity
                  | apply f_equal; symmetry; apply app_nil_r
                  | rewrite app_nil_r; reflexivity]
           | eapply finish_labelLinks; eassumption]
       end.
Qed.

Lemma length_append_absoluteLink : forall links i off,
  length (append_absoluteLink links i off) = length links.
Proof.
  induction links as [|v links IH]; intros i off; [reflexivity|].
  destruct i; simpl; [reflexivity|]. rewrite IH. reflexivity.
Qed.

Lemma nth_append_absoluteLink : forall links i off j,
  (j < length links)%nat ->
  nth j (append_absoluteLink links i off) []
  = nth j links [] ++ (if Nat.eqb i j then [off] else []).
Proof.
  induction links as [|v links IH]; intros i off j Hj; simpl in Hj; [lia|].
  destruct i as [|i]; destruct j as [|j]; simpl.
  - reflexivity.
  - rewrite app_nil_r. reflexivity.
  - rewrite app_nil_r. reflexivity.
  - apply IH. lia.
Qed.

(** The offsets that [finish] appends to the vector of index [imm]. *)
Definition appended_absoluteLinks (P : Platform) (masm : MacroAssembler)
  (imm : nat) : list Z :=
  map (fun src => actualOffset masm (snd src))
    (filter (fun src => Nat.eqb (imm_index (arch P) (fst src)) imm)
       (asmJSAbsoluteLinks masm)).

Lemma fold_append_absoluteLink : forall (f : AsmJSImmKind -> nat) (g : Z -> Z)
  srcs links,
  let links' := fold_left (fun links src =>
                             append_absoluteLink links (f (fst src))
                               (g (snd src))) srcs links in
  length links' = length links /\
  forall j, (j < length links)%nat ->
    nth j links' []
    = nth j links [] ++
      map (fun src => g (snd src))
        (filter (fun src => Nat.eqb (f (fst src)) j) srcs).
Proof.
  intros f g srcs. induction srcs as [|src srcs IH]; intros links; simpl.
  - split; [reflexivity|]. intros j _. rewrite app_nil_r. reflexivity.
  - destruct (IH (append_absoluteLink links (f (fst src)) (g (snd src))))
      as [Hlen Hnth].
    rewrite length_append_absoluteLink in Hlen, Hnth.
    split; [exact Hlen|]. intros j Hj.
    rewrite (Hnth j Hj), (nth_append_absoluteLink _ _ _ _ Hj), <- app_assoc.
    f_equal. destruct (Nat.eqb (f (fst src)) j); reflexivity.
Qed.

(** X23.  When [finish] returns [true], the array of absolute links still
    has one vector per kind, and the vector of each kind is the one the
    module had followed by the corrected offsets of the assembler's absolute
    links of that kind, in the assembler's order. *)
Theorem finish_absolute_links : forall P cx ts masm il m mem m' mem',
  finish P cx ts masm il m mem = Done (m', mem') ->
  length (absoluteLinks (staticLinkData_ m'))
  = length (absoluteLinks (staticLinkData_ m)) /\
  forall imm, (imm < length (absoluteLinks (staticLinkData_ m)))%nat ->
    nth imm (absoluteLinks (staticLinkData_ m')) []
    = nth imm (absoluteLinks (staticLinkData_ m)) []
      ++ appended_absoluteLinks P masm imm.
Proof.
  intros P cx ts masm il m mem m' mem' H.
  destruct (finish_staticLinkData _ _ _ _ _ _ _ _ _ H) as (_ & Habs & _).
  rewrite Habs. unfold appended_absoluteLinks.
  apply (fold_append_absoluteLink (imm_index (arch P)) (actualOffset masm)).
Qed.

(** The theorem for the example: the link to [ToInt32] at offset 56. *)
Lemma finish_absolute_links_witness :
  nth (imm_index X86 AsmJSImm_ToInt32)
    (absoluteLinks (staticLinkData_ (Examples.example_module 65536))) []
  = [56].
Proof.
  destruct (finish_absolute_links (LittleEndian.x86 true)
              (LittleEndian.example_cx 65536 [1] None)
              Examples.example_tokenStream Examples.example_masm 100
              Examples.example_unfinished Examples.zero_memory
              (Examples.example_module 65536)
              (store_bytes (zero_fill Examples.zero_memory 65536 4096) 65536
                 (firstn 124 Examples.example_code))
              ltac:(vm_compute; reflexivity)) as [_ H].
  rewrite (H (imm_index X86 AsmJSImm_ToInt32))
    by (apply Nat.ltb_lt; reflexivity).
  reflexivity.
Defined.

(** X24.  When [finish] returns [true], the interrupt exit offset is the
    corrected offset of the label, and the relative links are the ones the
    module had, then one [CodeLabel] link per use of a code label of the
    assembler, aimed at the corrected offset of the label's source, then, on
    x86, one [InstructionImmediate] link per global access of the assembler,
    aimed at its offset in the global data that follows the code; on MIPS
    one per long jump; on the other builds none. *)
Theorem finish_relative_links : forall P cx ts masm il m mem m' mem',
  finish P cx ts masm il m mem = Done (m', mem') ->
  interruptExitOffset (staticLinkData_ m') = actualOffset masm il /\
  exists labelLinks,
    relativeLinks (staticLinkData_ m')
    = relativeLinks (staticLinkData_ m) ++ labelLinks ++
      match arch P with
      | X86 =>
          map (fun a => RelativeLink.mk RelativeLink.InstructionImmediate
                          (labelOffsetToPatchOffset masm (fst a))
                          (codeBytes_ (pod m') + snd a))
            (asmJSGlobalAccesses masm)
      | MIPS =>
          map (fun j => RelativeLink.mk RelativeLink.InstructionImmediate j
                          (ExtractLuiOriValue (asm P) mem' (code_ m' + j)
                           - uint32 (code_ m')))
            (longJumps masm)
      | _ => []
      end /\
    Forall (codeLabel_link masm) labelLinks.
Proof.
  intros P cx ts masm il m mem m' mem' H.
  destruct (finish_staticLinkData _ _ _ _ _ _ _ _ _ H) as (Hi & _ & Hrel).
  split; assumption.
Qed.

(** The assembler of the example with an access to the global datum at
    offset 8, patched at offset 20. *)
Definition example_masm_global : MacroAssembler :=
  mkMasm 124 (firstn 124 Examples.example_code) (fun o => o) (fun o => o)
    [mkHeapAccess 44 0 6] [Examples.call_f; Examples.call_ext]
    [(AsmJSImm_ToInt32, 56)] [] [(20, 8)] []
    (fun mem _ _ _ _ => mem) (fun f => f) (fun e => e).

(** The theorem for this assembler: the link of the module, then the link
    of the global access, to offset 128 + 8. *)
Lemma finish_relative_links_witness :
  exists m' mem',
    finish (LittleEndian.x86 true) (LittleEndian.example_cx 65536 [1] None)
      Examples.example_tokenStream example_masm_global 100
      Examples.example_unfinished Examples.zero_memory = Done (m', mem') /\
    relativeLinks (staticLinkData_ m')
    = [RelativeLink.mk RelativeLink.RawPointer 144 24;
       RelativeLink.mk RelativeLink.InstructionImmediate 20 136].
Proof.
  eexists. eexists. split; [vm_compute; reflexivity|].
  match goal with
  | |- relativeLinks (staticLinkData_ ?m') = _ =>
      destruct (finish_relative_links (LittleEndian.x86 true)
                  (LittleEndian.example_cx 65536 [1] None)
                  Examples.example_tokenStream example_masm_global 100
                  Examples.example_unfinished Examples.zero_memory m'
                  (store_bytes (zero_fill Examples.zero_memory 65536 4096)
                     65536 (firstn 124 Examples.example_code))
                  ltac:(vm_compute; reflexivity))
        as (_ & labelLinks & Hrel & Hlabels)
  end.
  rewrite Hrel. destruct Hlabels as [|link ls (_ & label & [] & _) _].
  reflexivity.
Defined.

(** X25.  When [finish] returns [true] on a build other than x64, the code
    of the module is the address the mapping returned; the image holds the
    bytes of the assembler from its first byte on and zero in the rest of
    the mapping; no byte outside the mapping and the copy is changed. *)
Theorem finish_image : forall P cx ts masm il m mem m' mem',
  arch P <> X64 ->
  finish P cx ts masm il m mem = Done (m', mem') ->
  let code := code_ m' in
  let copied := Z.of_nat (length (masm_code masm)) in
  cx_mmap cx = Some code /\
  (forall i, (i < length (masm_code masm))%nat ->
     mem' (code + Z.of_nat i) = nth i (masm_code masm) 0) /\
  (forall x, code + copied <= x < code + totalBytes_ (pod m') ->
     mem' x = 0) /\
  (forall x, ~ code <= x < code + totalBytes_ (pod m') ->
     ~ code <= x < code + copied -> mem' x = mem x).
Proof.
  intros P cx ts masm il m mem m' mem' Harch H code copied.
  destruct (finish_memory _ _ _ _ _ _ _ _ _ Harch H) as [Hmap Hmem].
  fold code in Hmap, Hmem. split; [exact Hmap|]. rewrite Hmem.
  split; [|split].
  - intros i Hi. apply store_bytes_inside. exact Hi.
  - intros x Hx. rewrite store_bytes_outside by (fold copied; lia).
    unfold zero_fill.
    destruct (Z.leb_spec code x); destruct (Z.ltb_spec x (code + totalBytes_ (pod m')));
      simpl; try reflexivity; lia.
  - intros x Hx Hc. rewrite store_bytes_outside by (fold copied; lia).
    unfold zero_fill.
    destruct (Z.leb_spec code x); destruct (Z.ltb_spec x (code + totalBytes_ (pod m')));
      simpl; try reflexivity; lia.
Qed.

(** The theorem for the example: byte 27 of the code, the first byte of the
    global data, and a byte after the mapping. *)
Lemma finish_image_witness :
  store_bytes (zero_fill Examples.zero_memory 65536 4096) 65536
    (firstn 124 Examples.example_code) (65536 + 27)
  = nth 27 (firstn 124 Examples.example_code) 0 /\
  store_bytes (zero_fill Examples.zero_memory 65536 4096) 65536
    (firstn 124 Examples.example_code) (65536 + 128) = 0 /\
  store_bytes (zero_fill Examples.zero_memory 65536 4096) 65536
    (firstn 124 Examples.example_code) 70000
  = Examples.zero_memory 70000.
Proof.
  destruct (finish_image (LittleEndian.x86 true)
              (LittleEndian.example_cx 65536 [1] None)
              Examples.example_tokenStream Examples.example_masm 100
              Examples.example_unfinished Examples.zero_memory
              (Examples.example_module 65536)
              (store_bytes (zero_fill Examples.zero_memory 65536 4096) 65536
                 (firstn 124 Examples.example_code))
              ltac:(discriminate) ltac:(vm_compute; reflexivity))
    as (_ & Hcode & Hzero & Hout).
  split; [|split].
  - apply (Hcode 27%nat). apply Nat.ltb_lt. reflexivity.
  - apply Hzero. split; [apply Z.leb_le|apply Z.ltb_lt]; vm_compute;
      reflexivity.
  - apply Hout; intros [_ H2]; apply Z.ltb_lt in H2; vm_compute in H2;
      discriminate.
Defined.

(** X26.  When the executable mapping cannot be made, [finish] never
    returns [true]; in a build without assertions it returns [false]. *)
Theorem finish_mapping_fails : forall P cx ts masm il m mem,
  cx_mmap cx = None ->
  (forall r, finish P cx ts masm il m mem <> Done r) /\
  (DEBUG P = false -> finish P cx ts masm il m mem = Failed).
Proof.
  intros P cx ts masm il m mem Hmap. unfold finish, AllocateExecutableMemory.
  rewrite Hmap, Z.eqb_refl. split.
  - intros r. destruct (negb _); [discriminate|].
    destruct (negb _); discriminate.
  - intros HD. unfold JS_ASSERT. rewrite HD. reflexivity.
Qed.

(** The theorem for the example with a mapping that fails. *)
Lemma finish_mapping_fails_witness :
  finish (LittleEndian.x86 false)
    (mkContext false None 3221221376 3221221380 3221221384
       (Some (Some [1])) (Some None) (Some (fun _ => true)))
    Examples.example_tokenStream Examples.example_masm 100
    Examples.example_unfinished Examples.zero_memory = Failed.
Proof.
  apply (finish_mapping_fails (LittleEndian.x86 false)); reflexivity.
Defined.

(** ** initHeap and restoreToInitialState on x86: the patched values *)

Lemma ForallOrdPairs_app_l : forall {A} (R : A -> A -> Prop) l1 l2,
  ForallOrdPairs R (l1 ++ l2) -> ForallOrdPairs R l1.
Proof.
  intros A R l1 l2. induction l1 as [|a l1 IH]; simpl; intros H.
  - constructor.
  - inversion H as [|? ? Ha Hl]; subst. constructor.
    + apply Forall_app in Ha. tauto.
    + exact (IH Hl).
Qed.

Lemma ForallOrdPairs_app_r : forall {A} (R : A -> A -> Prop) l1 l2,
  ForallOrdPairs R (l1 ++ l2) -> ForallOrdPairs R l2.
Proof.
  intros A R l1 l2. induction l1 as [|a l1 IH]; simpl; intros H.
  - exact H.
  - inversion H; subst. auto.
Qed.

Lemma ForallOrdPairs_app_cross : forall {A} (R : A -> A -> Prop) l1 l2,
  ForallOrdPairs R (l1 ++ l2) ->
  forall x y, In x l1 -> In y l2 -> R x y.
Proof.
  intros A R l1 l2. induction l1 as [|a l1 IH]; simpl; intros H x y Hx Hy.
  - contradiction.
  - inversion H as [|? ? Ha Hl]; subst. destruct Hx as [<-|Hx].
    + rewrite Forall_forall in Ha. apply Ha. apply in_or_app. right. exact Hy.
    + exact (IH Hl x y Hx Hy).
Qed.

(** Two memories hold the same bytes in the spans. *)
Definition agree_on (spans : list Span) (m1 m2 : Memory) : Prop :=
  forall s x, In s spans -> in_span s x -> m1 x = m2 x.

Lemma f_get_agree : forall F spans p m1 m2,
  field_ok F -> In (field_span F p) spans -> agree_on spans m1 m2 ->
  f_get F m1 p = f_get F m2 p.
Proof.
  intros F spans p m1 m2 HF Hin Hag. apply (get_local F HF).
  intros a Ha. exact (Hag _ a Hin Ha).
Qed.

(** A loop whose steps read and write the spans of their element only, over
    elements whose spans do not meet: what a step does to its spans is what
    the loop does to them. *)
Lemma fold_local_effect : forall {A} (f : option Memory -> A -> option Memory)
  (spans : A -> list Span) (Q : A -> Memory -> Memory -> Prop),
  (forall a, f None a = None) ->
  (forall a mem mem', f (Some mem) a = Some mem' ->
     forall x, outside (spans a) x -> mem' x = mem x) ->
  (forall a mem mem', ForallOrdPairs spans_disjoint (spans a) ->
     f (Some mem) a = Some mem' -> Q a mem mem') ->
  (forall a m1 m2 m1' m2', Q a m1 m2 ->
     agree_on (spans a) m1 m1' -> agree_on (spans a) m2 m2' -> Q a m1' m2') ->
  forall l mem memF,
    ForallOrdPairs spans_disjoint (flat_map spans l) ->
    fold_left f l (Some mem) = Some memF ->
    forall a, In a l -> Q a mem memF.
Proof.
  intros A f spans Q Hnone Hframe Heffect Hext.
  induction l as [|a0 l IH]; intros mem memF Hdis H a Ha; [contradiction|].
  simpl in H, Hdis.
  destruct (f (Some mem) a0) as [mem2|] eqn:Hstep;
    [|rewrite (fold_left_None f l Hnone) in H; discriminate].
  destruct Ha as [<-|Ha].
  - apply (Hext a0 mem mem2 mem memF).
    + apply Heffect; [|exact Hstep]. exact (ForallOrdPairs_app_l _ _ _ Hdis).
    + intros s x _ _. reflexivity.
    + intros s x Hs Hx. symmetry.
      apply (fold_frame_opt f spans Hnone Hframe l mem2 memF H).
      intros s' Hs'.
      exact (ForallOrdPairs_app_cross _ _ _ Hdis s s' Hs Hs' x Hx).
  - apply (Hext a mem2 memF mem memF).
    + exact (IH mem2 memF (ForallOrdPairs_app_r _ _ _ Hdis) H a Ha).
    + intros s x Hs Hx. apply (Hframe a0 mem mem2 Hstep).
      intros s' Hs' Hx'.
      refine (ForallOrdPairs_app_cross _ _ _ Hdis s' s Hs' _ x Hx' Hx).
      apply in_flat_map. exists a. split; assumption.
    + intros s x _ _. reflexivity.
Qed.

Section HeapPatchesX86.

Variable P : Platform.
Hypothesis Harch : arch P = X86.
Hypothesis HX : field_ok (x86Pointer (asm P)).

(** The heap length that [initHeap] leaves in the length check of an
    access, and the displacement it leaves in the access itself: the base of
    the heap plus the displacement assembled. *)
Definition initHeap_patched (code heapOffset heapLength : Z)
  (a : AsmJSHeapAccess) (mem mem' : Memory) : Prop :=
  (hasLengthCheck a = true ->
   f_valid (x86Pointer (asm P)) (patchLengthAt a code) heapLength = true ->
   f_get (x86Pointer (asm P)) mem' (patchLengthAt a code) = heapLength) /\
  let disp := uint32 (f_get (x86Pointer (asm P)) mem (patchOffsetAt a code)) in
  (f_valid (x86Pointer (asm P)) (patchOffsetAt a code) (heapOffset + disp)
   = true ->
   f_get (x86Pointer (asm P)) mem' (patchOffsetAt a code) = heapOffset + disp).

(** The displacement that [restoreToInitialState] leaves in an access. *)
Definition restore_patched (code ptrBase : Z) (a : AsmJSHeapAccess)
  (mem mem' : Memory) : Prop :=
  let ptr := f_get (x86Pointer (asm P)) mem (patchOffsetAt a code) in
  f_valid (x86Pointer (asm P)) (patchOffsetAt a code) (ptr - ptrBase) = true ->
  f_get (x86Pointer (asm P)) mem' (patchOffsetAt a code) = ptr - ptrBase.

Lemma access_spans_x86 : forall code a,
  access_spans P code a
  = (if hasLengthCheck a
     then [field_span (x86Pointer (asm P)) (patchLengthAt a code)] else [])
    ++ [field_span (x86Pointer (asm P)) (patchOffsetAt a code)].
Proof. intros code a. unfold access_spans. rewrite Harch. reflexivity. Qed.

Lemma offset_span_in : forall code a,
  In (field_span (x86Pointer (asm P)) (patchOffsetAt a code))
     (access_spans P code a).
Proof.
  intros code a. rewrite access_spans_x86. apply in_or_app. right. left.
  reflexivity.
Qed.

Lemma length_span_in : forall code a,
  hasLengthCheck a = true ->
  In (field_span (x86Pointer (asm P)) (patchLengthAt a code))
     (access_spans P code a).
Proof.
  intros code a H. rewrite access_spans_x86, H. left. reflexivity.
Qed.

Lemma initHeap_x86_access_frame : forall code heapOffset heapLength a mem mem',
  initHeap_x86_access P code heapOffset heapLength (Some mem) a = Some mem' ->
  forall x, outside (access_spans P code a) x -> mem' x = mem x.
Proof.
  intros code heapOffset heapLength a mem mem' H x Hx.
  unfold initHeap_x86_access in H.
  destruct (JS_ASSERT _ _); [|discriminate]. injection H as <-.
  rewrite (set_frame _ HX) by (apply (Hx _ (offset_span_in code a))).
  destruct (hasLengthCheck a) eqn:Hc; [|reflexivity].
  apply (set_frame _ HX). exact (Hx _ (length_span_in code a Hc)).
Qed.

Lemma initHeap_x86_access_effect : forall code heapOffset heapLength a mem mem',
  ForallOrdPairs spans_disjoint (access_spans P code a) ->
  initHeap_x86_access P code heapOffset heapLength (Some mem) a = Some mem' ->
  initHeap_patched code heapOffset heapLength a mem mem'.
Proof.
  intros code heapOffset heapLength a mem mem' Hdis H.
  unfold initHeap_x86_access in H.
  destruct (JS_ASSERT _ _); [|discriminate]. injection H as <-.
  rewrite access_spans_x86 in Hdis. unfold initHeap_patched.
  destruct (hasLengthCheck a) eqn:Hc.
  - simpl in Hdis. inversion Hdis as [|? ? Hhead _]; subst.
    inversion Hhead as [|? ? Hlo _]; subst.
    assert (Hread : f_get (x86Pointer (asm P))
                      (f_set (x86Pointer (asm P)) mem (patchLengthAt a code)
                         heapLength) (patchOffsetAt a code)
                    = f_get (x86Pointer (asm P)) mem (patchOffsetAt a code)).
    { apply (get_local _ HX). intros x Hx. apply (set_frame _ HX).
      intros Hl. exact (Hlo x Hl Hx). }
    rewrite Hread. split.
    + intros _ Hv.
      rewrite <- (get_set _ HX mem (patchLengthAt a code) heapLength Hv) at 2.
      apply (get_local _ HX). intros x Hx. apply (set_frame _ HX).
      intros Ho. exact (Hlo x Hx Ho).
    + intros Hv. apply (get_set _ HX). exact Hv.
  - split; [discriminate|]. intros Hv. apply (get_set _ HX). exact Hv.
Qed.

Lemma initHeap_patched_ext : forall code heapOffset heapLength a m1 m2 m1' m2',
  initHeap_patched code heapOffset heapLength a m1 m2 ->
  agree_on (access_spans P code a) m1 m1' ->
  agree_on (access_spans P code a) m2 m2' ->
  initHeap_patched code heapOffset heapLength a m1' m2'.
Proof.
  intros code heapOffset heapLength a m1 m2 m1' m2' [Hl Ho] H1 H2.
  unfold initHeap_patched.
  rewrite <- (f_get_agree _ _ _ m1 m1' HX (offset_span_in code a) H1).
  rewrite <- (f_get_agree _ _ _ m2 m2' HX (offset_span_in code a) H2).
  split; [|exact Ho]. intros Hc Hv.
  rewrite <- (f_get_agree _ _ _ m2 m2' HX (length_span_in code a Hc) H2).
  exact (Hl Hc Hv).
Qed.

Lemma restore_x86_access_frame : forall code ptrBase a mem mem',
  restore_x86_access P code ptrBase (Some mem) a = Some mem' ->
  forall x, outside (access_spans P code a) x -> mem' x = mem x.
Proof.
  intros code ptrBase a mem mem' H x Hx. unfold restore_x86_access in H.
  destruct (JS_ASSERT _ _); [|discriminate]. injection H as <-.
  apply (set_frame _ HX). exact (Hx _ (offset_span_in code a)).
Qed.

Lemma restore_x86_access_effect : forall code ptrBase a mem mem',
  restore_x86_access P code ptrBase (Some mem) a = Some mem' ->
  restore_patched code ptrBase a mem mem'.
Proof.
  intros code ptrBase a mem mem' H. unfold restore_x86_access in H.
  destruct (JS_ASSERT _ _); [|discriminate]. injection H as <-.
  unfold restore_patched. intros Hv. apply (get_set _ HX). exact Hv.
Qed.

Lemma restore_patched_ext : forall code ptrBase a m1 m2 m1' m2',
  restore_patched code ptrBase a m1 m2 ->
  agree_on (access_spans P code a) m1 m1' ->
  agree_on (access_spans P code a) m2 m2' ->
  restore_patched code ptrBase a m1' m2'.
Proof.
  intros code ptrBase a m1 m2 m1' m2' H H1 H2. unfold restore_patched in *.
  rewrite <- (f_get_agree _ _ _ m1 m1' HX (offset_span_in code a) H1).
  rewrite <- (f_get_agree _ _ _ m2 m2' HX (offset_span_in code a) H2).
  exact H.
Qed.

(** The x86 loop of [initHeap]. *)
Lemma initHeap_x86_loop : forall code heapOffset heapLength accesses mem mem',
  ForallOrdPairs spans_disjoint (flat_map (access_spans P code) accesses) ->
  fold_left (initHeap_x86_access P code heapOffset heapLength) accesses
    (Some mem) = Some mem' ->
  forall a, In a accesses ->
    initHeap_patched code heapOffset heapLength a mem mem'.
Proof.
  intros code heapOffset heapLength.
  apply (fold_local_effect
           (initHeap_x86_access P code heapOffset heapLength)
           (access_spans P code)
           (initHeap_patched code heapOffset heapLength)).
  - reflexivity.
  - apply initHeap_x86_access_frame.
  - apply initHeap_x86_access_effect.
  - apply initHeap_patched_ext.
Qed.

(** The x86 loop of [restoreToInitialState]. *)
Lemma restore_x86_loop : forall code ptrBase accesses mem mem',
  ForallOrdPairs spans_disjoint (flat_map (access_spans P code) accesses) ->
  fold_left (restore_x86_access P code ptrBase) accesses (Some mem)
  = Some mem' ->
  forall a, In a accesses -> restore_patched code ptrBase a mem mem'.
Proof.
  intros code ptrBase.
  apply (fold_local_effect (restore_x86_access P code ptrBase)
           (access_spans P code) (restore_patched code ptrBase)).
  - reflexivity.
  - apply restore_x86_access_frame.
  - intros a mem mem' _. apply restore_x86_access_effect.
  - apply restore_patched_ext.
Qed.

End HeapPatchesX86.

(** The accesses after [initHeap] on x86. *)
Lemma initHeap_x86_accesses : forall P heap m mem m' mem',
  arch P = X86 ->
  field_framed (rawPointer (asm P)) -> field_ok (x86Pointer (asm P)) ->
  ForallOrdPairs spans_disjoint (heap_spans P m) ->
  initHeap P heap m mem = Some (m', mem') ->
  forall a, In a (heapAccesses_ m) ->
    initHeap_patched P (code_ m) (dataPointer heap) (byteLength heap) a
      mem mem'.
Proof.
  intros P heap m mem m' mem' Harch HR HX Hdis H a Ha.
  unfold initHeap in H. destruct (negb _); [discriminate|].
  rewrite Harch in H. cbn [code_ heapAccesses_ set_maybeHeap_] in H.
  destruct (fold_left _ _ _) as [memF|] eqn:Hfold; [|discriminate].
  injection H as _ <-.
  unfold heap_spans in Hdis. inversion Hdis as [|? ? Hhead Htail]; subst.
  apply (initHeap_patched_ext P Harch HX _ _ _ a _ memF mem memF
           (initHeap_x86_loop P Harch HX _ _ _ _ _ _ Htail Hfold a Ha)).
  - intros s x Hs Hx. apply HR. intros Hd.
    rewrite Forall_forall in Hhead.
    refine (Hhead s _ x Hd Hx). apply in_flat_map. exists a. split; assumption.
  - intros s x _ _. reflexivity.
Qed.

(** X27.  On x86, on a module whose heap datum and patched fields of heap
    accesses do not overlap, when [initHeap] returns: the heap datum holds
    the base of the heap; the length check of every access that has one
    holds the length of the heap; the displacement of every access holds
    the base of the heap plus the displacement it held before (each for a
    value that its field can hold). *)
Theorem initHeap_x86_patches : forall P heap m mem m' mem',
  arch P = X86 ->
  field_ok (rawPointer (asm P)) -> field_ok (x86Pointer (asm P)) ->
  ForallOrdPairs spans_disjoint (heap_spans P m) ->
  initHeap P heap m mem = Some (m', mem') ->
  (f_valid (rawPointer (asm P)) (heapDatum P m) (dataPointer heap) = true ->
   f_get (rawPointer (asm P)) mem' (heapDatum P m) = dataPointer heap) /\
  forall a, In a (heapAccesses_ m) ->
    (hasLengthCheck a = true ->
     f_valid (x86Pointer (asm P)) (patchLengthAt a (code_ m))
       (byteLength heap) = true ->
     f_get (x86Pointer (asm P)) mem' (patchLengthAt a (code_ m))
     = byteLength heap) /\
    let disp := uint32 (f_get (x86Pointer (asm P)) mem
                          (patchOffsetAt a (code_ m))) in
    (f_valid (x86Pointer (asm P)) (patchOffsetAt a (code_ m))
       (dataPointer heap + disp) = true ->
     f_get (x86Pointer (asm P)) mem' (patchOffsetAt a (code_ m))
     = dataPointer heap + disp).
Proof.
  intros P heap m mem m' mem' Harch HR HX Hdis H. split.
  - intros Hv. unfold initHeap in H. destruct (negb _); [discriminate|].
    rewrite Harch in H. cbn [code_ heapAccesses_ set_maybeHeap_] in H.
    destruct (fold_left _ _ _) as [memF|] eqn:Hfold; [|discriminate].
    injection H as _ <-.
    unfold heap_spans in Hdis. inversion Hdis as [|? ? Hhead _]; subst.
    change (heapDatum P (set_maybeHeap_ m (Some heap))) with (heapDatum P m)
      in Hfold.
    transitivity (f_get (rawPointer (asm P))
                    (f_set (rawPointer (asm P)) mem (heapDatum P m)
                       (dataPointer heap)) (heapDatum P m));
      [|exact (get_set _ HR mem (heapDatum P m) (dataPointer heap) Hv)].
    apply (get_local _ HR). intros x Hx.
    apply (fold_frame_opt _ (access_spans P (code_ m)) (fun _ => eq_refl)
             (initHeap_x86_access_frame P Harch HX _ _ _) _ _ _ Hfold).
    intros s Hs Hin. rewrite Forall_forall in Hhead.
    exact (Hhead s Hs x Hx Hin).
  - intros a Ha.
    exact (initHeap_x86_accesses P heap m mem m' mem' Harch
             (field_ok_framed _ HR) HX Hdis H a Ha).
Qed.

(** The example with a heap access at 44 whose length check ends at 38 and
    whose displacement ends at 50 and holds 8. *)
Definition example_heap_module : AsmJSModule :=
  set_heapAccesses_ (Examples.example_linked 65536) [mkHeapAccess 44 6 6].

Definition example_heap_memory : Memory :=
  store_bytes (Examples.example_linked_memory 65536) (65536 + 46)
    (LittleEndian.le_bytes 4 8).

Lemma example_heap_spans_disjoint :
  ForallOrdPairs spans_disjoint
    (heap_spans (LittleEndian.x86 true) example_heap_module
     ++ link_spans (LittleEndian.x86 true) example_heap_module).
Proof.
  assert (Hlt : forall a b c d : Z,
            a + b <= c \/ c + d <= a -> spans_disjoint (a, b) (c, d)).
  { intros a b c d H x [H1 H2] [H3 H4]. simpl in *. lia. }
  vm_compute heap_spans. vm_compute link_spans.
  repeat (constructor;
          [repeat (constructor;
                   [apply Hlt; vm_compute;
                    first [left; discriminate | right; discriminate]|]);
           constructor|]).
  constructor.
Defined.

(** The theorem for this example and a heap of 4096 bytes at 1048576. *)
Lemma initHeap_x86_patches_witness :
  exists m' mem',
    initHeap (LittleEndian.x86 true) (mkArrayBuffer 4096 1048576)
      example_heap_module example_heap_memory = Some (m', mem') /\
    f_get (rawPointer LittleEndian.x86_asm) mem'
      (heapDatum (LittleEndian.x86 true) example_heap_module) = 1048576 /\
    f_get (x86Pointer LittleEndian.x86_asm) mem' (65536 + 38) = 4096 /\
    f_get (x86Pointer LittleEndian.x86_asm) mem' (65536 + 50) = 1048576 + 8.
Proof.
  destruct (initHeap (LittleEndian.x86 true) (mkArrayBuffer 4096 1048576)
              example_heap_module example_heap_memory)
    as [[m' mem']|] eqn:H; [|vm_compute in H; discriminate].
  exists m', mem'. split; [reflexivity|].
  destruct (initHeap_x86_patches (LittleEndian.x86 true)
              (mkArrayBuffer 4096 1048576) example_heap_module
              example_heap_memory m' mem' eq_refl
              (le_field_ok 0 4) (le_field_ok (-4) 4)
              (ForallOrdPairs_app_l _ _ _ example_heap_spans_disjoint) H)
    as [Hdatum Haccess].
  split; [exact (Hdatum eq_refl)|].
  destruct (Haccess (mkHeapAccess 44 6 6) (or_introl eq_refl))
    as [Hlength Hdisp].
  split; [exact (Hlength eq_refl eq_refl)|].
  exact (Hdisp eq_refl).
Defined.

(** X28.  On x86, on a module whose patched fields do not overlap, when
    [initHeap] has bound a heap and [restoreToInitialState] is then called
    with this heap and returns, the displacement of every heap access holds
    the 32-bit displacement it held before [initHeap], when its field can
    hold this displacement and its sum with the base of the heap. *)
Theorem restoreToInitialState_undoes_initHeap :
  forall P heap cx m mem m' mem' mem'',
  arch P = X86 -> asm_framed (asm P) -> field_ok (x86Pointer (asm P)) ->
  ForallOrdPairs spans_disjoint (heap_spans P m ++ link_spans P m) ->
  initHeap P heap m mem = Some (m', mem') ->
  restoreToInitialState P (Some heap) cx m' mem' = Some mem'' ->
  forall a, In a (heapAccesses_ m) ->
    let addr := patchOffsetAt a (code_ m) in
    let disp := f_get (x86Pointer (asm P)) mem addr in
    0 <= disp < 2 ^ 32 ->
    f_valid (x86Pointer (asm P)) addr (dataPointer heap + disp) = true ->
    f_valid (x86Pointer (asm P)) addr disp = true ->
    f_get (x86Pointer (asm P)) mem'' addr = disp.
Proof.
  intros P heap cx m mem m' mem' mem'' Harch HA HX Hdis Hinit Hrestore a Ha
    addr disp Hd Hv1 Hv2.
  pose proof (ForallOrdPairs_app_l _ _ _ Hdis) as Hheap.
  destruct (initHeap_x86_accesses P heap m mem m' mem' Harch
              (framed_rawPointer _ HA) HX Hheap Hinit a Ha) as [_ Hpatched].
  fold addr in Hpatched. fold disp in Hpatched. cbv zeta in Hpatched.
  assert (Hu : uint32 disp = disp) by (apply uint32_small; exact Hd).
  rewrite Hu in Hpatched. specialize (Hpatched Hv1).
  rewrite (initHeap_module P heap m mem m' mem' Hinit) in Hrestore.
  unfold restoreToInitialState in Hrestore.
  cbn [code_ heapAccesses_ set_maybeHeap_] in Hrestore.
  destruct (if DEBUG P then _ else Some mem') as [mem1|] eqn:H1;
    [|discriminate].
  rewrite Harch in Hrestore.
  assert (Hagree : agree_on (access_spans P (code_ m) a) mem1 mem').
  { intros s x Hs Hx. destruct (DEBUG P); [|injection H1 as <-; reflexivity].
    apply (patch_absoluteLinks_frame P HA _ _ _ _ _ _ H1).
    intros s' Hs' Hx'.
    refine (ForallOrdPairs_app_cross _ _ _ Hdis s s' _ _ x Hx Hx').
    - unfold heap_spans. right. apply in_flat_map. exists a.
      split; assumption.
    - unfold link_spans. apply in_flat_map in Hs'.
      destruct Hs' as [offsets [Hin Hs']].
      apply in_flat_map. exists offsets. split; [|exact Hs'].
      unfold absoluteLinks_by_kind in Hin.
      exact (in_map_snd_combine _ _ _ Hin). }
  unfold heap_spans in Hheap. inversion Hheap as [|? ? _ Htail]; subst.
  pose proof (restore_x86_loop P Harch HX _ _ _ _ _ Htail Hrestore a Ha)
    as Hrest.
  apply (restore_patched_ext P Harch HX _ _ a mem1 mem'' mem' mem'') in Hrest;
    [|exact Hagree|intros s x _ _; reflexivity].
  unfold restore_patched in Hrest. fold addr in Hrest. cbv zeta in Hrest.
  rewrite Hpatched in Hrest.
  replace (dataPointer heap + disp - dataPointer heap) with disp in Hrest
    by lia.
  exact (Hrest Hv2).
Qed.

(** The theorem for the example: the displacement holds 8 again. *)
Lemma restoreToInitialState_undoes_initHeap_witness :
  exists m' mem' mem'',
    initHeap (LittleEndian.x86 true) (mkArrayBuffer 4096 1048576)
      example_heap_module example_heap_memory = Some (m', mem') /\
    restoreToInitialState (LittleEndian.x86 true)
      (Some (mkArrayBuffer 4096 1048576))
      (LittleEndian.example_cx 131072 [1] None) m' mem' = Some mem'' /\
    f_get (x86Pointer LittleEndian.x86_asm) mem'' (65536 + 50) = 8.
Proof.
  destruct (initHeap (LittleEndian.x86 true) (mkArrayBuffer 4096 1048576)
              example_heap_module example_heap_memory)
    as [[m' mem']|] eqn:H; [|vm_compute in H; discriminate].
  assert (Hm : m' = set_maybeHeap_ example_heap_module
                      (Some (mkArrayBuffer 4096 1048576)))
    by exact (initHeap_module _ _ _ _ _ _ H).
  destruct (restoreToInitialState (LittleEndian.x86 true)
              (Some (mkArrayBuffer 4096 1048576))
              (LittleEndian.example_cx 131072 [1] None) m' mem')
    as [mem''|] eqn:Hr.
  - exists m', mem', mem''. split; [reflexivity|]. split; [exact Hr|].
    exact (restoreToInitialState_undoes_initHeap (LittleEndian.x86 true)
             (mkArrayBuffer 4096 1048576)
             (LittleEndian.example_cx 131072 [1] None) example_heap_module
             example_heap_memory m' mem' mem'' eq_refl x86_asm_framed
             (le_field_ok (-4) 4) example_heap_spans_disjoint H Hr
             (mkHeapAccess 44 6 6) (or_introl eq_refl)
             ltac:(vm_compute; split; [discriminate|reflexivity])
             eq_refl eq_refl).
  - exfalso. subst m'. unfold initHeap in H. vm_compute in H.
    injection H as <-. vm_compute in Hr. discriminate.
Defined.

(** ** initHeap: the heap bound and the code patched *)

(** The loop of [fold_local_effect] when no step can stop. *)
Lemma fold_local_effect_total : forall {A} (f : Memory -> A -> Memory)
  (spans : A -> list Span) (Q : A -> Memory -> Memory -> Prop),
  (forall a mem x, outside (spans a) x -> f mem a x = mem x) ->
  (forall a mem, ForallOrdPairs spans_disjoint (spans a) -> Q a mem (f mem a)) ->
  (forall a m1 m2 m1' m2', Q a m1 m2 ->
     agree_on (spans a) m1 m1' -> agree_on (spans a) m2 m2' -> Q a m1' m2') ->
  forall l mem,
    ForallOrdPairs spans_disjoint (flat_map spans l) ->
    forall a, In a l -> Q a mem (fold_left f l mem).
Proof.
  intros A f spans Q Hframe Heffect Hext.
  induction l as [|a0 l IH]; intros mem Hdis a Ha; [contradiction|].
  simpl in Hdis. cbn [fold_left]. destruct Ha as [<-|Ha].
  - apply (Hext a0 mem (f mem a0) mem (fold_left f l (f mem a0))).
    + apply Heffect. exact (ForallOrdPairs_app_l _ _ _ Hdis).
    + intros s x _ _. reflexivity.
    + intros s x Hs Hx. symmetry. apply (fold_frame f spans Hframe).
      intros s' Hs'.
      exact (ForallOrdPairs_app_cross _ _ _ Hdis s s' Hs Hs' x Hx).
  - apply (Hext a (f mem a0) (fold_left f l (f mem a0)) mem
             (fold_left f l (f mem a0))).
    + exact (IH (f mem a0) (ForallOrdPairs_app_r _ _ _ Hdis) a Ha).
    + intros s x Hs Hx. apply Hframe. intros s' Hs' Hx'.
      refine (ForallOrdPairs_app_cross _ _ _ Hdis s' s Hs' _ x Hx' Hx).
      apply in_flat_map. exists a. split; assumption.
    + intros s x _ _. reflexivity.
Qed.

(** What [initHeap] leaves in the code for one heap access, given the
    memory before it: on x86 the length of the heap in the length check and
    the base of the heap added to the displacement; on x64, unless signal
    handlers catch the accesses out of bounds, the length of the heap as an
    [int32_t] in the length check; on ARM and MIPS the length of the heap in
    the bounds check.  Each for a value that the field can hold. *)
Definition heapAccess_patched (P : Platform) (heap : ArrayBufferObject)
  (m : AsmJSModule) (a : AsmJSHeapAccess) (mem mem' : Memory) : Prop :=
  match arch P with
  | X86 =>
      initHeap_patched P (code_ m) (dataPointer heap) (byteLength heap) a
        mem mem'
  | X64 =>
      usesSignalHandlersForOOB m = false -> hasLengthCheck a = true ->
      f_valid (x86Int32 (asm P)) (patchLengthAt a (code_ m))
        (int32 (byteLength heap)) = true ->
      f_get (x86Int32 (asm P)) mem' (patchLengthAt a (code_ m))
      = int32 (byteLength heap)
  | ARM | MIPS =>
      f_valid (boundsCheck (asm P)) (ha_offset_ a + code_ m)
        (uint32 (byteLength heap)) = true ->
      f_get (boundsCheck (asm P)) mem' (ha_offset_ a + code_ m)
      = uint32 (byteLength heap)
  | NONE => True
  end.

Section InitHeapPatches.

Variable P : Platform.
Hypothesis HR : field_ok (rawPointer (asm P)).
Hypothesis HX : field_ok (x86Pointer (asm P)).
Hypothesis HI : field_ok (x86Int32 (asm P)).
Hypothesis HB : field_ok (boundsCheck (asm P)).

(** The bounds check of the ARM and MIPS loops. *)
Lemma boundsCheck_loop : forall code heapLength accesses mem,
  ForallOrdPairs spans_disjoint
    (flat_map (fun a => [field_span (boundsCheck (asm P)) (ha_offset_ a + code)])
       accesses) ->
  forall a, In a accesses ->
    f_valid (boundsCheck (asm P)) (ha_offset_ a + code) heapLength = true ->
    f_get (boundsCheck (asm P))
      (fold_left (fun mem access =>
                    f_set (boundsCheck (asm P)) mem
                      (ha_offset_ access + code) heapLength)
         accesses mem) (ha_offset_ a + code)
    = heapLength.
Proof.
  intros code heapLength accesses mem Hdis a Ha.
  apply (fold_local_effect_total
           (fun mem access =>
              f_set (boundsCheck (asm P)) mem (ha_offset_ access + code)
                heapLength)
           (fun a => [field_span (boundsCheck (asm P)) (ha_offset_ a + code)])
           (fun a _ mem' =>
              f_valid (boundsCheck (asm P)) (ha_offset_ a + code) heapLength
              = true ->
              f_get (boundsCheck (asm P)) mem' (ha_offset_ a + code)
              = heapLength)); try assumption.
  - intros a0 mem0 x Hx. apply (set_frame _ HB).
    exact (Hx _ (or_introl eq_refl)).
  - intros a0 mem0 _ Hv. apply (get_set _ HB). exact Hv.
  - intros a0 m1 m2 m1' m2' H _ H2 Hv.
    rewrite <- (f_get_agree (boundsCheck (asm P))
                  [field_span (boundsCheck (asm P)) (ha_offset_ a0 + code)]
                  (ha_offset_ a0 + code) m2 m2' HB (or_introl eq_refl) H2).
    exact (H Hv).
Qed.

(** The length check of the x64 loop. *)
Lemma x64_length_loop : forall code heapLength accesses mem,
  ForallOrdPairs spans_disjoint
    (flat_map (fun a => if hasLengthCheck a
                        then [field_span (x86Int32 (asm P))
                                (patchLengthAt a code)]
                        else []) accesses) ->
  forall a, In a accesses -> hasLengthCheck a = true ->
    f_valid (x86Int32 (asm P)) (patchLengthAt a code) heapLength = true ->
    f_get (x86Int32 (asm P))
      (fold_left (fun mem access =>
                    if hasLengthCheck access
                    then f_set (x86Int32 (asm P)) mem
                           (patchLengthAt access code) heapLength
                    else mem)
         accesses mem) (patchLengthAt a code)
    = heapLength.
Proof.
  intros code heapLength accesses mem Hdis a Ha.
  apply (fold_local_effect_total
           (fun mem access =>
              if hasLengthCheck access
              then f_set (x86Int32 (asm P)) mem (patchLengthAt access code)
                     heapLength
              else mem)
           (fun a => if hasLengthCheck a
                     then [field_span (x86Int32 (asm P))
                             (patchLengthAt a code)]
                     else [])
           (fun a _ mem' =>
              hasLengthCheck a = true ->
              f_valid (x86Int32 (asm P)) (patchLengthAt a code) heapLength
              = true ->
              f_get (x86Int32 (asm P)) mem' (patchLengthAt a code)
              = heapLength)); try assumption.
  - intros a0 mem0 x Hx. destruct (hasLengthCheck a0); [|reflexivity].
    apply (set_frame _ HI). exact (Hx _ (or_introl eq_refl)).
  - intros a0 mem0 _ Hc Hv. rewrite Hc. apply (get_set _ HI). exact Hv.
  - intros a0 m1 m2 m1' m2' H _ H2 Hc Hv.
    rewrite Hc in H2.
    rewrite <- (f_get_agree (x86Int32 (asm P))
                  [field_span (x86Int32 (asm P)) (patchLengthAt a0 code)]
                  (patchLengthAt a0 code) m2 m2' HI (or_introl eq_refl) H2).
    exact (H Hc Hv).
Qed.

(** The heap datum after [initHeap]. *)
Lemma initHeap_datum : forall heap m mem m' mem',
  ForallOrdPairs spans_disjoint (heap_spans P m) ->
  initHeap P heap m mem = Some (m', mem') ->
  f_valid (rawPointer (asm P)) (heapDatum P m) (dataPointer heap) = true ->
  f_get (rawPointer (asm P)) mem' (heapDatum P m) = dataPointer heap.
Proof.
  intros heap m mem m' mem' Hdis H Hv.
  unfold heap_spans in Hdis. inversion Hdis as [|? ? Hhead _]; subst.
  rewrite Forall_forall in Hhead.
  transitivity (f_get (rawPointer (asm P))
                  (f_set (rawPointer (asm P)) mem (heapDatum P m)
                     (dataPointer heap)) (heapDatum P m));
    [|exact (get_set _ HR mem (heapDatum P m) (dataPointer heap) Hv)].
  apply (get_local _ HR). intros x Hx.
  assert (Hout : outside (flat_map (access_spans P (code_ m))
                            (heapAccesses_ m)) x).
  { intros s Hs Hin. exact (Hhead s Hs x Hx Hin). }
  unfold initHeap in H. destruct (negb _); [discriminate|].
  cbn [code_ heapAccesses_ set_maybeHeap_] in H.
  change (heapDatum P (set_maybeHeap_ m (Some heap))) with (heapDatum P m)
    in H.
  destruct (arch P) eqn:Harch;
    [|unfold access_spans in Hout; rewrite Harch in Hout ..].
  - destruct (fold_left _ _ _) as [memF|] eqn:Hfold; [|discriminate].
    injection H as _ <-.
    exact (fold_frame_opt _ (access_spans P (code_ m)) (fun _ => eq_refl)
             (initHeap_x86_access_frame P Harch HX _ _ _) _ _ _ Hfold x Hout).
  - destruct (usesSignalHandlersForOOB _); injection H as _ <-;
      [reflexivity|].
    apply fold_frame with
      (spans := fun a =>
         if hasLengthCheck a
         then [field_span (x86Int32 (asm P)) (patchLengthAt a (code_ m))]
         else []); [|exact Hout].
    intros a mem0 y Hy. destruct (hasLengthCheck a); [|reflexivity].
    apply (set_frame _ HI). exact (Hy _ (or_introl eq_refl)).
  - injection H as _ <-.
    apply fold_frame with
      (spans := fun a =>
         [field_span (boundsCheck (asm P)) (ha_offset_ a + code_ m)]);
      [|exact Hout].
    intros a mem0 y Hy. apply (set_frame _ HB).
    exact (Hy _ (or_introl eq_refl)).
  - injection H as _ <-.
    apply fold_frame with
      (spans := fun a =>
         [field_span (boundsCheck (asm P)) (ha_offset_ a + code_ m)]);
      [|exact Hout].
    intros a mem0 y Hy. apply (set_frame _ HB).
    exact (Hy _ (or_introl eq_refl)).
  - injection H as _ <-. reflexivity.
Qed.

(** The heap accesses after [initHeap]. *)
Lemma initHeap_accesses : forall heap m mem m' mem',
  ForallOrdPairs spans_disjoint (heap_spans P m) ->
  initHeap P heap m mem = Some (m', mem') ->
  forall a, In a (heapAccesses_ m) -> heapAccess_patched P heap m a mem mem'.
Proof.
  intros heap m mem m' mem' Hdis H a Ha. unfold heapAccess_patched.
  destruct (arch P) eqn:Harch.
  - exact (initHeap_x86_accesses P heap m mem m' mem' Harch
             (field_ok_framed _ HR) HX Hdis H a Ha).
  - intros Hsig Hc Hv. unfold initHeap in H.
    destruct (negb _); [discriminate|]. rewrite Harch in H.
    cbn [code_ heapAccesses_ set_maybeHeap_] in H.
    change (usesSignalHandlersForOOB (set_maybeHeap_ m (Some heap)))
      with (usesSignalHandlersForOOB m) in H.
    rewrite Hsig in H. injection H as _ <-.
    unfold heap_spans in Hdis. inversion Hdis as [|? ? _ Htail]; subst.
    unfold access_spans in Htail. rewrite Harch in Htail.
    exact (x64_length_loop (code_ m) (int32 (byteLength heap))
             (heapAccesses_ m) _ Htail a Ha Hc Hv).
  - intros Hv. unfold initHeap in H.
    destruct (negb _); [discriminate|]. rewrite Harch in H.
    cbn [code_ heapAccesses_ set_maybeHeap_] in H. injection H as _ <-.
    unfold heap_spans in Hdis. inversion Hdis as [|? ? _ Htail]; subst.
    unfold access_spans in Htail. rewrite Harch in Htail.
    exact (boundsCheck_loop (code_ m) (uint32 (byteLength heap))
             (heapAccesses_ m) _ Htail a Ha Hv).
  - intros Hv. unfold initHeap in H.
    destruct (negb _); [discriminate|]. rewrite Harch in H.
    cbn [code_ heapAccesses_ set_maybeHeap_] in H. injection H as _ <-.
    unfold heap_spans in Hdis. inversion Hdis as [|? ? _ Htail]; subst.
    unfold access_spans in Htail. rewrite Harch in Htail.
    exact (boundsCheck_loop (code_ m) (uint32 (byteLength heap))
             (heapAccesses_ m) _ Htail a Ha Hv).
  - exact I.
Qed.

End InitHeapPatches.

(** C4.  [initHeap] has no result that rejects a heap: it is [void], and
    the length of the heap is looked at by an assertion alone, which asks
    for a valid asm.js heap length and never reads [minHeapLength].
    Whenever it returns, the heap is bound to the module and, when the heap
    datum and the patched fields of the heap accesses do not overlap, the
    heap datum holds the base of the heap and the code of every heap access
    is patched for the heap, whatever its length; with assertions it
    returns only for a valid length, on a dynamically linked module that
    has no heap; without assertions it returns for every heap. *)
Theorem initHeap_binds_every_heap : forall P heap m mem,
  (forall m' mem',
     initHeap P heap m mem = Some (m', mem') ->
     m' = set_maybeHeap_ m (Some heap) /\
     (field_ok (rawPointer (asm P)) -> field_ok (x86Pointer (asm P)) ->
      field_ok (x86Int32 (asm P)) -> field_ok (boundsCheck (asm P)) ->
      ForallOrdPairs spans_disjoint (heap_spans P m) ->
      (f_valid (rawPointer (asm P)) (heapDatum P m) (dataPointer heap) = true ->
       f_get (rawPointer (asm P)) mem' (heapDatum P m) = dataPointer heap) /\
      (forall a, In a (heapAccesses_ m) ->
         heapAccess_patched P heap m a mem mem')) /\
     (DEBUG P = true ->
        IsValidAsmJSHeapLength P (byteLength heap) = true /\
        dynamicallyLinked_ m = true /\
        maybeHeap_ m = None)) /\
  (DEBUG P = false ->
   exists mem',
     initHeap P heap m mem = Some (set_maybeHeap_ m (Some heap), mem')).
Proof.
  intros P heap m mem. split.
  - intros m' mem' H. split; [|split].
    + exact (initHeap_module P heap m mem m' mem' H).
    + intros HR HX HI HB Hdis. split.
      * exact (initHeap_datum P HR HX HI HB heap m mem m' mem' Hdis H).
      * exact (initHeap_accesses P HR HX HI HB heap m mem m' mem' Hdis H).
    + intros HD. unfold initHeap in H.
      destruct (JS_ASSERT P (IsValidAsmJSHeapLength P (byteLength heap)))
        eqn:H1; [|discriminate].
      destruct (JS_ASSERT P (dynamicallyLinked_ m)) eqn:H2; [|discriminate].
      destruct (JS_ASSERT P match maybeHeap_ m with
                            | Some _ => false | None => true end) eqn:H3;
        [|discriminate].
      apply (JS_ASSERT_debug P _ HD) in H1, H2, H3.
      repeat split; try assumption.
      destruct (maybeHeap_ m); [discriminate|reflexivity].
  - intros HD. apply initHeap_release. exact HD.
Qed.

(** The theorem for the example with a length check, in the build with
    assertions, and a heap of 4096 bytes at 1048576: the heap is bound, the
    heap datum holds 1048576, the length check holds 4096 and the
    displacement, which held 8, holds 1048584. *)
Lemma initHeap_binds_every_heap_witness :
  exists m' mem',
    initHeap (LittleEndian.x86 true) (mkArrayBuffer 4096 1048576)
      example_heap_module example_heap_memory = Some (m', mem') /\
    maybeHeap_ m' = Some (mkArrayBuffer 4096 1048576) /\
    f_get (rawPointer LittleEndian.x86_asm) mem'
      (heapDatum (LittleEndian.x86 true) example_heap_module) = 1048576 /\
    f_get (x86Pointer LittleEndian.x86_asm) mem' (65536 + 38) = 4096 /\
    f_get (x86Pointer LittleEndian.x86_asm) mem' (65536 + 50) = 1048584 /\
    LittleEndian.example_IsValidAsmJSHeapLength 4096 = true.
Proof.
  destruct (initHeap (LittleEndian.x86 true) (mkArrayBuffer 4096 1048576)
              example_heap_module example_heap_memory)
    as [[m' mem']|] eqn:H; [|vm_compute in H; discriminate].
  exists m', mem'. split; [reflexivity|].
  destruct (initHeap_binds_every_heap (LittleEndian.x86 true)
              (mkArrayBuffer 4096 1048576) example_heap_module
              example_heap_memory) as [Hreturns _].
  destruct (Hreturns m' mem' H) as (Hm & Hpatched & Hdebug).
  destruct (Hpatched (le_field_ok 0 4) (le_field_ok (-4) 4)
              (le_field_ok (-4) 4) (le_field_ok 0 4)
              (ForallOrdPairs_app_l _ _ _ example_heap_spans_disjoint))
    as [Hdatum Haccess].
  split; [rewrite Hm; reflexivity|].
  split; [exact (Hdatum eq_refl)|].
  destruct (Haccess (mkHeapAccess 44 6 6) (or_introl eq_refl))
    as [Hlength Hdisp].
  split; [exact (Hlength eq_refl eq_refl)|].
  split; [exact (Hdisp eq_refl)|].
  apply (Hdebug eq_refl).
Defined.

(** A heap of 100 bytes, which is no valid heap length and is less than
    the [minHeapLength] of the module, 4096: in the build without
    assertions [initHeap] returns, has bound the heap, and has patched the
    heap access of the code. *)
Lemma initHeap_accepts_invalid_length :
  let P := LittleEndian.x86 false in
  let heap := mkArrayBuffer 100 1048576 in
  let m := set_dynamicallyLinked_ (Examples.example_module 65536) true in
  let mem := Examples.example_memory 65536 in
  IsValidAsmJSHeapLength P (byteLength heap) = false /\
  byteLength heap < minHeapLength_ (pod m) /\
  dynamicallyLinked_ m = true /\
  maybeHeap_ m = None /\
  exists m' mem',
    initHeap P heap m mem = Some (m', mem') /\
    maybeHeap_ m' = Some heap /\
    mem (code_ m + 48) = 0 /\ mem' (code_ m + 48) = 16.
Proof.
  cbv zeta. split; [reflexivity|]. split; [reflexivity|].
  split; [reflexivity|]. split; [reflexivity|].
  destruct (initHeap (LittleEndian.x86 false) (mkArrayBuffer 100 1048576)
              (set_dynamicallyLinked_ (Examples.example_module 65536) true)
              (Examples.example_memory 65536)) as [[m' mem']|] eqn:H;
    [|vm_compute in H; discriminate].
  exists m', mem'. split; [reflexivity|].
  vm_compute in H. injection H as <- <-. vm_compute. auto.
Qed.
